(** * A merged-cell table: the grid store, its matrix projection,
      the selection normalizer and the structural edit commands.

    The development follows [table.component.ts] (class [TableComponent])
    and the table edit commander (class [TableEditCommander]).

    JavaScript objects that are shared and mutated (cells, rows of cells,
    fragments) live in heaps and are named by their index; numbers are
    integers ([Z]); an array index that the code only counts upwards from
    zero is a [nat]. *)

From Stdlib Require Import ZArith Lia Bool.
From stdpp Require Import base tactics option numbers list.

Set Default Proof Using "Type".

(** ** Results of running a piece of the program *)

(** [Val a]: a normal return; [Exn]: a JavaScript exception (here always a
    [TypeError] for a property read on [undefined]); [OutOfFuel]: the loop
    bound of the model was reached. *)
Inductive outcome (A : Type) : Type :=
| Val (a : A)
| Exn
| OutOfFuel.
Arguments Val {A} a.
Arguments Exn {A}.
Arguments OutOfFuel {A}.

#[global] Instance outcome_ret : MRet outcome := @Val.
#[global] Instance outcome_bind : MBind outcome := λ A B f m,
  match m with
  | Val a => f a
  | Exn => Exn
  | OutOfFuel => OutOfFuel
  end.

(** A property read on a value that may be [undefined]. *)
Definition defined {A} (o : option A) : outcome A :=
  match o with
  | Some a => Val a
  | None => Exn
  end.

(** ** JavaScript arrays *)

Module Js.

(** Relative index resolution shared by [slice] and [splice]: a negative
    index counts from the end, and the result is clamped to the array. *)
Definition clampIndex (len : nat) (i : Z) : nat :=
  if (i <? 0)%Z then Z.to_nat (Z.max (Z.of_nat len + i) 0)
  else Nat.min (Z.to_nat i) len.

(** [a[i]] for an integer [i] *)
Definition at_ {A} (l : list A) (i : Z) : option A :=
  if (i <? 0)%Z then None else l !! Z.to_nat i.

(** [a.slice(start, end)] *)
Definition slice {A} (l : list A) (start end_ : Z) : list A :=
  let s := clampIndex (length l) start in
  let e := clampIndex (length l) end_ in
  take (e - s) (drop s l).

(** [a.splice(start, deleteCount, ...items)], the array after the call *)
Definition splice {A} (l : list A) (start : Z) (deleteCount : nat)
    (items : list A) : list A :=
  let s := clampIndex (length l) start in
  take s l ++ items ++ drop (s + deleteCount) l.

Fixpoint indexOfFrom (l : list nat) (x : nat) (i : Z) : Z :=
  match l with
  | [] => (-1)%Z
  | y :: l' => if decide (y = x) then i else indexOfFrom l' x (i + 1)%Z
  end.

(** [a.indexOf(x)] on an array of references *)
Definition indexOf (l : list nat) (x : nat) : Z := indexOfFrom l x 0.

(** [a.includes(x)] *)
Definition includes (l : list nat) (x : nat) : bool := bool_decide (x ∈ l).

(** [Array.from(new Set(a))]: first occurrences, in order *)
Fixpoint uniqFrom (seen : list nat) (l : list nat) : list nat :=
  match l with
  | [] => []
  | x :: l' =>
      if bool_decide (x ∈ seen) then uniqFrom seen l'
      else x :: uniqFrom (x :: seen) l'
  end.
Definition uniq (l : list nat) : list nat := uniqFrom [] l.

(** [Math.max(...l)]; [None] stands for [-Infinity], the value for no
    argument. *)
Definition maxOf (l : list Z) : option Z :=
  match l with
  | [] => None
  | x :: l' => Some (foldl Z.max x l')
  end.

(** [ToNumber] of a number that may be [null] *)
Definition toNumber (i : option Z) : Z := default 0%Z i.

(** [a[i]] for an [i] that may be [null] (the property ["null"]) *)
Definition atNum {A} (l : list A) (i : option Z) : option A :=
  match i with
  | Some z => at_ l z
  | None => None
  end.

End Js.

(** ** Data model ([table.component.ts]) *)

Abbreviation CellId := nat (only parsing).
Abbreviation RowId := nat (only parsing).
Abbreviation FragmentId := nat (only parsing).

(** What a fragment holds. Only [BrComponent] is created here; everything
    else is the editor's content. *)
Inductive Content : Type :=
| BrComponent
| Other (n : nat).

Record TableCell : Type := mkCell {
  colspan : Z;
  rowspan : Z;
  fragment : FragmentId
}.

Record TableCellPosition : Type := mkPos {
  beforeCell : option CellId;
  afterCell : option CellId;
  row : RowId;
  cell : CellId;
  rowIndex : option Z;
  columnIndex : option Z;
  offsetColumn : Z;
  offsetRow : Z
}.

Record TableRowPosition : Type := mkRow {
  cells : RowId;
  beforeRow : option RowId;
  afterRow : option RowId;
  cellsPosition : list TableCellPosition
}.

Record TableCellRect : Type := mkRect {
  minRow : Z;
  maxRow : Z;
  minColumn : Z;
  maxColumn : Z
}.

Record TableRange : Type := mkRange {
  startCellPosition : TableCellPosition;
  endCellPosition : TableCellPosition;
  selectedCells : list FragmentId
}.

#[global] Instance TableCell_eq_dec : EqDecision TableCell.
Proof. solve_decision. Defined.
#[global] Instance TableCellPosition_eq_dec : EqDecision TableCellPosition.
Proof. solve_decision. Defined.

Definition setRowIndex (p : TableCellPosition) (i : option Z) :=
  mkPos (beforeCell p) (afterCell p) (row p) (cell p) i (columnIndex p)
        (offsetColumn p) (offsetRow p).
Definition setColumnIndex (p : TableCellPosition) (i : option Z) :=
  mkPos (beforeCell p) (afterCell p) (row p) (cell p) (rowIndex p) i
        (offsetColumn p) (offsetRow p).
Definition setCellsPosition (r : TableRowPosition) (ps : list TableCellPosition) :=
  mkRow (cells r) (beforeRow r) (afterRow r) ps.

(** ** The matrix projector: [TableComponent.serialize] *)

Module Serialize.

(** The loop state: the [rows] under construction, the [marks], and the
    heap of row arrays, in which the empty [cells] array of a synthesized
    row is allocated. *)
Record state : Type := mkState {
  rows : list TableRowPosition;
  marks : list (nat * nat);
  rowHeap : list (list CellId)
}.

(** The positions seeded from one row of [bodies]. *)
Definition seedCells (rid : RowId) (cs : list CellId) : list TableCellPosition :=
  imap (λ index c,
    {| row := rid;
       beforeCell := match index with 0 => None | S i => cs !! i end;
       afterCell := cs !! S index;
       offsetColumn := 0;
       offsetRow := 0;
       columnIndex := None;
       rowIndex := None;
       cell := c |}) cs.

Definition seedRow (rh : list (list CellId)) (bodies : list RowId)
    (i : nat) (rid : RowId) : outcome TableRowPosition :=
  cs ← defined (rh !! rid);
  mret {| beforeRow := match i with 0 => None | S j => bodies !! j end;
          afterRow := bodies !! S i;
          cellsPosition := seedCells rid cs;
          cells := rid |}.

Fixpoint seedRows (rh : list (list CellId)) (bodies : list RowId)
    (i : nat) (todo : list RowId) : outcome (list TableRowPosition) :=
  match todo with
  | [] => mret []
  | rid :: todo' =>
      r ← seedRow rh bodies i rid;
      rs ← seedRows rh bodies (S i) todo';
      mret (r :: rs)
  end.

(** The position spliced in at [columnIndex + 1] of the same row. *)
Definition rightOf (cp : TableCellPosition) (rowCells : RowId)
    (rowIndex columnIndex : nat) : TableCellPosition :=
  {| beforeCell := beforeCell cp;
     afterCell := afterCell cp;
     cell := cell cp;
     row := rowCells;
     rowIndex := Some (Z.of_nat rowIndex);
     columnIndex := Some (Z.of_nat columnIndex);
     offsetColumn := offsetColumn cp + 1;
     offsetRow := offsetRow cp |}.

(** The position spliced in at [columnIndex] of the next row. *)
Definition below (cp : TableCellPosition) (nextRow : TableRowPosition)
    (rowIndex columnIndex : nat) : TableCellPosition :=
  let newRowBeforeColumn :=
    match columnIndex with
    | 0 => None
    | S c => cellsPosition nextRow !! c
    end in
  let newRowAfterColumn := cellsPosition nextRow !! columnIndex in
  {| beforeCell := cell <$> newRowBeforeColumn;
     afterCell := cell <$> newRowAfterColumn;
     row := cells nextRow;
     cell := cell cp;
     offsetColumn := offsetColumn cp;
     offsetRow := offsetRow cp + 1;
     rowIndex := Some (Z.of_nat rowIndex);
     columnIndex := Some (Z.of_nat columnIndex) |}.

Definition spliceRow (rs : list TableRowPosition) (r : nat) (at_ : nat)
    (p : TableCellPosition) : list TableRowPosition :=
  alter (λ row, setCellsPosition row
           (Js.splice (cellsPosition row) (Z.of_nat at_) 0 [p])) r rs.

(** The first [if] of the loop body: the column span. *)
Definition spanRight (c : TableCell) (rowIndex columnIndex : nat)
    (row : TableRowPosition) (cp : TableCellPosition) (st : state) : state :=
  if (offsetColumn cp + 1 <? colspan c)%Z then
    let mark := (rowIndex, columnIndex + 1) in
    if bool_decide (mark ∈ marks st) then st
    else
      {| rows := spliceRow (rows st) rowIndex (columnIndex + 1)
                   (rightOf cp (cells row) rowIndex columnIndex);
         marks := marks st ++ [mark];
         rowHeap := rowHeap st |}
  else st.

(** The second [if] of the loop body: the row span. *)
Definition spanDown (c : TableCell) (rowIndex columnIndex : nat)
    (row : TableRowPosition) (cp : TableCellPosition) (st : state) : state :=
  if (offsetRow cp + 1 <? rowspan c)%Z then
    let mark := (rowIndex + 1, columnIndex) in
    if bool_decide (mark ∈ marks st) then st
    else
      let '(rs, rh, nextRow) :=
        match rows st !! (rowIndex + 1) with
        | Some nextRow => (rows st, rowHeap st, nextRow)
        | None =>
            let nextRow := {| cells := length (rowHeap st);
                              beforeRow := beforeRow row;
                              afterRow := afterRow row;
                              cellsPosition := [] |} in
            (rows st ++ [nextRow], rowHeap st ++ [[]], nextRow)
        end in
      {| rows := spliceRow rs (rowIndex + 1) columnIndex
                   (below cp nextRow rowIndex columnIndex);
         marks := marks st ++ [mark];
         rowHeap := rh |}
  else st.

(** The body of the inner loop for a row whose [cellsPosition] has an
    entry at [columnIndex]. *)
Definition visit (ch : list TableCell) (rowIndex columnIndex : nat)
    (row : TableRowPosition) (cp : TableCellPosition) (st : state)
    : outcome state :=
  let cp := setColumnIndex (setRowIndex cp (Some (Z.of_nat rowIndex)))
              (Some (Z.of_nat columnIndex)) in
  let row := setCellsPosition row (<[columnIndex := cp]> (cellsPosition row)) in
  let st := {| rows := <[rowIndex := row]> (rows st);
               marks := marks st;
               rowHeap := rowHeap st |} in
  c ← defined (ch !! cell cp);
  let st := spanRight c rowIndex columnIndex row cp st in
  mret (spanDown c rowIndex columnIndex row cp st).

(** [while (rowIndex < rows.length) { ...; rowIndex++ }] *)
Fixpoint sweepRows (fuel : nat) (ch : list TableCell)
    (columnIndex rowIndex : nat) (stop : bool) (st : state)
    : outcome (bool * state) :=
  match fuel with
  | 0 => OutOfFuel
  | S fuel' =>
      match rows st !! rowIndex with
      | None => mret (stop, st)
      | Some row =>
          match cellsPosition row !! columnIndex with
          | Some cp =>
              st' ← visit ch rowIndex columnIndex row cp st;
              sweepRows fuel' ch columnIndex (S rowIndex) true st'
          | None => sweepRows fuel' ch columnIndex (S rowIndex) stop st
          end
      end
  end.

(** [do { ...; columnIndex++ } while (stop)] *)
Fixpoint sweepColumns (fuel rowFuel : nat) (ch : list TableCell)
    (columnIndex : nat) (st : state) : outcome state :=
  match fuel with
  | 0 => OutOfFuel
  | S fuel' =>
      '(stop, st') ← sweepRows rowFuel ch columnIndex 0 false st;
      if stop : bool then sweepColumns fuel' rowFuel ch (S columnIndex) st'
      else mret st'
  end.

(** The bound on both loops: every sweep that goes on places a new unit
    of some cell's span. *)
Definition spanOf (ch : list TableCell) (k : CellId) : nat :=
  match ch !! k with
  | Some c => Z.to_nat (colspan c) + Z.to_nat (rowspan c)
  | None => 0
  end.
Definition budget (ch : list TableCell) (rh : list (list CellId))
    (bodies : list RowId) : nat :=
  S (length bodies +
     sum_list_with (λ rid, sum_list_with (spanOf ch) (default [] (rh !! rid)))
                   bodies).

Definition serialize (ch : list TableCell) (rh : list (list CellId))
    (bodies : list RowId) : outcome (list TableRowPosition * list (list CellId)) :=
  rs ← seedRows rh bodies 0 bodies;
  let n := budget ch rh bodies in
  st ← sweepColumns n n ch 0 {| rows := rs; marks := []; rowHeap := rh |};
  mret (rows st, rowHeap st).

End Serialize.

(** ** The world: object heaps, the table component, the commander *)

(** [startPosition] and [endPosition] of the edit range are references to
    position objects, and they may be one and the same object (a selection
    of one grid position): an update through one is then seen through the
    other. *)
Inductive TableEditRange : Type :=
| SamePosition (p : TableCellPosition)
| TwoPositions (s e : TableCellPosition).

Definition startPosition (r : TableEditRange) : TableCellPosition :=
  match r with
  | SamePosition p => p
  | TwoPositions s _ => s
  end.
Definition endPosition (r : TableEditRange) : TableCellPosition :=
  match r with
  | SamePosition p => p
  | TwoPositions _ e => e
  end.
Definition updStart (f : TableCellPosition → TableCellPosition)
    (r : TableEditRange) : TableEditRange :=
  match r with
  | SamePosition p => SamePosition (f p)
  | TwoPositions s e => TwoPositions (f s) e
  end.
Definition updEnd (f : TableCellPosition → TableCellPosition)
    (r : TableEditRange) : TableEditRange :=
  match r with
  | SamePosition p => SamePosition (f p)
  | TwoPositions s e => TwoPositions s (f e)
  end.

Record World : Type := mkWorld {
  cellHeap : list TableCell;             (* the [TableCell] objects *)
  rowHeap : list (list CellId);          (* the [TableCell[]] arrays *)
  fragmentHeap : list (list Content);    (* the [Fragment] objects *)
  bodies : list RowId;                   (* [context.config.bodies] *)
  _cellMatrix : list TableRowPosition;   (* [context._cellMatrix] *)
  dirtied : bool;                        (* set by [context.markAsDirtied()] *)
  recordHistory : bool;                  (* [this.recordHistory] *)
  params : option TableEditRange         (* [this.params] *)
}.

Definition setCellHeap (v : list TableCell) (w : World) : World :=
  mkWorld v (rowHeap w) (fragmentHeap w) (bodies w) (_cellMatrix w)
          (dirtied w) (recordHistory w) (params w).
Definition setRowHeap (v : list (list CellId)) (w : World) : World :=
  mkWorld (cellHeap w) v (fragmentHeap w) (bodies w) (_cellMatrix w)
          (dirtied w) (recordHistory w) (params w).
Definition setFragmentHeap (v : list (list Content)) (w : World) : World :=
  mkWorld (cellHeap w) (rowHeap w) v (bodies w) (_cellMatrix w)
          (dirtied w) (recordHistory w) (params w).
Definition setBodies (v : list RowId) (w : World) : World :=
  mkWorld (cellHeap w) (rowHeap w) (fragmentHeap w) v (_cellMatrix w)
          (dirtied w) (recordHistory w) (params w).
Definition setCellMatrix (v : list TableRowPosition) (w : World) : World :=
  mkWorld (cellHeap w) (rowHeap w) (fragmentHeap w) (bodies w) v
          (dirtied w) (recordHistory w) (params w).
Definition setDirtied (v : bool) (w : World) : World :=
  mkWorld (cellHeap w) (rowHeap w) (fragmentHeap w) (bodies w) (_cellMatrix w)
          v (recordHistory w) (params w).
Definition setRecordHistory (v : bool) (w : World) : World :=
  mkWorld (cellHeap w) (rowHeap w) (fragmentHeap w) (bodies w) (_cellMatrix w)
          (dirtied w) v (params w).
Definition setParams (v : option TableEditRange) (w : World) : World :=
  mkWorld (cellHeap w) (rowHeap w) (fragmentHeap w) (bodies w) (_cellMatrix w)
          (dirtied w) (recordHistory w) v.

(** Programs over the world. An exception leaves the world as it was when
    it was thrown. *)
Definition M (A : Type) : Type := World → World * outcome A.

#[global] Instance M_ret : MRet M := λ A a w, (w, Val a).
#[global] Instance M_bind : MBind M := λ A B f m w,
  match m w with
  | (w', Val a) => f a w'
  | (w', Exn) => (w', Exn)
  | (w', OutOfFuel) => (w', OutOfFuel)
  end.

Definition getW : M World := λ w, (w, Val w).
Definition modify (f : World → World) : M unit := λ w, (f w, Val tt).
Definition lift {A} (o : outcome A) : M A := λ w, (w, o).

(** [l.forEach(f)] *)
Fixpoint forEach {A} (l : list A) (f : A → M unit) : M unit :=
  match l with
  | [] => mret tt
  | x :: l' => f x;; forEach l' f
  end.

Definition getCell (k : CellId) : M TableCell :=
  w ← getW; lift (defined (cellHeap w !! k)).
Definition getRow (rid : RowId) : M (list CellId) :=
  w ← getW; lift (defined (rowHeap w !! rid)).
Definition setRow (rid : RowId) (r : list CellId) : M unit :=
  modify (λ w, setRowHeap (<[rid := r]> (rowHeap w)) w).
Definition modifyCell (k : CellId) (f : TableCell → TableCell) : M unit :=
  modify (λ w, setCellHeap (alter f k (cellHeap w)) w).
Definition getBodies : M (list RowId) := w ← getW; mret (bodies w).
Definition getParams : M TableEditRange :=
  w ← getW; lift (defined (params w)).
Definition modifyParams (f : TableEditRange → TableEditRange) : M unit :=
  modify (λ w, setParams (f <$> params w) w).

Definition setColspan (v : Z) (c : TableCell) := mkCell v (rowspan c) (fragment c).
Definition setRowspan (v : Z) (c : TableCell) := mkCell (colspan c) v (fragment c).

(** ** [TableComponent]: the matrix getter and the selection normalizer *)

Module TableComponent.

Definition serialize : M (list TableRowPosition) := λ w,
  match Serialize.serialize (cellHeap w) (rowHeap w) (bodies w) with
  | Val (rs, rh) => (setRowHeap rh w, Val rs)
  | Exn => (w, Exn)
  | OutOfFuel => (w, OutOfFuel)
  end.

(** [get cellMatrix()] *)
Definition cellMatrix : M (list TableRowPosition) :=
  n ← serialize;
  modify (setCellMatrix n);;
  mret n.

(** The two labelled loops of [findCellPosition] walk the matrix in
    row-major order, forwards ([forA]) and backwards ([forB]), up to the
    first position whose cell holds the fragment. *)
Fixpoint scanCells (ch : list TableCell) (f : FragmentId)
    (cells : list (nat * TableCellPosition)) : outcome (option nat) :=
  match cells with
  | [] => mret None
  | (colIndex, p) :: cells' =>
      c ← defined (ch !! cell p);
      if decide (fragment c = f) then mret (Some colIndex)
      else scanCells ch f cells'
  end.

Fixpoint scanRows (ch : list TableCell) (f : FragmentId) (backwards : bool)
    (rs : list (nat * TableRowPosition)) : outcome (option (nat * nat)) :=
  match rs with
  | [] => mret None
  | (rowIndex, r) :: rs' =>
      let cells := imap pair (cellsPosition r) in
      found ← scanCells ch f (if backwards then reverse cells else cells);
      match found with
      | Some colIndex => mret (Some (rowIndex, colIndex))
      | None => scanRows ch f backwards rs'
      end
  end.

(** [findCellPosition(cell)]. When the fragment is in no cell the four
    fields stay [undefined], [selectCells] computes [NaN] from them and
    [selectCellsByRange] throws on [cellMatrix[NaN].cellsPosition]: the
    model throws here. *)
Definition findCellPosition (ch : list TableCell)
    (cellMatrix : list TableRowPosition) (f : FragmentId)
    : outcome TableCellRect :=
  let rs := imap pair cellMatrix in
  a ← scanRows ch f false rs;
  b ← scanRows ch f true (reverse rs);
  match a, b with
  | Some (r1, c1), Some (r2, c2) =>
      mret {| minRow := Z.of_nat r1; minColumn := Z.of_nat c1;
              maxRow := Z.of_nat r2; maxColumn := Z.of_nat c2 |}
  | _, _ => Exn
  end.

(** The four overflow amounts of [selectCellsByRange]. [Math.max] of no
    argument is [-Infinity]; from there the code recurses on infinite
    indices and throws on a property read of [undefined] within three
    calls, so the model throws at once. *)
Definition overflowLeft (cellMatrix : list TableRowPosition)
    (minRow minColumn maxRow : Z) : outcome Z :=
  l ← mapM (λ r, p ← defined (Js.at_ (cellsPosition r) minColumn);
                 mret (offsetColumn p))
           (Js.slice cellMatrix minRow (maxRow + 1));
  m ← defined (Js.maxOf l);
  mret (- m)%Z.

Definition overflowRight (ch : list TableCell)
    (cellMatrix : list TableRowPosition) (minRow maxRow maxColumn : Z)
    : outcome Z :=
  l ← mapM (λ r, p ← defined (Js.at_ (cellsPosition r) maxColumn);
                 c ← defined (ch !! cell p);
                 mret (colspan c - (offsetColumn p + 1))%Z)
           (Js.slice cellMatrix minRow (maxRow + 1));
  defined (Js.maxOf l).

Definition overflowTop (cellMatrix : list TableRowPosition)
    (minRow minColumn maxColumn : Z) : outcome Z :=
  r ← defined (Js.at_ cellMatrix minRow);
  m ← defined (Js.maxOf (offsetRow <$>
         Js.slice (cellsPosition r) minColumn (maxColumn + 1)));
  mret (- m)%Z.

Definition overflowBottom (ch : list TableCell)
    (cellMatrix : list TableRowPosition) (maxRow minColumn maxColumn : Z)
    : outcome Z :=
  r ← defined (Js.at_ cellMatrix maxRow);
  l ← mapM (λ p, c ← defined (ch !! cell p);
                 mret (rowspan c - (offsetRow p + 1))%Z)
           (Js.slice (cellsPosition r) minColumn (maxColumn + 1));
  defined (Js.maxOf l).

(** The tail of [selectCellsByRange], once the four amounts are zero. *)
Definition rangeOf (ch : list TableCell) (cellMatrix : list TableRowPosition)
    (minRow minColumn maxRow maxColumn : Z) : outcome TableRange :=
  r1 ← defined (Js.at_ cellMatrix minRow);
  startCellPosition ← defined (Js.at_ (cellsPosition r1) minColumn);
  r2 ← defined (Js.at_ cellMatrix maxRow);
  endCellPosition ← defined (Js.at_ (cellsPosition r2) maxColumn);
  let rs := Js.slice cellMatrix (Js.toNumber (rowIndex startCellPosition))
              (Js.toNumber (rowIndex endCellPosition) + 1) in
  let parts := (λ r, Js.slice (cellsPosition r)
                      (Js.toNumber (columnIndex startCellPosition))
                      (Js.toNumber (columnIndex endCellPosition) + 1)) <$> rs in
  (* [reduce] without an initial value throws on an empty array *)
  match parts with
  | [] => Exn
  | _ =>
      fs ← mapM (λ p, c ← defined (ch !! cell p); mret (fragment c))
                (concat parts);
      mret {| selectedCells := Js.uniq fs;
              startCellPosition := startCellPosition;
              endCellPosition := endCellPosition |}
  end.

Fixpoint selectCellsByRange (fuel : nat) (ch : list TableCell)
    (cellMatrix : list TableRowPosition)
    (minRow minColumn maxRow maxColumn : Z) : outcome TableRange :=
  match fuel with
  | 0 => OutOfFuel
  | S fuel' =>
      x1 ← overflowLeft cellMatrix minRow minColumn maxRow;
      x2 ← overflowRight ch cellMatrix minRow maxRow maxColumn;
      y1 ← overflowTop cellMatrix minRow minColumn maxColumn;
      y2 ← overflowBottom ch cellMatrix maxRow minColumn maxColumn;
      if bool_decide (x1 ≠ 0 ∨ y1 ≠ 0 ∨ x2 ≠ 0 ∨ y2 ≠ 0)%Z then
        selectCellsByRange fuel' ch cellMatrix
          (minRow + y1) (minColumn + x1) (maxRow + y2) (maxColumn + x2)
      else rangeOf ch cellMatrix minRow minColumn maxRow maxColumn
  end.

(** The bound on the recursion: a call that recurses on a matrix that
    covers its spans makes the rectangle larger. *)
Definition rangeBudget (cellMatrix : list TableRowPosition) : nat :=
  S (length cellMatrix +
     sum_list_with (λ r, length (cellsPosition r)) cellMatrix).

(** [selectCells(startCell, endCell)] *)
Definition selectCells (startCell endCell : FragmentId) : M TableRange :=
  n ← serialize;
  modify (setCellMatrix n);;
  w ← getW;
  p1 ← lift (findCellPosition (cellHeap w) (_cellMatrix w) startCell);
  p2 ← lift (findCellPosition (cellHeap w) (_cellMatrix w) endCell);
  let minRow := Z.min (minRow p1) (minRow p2) in
  let minColumn := Z.min (minColumn p1) (minColumn p2) in
  let maxRow := Z.max (maxRow p1) (maxRow p2) in
  let maxColumn := Z.max (maxColumn p1) (maxColumn p2) in
  lift (selectCellsByRange (rangeBudget (_cellMatrix w)) (cellHeap w)
          (_cellMatrix w) minRow minColumn maxRow maxColumn).

End TableComponent.

(** ** [TableEditCommander] *)

Inductive TableEditActions : Type :=
| AddColumnToLeft
| AddColumnToRight
| AddRowToTop
| AddRowToBottom
| MergeCells
| SplitCells
| DeleteTopRow
| DeleteBottomRow
| DeleteLeftColumn
| DeleteRightColumn.

Module TableEditCommander.

(** [setEditRange(value)] *)
Definition setEditRange (value : TableEditRange) : M unit :=
  modify (setParams (Some value)).

(** [createCell(rowspan = 1, colspan = 1)]: a fresh fragment holding one
    [BrComponent], in a fresh cell. *)
Definition createCell (rowspan colspan : Z) : M CellId := λ w,
  let fragment := length (fragmentHeap w) in
  let k := length (cellHeap w) in
  (setCellHeap (cellHeap w ++ [mkCell colspan rowspan fragment])
     (setFragmentHeap (fragmentHeap w ++ [[BrComponent]]) w),
   Val k).

(** [[]], a fresh array of cells *)
Definition newRow : M RowId := λ w,
  (setRowHeap (rowHeap w ++ [[]]) w, Val (length (rowHeap w))).

(** [x++] and [x--] on an index field *)
Definition incr (i : option Z) : option Z := Some (Js.toNumber i + 1)%Z.
Definition decr (i : option Z) : option Z := Some (Js.toNumber i - 1)%Z.
Definition columnIndex_incr p := setColumnIndex p (incr (columnIndex p)).
Definition columnIndex_decr p := setColumnIndex p (decr (columnIndex p)).
Definition rowIndex_incr p := setRowIndex p (incr (rowIndex p)).
Definition rowIndex_decr p := setRowIndex p (decr (rowIndex p)).

(** The closing [if]/[else] of the operations that move the selection:
    [startPosition] is updated, and [endPosition] as well unless both
    name the same cell. *)
Definition shiftRange (f : TableCellPosition → TableCellPosition) : M unit :=
  p ← getParams;
  if decide (cell (startPosition p) = cell (endPosition p)) then
    modifyParams (updStart f)
  else
    modifyParams (updStart f);;
    modifyParams (updEnd f).

Definition addColumnToLeft : M unit :=
  cellMatrix ← TableComponent.cellMatrix;
  p ← getParams;
  let index := columnIndex (startPosition p) in
  forEach cellMatrix (λ row_,
    cell_ ← lift (defined (Js.atNum (cellsPosition row_) index));
    if decide (index = Some 0%Z) then
      r ← getRow (row cell_);
      n ← createCell 1 1;
      setRow (row cell_) (n :: r)
    else if decide (offsetColumn cell_ = 0%Z) then
      r ← getRow (row cell_);
      n ← createCell 1 1;
      setRow (row cell_) (Js.splice r (Js.indexOf r (cell cell_)) 0 [n])
    else if decide (offsetRow cell_ = 0%Z) then
      modifyCell (cell cell_) (λ c, setColspan (colspan c + 1) c)
    else mret tt);;
  shiftRange columnIndex_incr.

Definition addColumnToRight : M unit :=
  cellMatrix ← TableComponent.cellMatrix;
  p ← getParams;
  let index := columnIndex (endPosition p) in
  forEach cellMatrix (λ row_,
    cell_ ← lift (defined (Js.atNum (cellsPosition row_) index));
    c ← getCell (cell cell_);
    if bool_decide (offsetColumn cell_ + 1 < colspan c)%Z then
      if decide (offsetRow cell_ = 0%Z) then
        modifyCell (cell cell_) (λ c, setColspan (colspan c + 1) c)
      else mret tt
    else
      r ← getRow (row cell_);
      n ← createCell 1 1;
      setRow (row cell_) (Js.splice r (Js.indexOf r (cell cell_) + 1) 0 [n])).

(** [context.config.bodies.splice(start, deleteCount, ...items)] *)
Definition spliceBodies (start : Z) (deleteCount : nat) (items : list RowId)
    : M unit :=
  modify (λ w, setBodies (Js.splice (bodies w) start deleteCount items) w).

(** [tr.push(TableEditCommander.createCell())] *)
Definition pushNewCell (tr : RowId) (rowspan colspan : Z) : M unit :=
  n ← createCell rowspan colspan;
  r ← getRow tr;
  setRow tr (r ++ [n]).

Definition addRowToTop : M unit :=
  cellMatrix ← TableComponent.cellMatrix;
  p ← getParams;
  let index := rowIndex (startPosition p) in
  let row_ := Js.atNum cellMatrix index in
  tr ← newRow;
  (if decide (index = Some 0%Z) then
     r0 ← lift (defined (Js.at_ cellMatrix 0));
     cs ← getRow (cells r0);
     forEach cs (λ _, pushNewCell tr 1 1)
   else
     r ← lift (defined row_);
     forEach (cellsPosition r) (λ cell_,
       if bool_decide (offsetRow cell_ > 0)%Z then
         if decide (offsetColumn cell_ = 0%Z) then
           modifyCell (cell cell_) (λ c, setRowspan (rowspan c + 1) c)
         else mret tt
       else pushNewCell tr 1 1));;
  r ← lift (defined row_);
  bs ← getBodies;
  spliceBodies (Js.indexOf bs (cells r)) 0 [tr];;
  shiftRange rowIndex_incr.

Definition addRowToBottom : M unit :=
  cellMatrix ← TableComponent.cellMatrix;
  p ← getParams;
  let index := rowIndex (endPosition p) in
  let row_ := Js.atNum cellMatrix index in
  tr ← newRow;
  r ← lift (defined row_);
  forEach (cellsPosition r) (λ cell_,
    c ← getCell (cell cell_);
    if bool_decide (offsetRow cell_ < rowspan c - 1)%Z then
      if decide (offsetColumn cell_ = 0%Z) then
        modifyCell (cell cell_) (λ c, setRowspan (rowspan c + 1) c)
      else mret tt
    else pushNewCell tr 1 1);;
  bs ← getBodies;
  spliceBodies (Js.indexOf bs (cells r) + 1) 0 [tr].

Definition isAnchor (c : TableCellPosition) : bool :=
  bool_decide (offsetRow c = 0%Z) && bool_decide (offsetColumn c = 0%Z).

(** The positions of the matrix rows [minRow..maxRow], columns
    [minColumn..maxColumn], row by row. *)
Definition rectangle (cellMatrix : list TableRowPosition)
    (minRow minColumn maxRow maxColumn : Z) : list (list TableCellPosition) :=
  (λ r, Js.slice (cellsPosition r) minColumn (maxColumn + 1))
    <$> Js.slice cellMatrix minRow (maxRow + 1).

(** One step of the [forEach] of [mergeCells]: a cell that is not the
    first selected one leaves its row, and an emptied row leaves
    [bodies]. *)
Definition removeCell (cell_ : TableCellPosition) : M unit :=
  r ← getRow (row cell_);
  let index := Js.indexOf r (cell cell_) in
  if bool_decide (index > -1)%Z then
    let r' := Js.splice r index 1 [] in
    setRow (row cell_) r';;
    if decide (length r' = 0) then
      bs ← getBodies;
      spliceBodies (Js.indexOf bs (row cell_)) 1 []
    else mret tt
  else mret tt.

(** [Object.assign(this.params.startPosition, startCellPosition)] and the
    same for the end position: every field is copied into the object
    that the range refers to. *)
Definition assignRange (range : TableRange) : M unit :=
  modifyParams (updStart (λ _, startCellPosition range));;
  modifyParams (updEnd (λ _, endCellPosition range)).

(** [mergeCells]. The calls on [selection] between the [forEach] and
    [selectCells] move the editor's text selection into the fragment of
    the surviving cell; they belong to the editor core and touch neither
    the table nor the commander. *)
Definition mergeCells : M unit :=
  cellMatrix ← TableComponent.cellMatrix;
  p ← getParams;
  let minRow := Js.toNumber (rowIndex (startPosition p)) in
  let minColumn := Js.toNumber (columnIndex (startPosition p)) in
  let maxRow := Js.toNumber (rowIndex (endPosition p)) in
  let maxColumn := Js.toNumber (columnIndex (endPosition p)) in
  match filter (λ c, isAnchor c = true)
          <$> rectangle cellMatrix minRow minColumn maxRow maxColumn with
  | [] => lift Exn   (* [reduce] of an empty array without initial value *)
  | parts =>
      match concat parts with
      | [] => lift Exn   (* [newNode] is [undefined] *)
      | newNode :: selectedCells =>
          modifyCell (cell newNode) (setRowspan (maxRow - minRow + 1));;
          modifyCell (cell newNode) (setColspan (maxColumn - minColumn + 1));;
          forEach selectedCells removeCell;;
          c ← getCell (cell newNode);
          range ← TableComponent.selectCells (fragment c) (fragment c);
          assignRange range
      end
  end.

(** One step of the [forEach] of [splitCells]. The range that is added
    to [selection] for the new cell belongs to the editor core. *)
Definition splitCell (cell_ : TableCellPosition) : M unit :=
  if bool_decide (offsetRow cell_ ≠ 0%Z ∨ offsetColumn cell_ ≠ 0%Z) then
    modifyCell (cell cell_) (setColspan 1);;
    modifyCell (cell cell_) (setRowspan 1);;
    newCellFragment ← createCell 1 1;
    bs ← getBodies;
    (if Js.includes bs (row cell_) then mret tt
     else spliceBodies (Js.toNumber (rowIndex cell_)) 0 [row cell_]);;
    r ← getRow (row cell_);
    match afterCell cell_ with
    | Some _ =>
        let index := Js.indexOf r (cell cell_) in
        setRow (row cell_) (Js.splice r (index + 1) 0 [newCellFragment])
    | None => setRow (row cell_) (r ++ [newCellFragment])
    end
  else mret tt.

Definition splitCells : M unit :=
  cellMatrix ← TableComponent.cellMatrix;
  p ← getParams;
  let minRow := Js.toNumber (rowIndex (startPosition p)) in
  let minColumn := Js.toNumber (columnIndex (startPosition p)) in
  let maxRow := Js.toNumber (rowIndex (endPosition p)) in
  let maxColumn := Js.toNumber (columnIndex (endPosition p)) in
  forEach (concat (rectangle cellMatrix minRow minColumn maxRow maxColumn))
          splitCell.

(** The replacement cell of [deleteTopRow] and [deleteBottomRow]: it goes
    into the row of [newPosition], before [newPosition.afterCell] when
    there is one and at the end otherwise. *)
Definition placeBelow (newCellFragment : CellId)
    (newPosition : TableCellPosition) : M unit :=
  r ← getRow (row newPosition);
  match afterCell newPosition with
  | Some after =>
      setRow (row newPosition)
        (Js.splice r (Js.indexOf r after) 0 [newCellFragment])
  | None => setRow (row newPosition) (r ++ [newCellFragment])
  end.

Definition deleteTopRow : M unit :=
  cellMatrix ← TableComponent.cellMatrix;
  p ← getParams;
  let index := rowIndex (startPosition p) in
  if decide (index = Some 0%Z) then mret tt
  else
    prevRow ← lift (defined (Js.at_ cellMatrix (Js.toNumber index - 1)));
    forEach (imap pair (cellsPosition prevRow)) (λ '(cellIndex, cell_),
      if decide (offsetColumn cell_ = 0%Z) then
        c ← getCell (cell cell_);
        if bool_decide (offsetRow cell_ = 0%Z) && bool_decide (rowspan c > 1)%Z then
          newCellFragment ← createCell (rowspan c - 1) (colspan c);
          r ← lift (defined (Js.atNum cellMatrix index));
          newPosition ← lift (defined (cellsPosition r !! cellIndex));
          placeBelow newCellFragment newPosition
        else modifyCell (cell cell_) (λ c, setRowspan (rowspan c - 1) c)
      else mret tt);;
    bs ← getBodies;
    spliceBodies (Js.indexOf bs (cells prevRow)) 1 [];;
    shiftRange rowIndex_decr.

Definition deleteBottomRow : M unit :=
  cellMatrix ← TableComponent.cellMatrix;
  p ← getParams;
  let index := rowIndex (endPosition p) in
  if decide (index = Some (Z.of_nat (length cellMatrix) - 1)%Z) then mret tt
  else
    nextRow ← lift (defined (Js.at_ cellMatrix (Js.toNumber index + 1)));
    forEach (imap pair (cellsPosition nextRow)) (λ '(cellIndex, cell_),
      if decide (offsetColumn cell_ = 0%Z) then
        if bool_decide (offsetRow cell_ > 0)%Z then
          modifyCell (cell cell_) (λ c, setRowspan (rowspan c - 1) c)
        else if decide (offsetRow cell_ = 0%Z) then
          c ← getCell (cell cell_);
          if bool_decide (rowspan c > 1)%Z then
            r ← lift (defined (Js.at_ cellMatrix (Js.toNumber index + 2)));
            let newPosition := cellsPosition r !! cellIndex in
            newCellFragment ← createCell (rowspan c - 1) (colspan c);
            newPosition ← lift (defined newPosition);
            placeBelow newCellFragment newPosition
          else mret tt
        else mret tt
      else mret tt);;
    bs ← getBodies;
    spliceBodies (Js.indexOf bs (cells nextRow)) 1 [].

(** The body shared by [deleteLeftColumn] and [deleteRightColumn] for the
    position [cell_] of the column that goes away. *)
Definition deleteFromColumn (cell_ : TableCellPosition) : M unit :=
  if decide (offsetRow cell_ = 0%Z) then
    if bool_decide (offsetColumn cell_ > 0)%Z then
      modifyCell (cell cell_) (λ c, setColspan (colspan c - 1) c)
    else
      r ← getRow (row cell_);
      let index := Js.indexOf r (cell cell_) in
      c ← getCell (cell cell_);
      if bool_decide (colspan c > 1)%Z then
        newCellFragment ← createCell (rowspan c) (colspan c - 1);
        r ← getRow (row cell_);
        setRow (row cell_)
          (Js.splice r (Js.indexOf r (cell cell_)) 1 [newCellFragment])
      else
        setRow (row cell_) (Js.splice r index 1 [])
  else mret tt.

Definition deleteLeftColumn : M unit :=
  cellMatrix ← TableComponent.cellMatrix;
  p ← getParams;
  let index := columnIndex (startPosition p) in
  if decide (index = Some 0%Z) then mret tt
  else
    forEach cellMatrix (λ row_,
      cell_ ← lift (defined (Js.at_ (cellsPosition row_) (Js.toNumber index - 1)));
      deleteFromColumn cell_);;
    shiftRange columnIndex_decr.

Definition deleteRightColumn : M unit :=
  cellMatrix ← TableComponent.cellMatrix;
  p ← getParams;
  let index := columnIndex (endPosition p) in
  r0 ← lift (defined (Js.at_ cellMatrix 0));
  if decide (index = Some (Z.of_nat (length (cellsPosition r0)) - 1)%Z)
  then mret tt
  else
    forEach cellMatrix (λ row_,
      cell_ ← lift (defined (Js.at_ (cellsPosition row_) (Js.toNumber index + 1)));
      deleteFromColumn cell_).

(** [command(c, actionType)]. [context] is the value of
    [selection.firstRange.startFragment.getContext(TableComponent)]: the
    lookup belongs to the editor core, and it yields the table component
    ([Some tt]) or [null] ([None]). *)
Definition command (context : option unit) (actionType : TableEditActions)
    : M unit :=
  modify (setRecordHistory true);;
  match context with
  | None => modify (setRecordHistory false)
  | Some _ =>
      match actionType with
      | AddColumnToLeft => addColumnToLeft
      | AddColumnToRight => addColumnToRight
      | AddRowToTop => addRowToTop
      | AddRowToBottom => addRowToBottom
      | MergeCells => mergeCells
      | SplitCells => splitCells
      | DeleteTopRow => deleteTopRow
      | DeleteBottomRow => deleteBottomRow
      | DeleteLeftColumn => deleteLeftColumn
      | DeleteRightColumn => deleteRightColumn
      end;;
      modify (setDirtied true)
  end.

End TableEditCommander.

(** * Specifications *)

(** ** Valid grids: the spans tile a rectangle *)

(** One unit square of the logical grid: the cell that occupies it, and the
    row and column offset of the square within the span of that cell. *)
Abbreviation slot := (CellId * Z * Z)%type.
Definition slotCell (e : slot) : CellId := e.1.1.
Definition slotRow (e : slot) : Z := e.1.2.
Definition slotColumn (e : slot) : Z := e.2.

(** What a matrix entry says about its square. *)
Definition core (p : TableCellPosition) : slot :=
  (cell p, offsetRow p, offsetColumn p).

(** The top-left square of a span. *)
Definition anchor (e : slot) : Prop := slotRow e = 0%Z ∧ slotColumn e = 0%Z.

#[global] Instance anchor_dec e : Decision (anchor e).
Proof. unfold anchor. apply _. Defined.

Section Layout.
Variable ch : list TableCell.
Variable rh : list (list CellId).
Variable bodies : list RowId.

Definition slotAt (T : list (list slot)) (r c : nat) : option slot :=
  match T !! r with
  | Some Tr => Tr !! c
  | None => None
  end.

(** The cells stored in row [r] of the grid; none below the stored rows. *)
Definition rowCells (r : nat) : list CellId :=
  match bodies !! r with
  | Some rid => default [] (rh !! rid)
  | None => []
  end.

Definition width (T : list (list slot)) : nat := length (default [] (head T)).

(** The square [(r, c)] holding [e] lies within the span of its cell, and
    the four neighbouring squares agree with that span: the span goes on
    to the right and below as long as the offsets stay under [colspan]
    and [rowspan], and it comes from the left and from above when an
    offset is positive. *)
Definition slot_ok (T : list (list slot)) (r c : nat) (e : slot) : Prop :=
  match ch !! slotCell e with
  | None => False
  | Some cl =>
      (0 ≤ slotRow e < rowspan cl)%Z ∧
      (0 ≤ slotColumn e < colspan cl)%Z ∧
      ((slotColumn e + 1 < colspan cl)%Z →
         slotAt T r (S c) = Some (slotCell e, slotRow e, (slotColumn e + 1)%Z)) ∧
      ((slotRow e + 1 < rowspan cl)%Z →
         slotAt T (S r) c = Some (slotCell e, (slotRow e + 1)%Z, slotColumn e)) ∧
      ((0 < slotColumn e)%Z →
         match c with
         | 0 => False
         | S c0 => slotAt T r c0 = Some (slotCell e, slotRow e, (slotColumn e - 1)%Z)
         end) ∧
      ((0 < slotRow e)%Z →
         match r with
         | 0 => False
         | S r0 => slotAt T r0 c = Some (slotCell e, (slotRow e - 1)%Z, slotColumn e)
         end)
  end.

#[global] Instance slot_ok_dec T r c e : Decision (slot_ok T r c e).
Proof.
  unfold slot_ok. destruct (ch !! slotCell e); [|apply _].
  destruct c, r; apply _.
Defined.

(** Row [r] of the layout: as wide as the others, its anchors are the
    cells of row [r] of the grid in their order, and every square is
    consistent. *)
Definition row_ok (T : list (list slot)) (x : nat * list slot) : Prop :=
  length x.2 = width T ∧
  slotCell <$> filter anchor x.2 = rowCells x.1 ∧
  Forall (λ y, slot_ok T x.1 y.1 y.2) (imap pair x.2).

#[global] Instance row_ok_dec T x : Decision (row_ok T x).
Proof. unfold row_ok. apply _. Defined.

(** [T] is a tiling of a rectangle by the spans of the cells of the
    grid: a rectangular array of squares of at least as many rows as the
    grid stores (rows below those hold no anchor and exist only under a
    span), in which every row is as above. *)
Definition layout (T : list (list slot)) : Prop :=
  length bodies ≤ length T ∧
  (length T = length bodies ∨ 0 < width T) ∧
  Forall (λ rid, is_Some (rh !! rid)) bodies ∧
  Forall (row_ok T) (imap pair T).

#[global] Instance layout_dec T : Decision (layout T).
Proof. unfold layout. apply _. Defined.

Definition layout_ok (T : list (list slot)) : bool := bool_decide (layout T).

End Layout.

(** The grid of a world is valid, with tiling [T]. *)
Definition valid_grid (w : World) (T : list (list slot)) : Prop :=
  layout_ok (cellHeap w) (rowHeap w) (bodies w) T = true.

(** The matrix [m] shows the tiling [T]: entry [(r, c)] records its own
    indices, names the row array of row [r] and shows square [(r, c)]. *)
Definition shows (m : list TableRowPosition) (T : list (list slot)) : Prop :=
  length m = length T ∧
  ∀ r row_ Tr, m !! r = Some row_ → T !! r = Some Tr →
    core <$> cellsPosition row_ = Tr ∧
    ∀ c p, cellsPosition row_ !! c = Some p →
      rowIndex p = Some (Z.of_nat r) ∧ columnIndex p = Some (Z.of_nat c) ∧
      row p = cells row_.

(** The entry of a matrix at row [r], column [c]. *)
Definition entry (m : list TableRowPosition) (r c : nat) : option TableCellPosition :=
  match m !! r with
  | Some row_ => cellsPosition row_ !! c
  | None => None
  end.

(** ** Rectangles of the logical grid *)

Record Rect : Type := mkRectN {
  top : nat;
  left : nat;
  bottom : nat;
  right : nat
}.

Definition inside (q : Rect) (r c : nat) : Prop :=
  top q ≤ r ∧ r ≤ bottom q ∧ left q ≤ c ∧ c ≤ right q.

Definition contains (outer inner : Rect) : Prop :=
  top outer ≤ top inner ∧ bottom inner ≤ bottom outer ∧
  left outer ≤ left inner ∧ right inner ≤ right outer.

(** The rectangle lies in a grid of [R] rows and [C] columns. *)
Definition inBounds (R C : nat) (q : Rect) : Prop :=
  top q ≤ bottom q ∧ bottom q < R ∧ left q ≤ right q ∧ right q < C.

(** The sum of height and width, less two. *)
Definition size (q : Rect) : nat := (bottom q - top q) + (right q - left q).

(** The rectangle that the cell [cl] of the square [e] at [(r, c)] spans. *)
Definition spanAt (r c : nat) (e : slot) (cl : TableCell) : Rect :=
  {| top := r - Z.to_nat (slotRow e);
     left := c - Z.to_nat (slotColumn e);
     bottom := r - Z.to_nat (slotRow e) + Z.to_nat (rowspan cl) - 1;
     right := c - Z.to_nat (slotColumn e) + Z.to_nat (colspan cl) - 1 |}.

(** [q'] holds the whole span of every cell that has a square in [q]. *)
Definition covers (ch : list TableCell) (T : list (list slot)) (q' q : Rect) : Prop :=
  ∀ r c e cl, slotAt T r c = Some e → ch !! slotCell e = Some cl →
    inside q r c → contains q' (spanAt r c e cl).

(** [q] clips no cell: it holds the whole span of every cell it touches. *)
Definition closed (ch : list TableCell) (T : list (list slot)) (q : Rect) : Prop :=
  covers ch T q q.

(** The rectangle between the two positions of a range. *)
Definition rectOf (range : TableRange) : Rect :=
  {| top := Z.to_nat (Js.toNumber (rowIndex (startCellPosition range)));
     left := Z.to_nat (Js.toNumber (columnIndex (startCellPosition range)));
     bottom := Z.to_nat (Js.toNumber (rowIndex (endCellPosition range)));
     right := Z.to_nat (Js.toNumber (columnIndex (endCellPosition range))) |}.

(** One round of [selectCellsByRange]: the rectangle moved by the four
    overflow amounts. *)
Definition grow (q : Rect) (x1 x2 y1 y2 : Z) : Rect :=
  {| top := Z.to_nat (Z.of_nat (top q) + y1);
     left := Z.to_nat (Z.of_nat (left q) + x1);
     bottom := Z.to_nat (Z.of_nat (bottom q) + y2);
     right := Z.to_nat (Z.of_nat (right q) + x2) |}.

(** [x1], [x2], [y1], [y2] are the four overflow amounts of the rectangle
    [q] over the tiling [T]: each is taken at a square of the matching edge
    of [q], and is the largest along that edge. *)
Definition overflows (ch : list TableCell) (T : list (list slot)) (q : Rect)
    (x1 x2 y1 y2 : Z) : Prop :=
  ((∃ r e, top q ≤ r ∧ r ≤ bottom q ∧ slotAt T r (left q) = Some e ∧
           x1 = (- slotColumn e)%Z) ∧
   (∀ r e, top q ≤ r → r ≤ bottom q → slotAt T r (left q) = Some e →
           (slotColumn e ≤ - x1)%Z)) ∧
  ((∃ r e cl, top q ≤ r ∧ r ≤ bottom q ∧ slotAt T r (right q) = Some e ∧
              ch !! slotCell e = Some cl ∧
              x2 = (colspan cl - (slotColumn e + 1))%Z) ∧
   (∀ r e cl, top q ≤ r → r ≤ bottom q → slotAt T r (right q) = Some e →
              ch !! slotCell e = Some cl →
              (colspan cl - (slotColumn e + 1) ≤ x2)%Z)) ∧
  ((∃ c e, left q ≤ c ∧ c ≤ right q ∧ slotAt T (top q) c = Some e ∧
           y1 = (- slotRow e)%Z) ∧
   (∀ c e, left q ≤ c → c ≤ right q → slotAt T (top q) c = Some e →
           (slotRow e ≤ - y1)%Z)) ∧
  ((∃ c e cl, left q ≤ c ∧ c ≤ right q ∧ slotAt T (bottom q) c = Some e ∧
              ch !! slotCell e = Some cl ∧
              y2 = (rowspan cl - (slotRow e + 1))%Z) ∧
   (∀ c e cl, left q ≤ c → c ≤ right q → slotAt T (bottom q) c = Some e →
              ch !! slotCell e = Some cl →
              (rowspan cl - (slotRow e + 1) ≤ y2)%Z)).

(** ** What a program leaves alone *)

(** The program [m] never changes the component [f] of the world. *)
Definition preserves {A X} (f : World → X) (m : M A) : Prop :=
  ∀ w, f (m w).1 = f w.

(** ** The grid store *)

(** The cells of the row array [rid]. *)
Definition rowOf (w : World) (rid : RowId) : list CellId :=
  default [] (rowHeap w !! rid).

(** The grid store as rows of cells. *)
Definition rowsOf (w : World) : list (list CellId) := rowOf w <$> bodies w.

(** The number of cells of the grid. *)
Definition cellCount (w : World) : nat := length (concat (rowsOf w)).

(** The grid store holds one reference to each row array and one to each
    cell. *)
Definition storeWf (w : World) : Prop :=
  NoDup (bodies w) ∧ NoDup (concat (rowsOf w)).

(** The cells anchored in the rectangle [q] of the tiling [T], row by
    row. *)
Definition anchorsIn (T : list (list slot)) (q : Rect) : list CellId :=
  concat ((λ Tr, slotCell <$> filter anchor
                   (take (S (right q) - left q) (drop (left q) Tr)))
            <$> take (S (bottom q) - top q) (drop (top q) T)).

(** The row [r] had cells, and all of them are among [K]. *)
Definition emptied (K r : list CellId) : Prop :=
  r ≠ [] ∧ filter (λ k, k ∉ K) r = [].

#[global] Instance emptied_dec K r : Decision (emptied K r).
Proof. unfold emptied. apply _. Defined.

(** The edit range of the world is the rectangle [q]. *)
Definition rangeIs (w : World) (q : Rect) : Prop :=
  ∃ p, params w = Some p ∧
    rowIndex (startPosition p) = Some (Z.of_nat (top q)) ∧
    columnIndex (startPosition p) = Some (Z.of_nat (left q)) ∧
    rowIndex (endPosition p) = Some (Z.of_nat (bottom q)) ∧
    columnIndex (endPosition p) = Some (Z.of_nat (right q)).

(** The grid store of [w'] is that of [w], object by object: the same
    [bodies], the same cells and fragments, and every row array of [w]
    unchanged (new arrays may exist, in no row of [bodies]). *)
Definition sameStore (w w' : World) : Prop :=
  bodies w' = bodies w ∧ cellHeap w' = cellHeap w ∧
  fragmentHeap w' = fragmentHeap w ∧ rowHeap w `prefix_of` rowHeap w'.

(** The operation [op] returns normally from [w] and leaves the grid store
    and the edit range as they were. *)
Definition silent (op : M unit) (w : World) : Prop :=
  (op w).2 = Val tt ∧ sameStore w (op w).1 ∧ params (op w).1 = params w.

(** ** The state of the sweep of [serialize] over a tiling *)

Section SweepSpec.
Variable rh : list (list CellId).
Variable bodies : list RowId.
Variable T : list (list slot).

(** While column [c] is swept, [ra] counts the rows whose entry at [c] has
    had its column span looked at, and [rb] those whose row span has been
    looked at. A square of column [c] is in the matrix when it is an anchor
    or lies further right in its span, or comes from the row above and that
    row is done; a square of column [c + 1] when it is an anchor or comes
    from the left and the entry to its left is done. *)
Definition reached1 (rb r : nat) (e : slot) : Prop :=
  (0 < slotColumn e)%Z ∨ slotRow e = 0%Z ∨ (1 ≤ r ∧ r ≤ rb).
Definition reached2 (ra r : nat) (e : slot) : Prop :=
  anchor e ∨ ((0 < slotColumn e)%Z ∧ r < ra).

#[global] Instance reached1_dec rb r e : Decision (reached1 rb r e).
Proof. unfold reached1. apply _. Defined.
#[global] Instance reached2_dec ra r e : Decision (reached2 ra r e).
Proof. unfold reached2. apply _. Defined.

(** The squares of row [r] of the tiling that are in the matrix. *)
Definition rowAt (c ra rb r : nat) (Tr : list slot) : list slot :=
  take c Tr ++
  filter (reached1 rb r) (option_list (Tr !! c)) ++
  filter (reached2 ra r) (option_list (Tr !! S c)) ++
  filter anchor (drop (S (S c)) Tr).

Definition placed (c ra rb r c' : nat) (e : slot) : Prop :=
  c' < c ∨ (c' = c ∧ reached1 rb r e) ∨ (c' = S c ∧ reached2 ra r e).

(** The number of rows of the matrix: rows below the stored ones are made
    during the sweep of column 0. *)
Definition nrows (c rb : nat) : nat :=
  if decide (c = 0) then length bodies `max` (S rb `min` length T)
  else length T.

(** The row array of row [r] of the matrix: the one stored in [bodies], or
    the next free place of the heap for the rows made by the sweep. *)
Definition rowIdOf (r : nat) : RowId :=
  match bodies !! r with
  | Some rid => rid
  | None => length rh + (r - length bodies)
  end.

Record sweep_inv (c ra rb : nat) (st : Serialize.state) : Prop := {
  inv_len : length (Serialize.rows st) = nrows c rb;
  inv_rows : ∀ r row_, Serialize.rows st !! r = Some row_ →
    ∃ Tr, T !! r = Some Tr ∧ core <$> cellsPosition row_ = rowAt c ra rb r Tr;
  inv_marks : ∀ r c', (r, c') ∈ Serialize.marks st ↔
    ∃ e, slotAt T r c' = Some e ∧ ¬ anchor e ∧ placed c ra rb r c' e;
  inv_idx : ∀ r row_ c' p, Serialize.rows st !! r = Some row_ →
    cellsPosition row_ !! c' = Some p → c' < c ∨ (c' = c ∧ r < ra) →
    rowIndex p = Some (Z.of_nat r) ∧ columnIndex p = Some (Z.of_nat c');
  inv_rowid : ∀ r row_ p, Serialize.rows st !! r = Some row_ →
    p ∈ cellsPosition row_ → row p = cells row_;
  inv_cells : ∀ r row_, Serialize.rows st !! r = Some row_ →
    cells row_ = rowIdOf r;
  inv_heap : Serialize.rowHeap st =
    rh ++ replicate (length (Serialize.rows st) - length bodies) []
}.

End SweepSpec.

(** The spans of the anchors of a list of squares, added up: it bounds the
    number of squares of the top row of a tiling. *)
Definition spanSum (ch : list TableCell) (l : list slot) : nat :=
  sum_list_with (Serialize.spanOf ch ∘ slotCell) (filter anchor l).

(** ** Example grids *)

Module Ex.

(** A world around a grid: every cell comes with its own fragment, which
    holds one piece of content. *)
Definition world (ch : list TableCell) (rh : list (list CellId))
    (bodies : list RowId) (p : option TableEditRange) : World :=
  {| cellHeap := ch;
     rowHeap := rh;
     fragmentHeap := (λ c, [Other (fragment c)]) <$> ch;
     bodies := bodies;
     _cellMatrix := [];
     dirtied := false;
     recordHistory := true;
     params := p |}.

(** The position of a matrix entry, as far as the commander reads it. *)
Definition at_ (k : CellId) (r c : Z) : TableCellPosition :=
  {| beforeCell := None; afterCell := None; row := 0; cell := k;
     rowIndex := Some r; columnIndex := Some c;
     offsetColumn := 0; offsetRow := 0 |}.

(** Two rows, three columns: cell 0 spans two rows and two columns.
<<
     0 0 1
     0 0 2
>> *)
Definition cells_2x3 : list TableCell :=
  [mkCell 2 2 0; mkCell 1 1 1; mkCell 1 1 2].
Definition rows_2x3 : list (list CellId) := [[0; 1]; [2]].
Definition tiling_2x3 : list (list slot) :=
  [[(0, 0%Z, 0%Z); (0, 0%Z, 1%Z); (1, 0%Z, 0%Z)];
   [(0, 1%Z, 0%Z); (0, 1%Z, 1%Z); (2, 0%Z, 0%Z)]].

(** Three rows, three columns: cells 0 and 3 span two rows, cells 1 and 4
    two columns.
<<
     0 1 1
     0 2 3
     4 4 3
>> *)
Definition cells_3x3 : list TableCell :=
  [mkCell 1 2 0; mkCell 2 1 1; mkCell 1 1 2; mkCell 1 2 3; mkCell 2 1 4].
Definition rows_3x3 : list (list CellId) := [[0; 1]; [2; 3]; [4]].
Definition tiling_3x3 : list (list slot) :=
  [[(0, 0%Z, 0%Z); (1, 0%Z, 0%Z); (1, 0%Z, 1%Z)];
   [(0, 1%Z, 0%Z); (2, 0%Z, 0%Z); (3, 0%Z, 0%Z)];
   [(4, 0%Z, 0%Z); (4, 0%Z, 1%Z); (3, 1%Z, 0%Z)]].

(** One stored row, two rows: cell 0 spans two rows, and the second row
    exists under its span only.
<<
     0
     0
>> *)
Definition cells_tall : list TableCell := [mkCell 1 2 0].
Definition rows_tall : list (list CellId) := [[0]].
Definition tiling_tall : list (list slot) :=
  [[(0, 0%Z, 0%Z)]; [(0, 1%Z, 0%Z)]].

(** Two rows, two columns, no spans.
<<
     0 1
     2 3
>> *)
Definition cells_2x2 : list TableCell :=
  [mkCell 1 1 0; mkCell 1 1 1; mkCell 1 1 2; mkCell 1 1 3].
Definition rows_2x2 : list (list CellId) := [[0; 1]; [2; 3]].

End Ex.

(** ** The effect of taking cells out of the grid store *)

(** From [w] to [w'] the cells [K] have left their rows, and the rows that
    this emptied have left [bodies]; nothing else has changed. *)
Record removedFrom (K : list CellId) (w w' : World) : Prop := {
  rem_cells : cellHeap w' = cellHeap w;
  rem_frags : fragmentHeap w' = fragmentHeap w;
  rem_params : params w' = params w;
  rem_rows : ∀ rid, rid ∈ bodies w →
    rowHeap w' !! rid = Some (filter (λ k, k ∉ K) (rowOf w rid));
  rem_other : ∀ rid, rid ∉ bodies w → rowHeap w' !! rid = rowHeap w !! rid;
  rem_bodies :
    bodies w' = filter (λ rid, ¬ emptied K (rowOf w rid)) (bodies w)
}.

(** ** What every program over the world keeps *)

(** Every run of [m] relates the world before to the world after by [R],
    whatever the outcome. *)
Definition keeps (R : World → World → Prop) {A} (m : M A) : Prop :=
  ∀ w, R w (m w).1.

(** From [w] to [w'] no fragment has changed or gone, and every cell
    object is still there with the fragment it had. *)
Definition contentKept (w w' : World) : Prop :=
  fragmentHeap w `prefix_of` fragmentHeap w' ∧
  ∀ k c, cellHeap w !! k = Some c →
    ∃ c', cellHeap w' !! k = Some c' ∧ fragment c' = fragment c.

(** From [w] to [w'] only the matrix cache and the row arrays made by
    [serialize] are new. *)
Definition onlyMatrix (w w' : World) : Prop :=
  sameStore w w' ∧ params w' = params w ∧
  dirtied w' = dirtied w ∧ recordHistory w' = recordHistory w.

(** ** Cells and their fragments *)

(** The position [p] is of a cell that holds the fragment [f]. *)
Definition holds (ch : list TableCell) (f : FragmentId)
    (p : TableCellPosition) : Prop :=
  fragment <$> ch !! cell p = Some f.

#[global] Instance holds_dec ch f p : Decision (holds ch f p).
Proof. unfold holds. apply _. Defined.

(** The cells of the grid are distinct objects with distinct fragments. *)
Definition fragmentsDistinct (w : World) : Prop :=
  NoDup ((λ k, fragment <$> cellHeap w !! k) <$> concat (rowsOf w)).

(** The smallest rectangle around two rectangles. *)
Definition hull (q1 q2 : Rect) : Rect :=
  {| top := top q1 `min` top q2;
     left := left q1 `min` left q2;
     bottom := bottom q1 `max` bottom q2;
     right := right q1 `max` right q2 |}.

(** ** Grids without spans *)

(** The cell [k] exists and spans one row and one column. *)
Definition plain (ch : list TableCell) (k : CellId) : Prop :=
  match ch !! k with
  | Some c => colspan c = 1%Z ∧ rowspan c = 1%Z
  | None => False
  end.

#[global] Instance plain_dec ch k : Decision (plain ch k).
Proof. unfold plain. destruct (ch !! k); apply _. Defined.

(** Every row of [bodies] is an array of [C] cells, all of them plain. *)
Definition plainGrid (w : World) (C : nat) : Prop :=
  Forall (λ rid, match rowHeap w !! rid with
                 | Some r => length r = C ∧ Forall (plain (cellHeap w)) r
                 | None => False
                 end) (bodies w).

#[global] Instance plainGrid_dec w C : Decision (plainGrid w C).
Proof.
  unfold plainGrid. apply Forall_dec. intros rid.
  destruct (rowHeap w !! rid); apply _.
Defined.

(** The tiling of a grid without spans: one square per cell. *)
Definition flat (rows : list (list CellId)) : list (list slot) :=
  (λ r : list CellId, (λ k, (k, 0%Z, 0%Z)) <$> r) <$> rows.

(** [x] put in at index [i] of [l]. *)
Definition insertAt {A} (i : nat) (x : A) (l : list A) : list A :=
  take i l ++ x :: drop i l.

(** The row arrays [rhs] are those of [rh], after the arrays of the first
    [r] rows of [bodies] have been replaced through [g]. *)
Definition rowsUpd (g : nat → list CellId → list CellId) (r : nat)
    (bodies : list RowId) (rh rhs : list (list CellId)) : Prop :=
  length rhs = length rh ∧
  (∀ r' rid, bodies !! r' = Some rid →
     rhs !! rid = Some (if decide (r' < r) then g r' (default [] (rh !! rid))
                        else default [] (rh !! rid))) ∧
  (∀ rid, rid ∉ bodies → rhs !! rid = rh !! rid).

(** The cells made by [n] calls of [createCell()] from a heap of [f]
    fragments on. *)
Definition newCells (f n : nat) : list TableCell :=
  (λ j, {| colspan := 1; rowspan := 1; fragment := f + j |}) <$> seq 0 n.

(** The edit range after the closing [if]/[else] of an operation that
    moves the selection by [f]. *)
Definition shifted (f : TableCellPosition → TableCellPosition)
    (p : TableEditRange) : TableEditRange :=
  if decide (cell (startPosition p) = cell (endPosition p)) then updStart f p
  else updEnd f (updStart f p).

(** From [w] to [w'] every row of the grid has got one new plain cell with
    a fragment of its own, holding one [BrComponent], at index [i]; the
    cell of row [r] is the [r]-th new object of the cell heap. *)
Definition columnAdded (i : nat) (w w' : World) : Prop :=
  bodies w' = bodies w ∧
  cellHeap w' =
    cellHeap w ++ newCells (length (fragmentHeap w)) (length (bodies w)) ∧
  fragmentHeap w' =
    fragmentHeap w ++ replicate (length (bodies w)) [BrComponent] ∧
  rowsUpd (λ r, insertAt i (length (cellHeap w) + r)) (length (bodies w))
    (bodies w) (rowHeap w) (rowHeap w').

(** From [w] to [w'] every row of the grid has lost the cell at index [i];
    the cells and the fragments are as they were. *)
Definition columnDeleted (i : nat) (w w' : World) : Prop :=
  bodies w' = bodies w ∧ cellHeap w' = cellHeap w ∧
  fragmentHeap w' = fragmentHeap w ∧
  rowsUpd (λ _, delete i) (length (bodies w)) (bodies w)
    (rowHeap w) (rowHeap w').

(** No row array is referenced twice by [bodies], and no cell twice by a
    row. *)
Definition rowsWf (w : World) : Prop :=
  NoDup (bodies w) ∧ Forall (λ rid, NoDup (rowOf w rid)) (bodies w).

(** From [w] to [w'] the grid is as it was: the same rows in [bodies],
    each with the cells it had; every cell of [w] unchanged; no fragment
    changed. Objects made in between may remain in the heaps, outside the
    grid. *)
Definition gridRestored (w w' : World) : Prop :=
  bodies w' = bodies w ∧
  (∀ rid, rid ∈ bodies w → rowHeap w' !! rid = rowHeap w !! rid) ∧
  (∀ k c, cellHeap w !! k = Some c → cellHeap w' !! k = Some c) ∧
  fragmentHeap w `prefix_of` fragmentHeap w'.

(** From [w] to [w'] a new row array of [C] new plain cells, each with a
    new fragment holding one [BrComponent], has been put into [bodies] at
    index [j]; nothing else has changed. *)
Definition rowAdded (j C : nat) (w w' : World) : Prop :=
  bodies w' = insertAt j (length (rowHeap w)) (bodies w) ∧
  rowHeap w' = rowHeap w ++ [seq (length (cellHeap w)) C] ∧
  cellHeap w' = cellHeap w ++ newCells (length (fragmentHeap w)) C ∧
  fragmentHeap w' = fragmentHeap w ++ replicate C [BrComponent].

(** From [w] to [w'] the row at index [j] has left [bodies]; the row
    arrays and the fragments are as they were, and so are the cells that
    are not in that row. *)
Definition rowDeleted (j : nat) (w w' : World) : Prop :=
  bodies w' = delete j (bodies w) ∧ rowHeap w' = rowHeap w ∧
  fragmentHeap w' = fragmentHeap w ∧
  length (cellHeap w') = length (cellHeap w) ∧
  ∀ rid k, bodies w !! j = Some rid → k ∉ rowOf w rid →
    cellHeap w' !! k = cellHeap w !! k.

(** The operation [op] throws from [w], and the grid store and the edit
    range are as they were at that point. *)
Definition throws (op : M unit) (w : World) : Prop :=
  (op w).2 = Exn ∧ sameStore w (op w).1 ∧ params (op w).1 = params w.

(** The squares of the rectangle [q] of the tiling [T] that are not the
    top-left square of their cell, row by row. *)
Definition spannedIn (T : list (list slot)) (q : Rect) : list slot :=
  concat ((λ Tr : list slot,
             filter (λ e, ¬ anchor e)
               (take (S (right q) - left q) (drop (left q) Tr)))
            <$> take (S (bottom q) - top q) (drop (top q) T)).

(** From [w] to [w'] the cells [K] have been split with [n] new cells:
    each cell of [K] has the spans 1 and 1 and the fragment it had, every
    other cell is as it was; [n] new plain cells, each with a new fragment
    holding one [BrComponent], follow in the heap; no row of [bodies] and
    no cell of a row array has gone, in [bodies] no row is twice, and the
    grid has [n] more cells. *)
Definition cellsSplit (K : list CellId) (n : nat) (w w' : World) : Prop :=
  (∀ k c, cellHeap w !! k = Some c →
     cellHeap w' !! k =
       Some (if decide (k ∈ K) then mkCell 1 1 (fragment c) else c)) ∧
  drop (length (cellHeap w)) (cellHeap w')
    = newCells (length (fragmentHeap w)) n ∧
  fragmentHeap w' = fragmentHeap w ++ replicate n [BrComponent] ∧
  bodies w `sublist_of` bodies w' ∧ NoDup (bodies w') ∧
  (∀ rid, rowOf w rid `sublist_of` rowOf w' rid) ∧
  cellCount w' = cellCount w + n.

(** The state of the loop of [splitCells] after the squares [N] that are
    not the top-left one of their cell, in a world made from [w] by the
    matrix getter, which has appended [d] row arrays. *)
Definition splitInv (w : World) (d : nat) (N : list TableCellPosition)
    (ws : World) : Prop :=
  params ws = params w ∧
  fragmentHeap ws = fragmentHeap w ++ replicate (length N) [BrComponent] ∧
  cellHeap ws =
    foldl (λ h k, alter (setRowspan 1 ∘ setColspan 1) k h)
      (cellHeap w) (cell <$> N)
    ++ newCells (length (fragmentHeap w)) (length N) ∧
  length (rowHeap ws) = length (rowHeap w) + d ∧
  NoDup (bodies ws) ∧ bodies w `sublist_of` bodies ws ∧
  (∀ rid, rowOf w rid `sublist_of` rowOf ws rid) ∧
  (∀ rid, rid ∉ bodies ws → length (rowHeap w) ≤ rid → rowOf ws rid = []) ∧
  cellCount ws = cellCount w + length N.

(** ** Rows added to a grid with spans *)

(** The cells that come into the row [Tr] of a tiling from the row above,
    each named once, at the left column of its span. *)
Definition fromAbove (Tr : list slot) : list CellId :=
  slotCell <$> filter (λ e, (0 < slotRow e)%Z ∧ slotColumn e = 0%Z) Tr.

(** The number of squares of the row [Tr] that lie in the top row of
    their cell. *)
Definition topSquares (Tr : list slot) : nat :=
  length (filter (λ e, slotRow e = 0%Z) Tr).

(** The span of the cell of the square [e] goes on below [e]. *)
Definition goesOn (ch : list TableCell) (e : slot) : Prop :=
  match ch !! slotCell e with
  | Some c => (slotRow e + 1 < rowspan c)%Z
  | None => False
  end.

#[global] Instance goesOn_dec ch e : Decision (goesOn ch e).
Proof. unfold goesOn. destruct (ch !! slotCell e); apply _. Defined.

(** The cells that go on from the row [Tr] of a tiling into the row
    below, each named once, at the left column of its span. *)
Definition toBelow (ch : list TableCell) (Tr : list slot) : list CellId :=
  slotCell <$> filter (λ e, goesOn ch e ∧ slotColumn e = 0%Z) Tr.

(** The number of squares of the row [Tr] that lie in the bottom row of
    their cell. *)
Definition bottomSquares (ch : list TableCell) (Tr : list slot) : nat :=
  length (filter (λ e, ¬ goesOn ch e) Tr).

(** From [w] to [w'] a new row array of [n] new plain cells, each with a
    new fragment holding one [BrComponent], has been put into [bodies] at
    index [j], and each cell of [K] spans one row more; every other cell,
    every row array of the grid and every fragment is as it was. *)
Definition rowInserted (j : nat) (K : list CellId) (n : nat)
    (w w' : World) : Prop :=
  ∃ tr : RowId,
    bodies w' = insertAt j tr (bodies w) ∧ (tr ∉ bodies w) ∧
    rowHeap w' !! tr = Some (seq (length (cellHeap w)) n) ∧
    (∀ rid, rid ∈ bodies w → rowHeap w' !! rid = rowHeap w !! rid) ∧
    (∀ k c, cellHeap w !! k = Some c →
       cellHeap w' !! k =
         Some (if decide (k ∈ K) then setRowspan (rowspan c + 1) c else c)) ∧
    drop (length (cellHeap w)) (cellHeap w')
      = newCells (length (fragmentHeap w)) n ∧
    fragmentHeap w' = fragmentHeap w ++ replicate n [BrComponent].

(** The state of the loop that fills the new row array [tr] of
    [addRowToTop] and [addRowToBottom], from the world [w0] on: the cells
    [Ks] have been given one more row each, and [n] cells have been
    made. *)
Definition rowLoop (w0 : World) (tr : RowId) (Ks : list CellId) (n : nat)
    (ws : World) : Prop :=
  bodies ws = bodies w0 ∧ params ws = params w0 ∧
  fragmentHeap ws = fragmentHeap w0 ++ replicate n [BrComponent] ∧
  cellHeap ws =
    foldl (λ h k, alter (λ c, setRowspan (rowspan c + 1) c) k h)
      (cellHeap w0) Ks
    ++ newCells (length (fragmentHeap w0)) n ∧
  rowHeap ws = <[tr := seq (length (cellHeap w0)) n]> (rowHeap w0).

(** ** Rows deleted from a grid with spans *)

(** The cell of the square [e] spans more than one row. *)
Definition tall (ch : list TableCell) (e : slot) : Prop :=
  match ch !! slotCell e with
  | Some c => (1 < rowspan c)%Z
  | None => False
  end.

#[global] Instance tall_dec ch e : Decision (tall ch e).
Proof. unfold tall. destruct (ch !! slotCell e); apply _. Defined.

(** The cells that begin in the row [Tr] of a tiling and span more than
    one row. *)
Definition tallIn (ch : list TableCell) (Tr : list slot) : list CellId :=
  slotCell <$> filter (λ e, anchor e ∧ tall ch e) Tr.

(** The other cells with a square in the row [Tr]: those that come from
    above and those that span this row only; each named once, at the left
    column of its span. *)
Definition lowered (ch : list TableCell) (Tr : list slot) : list CellId :=
  slotCell <$> filter (λ e, slotColumn e = 0%Z ∧ ¬ (anchor e ∧ tall ch e)) Tr.

(** The cell made in place of the cell [k], as the [i]-th new cell, from
    a heap of [f] fragments on: one row less, the same columns, a new
    fragment. *)
Definition replacement (ch : list TableCell) (f i : nat) (k : CellId)
    : TableCell :=
  match ch !! k with
  | Some c => mkCell (colspan c) (rowspan c - 1) (f + i)
  | None => mkCell 1 1 (f + i)
  end.

(** From [w] to [w'] the row at index [j] has left [bodies]; each cell of
    [Ks] spans one row less; for each cell of [Ts] a new cell has been
    made, with one row less, as many columns and a new fragment holding
    one [BrComponent], and put into the row array [rid1]; every other
    cell, every other row array and every fragment is as it was. *)
Definition rowRemoved (j : nat) (rid1 : RowId) (Ks Ts : list CellId)
    (w w' : World) : Prop :=
  bodies w' = delete j (bodies w) ∧
  (∀ k c, cellHeap w !! k = Some c →
     cellHeap w' !! k =
       Some (if decide (k ∈ Ks) then setRowspan (rowspan c - 1) c else c)) ∧
  length (cellHeap w') = length (cellHeap w) + length Ts ∧
  (∀ i k c, Ts !! i = Some k → cellHeap w !! k = Some c →
     cellHeap w' !! (length (cellHeap w) + i) =
       Some (mkCell (colspan c) (rowspan c - 1)
               (length (fragmentHeap w) + i))) ∧
  fragmentHeap w' = fragmentHeap w ++ replicate (length Ts) [BrComponent] ∧
  (∀ rid, rid ≠ rid1 → rid < length (rowHeap w) →
     rowHeap w' !! rid = rowHeap w !! rid) ∧
  rowOf w' rid1 ≡ₚ rowOf w rid1 ++ seq (length (cellHeap w)) (length Ts).

(** The state of the loop of [deleteTopRow] and [deleteBottomRow], from
    the world [w0] on: the cells [Ks] have lost a row each, the cells [Ts]
    have been replaced in the row array [rid1]. *)
Definition delLoop (w0 : World) (rid1 : RowId) (Ks Ts : list CellId)
    (ws : World) : Prop :=
  bodies ws = bodies w0 ∧ params ws = params w0 ∧
  fragmentHeap ws = fragmentHeap w0 ++ replicate (length Ts) [BrComponent] ∧
  cellHeap ws =
    foldl (λ h k, alter (λ c, setRowspan (rowspan c - 1) c) k h)
      (cellHeap w0) Ks
    ++ imap (replacement (cellHeap w0) (length (fragmentHeap w0))) Ts ∧
  length (rowHeap ws) = length (rowHeap w0) ∧
  (∀ rid, rid ≠ rid1 → rowHeap ws !! rid = rowHeap w0 !! rid) ∧
  rowOf ws rid1 ≡ₚ rowOf w0 rid1 ++ seq (length (cellHeap w0)) (length Ts).

(** * Proofs *)

(** ** Arrays *)

Lemma outcome_bind_Val {A B} (f : A → outcome B) (m : outcome A) (b : B) :
  m ≫= f = Val b ↔ ∃ a, m = Val a ∧ f a = Val b.
Proof.
  destruct m as [a| |]; simpl; split.
  - eauto.
  - by intros (a' & [= ->] & ?).
  - done.
  - by intros (? & ? & _).
  - done.
  - by intros (? & ? & _).
Qed.

Lemma defined_Val {A} (o : option A) (a : A) : defined o = Val a ↔ o = Some a.
Proof. destruct o; simpl; split; intros; by simplify_eq. Qed.

Lemma at_nat {A} (l : list A) (n : nat) : Js.at_ l (Z.of_nat n) = l !! n.
Proof.
  unfold Js.at_. destruct (Z.ltb_spec (Z.of_nat n) 0); [lia|].
  by rewrite Nat2Z.id.
Qed.

Lemma clampIndex_nat (len n : nat) : Js.clampIndex len (Z.of_nat n) = n `min` len.
Proof.
  unfold Js.clampIndex. destruct (Z.ltb_spec (Z.of_nat n) 0); [lia|].
  by rewrite Nat2Z.id.
Qed.

Lemma splice_insert_nat {A} (l : list A) (n : nat) (x : A) :
  Js.splice l (Z.of_nat n) 0 [x] = take n l ++ x :: drop n l.
Proof.
  unfold Js.splice. rewrite clampIndex_nat, Nat.add_0_r.
  destruct (decide (n ≤ length l)).
  - by rewrite Nat.min_l.
  - rewrite Nat.min_r by lia.
    by rewrite !take_ge, !drop_ge by lia.
Qed.

Lemma slice_nat {A} (l : list A) (a b : nat) :
  Js.slice l (Z.of_nat a) (Z.of_nat b) = take (b - a) (drop a l).
Proof.
  unfold Js.slice. rewrite !clampIndex_nat.
  destruct (decide (a ≤ length l)).
  - rewrite (Nat.min_l a) by done.
    destruct (decide (b ≤ length l)).
    + by rewrite Nat.min_l.
    + rewrite Nat.min_r by lia.
      rewrite !take_ge; [done| |]; rewrite length_drop; lia.
  - rewrite !drop_ge by lia. by rewrite !take_nil.
Qed.

(** ** Consequences of a tiling *)

Ltac slot_simpl := unfold slotCell, slotRow, slotColumn in *; simpl in *.

Section LayoutFacts.
Context {ch : list TableCell} {rh : list (list CellId)} {bodies : list RowId}.
Context {T : list (list slot)}.
Hypothesis HL : layout ch rh bodies T.

Lemma layout_rows_le : length bodies ≤ length T.
Proof using HL. apply HL. Qed.

Lemma layout_empty_width : width T = 0 → length T = length bodies.
Proof using HL. destruct HL as (_ & [?|?] & _); [done|lia]. Qed.

Lemma layout_bodies rid : rid ∈ bodies → is_Some (rh !! rid).
Proof using HL.
  destruct HL as (_ & _ & H & _). rewrite Forall_forall in H. apply H.
Qed.

Lemma layout_row r Tr : T !! r = Some Tr → row_ok ch rh bodies T (r, Tr).
Proof using HL.
  destruct HL as (_ & _ & _ & H). rewrite Forall_lookup in H.
  intros Hr. apply (H r). by rewrite list_lookup_imap, Hr.
Qed.

Lemma layout_length r Tr : T !! r = Some Tr → length Tr = width T.
Proof using HL. intros H. by destruct (layout_row _ _ H). Qed.

Lemma layout_anchors r Tr :
  T !! r = Some Tr →
  slotCell <$> filter anchor Tr = rowCells rh bodies r.
Proof using HL. intros H. by destruct (layout_row _ _ H) as (_ & ? & _). Qed.

Lemma layout_slot r c e : slotAt T r c = Some e → slot_ok ch T r c e.
Proof using HL.
  unfold slotAt. destruct (T !! r) as [Tr|] eqn:Hr; [|done]. intros Hc.
  destruct (layout_row _ _ Hr) as (_ & _ & H). simpl in H.
  rewrite Forall_lookup in H.
  apply (H c (c, e)). by rewrite list_lookup_imap, Hc.
Qed.

Lemma slotAt_lt r c e : slotAt T r c = Some e → r < length T ∧ c < width T.
Proof using HL.
  unfold slotAt. destruct (T !! r) as [Tr|] eqn:Hr; [|done]. intros Hc.
  split; [by eapply lookup_lt_Some|].
  rewrite <-(layout_length _ _ Hr). by eapply lookup_lt_Some.
Qed.

Lemma slotAt_is_Some r c : r < length T → c < width T → is_Some (slotAt T r c).
Proof using HL.
  intros Hr Hc. unfold slotAt.
  destruct (lookup_lt_is_Some_2 T r Hr) as [Tr HTr]. rewrite HTr.
  apply lookup_lt_is_Some_2. by rewrite (layout_length _ _ HTr).
Qed.

(** The facts of [slot_ok], one by one. *)
Lemma slot_cell r c e :
  slotAt T r c = Some e →
  ∃ cl, ch !! slotCell e = Some cl ∧
        (0 ≤ slotRow e < rowspan cl)%Z ∧ (0 ≤ slotColumn e < colspan cl)%Z.
Proof using HL.
  intros H. apply layout_slot in H. unfold slot_ok in H.
  destruct (ch !! slotCell e) as [cl|]; [|done]. exists cl. tauto.
Qed.

Lemma slot_right r c e cl :
  slotAt T r c = Some e → ch !! slotCell e = Some cl →
  (slotColumn e + 1 < colspan cl)%Z →
  slotAt T r (S c) = Some (slotCell e, slotRow e, (slotColumn e + 1)%Z).
Proof using HL.
  intros H Hcl. apply layout_slot in H. unfold slot_ok in H.
  rewrite Hcl in H. tauto.
Qed.

Lemma slot_down r c e cl :
  slotAt T r c = Some e → ch !! slotCell e = Some cl →
  (slotRow e + 1 < rowspan cl)%Z →
  slotAt T (S r) c = Some (slotCell e, (slotRow e + 1)%Z, slotColumn e).
Proof using HL.
  intros H Hcl. apply layout_slot in H. unfold slot_ok in H.
  rewrite Hcl in H. tauto.
Qed.

Lemma slot_left r c e :
  slotAt T r c = Some e → (0 < slotColumn e)%Z →
  ∃ c0, c = S c0 ∧
        slotAt T r c0 = Some (slotCell e, slotRow e, (slotColumn e - 1)%Z).
Proof using HL.
  intros H Hj. apply layout_slot in H. unfold slot_ok in H.
  destruct (ch !! slotCell e); [|done].
  destruct H as (_ & _ & _ & _ & H & _). specialize (H Hj).
  destruct c as [|c0]; [done|]. eauto.
Qed.

Lemma slot_up r c e :
  slotAt T r c = Some e → (0 < slotRow e)%Z →
  ∃ r0, r = S r0 ∧
        slotAt T r0 c = Some (slotCell e, (slotRow e - 1)%Z, slotColumn e).
Proof using HL.
  intros H Hi. apply layout_slot in H. unfold slot_ok in H.
  destruct (ch !! slotCell e); [|done].
  destruct H as (_ & _ & _ & _ & _ & H). specialize (H Hi).
  destruct r as [|r0]; [done|]. eauto.
Qed.

Lemma slot_row0 c e : slotAt T 0 c = Some e → slotRow e = 0%Z.
Proof using HL.
  intros H. destruct (slot_cell _ _ _ H) as (cl & _ & ? & _).
  destruct (decide (0 < slotRow e)%Z) as [Hi|]; [|lia].
  by destruct (slot_up _ _ _ H Hi) as (? & ? & _).
Qed.

Lemma slot_column0 r e : slotAt T r 0 = Some e → slotColumn e = 0%Z.
Proof using HL.
  intros H. destruct (slot_cell _ _ _ H) as (cl & _ & _ & ?).
  destruct (decide (0 < slotColumn e)%Z) as [Hj|]; [|lia].
  by destruct (slot_left _ _ _ H Hj) as (? & ? & _).
Qed.

(** A row below the stored rows holds no anchor. *)
Lemma slot_below_bodies r c e :
  slotAt T r c = Some e → length bodies ≤ r → ¬ anchor e.
Proof using HL.
  unfold slotAt. destruct (T !! r) as [Tr|] eqn:Hr; [|done]. intros Hc Hle Ha.
  pose proof (layout_anchors _ _ Hr) as H.
  unfold rowCells in H. rewrite lookup_ge_None_2 in H by done.
  apply fmap_nil_inv in H.
  assert (e ∈ filter anchor Tr) as Hin.
  { apply list_elem_of_filter. split; [done|]. by eapply list_elem_of_lookup_2. }
  rewrite H in Hin. by apply not_elem_of_nil in Hin.
Qed.

End LayoutFacts.

(** ** The rows of the matrix during the sweep *)

Section RowAt.
Context {ch : list TableCell} {rh : list (list CellId)} {bodies : list RowId}.
Context {T : list (list slot)}.
Hypothesis HL : layout ch rh bodies T.

Lemma filter_option_list_ext (P Q : slot → Prop)
    `{∀ e, Decision (P e)} `{∀ e, Decision (Q e)} (o : option slot) :
  (∀ e, o = Some e → (P e ↔ Q e)) →
  filter P (option_list o) = filter Q (option_list o).
Proof.
  destruct o as [e|]; [|done]. intros HPQ. simpl.
  rewrite !filter_cons, !filter_nil.
  destruct (decide (P e)), (decide (Q e)); try done;
    exfalso; specialize (HPQ e eq_refl); tauto.
Qed.

Lemma rowAt_ext c ra rb ra' rb' r Tr :
  (∀ e, Tr !! c = Some e → (reached1 rb r e ↔ reached1 rb' r e)) →
  (∀ e, Tr !! S c = Some e → (reached2 ra r e ↔ reached2 ra' r e)) →
  rowAt c ra rb r Tr = rowAt c ra' rb' r Tr.
Proof.
  intros H1 H2. unfold rowAt.
  by rewrite (filter_option_list_ext _ _ _ H1), (filter_option_list_ext _ _ _ H2).
Qed.

Lemma rowAt_ge c ra rb r Tr : length Tr ≤ c → rowAt c ra rb r Tr = Tr.
Proof.
  intros Hc. unfold rowAt.
  rewrite take_ge, !lookup_ge_None_2, drop_ge by lia. simpl.
  by rewrite !filter_nil, !app_nil_r.
Qed.

Lemma rowAt_lookup_lt c ra rb r Tr c' :
  c' < c → rowAt c ra rb r Tr !! c' = Tr !! c'.
Proof.
  intros Hc'. destruct (decide (length Tr ≤ c')).
  - rewrite rowAt_ge by lia. done.
  - unfold rowAt. rewrite lookup_app_l by (rewrite length_take; lia).
    by rewrite lookup_take_lt.
Qed.

Lemma rowAt_expand c ra rb r Tr e :
  Tr !! c = Some e → reached1 rb r e →
  rowAt c ra rb r Tr =
    take c Tr ++ e :: filter (reached2 ra r) (option_list (Tr !! S c)) ++
      filter anchor (drop (S (S c)) Tr).
Proof.
  intros Hc H1. unfold rowAt. rewrite Hc. simpl.
  rewrite filter_cons, filter_nil. by rewrite decide_True.
Qed.

Lemma rowAt_skip c ra rb r Tr e :
  Tr !! c = Some e → ¬ reached1 rb r e →
  rowAt c ra rb r Tr =
    take c Tr ++ filter (reached2 ra r) (option_list (Tr !! S c)) ++
      filter anchor (drop (S (S c)) Tr).
Proof.
  intros Hc H1. unfold rowAt. rewrite Hc. simpl.
  rewrite filter_cons, filter_nil. by rewrite decide_False.
Qed.

(** The entry at the column being swept, for a row that is being looked
    at or whose upper neighbour is done. *)
Lemma reached1_here rb r c e :
  slotAt T r c = Some e → r ≤ rb → reached1 rb r e.
Proof using HL.
  intros He Hr. destruct r as [|r'].
  - right; left. by eapply slot_row0.
  - right; right. lia.
Qed.

Lemma rowAt_lookup_here c ra rb r Tr :
  T !! r = Some Tr → r ≤ rb → rowAt c ra rb r Tr !! c = Tr !! c.
Proof using HL.
  intros HTr Hr. destruct (Tr !! c) as [e|] eqn:Hc.
  - rewrite (rowAt_expand _ _ _ _ _ e); [|done|].
    + apply list_lookup_middle. rewrite length_take.
      apply lookup_lt_Some in Hc. lia.
    + eapply reached1_here; [|done]. unfold slotAt. by rewrite HTr.
  - rewrite rowAt_ge; [done|]. by apply lookup_ge_None_1.
Qed.

(** Splicing the square to the right of [(r, c)] into row [r]. *)
Lemma rowAt_right_new c rb r Tr e e' :
  Tr !! c = Some e → reached1 rb r e →
  Tr !! S c = Some e' → ¬ anchor e' → (0 < slotColumn e')%Z →
  take (S c) (rowAt c r rb r Tr) ++ e' :: drop (S c) (rowAt c r rb r Tr)
  = rowAt c (S r) rb r Tr.
Proof.
  intros Hc H1 Hc' Ha Hj.
  rewrite !(rowAt_expand _ _ _ _ _ e) by done. rewrite Hc'. simpl.
  rewrite !filter_cons, !filter_nil.
  rewrite decide_False by (unfold reached2; intros [?|[_ ?]]; [done|lia]).
  rewrite decide_True by (right; split; [done|lia]).
  assert (length (take c Tr) = c) as Hlen.
  { rewrite length_take. apply lookup_lt_Some in Hc. lia. }
  simpl.
  rewrite (cons_middle e), !app_assoc.
  rewrite take_app_length', drop_app_length'; [|rewrite length_app; simpl; lia..].
  by rewrite <-!app_assoc.
Qed.

(** Splicing the square below [(r, c)] into row [r + 1]. *)
Lemma rowAt_down_new c ra r Tr e :
  Tr !! c = Some e → (0 < slotRow e)%Z → slotColumn e = 0%Z →
  take c (rowAt c ra r (S r) Tr) ++ e :: drop c (rowAt c ra r (S r) Tr)
  = rowAt c ra (S r) (S r) Tr.
Proof.
  intros Hc Hi Hj.
  rewrite (rowAt_skip _ _ _ _ _ e); [|done|unfold reached1; lia].
  rewrite (rowAt_expand _ _ _ _ _ e); [|done|unfold reached1; lia].
  assert (length (take c Tr) = c) as Hlen.
  { rewrite length_take. apply lookup_lt_Some in Hc. lia. }
  by rewrite take_app_length', drop_app_length' by done.
Qed.

End RowAt.

(** ** One step of the sweep keeps the state in line with the tiling *)

Lemma spliceRow_lookup rs r n p r' :
  Serialize.spliceRow rs r n p !! r' =
    if decide (r = r') then
      (λ row_, setCellsPosition row_
         (take n (cellsPosition row_) ++ p :: drop n (cellsPosition row_)))
        <$> rs !! r
    else rs !! r'.
Proof.
  unfold Serialize.spliceRow. rewrite list_lookup_alter.
  case_decide; [|done]. destruct (rs !! r) as [row_|]; [|done]. simpl.
  by rewrite splice_insert_nat.
Qed.

Lemma spliceRow_length rs r n p :
  length (Serialize.spliceRow rs r n p) = length rs.
Proof. apply length_alter. Qed.

Lemma elem_of_insert_inv {A} (l : list A) i x y :
  y ∈ <[i:=x]> l → y = x ∨ y ∈ l.
Proof.
  intros [j Hj]%list_elem_of_lookup_1.
  rewrite list_lookup_insert in Hj. case_decide; simplify_eq; [by left|].
  right. by eapply list_elem_of_lookup_2.
Qed.

Lemma elem_of_splice_inv {A} (l : list A) n x y :
  y ∈ take n l ++ x :: drop n l → y = x ∨ y ∈ l.
Proof.
  rewrite elem_of_app, elem_of_cons.
  intros [H|[H|H]]; [right|by left|right].
  - apply elem_of_take in H as (i & ? & _). by eapply list_elem_of_lookup_2.
  - apply list_elem_of_lookup_1 in H as [i Hi]. rewrite lookup_drop in Hi.
    by eapply list_elem_of_lookup_2.
Qed.

Lemma lookup_splice_lt {A} (l : list A) n x i :
  i < n → n ≤ length l → (take n l ++ x :: drop n l) !! i = l !! i.
Proof.
  intros Hi Hn. rewrite lookup_app_l by (rewrite length_take; lia).
  by rewrite lookup_take_lt.
Qed.

Section SweepSteps.
Context {ch : list TableCell} {rh : list (list CellId)} {bodies : list RowId}.
Context {T : list (list slot)}.
Hypothesis HL : layout ch rh bodies T.

Local Abbreviation inv := (sweep_inv rh bodies T).

(** The matrix entry at the column being swept shows the square of the
    tiling. *)
Lemma sweep_entry c ra rb st r row_ cp :
  inv c ra rb st → r ≤ rb →
  Serialize.rows st !! r = Some row_ → cellsPosition row_ !! c = Some cp →
  slotAt T r c = Some (core cp).
Proof using HL.
  intros Hinv Hr Hrow Hcp.
  destruct (inv_rows _ _ _ _ _ _ _ Hinv _ _ Hrow) as (Tr & HTr & Hcore).
  unfold slotAt. rewrite HTr.
  rewrite <-(rowAt_lookup_here HL c ra rb r Tr HTr Hr), <-Hcore.
  by rewrite list_lookup_fmap, Hcp.
Qed.

(** [cellPosition.rowIndex = rowIndex; cellPosition.columnIndex = columnIndex] *)
Lemma sweep_set_index c r st row_ cp :
  inv c r r st →
  Serialize.rows st !! r = Some row_ → cellsPosition row_ !! c = Some cp →
  let cp' := setColumnIndex (setRowIndex cp (Some (Z.of_nat r)))
               (Some (Z.of_nat c)) in
  let row' := setCellsPosition row_ (<[c := cp']> (cellsPosition row_)) in
  inv c r r (Serialize.mkState (<[r := row']> (Serialize.rows st))
               (Serialize.marks st) (Serialize.rowHeap st)).
Proof.
  intros Hinv Hrow Hcp. simpl.
  assert (r < length (Serialize.rows st)) as Hr by by eapply lookup_lt_Some.
  assert (c < length (cellsPosition row_)) as Hc by by eapply lookup_lt_Some.
  destruct Hinv as [Hlen Hrows Hmarks Hidx Hrowid Hcells Hheap].
  split; simpl.
  - by rewrite length_insert.
  - intros r' row'' Hr'. rewrite list_lookup_insert in Hr'.
    case_decide as Hd; [|by eauto].
    destruct Hd as [<- _]. simplify_eq.
    destruct (Hrows _ _ Hrow) as (Tr & HTr & Hcore).
    exists Tr. split; [done|]. rewrite <-Hcore. simpl.
    rewrite list_fmap_insert. apply list_insert_id.
    by rewrite list_lookup_fmap, Hcp.
  - done.
  - intros r' row'' c' p Hr' Hp Hc'. rewrite list_lookup_insert in Hr'.
    case_decide as Hd; [|by eauto].
    destruct Hd as [<- _]. simplify_eq. simpl in Hp.
    rewrite list_lookup_insert in Hp.
    case_decide as Hd'; [lia|]. by eapply Hidx.
  - intros r' row'' p Hr' Hp. rewrite list_lookup_insert in Hr'.
    case_decide as Hd; [|by eauto].
    destruct Hd as [<- _]. simplify_eq. simpl in *.
    apply elem_of_insert_inv in Hp as [->|Hp]; [|by eauto].
    simpl. eapply Hrowid; [done|]. by eapply list_elem_of_lookup_2.
  - intros r' row'' Hr'. rewrite list_lookup_insert in Hr'.
    case_decide as Hd; [|by eauto].
    destruct Hd as [<- _]. simplify_eq. simpl. by eauto.
  - by rewrite length_insert.
Qed.


(** Moving the two counters when nothing is to be placed. *)
Lemma sweep_inv_stable c ra rb ra' rb' st :
  inv c ra rb st →
  (∀ r e, slotAt T r c = Some e → (reached1 rb' r e ↔ reached1 rb r e)) →
  (∀ r e, slotAt T r (S c) = Some e → (reached2 ra' r e ↔ reached2 ra r e)) →
  nrows bodies T c rb' = nrows bodies T c rb →
  (∀ r row_ p, Serialize.rows st !! r = Some row_ →
     cellsPosition row_ !! c = Some p → r < ra' →
     rowIndex p = Some (Z.of_nat r) ∧ columnIndex p = Some (Z.of_nat c)) →
  inv c ra' rb' st.
Proof.
  intros [Hlen Hrows Hmarks Hidx Hrowid Hcells Hheap] H1 H2 Hn Hi.
  split; try done.
  - by rewrite Hn.
  - intros r row_ Hrow. destruct (Hrows _ _ Hrow) as (Tr & HTr & Hcore).
    exists Tr. split; [done|]. rewrite Hcore.
    apply rowAt_ext.
    + intros e He. symmetry. apply H1. unfold slotAt. by rewrite HTr.
    + intros e He. symmetry. apply H2. unfold slotAt. by rewrite HTr.
  - intros r c'. rewrite Hmarks. unfold placed.
    split; intros (e & He & Ha & Hp); exists e; (split; [done|split; [done|]]).
    + destruct Hp as [?|[[-> ?]|[-> ?]]]; [by left|right; left|right; right];
        (split; [done|]); [by apply H1|by apply H2].
    + destruct Hp as [?|[[-> ?]|[-> ?]]]; [by left|right; left|right; right];
        (split; [done|]); [by apply H1|by apply H2].
  - intros r row_ c' p Hrow Hp [?|[-> ?]]; [by eapply Hidx; eauto|].
    by eapply Hi.
Qed.

Lemma reached2_step ra r e :
  reached2 (S ra) r e ↔ reached2 ra r e ∨ (r = ra ∧ (0 < slotColumn e)%Z).
Proof. unfold reached2. intuition lia. Qed.

Lemma reached1_step rb r e :
  reached1 (S rb) r e ↔ reached1 rb r e ∨ r = S rb.
Proof. unfold reached1. intuition lia. Qed.

(** The first [if] of the loop body. *)
Lemma sweep_spanRight c r st row_ cp cl :
  inv c r r st →
  Serialize.rows st !! r = Some row_ → cellsPosition row_ !! c = Some cp →
  rowIndex cp = Some (Z.of_nat r) → columnIndex cp = Some (Z.of_nat c) →
  ch !! cell cp = Some cl →
  inv c (S r) r (Serialize.spanRight cl r c row_ cp st).
Proof using HL.
  intros Hinv Hrow Hcp Hri Hci Hcl.
  pose proof (sweep_entry _ _ _ _ _ _ _ Hinv (Nat.le_refl r) Hrow Hcp) as He.
  destruct (slot_cell HL _ _ _ He) as (cl' & Hcl' & Hi & Hj).
  change (slotCell (core cp)) with (cell cp) in Hcl'. simplify_eq.
  change (slotColumn (core cp)) with (offsetColumn cp) in Hj.
  assert (∀ r' row' p, Serialize.rows st !! r' = Some row' →
            cellsPosition row' !! c = Some p → r' < S r →
            rowIndex p = Some (Z.of_nat r') ∧ columnIndex p = Some (Z.of_nat c))
    as Hnew.
  { intros r' row' p Hrow' Hp Hlt. destruct (decide (r' = r)) as [->|].
    - by simplify_eq.
    - eapply (inv_idx _ _ _ _ _ _ _ Hinv); eauto. right. split; [done|lia]. }
  unfold Serialize.spanRight.
  destruct (Z.ltb_spec (offsetColumn cp + 1) (colspan cl)) as [Hlt|Hge].
  - pose proof (slot_right HL _ _ _ _ He Hcl Hlt) as He'.
    change (slotCell (core cp), slotRow (core cp), (slotColumn (core cp) + 1)%Z)
      with (core (Serialize.rightOf cp (cells row_) r c)) in He'.
    set (p := Serialize.rightOf cp (cells row_) r c) in *.
    assert (¬ anchor (core p)) as Hna.
    { unfold anchor. change (slotColumn (core p)) with (offsetColumn cp + 1)%Z. lia. }
    assert (0 < slotColumn (core p))%Z as Hpos.
    { change (slotColumn (core p)) with (offsetColumn cp + 1)%Z. lia. }
    rewrite Nat.add_1_r.
    rewrite bool_decide_eq_false_2.
    2:{ rewrite (inv_marks _ _ _ _ _ _ _ Hinv). intros (e & He0 & Ha & Hp).
        rewrite He' in He0. simplify_eq.
        destruct Hp as [?|[[? _]|[_ [?|[_ ?]]]]]; [lia|lia|done|lia]. }
    destruct Hinv as [Hlen Hrows Hmarks Hidx Hrowid Hcells Hheap].
    destruct (Hrows _ _ Hrow) as (Tr & HTr & Hcore).
    assert (Tr !! c = Some (core cp)) as HTc.
    { unfold slotAt in He. by rewrite HTr in He. }
    assert (Tr !! S c = Some (core p)) as HTc'.
    { unfold slotAt in He'. by rewrite HTr in He'. }
    assert (S c ≤ length (cellsPosition row_)) as Hclen.
    { apply lookup_lt_Some in Hcp. lia. }
    split; simpl.
    + by rewrite spliceRow_length.
    + intros r' row' Hr'. rewrite spliceRow_lookup in Hr'.
      case_decide as Hd.
      * subst r'. rewrite Hrow in Hr'. simpl in Hr'. simplify_eq.
        exists Tr. split; [done|]. simpl.
        rewrite fmap_app, fmap_cons, fmap_take, fmap_drop, Hcore.
        eapply rowAt_right_new; eauto.
        eapply reached1_here; eauto.
      * destruct (Hrows _ _ Hr') as (Tr' & HTr' & Hcore').
        exists Tr'. split; [done|]. rewrite Hcore'.
        apply rowAt_ext; [done|]. intros e _. rewrite reached2_step. intuition congruence.
    + intros r' c'. rewrite elem_of_app, list_elem_of_singleton, Hmarks.
      split.
      * intros [(e & He0 & Ha & Hp)|[= -> ->]].
        -- exists e. split; [done|split; [done|]].
           destruct Hp as [?|[?|[-> ?]]]; [by left|by right; left|].
           right; right. split; [done|]. rewrite reached2_step. by left.
        -- exists (core p). split; [done|split; [done|]].
           right; right. split; [done|]. right. split; [done|lia].
      * intros (e & He0 & Ha & Hp).
        destruct Hp as [?|[?|[-> Hp]]].
        -- left. exists e. split; [done|split; [done|]]. by left.
        -- left. exists e. split; [done|split; [done|]]. by right; left.
        -- apply reached2_step in Hp as [Hp|[-> _]].
           ++ left. exists e. split; [done|split; [done|]]. by right; right.
           ++ by right.
    + intros r' row' c' q Hr' Hq Hc'. rewrite spliceRow_lookup in Hr'.
      case_decide as Hd.
      * subst r'. rewrite Hrow in Hr'. simpl in Hr'. simplify_eq.
        simpl in Hq. rewrite lookup_splice_lt in Hq by lia.
        destruct Hc' as [?|[-> _]]; [by eapply Hidx; eauto|].
        by simplify_eq.
      * destruct Hc' as [?|[-> ?]]; [by eapply Hidx; eauto|].
        eapply Hidx; eauto. right. split; [done|lia].
    + intros r' row' q Hr' Hq. rewrite spliceRow_lookup in Hr'.
      case_decide as Hd; [|by eauto].
      subst r'. rewrite Hrow in Hr'. simpl in Hr'. simplify_eq. simpl in *.
      apply elem_of_splice_inv in Hq as [->|Hq]; [done|by eauto].
    + intros r' row' Hr'. rewrite spliceRow_lookup in Hr'.
      case_decide as Hd; [|by eauto].
      subst r'. rewrite Hrow in Hr'. simpl in Hr'. simplify_eq. simpl. by eauto.
    + by rewrite spliceRow_length.
  - eapply sweep_inv_stable; eauto.
    intros r' e He0. rewrite reached2_step.
    split; [|by left]. intros [?|[-> Hpos]]; [done|]. exfalso.
    destruct (slot_left HL _ _ _ He0 Hpos) as (c0 & [= <-] & Hleft).
    rewrite He in Hleft. injection Hleft as Hk _ Hjj.
    destruct (slot_cell HL _ _ _ He0) as (cl0 & Hcl0 & _ & Hj0).
    rewrite <-Hk in Hcl0. change (slotCell (core cp)) with (cell cp) in Hcl0.
    simplify_eq. change (slotColumn (core cp)) with (offsetColumn cp) in Hjj.
    lia.
Qed.


(** A span that ends at row [r] does not reach the square below. *)
Lemma no_span_down r c e cl e' :
  slotAt T r c = Some e → ch !! slotCell e = Some cl →
  ¬ (slotRow e + 1 < rowspan cl)%Z →
  slotAt T (S r) c = Some e' → ¬ (0 < slotRow e')%Z.
Proof using HL.
  intros He Hcl Hge He' Hpos.
  destruct (slot_up HL _ _ _ He' Hpos) as (r0 & [= <-] & Hup).
  rewrite He in Hup. injection Hup as ->.
  destruct (slot_cell HL _ _ _ He') as (cl0 & Hcl0 & Hi0 & _).
  unfold slotCell, slotRow in *. simpl in *. simplify_eq. lia.
Qed.

(** Rows below the stored rows hold no anchor. *)
Lemma filter_anchor_below r Tr (l : list slot) :
  T !! r = Some Tr → length bodies ≤ r → (∀ x, x ∈ l → x ∈ Tr) →
  filter anchor l = [].
Proof using HL.
  intros HTr Hr Hl. induction l as [|e l IH]; [done|].
  rewrite filter_cons. rewrite decide_False.
  - apply IH. intros x Hx. apply Hl. by right.
  - assert (e ∈ Tr) as [c Hc]%list_elem_of_lookup_1 by (apply Hl; left).
    eapply (slot_below_bodies HL r c); [|done]. unfold slotAt. by rewrite HTr.
Qed.

(** The second [if] of the loop body. *)
Lemma sweep_spanDown c r st row_ rowx cp cl :
  inv c (S r) r st →
  Serialize.rows st !! r = Some row_ → cellsPosition row_ !! c = Some cp →
  ch !! cell cp = Some cl →
  inv c (S r) (S r) (Serialize.spanDown cl r c rowx cp st).
Proof using HL.
  intros Hinv Hrow Hcp Hcl.
  pose proof (sweep_entry _ _ _ _ _ _ _ Hinv (Nat.le_refl r) Hrow Hcp) as He.
  destruct (slot_cell HL _ _ _ He) as (cl' & Hcl' & Hi & Hj).
  change (slotCell (core cp)) with (cell cp) in Hcl'. simplify_eq.
  change (slotRow (core cp)) with (offsetRow cp) in Hi.
  change (slotColumn (core cp)) with (offsetColumn cp) in Hj.
  assert (r < length (Serialize.rows st)) as Hrlen by by eapply lookup_lt_Some.
  unfold Serialize.spanDown.
  destruct (Z.ltb_spec (offsetRow cp + 1) (rowspan cl)) as [Hlt|Hge].
  - pose proof (slot_down HL _ _ _ _ He Hcl Hlt) as He'.
    change (slotCell (core cp), (slotRow (core cp) + 1)%Z, slotColumn (core cp))
      with (cell cp, (offsetRow cp + 1)%Z, offsetColumn cp) in He'.
    set (e' := (cell cp, (offsetRow cp + 1)%Z, offsetColumn cp)) in *.
    assert (¬ anchor e') as Hna by (unfold anchor, e', slotRow; simpl; lia).
    rewrite Nat.add_1_r.
    destruct (decide (0 < offsetColumn cp)%Z) as [Hpos|Hzero].
    + (* the square below was placed from its left *)
      rewrite bool_decide_eq_true_2.
      2:{ rewrite (inv_marks _ _ _ _ _ _ _ Hinv). exists e'.
          split; [done|split; [done|]]. right; left. split; [done|]. by left. }
      eapply sweep_inv_stable; eauto.
      * intros r' e He0. rewrite reached1_step. split; [|by left].
        intros [?| ->]; [done|]. rewrite He' in He0. injection He0 as <-. by left.
      * unfold nrows. case_decide as Hc0; [|done]. subst c.
        pose proof (slot_column0 HL _ _ He). change (slotColumn (core cp)) with (offsetColumn cp) in *. lia.
      * intros. eapply (inv_idx _ _ _ _ _ _ _ Hinv); eauto.
    + assert (offsetColumn cp = 0%Z) as Hj0 by lia.
      rewrite bool_decide_eq_false_2.
      2:{ rewrite (inv_marks _ _ _ _ _ _ _ Hinv). intros (e & He0 & Ha & Hp).
          rewrite He' in He0. injection He0 as <-.
          destruct Hp as [?|[[_ Hp]|[? _]]]; [lia| |lia].
          destruct Hp as [Hp|[Hp|Hp]]; unfold e', slotColumn, slotRow in Hp;
            simpl in Hp; lia. }
      destruct Hinv as [Hlen Hrows Hmarks Hidx Hrowid Hcells Hheap].
      destruct (slotAt_lt HL _ _ _ He') as [HrT HcT].
      assert (∃ Tr', T !! S r = Some Tr' ∧ Tr' !! c = Some e') as (Tr' & HTr' & HTc').
      { unfold slotAt in He'. destruct (T !! S r); [eauto|done]. }
      destruct (Serialize.rows st !! S r) as [nextRow|] eqn:Hnext.
      * set (p := Serialize.below cp nextRow r c) in *.
        assert (nrows bodies T c (S r) = nrows bodies T c r) as Hn.
        { apply lookup_lt_Some in Hnext. rewrite Hlen in Hnext.
          unfold nrows in *. case_decide; lia. }
        destruct (Hrows _ _ Hnext) as (Tq & HTq & Hcore'').
        rewrite HTr' in HTq. injection HTq as <-.
        assert (c ≤ length (cellsPosition nextRow)) as Hclen.
        { rewrite <-(length_fmap core), Hcore''. unfold rowAt.
          rewrite length_app, length_take. apply lookup_lt_Some in HTc'. lia. }
        split; simpl.
        -- by rewrite spliceRow_length, Hn.
        -- intros r' row' Hr'. rewrite spliceRow_lookup in Hr'.
           case_decide as Hd.
           ++ subst r'. rewrite Hnext in Hr'. simpl in Hr'. injection Hr' as <-.
              exists Tr'. split; [done|]. simpl.
              rewrite fmap_app, fmap_cons, fmap_take, fmap_drop, Hcore''.
              change (core p) with e'.
              apply rowAt_down_new; [done|unfold e', slotRow; simpl; lia|done].
           ++ destruct (Hrows _ _ Hr') as (Tr0 & HTr0 & Hcore0).
              exists Tr0. split; [done|]. rewrite Hcore0.
              apply rowAt_ext; [|done]. intros e _. rewrite reached1_step.
              intuition congruence.
        -- intros r' c'. rewrite elem_of_app, list_elem_of_singleton, Hmarks.
           split.
           ++ intros [(e & He0 & Ha & Hp)|[= -> ->]].
              ** exists e. split; [done|split; [done|]].
                 destruct Hp as [?|[[-> ?]|?]]; [by left| |by right; right].
                 right; left. split; [done|]. rewrite reached1_step. by left.
              ** exists e'. split; [done|split; [done|]].
                 right; left. split; [done|]. right; right. lia.
           ++ intros (e & He0 & Ha & Hp).
              destruct Hp as [?|[[-> Hp]|?]].
              ** left. exists e. split; [done|split; [done|]]. by left.
              ** apply reached1_step in Hp as [Hp| ->].
                 --- left. exists e. split; [done|split; [done|]]. by right; left.
                 --- by right.
              ** left. exists e. split; [done|split; [done|]]. by right; right.
        -- intros r' row' c' q Hr' Hq Hc'. rewrite spliceRow_lookup in Hr'.
           case_decide as Hd; [|by eauto].
           subst r'. rewrite Hnext in Hr'. simpl in Hr'. injection Hr' as <-.
           simpl in Hq. destruct Hc' as [?|[_ ?]]; [|lia].
           rewrite lookup_splice_lt in Hq by lia. by eapply Hidx; eauto.
        -- intros r' row' q Hr' Hq. rewrite spliceRow_lookup in Hr'.
           case_decide as Hd; [|by eauto].
           subst r'. rewrite Hnext in Hr'. simpl in Hr'. injection Hr' as <-. simpl in *.
           apply elem_of_splice_inv in Hq as [->|Hq]; [done|by eauto].
        -- intros r' row' Hr'. rewrite spliceRow_lookup in Hr'.
           case_decide as Hd; [|by eauto].
           subst r'. rewrite Hnext in Hr'. simpl in Hr'. injection Hr' as <-. simpl. by eauto.
        -- by rewrite spliceRow_length.
      * (* the next row is made *)
        apply lookup_ge_None_1 in Hnext.
        assert (length (Serialize.rows st) = S r) as Hrs by lia.
        assert (c = 0 ∧ length bodies ≤ S r) as [-> Hlb].
        { rewrite Hlen in Hrs. unfold nrows in Hrs. case_decide; lia. }
        set (nextRow := {| cells := length (Serialize.rowHeap st);
                           beforeRow := beforeRow rowx;
                           afterRow := afterRow rowx;
                           cellsPosition := [] |}) in *.
        set (p := Serialize.below cp nextRow r 0) in *.
        assert (∀ r' row', Serialize.spliceRow (Serialize.rows st ++ [nextRow]) (S r) 0 p !! r' = Some row' →
                  (r' = S r ∧ row' = setCellsPosition nextRow [p]) ∨
                  (r' ≠ S r ∧ Serialize.rows st !! r' = Some row')) as Hlook.
        { intros r' row' Hr'. rewrite spliceRow_lookup in Hr'.
          case_decide as Hd.
          - subst r'. left. split; [done|].
            rewrite lookup_app_r, Hrs, Nat.sub_diag in Hr' by lia.
            simpl in Hr'. by simplify_eq.
          - right. split; [done|].
            apply lookup_app_Some in Hr' as [?|[? Hr']]; [done|].
            apply list_lookup_singleton_Some in Hr' as [? _]. lia. }
        split; simpl.
        -- rewrite spliceRow_length, length_app, Hrs. simpl.
           unfold nrows. rewrite decide_True by done. lia.
        -- intros r' row' [[-> ->]|[Hne Hr']]%Hlook.
           ++ exists Tr'. split; [done|]. simpl. change (core p) with e'.
              rewrite (rowAt_expand _ _ _ _ _ e'); [|done|right; right; lia].
              simpl. f_equal.
              rewrite (filter_anchor_below (S r) Tr' (drop 2 Tr')); [|done..|].
              2:{ intros x Hx. apply list_elem_of_lookup_1 in Hx as [i Hx].
                  rewrite lookup_drop in Hx. by eapply list_elem_of_lookup_2. }
              rewrite app_nil_r. destruct (Tr' !! 1) as [e1|] eqn:H1; [|done].
              simpl. rewrite filter_cons, filter_nil, decide_False; [done|].
              intros [Ha|[_ ?]]; [|lia].
              eapply (slot_below_bodies HL (S r) 1); [|done..].
              unfold slotAt. by rewrite HTr'.
           ++ destruct (Hrows _ _ Hr') as (Tr0 & HTr0 & Hcore0).
              exists Tr0. split; [done|]. rewrite Hcore0.
              apply rowAt_ext; [|done]. intros e _. rewrite reached1_step.
              intuition congruence.
        -- intros r' c'. rewrite elem_of_app, list_elem_of_singleton, Hmarks.
           split.
           ++ intros [(e & He0 & Ha & Hp)|[= -> ->]].
              ** exists e. split; [done|split; [done|]].
                 destruct Hp as [?|[[-> ?]|?]]; [by left| |by right; right].
                 right; left. split; [done|]. rewrite reached1_step. by left.
              ** exists e'. split; [done|split; [done|]].
                 right; left. split; [done|]. right; right. lia.
           ++ intros (e & He0 & Ha & Hp).
              destruct Hp as [?|[[-> Hp]|?]].
              ** left. exists e. split; [done|split; [done|]]. by left.
              ** apply reached1_step in Hp as [Hp| ->].
                 --- left. exists e. split; [done|split; [done|]]. by right; left.
                 --- by right.
              ** left. exists e. split; [done|split; [done|]]. by right; right.
        -- intros r' row' c' q [[-> ->]|[Hne Hr']]%Hlook Hq Hc'; [lia|].
           by eapply Hidx; eauto.
        -- intros r' row' q [[-> ->]|[Hne Hr']]%Hlook Hq; [|by eauto].
           simpl in Hq. apply list_elem_of_singleton in Hq as ->. done.
        -- intros r' row' [[-> ->]|[Hne Hr']]%Hlook; [|by eauto].
           simpl. rewrite Hheap, length_app, length_replicate, Hrs.
           unfold rowIdOf. by rewrite lookup_ge_None_2 by lia.
        -- rewrite spliceRow_length, length_app, Hrs, Hheap, Hrs. simpl.
           rewrite <-app_assoc. f_equal.
           replace (S (r + 1) - length bodies) with (S (S r - length bodies)) by lia.
           by rewrite replicate_S_end.
  - assert (¬ (slotRow (core cp) + 1 < rowspan cl)%Z) as Hge'.
    { change (slotRow (core cp)) with (offsetRow cp). lia. }
    eapply sweep_inv_stable; eauto.
    + intros r' e He0. rewrite reached1_step. split; [|by left].
      intros [?| ->]; [done|].
      destruct (slot_cell HL _ _ _ He0) as (? & _ & ? & _).
      pose proof (no_span_down _ _ _ _ _ He Hcl Hge' He0).
      right; left. lia.
    + unfold nrows. case_decide as Hc0; [|done]. subst c.
      destruct (decide (S r < length T ∧ length bodies ≤ S r)) as [[H1 H2]|]; [|lia].
      exfalso. destruct (slotAt_lt HL _ _ _ He) as [_ Hw].
      destruct (slotAt_is_Some HL (S r) 0 H1 Hw) as [e0 He0].
      pose proof (slot_below_bodies HL _ _ _ He0 H2) as Hna.
      pose proof (slot_column0 HL _ _ He0).
      destruct (slot_cell HL _ _ _ He0) as (? & _ & ? & _).
      pose proof (no_span_down _ _ _ _ _ He Hcl Hge' He0).
      apply Hna. split; lia.
    + intros. eapply (inv_idx _ _ _ _ _ _ _ Hinv); eauto.
Qed.

End SweepSteps.

(** ** The two loops of [serialize] *)

Section SweepLoops.
Context {ch : list TableCell} {rh : list (list CellId)} {bodies : list RowId}.
Context {T : list (list slot)}.
Hypothesis HL : layout ch rh bodies T.

Local Abbreviation inv := (sweep_inv rh bodies T).

Lemma spanRight_lookup cl r c rowx cp' st row_ cp :
  Serialize.rows st !! r = Some row_ → cellsPosition row_ !! c = Some cp →
  ∃ row2, Serialize.rows (Serialize.spanRight cl r c rowx cp' st) !! r = Some row2
          ∧ cellsPosition row2 !! c = Some cp.
Proof.
  intros Hrow Hcp. unfold Serialize.spanRight.
  destruct (_ <? _)%Z; [|by eauto].
  destruct (bool_decide _); [by eauto|]. simpl.
  rewrite spliceRow_lookup, decide_True, Hrow by done. simpl.
  eexists. split; [done|]. simpl.
  rewrite lookup_splice_lt; [done|lia|].
  apply lookup_lt_Some in Hcp. lia.
Qed.

(** The loop body for a row that has an entry at [columnIndex]. *)
Lemma sweep_visit c r st row_ cp :
  inv c r r st →
  Serialize.rows st !! r = Some row_ → cellsPosition row_ !! c = Some cp →
  ∃ st', Serialize.visit ch r c row_ cp st = Val st' ∧ inv c (S r) (S r) st'.
Proof using HL.
  intros Hinv Hrow Hcp.
  pose proof (sweep_entry HL _ _ _ _ _ _ _ Hinv (Nat.le_refl r) Hrow Hcp) as He.
  destruct (slot_cell HL _ _ _ He) as (cl & Hcl & _).
  change (slotCell (core cp)) with (cell cp) in Hcl.
  pose proof (sweep_set_index _ _ _ _ _ Hinv Hrow Hcp) as Hinv1. simpl in Hinv1.
  unfold Serialize.visit. simpl. rewrite Hcl. simpl.
  set (cp' := setColumnIndex (setRowIndex cp (Some (Z.of_nat r)))
                (Some (Z.of_nat c))) in *.
  set (row' := setCellsPosition row_ (<[c:=cp']> (cellsPosition row_))) in *.
  set (st1 := Serialize.mkState _ _ _) in *.
  assert (Serialize.rows st1 !! r = Some row') as Hrow1.
  { simpl. apply list_lookup_insert_eq. by eapply lookup_lt_Some. }
  assert (cellsPosition row' !! c = Some cp') as Hcp1.
  { simpl. apply list_lookup_insert_eq. by eapply lookup_lt_Some. }
  pose proof (sweep_spanRight HL c r st1 row' cp' cl Hinv1 Hrow1 Hcp1
                eq_refl eq_refl Hcl) as Hinv2.
  destruct (spanRight_lookup cl r c row' cp' st1 row' cp' Hrow1 Hcp1)
    as (row2 & Hrow2 & Hcp2).
  eexists. split; [done|].
  by eapply sweep_spanDown.
Qed.

(** A row of the matrix has an entry at the column being swept exactly
    when the tiling has that column. *)
Lemma sweep_entry_is_Some c r st row_ :
  inv c r r st → Serialize.rows st !! r = Some row_ →
  is_Some (cellsPosition row_ !! c) ↔ c < width T.
Proof using HL.
  intros Hinv Hrow.
  destruct (inv_rows _ _ _ _ _ _ _ Hinv _ _ Hrow) as (Tr & HTr & Hcore).
  rewrite <-(layout_length HL _ _ HTr), <-lookup_lt_is_Some.
  rewrite <-(rowAt_lookup_here HL c r r r Tr HTr (Nat.le_refl r)), <-Hcore.
  rewrite list_lookup_fmap. by rewrite fmap_is_Some.
Qed.

Lemma nrows_le c rb : nrows bodies T c rb ≤ length T.
Proof using HL. pose proof (layout_rows_le HL). unfold nrows. case_decide; lia. Qed.

Lemma nrows_gt c rb : rb < length T → rb < nrows bodies T c rb.
Proof. unfold nrows. case_decide; lia. Qed.

(** Past the last column nothing is left to do. *)
Lemma sweep_inv_done c ra rb ra' rb' st :
  inv c ra rb st → width T ≤ c → inv c ra' rb' st.
Proof using HL.
  intros Hinv Hc. eapply sweep_inv_stable; eauto.
  - intros r e He. apply (slotAt_lt HL) in He. lia.
  - intros r e He. apply (slotAt_lt HL) in He. lia.
  - unfold nrows. case_decide; [|done]. subst c.
    rewrite (layout_empty_width HL) by lia. lia.
  - intros r row_ p Hrow Hp _. exfalso.
    destruct (inv_rows _ _ _ _ _ _ _ Hinv _ _ Hrow) as (Tr & HTr & Hcore).
    rewrite rowAt_ge in Hcore by (rewrite (layout_length HL _ _ HTr); lia).
    apply lookup_lt_Some in Hp.
    rewrite <-(length_fmap core), Hcore, (layout_length HL _ _ HTr) in Hp. lia.
Qed.

Lemma sweepRows_spec fuel c r stop st :
  inv c r r st → r ≤ length T → length T - r < fuel →
  ∃ st', Serialize.sweepRows fuel ch c r stop st =
           Val (stop || bool_decide (r < length T ∧ c < width T), st')
         ∧ inv c (length T) (length T) st'.
Proof using HL.
  revert r stop st. induction fuel as [|fuel IH]; intros r stop st Hinv Hle Hfuel; [lia|].
  simpl. destruct (Serialize.rows st !! r) as [row_|] eqn:Hrow.
  - assert (r < length T) as Hr.
    { apply lookup_lt_Some in Hrow. rewrite (inv_len _ _ _ _ _ _ _ Hinv) in Hrow.
      pose proof (nrows_le c r). lia. }
    destruct (cellsPosition row_ !! c) as [cp|] eqn:Hcp.
    + destruct (sweep_visit c r st row_ cp Hinv Hrow Hcp) as (st' & -> & Hinv').
      simpl.
      destruct (IH (S r) true st' Hinv') as (st'' & -> & Hinv''); [lia..|].
      exists st''. split; [|done]. f_equal. f_equal.
      assert (c < width T).
      { apply (sweep_entry_is_Some c r st row_ Hinv Hrow). by rewrite Hcp. }
      rewrite (bool_decide_eq_true_2 (r < _ ∧ _)) by done.
      by rewrite orb_true_r.
    + assert (width T ≤ c) as Hc.
      { destruct (decide (c < width T)) as [Hlt|]; [|lia].
        apply (sweep_entry_is_Some c r st row_ Hinv Hrow) in Hlt.
        rewrite Hcp in Hlt. by destruct Hlt. }
      destruct (IH (S r) stop st) as (st'' & -> & Hinv'').
      { by eapply sweep_inv_done. }
      { lia. }
      { lia. }
      exists st''. split; [|done]. f_equal. f_equal.
      rewrite !bool_decide_eq_false_2 by lia. done.
  - apply lookup_ge_None_1 in Hrow. rewrite (inv_len _ _ _ _ _ _ _ Hinv) in Hrow.
    assert (length T ≤ r) as Hr.
    { destruct (decide (r < length T)) as [Hlt|]; [|lia].
      apply (nrows_gt c) in Hlt. lia. }
    exists st. split.
    + rewrite bool_decide_eq_false_2 by lia. by rewrite orb_false_r.
    + destruct (decide (width T ≤ c)); [by eapply sweep_inv_done|].
      assert (r = length T) as ->; [lia|done].
Qed.


(** From the end of the sweep of one column to the start of the next. *)
Lemma rowAt_next c r Tr :
  T !! r = Some Tr → r < length T →
  rowAt c (length T) (length T) r Tr = rowAt (S c) 0 0 r Tr.
Proof using HL.
  intros HTr Hr. destruct (Tr !! c) as [e|] eqn:Hc.
  2:{ apply lookup_ge_None_1 in Hc. by rewrite !rowAt_ge by lia. }
  rewrite (rowAt_expand _ _ _ _ _ e); [|done|].
  2:{ eapply (reached1_here HL); [|lia]. unfold slotAt. by rewrite HTr. }
  unfold rowAt. rewrite (take_S_r _ _ _ Hc), <-app_assoc. simpl.
  f_equal. f_equal. f_equal.
  - apply filter_option_list_ext. intros e1 He1.
    assert (slotAt T r (S c) = Some e1) as Hs by (unfold slotAt; by rewrite HTr).
    destruct (slot_cell HL _ _ _ Hs) as (? & _ & ? & ?).
    unfold reached2, reached1, anchor. lia.
  - destruct (Tr !! S (S c)) as [e2|] eqn:Hc2.
    + rewrite (drop_S _ _ _ Hc2). simpl. rewrite !filter_cons, filter_nil.
      destruct (decide (anchor e2)) as [Ha|Ha].
      * by rewrite decide_True by by left.
      * rewrite decide_False; [done|]. intros [?|[_ ?]]; [done|lia].
    + apply lookup_ge_None_1 in Hc2. by rewrite !drop_ge by lia.
Qed.

Lemma sweep_inv_next c st :
  inv c (length T) (length T) st → inv (S c) 0 0 st.
Proof using HL.
  intros [Hlen Hrows Hmarks Hidx Hrowid Hcells Hheap].
  assert (nrows bodies T c (length T) = length T) as Hn.
  { pose proof (layout_rows_le HL). unfold nrows. case_decide; lia. }
  split; try done.
  - by rewrite Hlen, Hn.
  - intros r row_ Hrow. destruct (Hrows _ _ Hrow) as (Tr & HTr & Hcore).
    exists Tr. split; [done|]. rewrite Hcore. apply rowAt_next; [done|].
    by eapply lookup_lt_Some.
  - intros r c'. rewrite Hmarks.
    split; intros (e & He & Ha & Hp); exists e; (split; [done|split; [done|]]);
      destruct (slot_cell HL _ _ _ He) as (? & _ & ? & ?);
      destruct (slotAt_lt HL _ _ _ He) as [Hr _];
      unfold placed, reached1, reached2, anchor in *.
    + destruct Hp as [?|[[-> ?]|[-> Hp]]]; [left; lia|left; lia|].
      right; left. split; [done|]. lia.
    + destruct Hp as [?|[[-> Hp]|[-> Hp]]].
      * destruct (decide (c' = c)) as [->|]; [|left; lia].
        right; left. split; [done|].
        destruct r; [|lia]. right; left. by eapply (slot_row0 HL).
      * right; right. split; [done|]. lia.
      * exfalso. lia.
  - intros r row_ c' p Hrow Hp Hc'. eapply Hidx; eauto.
    apply lookup_lt_Some in Hrow. rewrite Hlen, Hn in Hrow.
    destruct Hc' as [?|[_ ?]]; [|lia].
    destruct (decide (c' = c)); [right|left]; lia.
Qed.

Lemma sweepColumns_spec fuel rowFuel c st :
  inv c 0 0 st → c ≤ width T → width T - c < fuel → length T < rowFuel →
  ∃ st', Serialize.sweepColumns fuel rowFuel ch c st = Val st'
         ∧ inv (width T) (length T) (length T) st'.
Proof using HL.
  revert c st. induction fuel as [|fuel IH]; intros c st Hinv Hc Hfuel Hrf; [lia|].
  simpl.
  destruct (sweepRows_spec rowFuel c 0 false st Hinv) as (st' & -> & Hinv');
    [lia..|].
  simpl. case_bool_decide as Hd.
  - destruct Hd as [HR HC]. apply sweep_inv_next in Hinv'.
    apply IH; [done|lia..].
  - exists st'. split; [done|].
    assert (width T ≤ c) as Hge.
    { destruct (decide (0 < length T)); [lia|].
      assert (T = []) as -> by (destruct T; [done|simpl in *; lia]).
      unfold width. simpl. lia. }
    assert (c = width T) as -> by lia. done.
Qed.

(** The matrix at the end of the sweep. *)
Lemma sweep_final ra rb st :
  inv (width T) ra rb st →
  shows (Serialize.rows st) T ∧
  (∀ r row_, Serialize.rows st !! r = Some row_ →
     cells row_ = rowIdOf rh bodies r) ∧
  Serialize.rowHeap st = rh ++ replicate (length T - length bodies) [].
Proof using HL.
  intros Hinv.
  apply (sweep_inv_done _ _ _ (length T) (length T)) in Hinv; [|done].
  destruct Hinv as [Hlen Hrows Hmarks Hidx Hrowid Hcells Hheap].
  assert (nrows bodies T (width T) (length T) = length T) as Hn.
  { pose proof (layout_rows_le HL). unfold nrows. case_decide; lia. }
  rewrite Hn in Hlen.
  split; [split; [done|]|split; [done|by rewrite Hheap, Hlen]].
  intros r row_ Tr Hrow HTr.
  destruct (Hrows _ _ Hrow) as (Tr' & HTr' & Hcore). simplify_eq.
  rewrite rowAt_ge in Hcore by by rewrite (layout_length HL _ _ HTr).
  split; [done|]. intros c p Hp.
  assert (c < width T) as Hc.
  { apply lookup_lt_Some in Hp.
    by rewrite <-(length_fmap core), Hcore, (layout_length HL _ _ HTr) in Hp. }
  destruct (Hidx r row_ c p Hrow Hp) as [? ?]; [by left|].
  split; [done|split; [done|]].
  eapply Hrowid; [done|]. by eapply list_elem_of_lookup_2.
Qed.

End SweepLoops.

(** ** The seeds of the sweep *)

Lemma core_seedCells rid cs :
  core <$> Serialize.seedCells rid cs = (λ k, (k, 0%Z, 0%Z)) <$> cs.
Proof.
  apply list_eq. intros i. unfold Serialize.seedCells.
  rewrite !list_lookup_fmap, list_lookup_imap.
  by destruct (cs !! i).
Qed.

Lemma anchors_form (l : list slot) :
  Forall anchor l → l = (λ k, (k, 0%Z, 0%Z)) <$> (slotCell <$> l).
Proof.
  induction 1 as [|[[k i] j] l [Hi Hj] _ IH]; [done|].
  unfold slotRow, slotColumn in *. simpl in *. subst.
  f_equal. exact IH.
Qed.

Lemma seedRows_spec rh bodies i todo :
  (∀ rid, rid ∈ todo → is_Some (rh !! rid)) →
  ∃ rs, Serialize.seedRows rh bodies i todo = Val rs ∧
        length rs = length todo ∧
        ∀ k row_, rs !! k = Some row_ →
          ∃ rid cs, todo !! k = Some rid ∧ rh !! rid = Some cs ∧
                    cells row_ = rid ∧
                    cellsPosition row_ = Serialize.seedCells rid cs.
Proof.
  revert i. induction todo as [|rid todo IH]; intros i Hres; simpl.
  - exists []. split; [done|]. split; [done|]. intros k row_ Hk. done.
  - destruct (Hres rid) as [cs Hcs]; [by left|].
    unfold Serialize.seedRow. rewrite Hcs. simpl.
    destruct (IH (S i)) as (rs & -> & Hlen & Hrs).
    { intros rid' ?. apply Hres. by right. }
    simpl. eexists. split; [done|]. split; [simpl; by rewrite Hlen|].
    intros [|k] row_ Hk; simpl in *.
    + simplify_eq. by exists rid, cs.
    + by apply Hrs.
Qed.

Section SweepInit.
Context {ch : list TableCell} {rh : list (list CellId)} {bodies : list RowId}.
Context {T : list (list slot)}.
Hypothesis HL : layout ch rh bodies T.

Lemma rowAt_start r Tr :
  T !! r = Some Tr → rowAt 0 0 0 r Tr = filter anchor Tr.
Proof using HL.
  intros HTr. unfold rowAt. rewrite take_0. simpl.
  assert (∀ c e, Tr !! c = Some e → slotAt T r c = Some e) as Hs.
  { intros c e He. unfold slotAt. by rewrite HTr. }
  destruct Tr as [|e0 [|e1 Tr']]; simpl; [done|..].
  - rewrite !filter_cons, !filter_nil.
    pose proof (slot_column0 HL r e0 (Hs 0 e0 eq_refl)) as H0.
    destruct (decide (anchor e0)) as [Ha|Ha].
    + rewrite decide_True; [done|]. right; left. apply Ha.
    + rewrite decide_False; [done|]. unfold reached1, anchor in *. lia.
  - rewrite !(filter_cons _ e0), !(filter_cons _ e1), !filter_nil.
    pose proof (slot_column0 HL r e0 (Hs 0 e0 eq_refl)) as H0.
    replace (drop 0 Tr') with Tr' by done.
    destruct (decide (anchor e0)) as [Ha|Ha];
      [rewrite decide_True by (right; left; apply Ha)
      |rewrite decide_False by (unfold reached1, anchor in *; lia)];
      (destruct (decide (anchor e1)) as [Ha1|Ha1];
       [rewrite decide_True by by left
       |rewrite decide_False by (unfold reached2 in *; intros [?|[_ ?]]; [done|lia])]);
      done.
Qed.

(** A grid without rows has an empty tiling. *)
Lemma layout_no_rows : length bodies = 0 → length T = 0.
Proof using HL.
  intros Hb. destruct (decide (width T = 0)) as [Hw|Hw].
  { by rewrite (layout_empty_width HL Hw). }
  destruct (decide (length T = 0)) as [|Hr]; [done|]. exfalso.
  destruct (slotAt_is_Some HL 0 0) as [e He]; [lia..|].
  apply (slot_below_bodies HL _ _ _ He); [lia|].
  split; [by eapply (slot_row0 HL)|by eapply (slot_column0 HL)].
Qed.

Lemma sweep_init :
  ∃ rs, Serialize.seedRows rh bodies 0 bodies = Val rs ∧
        sweep_inv rh bodies T 0 0 0 (Serialize.mkState rs [] rh).
Proof using HL.
  destruct (seedRows_spec rh bodies 0 bodies) as (rs & Hseed & Hlen & Hrs).
  { apply (layout_bodies HL). }
  exists rs. split; [done|].
  pose proof (layout_rows_le HL) as Hle.
  split; simpl.
  - rewrite Hlen. unfold nrows. rewrite decide_True by done.
    destruct (decide (length bodies = 0)) as [Hb|]; [|lia].
    rewrite (layout_no_rows Hb). lia.
  - intros r row_ Hrow.
    destruct (Hrs _ _ Hrow) as (rid & cs & Hrid & Hcs & Hcells & Hps).
    destruct (lookup_lt_is_Some_2 T r) as [Tr HTr].
    { apply lookup_lt_Some in Hrid. lia. }
    exists Tr. split; [done|].
    rewrite Hps, core_seedCells, (rowAt_start _ _ HTr).
    rewrite (anchors_form (filter anchor Tr)).
    2:{ apply Forall_forall. intros e He. by apply list_elem_of_filter in He as [? _]. }
    rewrite (layout_anchors HL _ _ HTr). unfold rowCells.
    by rewrite Hrid, Hcs.
  - intros r c'. split; [by intros ?%not_elem_of_nil|].
    intros (e & He & Ha & Hp). exfalso.
    destruct (slot_cell HL _ _ _ He) as (? & _ & ? & ?).
    destruct Hp as [?|[[-> Hp]|[-> Hp]]]; [lia|..].
    + pose proof (slot_column0 HL _ _ He).
      unfold reached1, anchor in *. lia.
    + destruct Hp as [?|[_ ?]]; [done|lia].
  - intros r row_ c' p _ _ ?. lia.
  - intros r row_ p Hrow Hp.
    destruct (Hrs _ _ Hrow) as (rid & cs & Hrid & Hcs & Hcells & Hps).
    rewrite Hps in Hp. apply list_elem_of_lookup_1 in Hp as [i Hi].
    unfold Serialize.seedCells in Hi. rewrite list_lookup_imap in Hi.
    destruct (cs !! i); simpl in Hi; [|done]. by simplify_eq.
  - intros r row_ Hrow.
    destruct (Hrs _ _ Hrow) as (rid & cs & Hrid & Hcs & Hcells & Hps).
    unfold rowIdOf. by rewrite Hrid.
  - by rewrite Hlen, Nat.sub_diag, app_nil_r.
Qed.

End SweepInit.

(** ** The loop bound of [serialize] is enough for a tiling *)

Lemma sum_list_with_fmap {A B} (g : A → B) (f : B → nat) (l : list A) :
  sum_list_with f (g <$> l) = sum_list_with (f ∘ g) l.
Proof. induction l as [|x l IH]; [done|]. rewrite fmap_cons. simpl. by rewrite IH. Qed.

Section Budget.
Context {ch : list TableCell} {rh : list (list CellId)} {bodies : list RowId}.
Context {T : list (list slot)}.
Hypothesis HL : layout ch rh bodies T.

Lemma spanOf_le_budget r k :
  k ∈ rowCells rh bodies r →
  length bodies + Serialize.spanOf ch k < Serialize.budget ch rh bodies.
Proof.
  unfold rowCells, Serialize.budget.
  destruct (bodies !! r) as [rid|] eqn:Hrid; [|by intros ?%not_elem_of_nil].
  intros Hk.
  pose proof (sum_list_with_in _ (Serialize.spanOf ch) _ Hk) as H1.
  pose proof (sum_list_with_in rid
    (λ rid, sum_list_with (Serialize.spanOf ch) (default [] (rh !! rid))) bodies
    (list_elem_of_lookup_2 _ _ _ Hrid)) as H2.
  simpl in H2. lia.
Qed.

(** From a square up to the top row of its span, and left to its first
    column. *)
Lemma climb_up n r c e :
  slotAt T r c = Some e → slotRow e = Z.of_nat n →
  n ≤ r ∧ slotAt T (r - n) c = Some (slotCell e, 0%Z, slotColumn e).
Proof using HL.
  revert r e. induction n as [|n IH]; intros r [[k i] j] He Hi;
    unfold slotRow, slotCell, slotColumn in *; simpl in *.
  - subst i. split; [lia|]. by rewrite Nat.sub_0_r.
  - destruct (slot_up HL _ _ _ He) as (r0 & -> & Hup).
    { unfold slotRow. simpl. lia. }
    destruct (IH r0 _ Hup) as [Hle Hs].
    { unfold slotRow. simpl. lia. }
    split; [lia|]. done.
Qed.

Lemma climb_left n r c e :
  slotAt T r c = Some e → slotColumn e = Z.of_nat n →
  n ≤ c ∧ slotAt T r (c - n) = Some (slotCell e, slotRow e, 0%Z).
Proof using HL.
  revert c e. induction n as [|n IH]; intros c [[k i] j] He Hj;
    unfold slotRow, slotCell, slotColumn in *; simpl in *.
  - subst j. split; [lia|]. by rewrite Nat.sub_0_r.
  - destruct (slot_left HL _ _ _ He) as (c0 & -> & Hleft).
    { unfold slotColumn. simpl. lia. }
    destruct (IH c0 _ Hleft) as [Hle Hs].
    { unfold slotColumn. simpl. lia. }
    split; [lia|]. done.
Qed.

Lemma anchor_in_row r c e :
  slotAt T r c = Some e → anchor e → slotCell e ∈ rowCells rh bodies r.
Proof using HL.
  unfold slotAt. destruct (T !! r) as [Tr|] eqn:HTr; [|done]. intros Hc Ha.
  rewrite <-(layout_anchors HL _ _ HTr).
  apply list_elem_of_fmap_2, list_elem_of_filter. split; [done|].
  by eapply list_elem_of_lookup_2.
Qed.

Lemma layout_rows_budget : length T < Serialize.budget ch rh bodies.
Proof using HL.
  destruct (decide (length T ≤ length bodies)) as [|Hgt].
  { unfold Serialize.budget. lia. }
  assert (0 < width T) as Hw.
  { destruct (decide (width T = 0)) as [Hw|]; [|lia].
    pose proof (layout_empty_width HL Hw). lia. }
  destruct (slotAt_is_Some HL (length T - 1) 0) as [e He]; [lia..|].
  destruct (slot_cell HL _ _ _ He) as (cl & Hcl & Hi & _).
  destruct (climb_up (Z.to_nat (slotRow e)) _ _ _ He) as [Hle Ha]; [lia|].
  assert (length T - 1 - Z.to_nat (slotRow e) < length bodies) as Hlt.
  { destruct (decide (length T - 1 - Z.to_nat (slotRow e) < length bodies));
      [done|]. exfalso.
    eapply (slot_below_bodies HL _ _ _ Ha); [lia|].
    split; [done|]. by eapply (slot_column0 HL). }
  pose proof (spanOf_le_budget _ _ (anchor_in_row _ _ _ Ha
    (conj eq_refl (slot_column0 HL _ _ He)))) as Hb.
  change (slotCell (slotCell e, 0%Z, slotColumn e)) with (slotCell e) in Hb.
  unfold Serialize.spanOf in Hb. rewrite Hcl in Hb. lia.
Qed.

Lemma spanSum_app l1 l2 :
  spanSum ch (l1 ++ l2) = spanSum ch l1 + spanSum ch l2.
Proof. unfold spanSum. by rewrite filter_app, sum_list_with_app. Qed.

Lemma top_row_count T0 n :
  T !! 0 = Some T0 → n ≤ length T0 → n ≤ spanSum ch (take n T0).
Proof using HL.
  intros HT0. induction n as [n IH] using lt_wf_ind. intros Hn.
  destruct n as [|m]; [lia|].
  destruct (lookup_lt_is_Some_2 T0 m) as [e Hm]; [lia|].
  assert (slotAt T 0 m = Some e) as He by (unfold slotAt; by rewrite HT0).
  destruct (slot_cell HL _ _ _ He) as (cl & Hcl & _ & Hj).
  destruct (climb_left (Z.to_nat (slotColumn e)) _ _ _ He) as [Hle Ha]; [lia|].
  set (d := Z.to_nat (slotColumn e)) in *.
  assert (T0 !! (m - d) = Some (slotCell e, slotRow e, 0%Z)) as Hmd.
  { unfold slotAt in Ha. by rewrite HT0 in Ha. }
  rewrite <-(take_drop (m - d) (take (S m) T0)).
  rewrite take_take, Nat.min_l by lia.
  rewrite (drop_S _ (slotCell e, slotRow e, 0%Z)).
  2:{ rewrite lookup_take_lt by lia. done. }
  rewrite spanSum_app.
  pose proof (spanSum_app [(slotCell e, slotRow e, 0%Z)]
                (drop (S (m - d)) (take (S m) T0))) as H3. simpl in H3.
  assert (m - d ≤ spanSum ch (take (m - d) T0)) as H1 by (apply IH; lia).
  assert (d + 1 ≤ spanSum ch [(slotCell e, slotRow e, 0%Z)]) as H2.
  { unfold spanSum. rewrite filter_cons, filter_nil.
    rewrite decide_True by (split; [by eapply (slot_row0 HL)|done]).
    simpl. change (slotCell (slotCell e, slotRow e, 0%Z)) with (slotCell e).
    unfold Serialize.spanOf. rewrite Hcl. lia. }
  lia.
Qed.

Lemma layout_width_budget : width T < Serialize.budget ch rh bodies.
Proof using HL.
  destruct (T !! 0) as [T0|] eqn:HT0.
  2:{ unfold width, Serialize.budget. rewrite head_lookup, HT0. simpl. lia. }
  pose proof (layout_length HL _ _ HT0) as Hlen.
  pose proof (top_row_count T0 (length T0) HT0 (Nat.le_refl _)) as Hc.
  rewrite take_ge in Hc by done.
  unfold spanSum in Hc.
  rewrite <-sum_list_with_fmap, (layout_anchors HL _ _ HT0) in Hc.
  unfold rowCells in Hc. unfold Serialize.budget.
  destruct (bodies !! 0) as [rid|] eqn:Hrid; [|simpl in Hc; lia].
  pose proof (sum_list_with_in rid
    (λ rid, sum_list_with (Serialize.spanOf ch) (default [] (rh !! rid))) bodies
    (list_elem_of_lookup_2 _ _ _ Hrid)) as H2.
  simpl in H2. lia.
Qed.

End Budget.

(** ** [serialize] on a valid grid *)

Lemma layout_ok_layout ch rh bodies T :
  layout_ok ch rh bodies T = true ↔ layout ch rh bodies T.
Proof. unfold layout_ok. apply bool_decide_eq_true. Qed.

(** On a grid with tiling [T] the projector returns a matrix that shows
    [T]; the rows below the stored ones get fresh, empty row arrays. *)
Lemma serialize_layout ch rh bodies T :
  layout ch rh bodies T →
  ∃ m, Serialize.serialize ch rh bodies =
         Val (m, rh ++ replicate (length T - length bodies) [])
       ∧ shows m T
       ∧ ∀ r row_, m !! r = Some row_ → cells row_ = rowIdOf rh bodies r.
Proof.
  intros HL. unfold Serialize.serialize.
  destruct (sweep_init HL) as (rs & -> & Hinv).
  cbn [mbind outcome_bind]. cbv zeta.
  destruct (sweepColumns_spec HL (Serialize.budget ch rh bodies)
              (Serialize.budget ch rh bodies) 0 _ Hinv) as (st & -> & Hinv').
  { lia. }
  { pose proof (layout_width_budget HL). lia. }
  { apply (layout_rows_budget HL). }
  cbn [mbind outcome_bind mret outcome_ret].
  destruct (sweep_final HL _ _ _ Hinv') as (Hshows & Hcells & ->).
  eauto.
Qed.

Section Shown.
Context {ch : list TableCell} {rh : list (list CellId)} {bodies : list RowId}.
Context {T : list (list slot)} {m : list TableRowPosition}.
Hypothesis HL : layout ch rh bodies T.
Hypothesis Hm : shows m T.

Lemma shows_entry r c p : entry m r c = Some p → slotAt T r c = Some (core p).
Proof using Hm.
  unfold entry, slotAt. destruct Hm as [Hlen Hrows].
  destruct (m !! r) as [row_|] eqn:Hr; [|done]. intros Hp.
  destruct (lookup_lt_is_Some_2 T r) as [Tr HTr].
  { rewrite <-Hlen. by eapply lookup_lt_Some. }
  rewrite HTr. destruct (Hrows _ _ _ Hr HTr) as [<- _].
  by rewrite list_lookup_fmap, Hp.
Qed.

Lemma shows_slot r c e :
  slotAt T r c = Some e → ∃ p, entry m r c = Some p ∧ core p = e.
Proof using Hm.
  unfold entry, slotAt. destruct Hm as [Hlen Hrows].
  destruct (T !! r) as [Tr|] eqn:HTr; [|done]. intros He.
  destruct (lookup_lt_is_Some_2 m r) as [row_ Hr].
  { rewrite Hlen. by eapply lookup_lt_Some. }
  rewrite Hr. destruct (Hrows _ _ _ Hr HTr) as [<- _].
  rewrite list_lookup_fmap in He.
  destruct (cellsPosition row_ !! c) as [p|]; [|done].
  simpl in He. exists p. split; [done|]. by simplify_eq.
Qed.

Lemma shows_index r c p :
  entry m r c = Some p →
  rowIndex p = Some (Z.of_nat r) ∧ columnIndex p = Some (Z.of_nat c).
Proof using Hm.
  unfold entry. destruct Hm as [Hlen Hrows].
  destruct (m !! r) as [row_|] eqn:Hr; [|done]. intros Hp.
  destruct (lookup_lt_is_Some_2 T r) as [Tr HTr].
  { rewrite <-Hlen. by eapply lookup_lt_Some. }
  destruct (Hrows _ _ _ Hr HTr) as [_ H]. destruct (H _ _ Hp) as (? & ? & _).
  done.
Qed.

Lemma shows_row_length r row_ :
  m !! r = Some row_ → length (cellsPosition row_) = width T.
Proof using HL Hm.
  destruct Hm as [Hlen Hrows]. intros Hr.
  destruct (lookup_lt_is_Some_2 T r) as [Tr HTr].
  { rewrite <-Hlen. by eapply lookup_lt_Some. }
  destruct (Hrows _ _ _ Hr HTr) as [<- _].
  rewrite <-(layout_length HL _ _ HTr). by rewrite length_fmap.
Qed.

Lemma entry_is_Some r c :
  r < length T → c < width T → is_Some (entry m r c).
Proof using HL Hm.
  intros Hr Hc. destruct (slotAt_is_Some HL r c Hr Hc) as [e He].
  destruct (shows_slot _ _ _ He) as (p & -> & _). done.
Qed.

Lemma entry_lt r c p : entry m r c = Some p → r < length T ∧ c < width T.
Proof using HL Hm. intros H%shows_entry. by eapply slotAt_lt. Qed.

End Shown.

(** The squares of a span, from its anchor. *)
Lemma span_cover ch rh bodies T r0 c0 k cl (i j : nat) :
  layout ch rh bodies T →
  slotAt T r0 c0 = Some (k, 0%Z, 0%Z) → ch !! k = Some cl →
  (Z.of_nat i < rowspan cl)%Z → (Z.of_nat j < colspan cl)%Z →
  slotAt T (r0 + i) (c0 + j) = Some (k, Z.of_nat i, Z.of_nat j).
Proof.
  intros HL Ha Hcl Hi Hj.
  assert (slotAt T r0 (c0 + j) = Some (k, 0%Z, Z.of_nat j)) as Hrow.
  { clear Hi. induction j as [|j IH].
    - by rewrite Nat.add_0_r.
    - rewrite Nat.add_succ_r.
      pose proof (slot_right HL _ _ _ cl (IH ltac:(lia)) Hcl) as H.
      unfold slotColumn, slotRow, slotCell in H. simpl in H.
      rewrite H by lia. do 2 f_equal. lia. }
  clear Ha. induction i as [|i IH].
  - by rewrite Nat.add_0_r.
  - rewrite Nat.add_succ_r.
    pose proof (slot_down HL _ _ _ cl (IH ltac:(lia)) Hcl) as H.
    unfold slotColumn, slotRow, slotCell in H. simpl in H.
    rewrite H by lia. do 2 f_equal. f_equal. lia.
Qed.

(** C3. For every grid whose spans tile a rectangle, the projector returns
    a matrix with span coverage: it is rectangular; every cell stored in
    row [r] of the grid has an entry with both offsets zero in row [r] of
    the matrix; from an entry with both offsets zero, at [(r0, c0)], for a
    cell of spans [(rs, cs)], the entry at every [(r0 + i, c0 + j)] with
    [i < rs] and [j < cs] names that cell, with [offsetRow = i] and
    [offsetColumn = j]; and the offsets of every entry lie within the spans
    of the cell it names. *)
Theorem serialize_span_coverage ch rh bodies T :
  layout_ok ch rh bodies T = true →
  ∃ m rh', Serialize.serialize ch rh bodies = Val (m, rh') ∧
    length m = length T ∧
    (∀ r row_, m !! r = Some row_ → length (cellsPosition row_) = width T) ∧
    (∀ r rid cs k, bodies !! r = Some rid → rh !! rid = Some cs → k ∈ cs →
       ∃ c p, entry m r c = Some p ∧ cell p = k ∧
              offsetRow p = 0%Z ∧ offsetColumn p = 0%Z) ∧
    (∀ r0 c0 p0 cl, entry m r0 c0 = Some p0 →
       offsetRow p0 = 0%Z → offsetColumn p0 = 0%Z → ch !! cell p0 = Some cl →
       ∀ i j : nat, (Z.of_nat i < rowspan cl)%Z → (Z.of_nat j < colspan cl)%Z →
         ∃ p, entry m (r0 + i) (c0 + j) = Some p ∧ cell p = cell p0 ∧
              offsetRow p = Z.of_nat i ∧ offsetColumn p = Z.of_nat j) ∧
    (∀ r c p, entry m r c = Some p →
       ∃ cl, ch !! cell p = Some cl ∧
             (0 ≤ offsetRow p < rowspan cl)%Z ∧
             (0 ≤ offsetColumn p < colspan cl)%Z).
Proof.
  intros HL%layout_ok_layout.
  destruct (serialize_layout _ _ _ _ HL) as (m & Hser & Hm & _).
  exists m, (rh ++ replicate (length T - length bodies) []).
  split; [done|]. split; [by destruct Hm|].
  split; [by apply (shows_row_length HL Hm)|].
  split; [|split].
  - intros r rid cs k Hrid Hcs Hk.
    destruct (lookup_lt_is_Some_2 T r) as [Tr HTr].
    { pose proof (layout_rows_le HL). apply lookup_lt_Some in Hrid. lia. }
    pose proof (layout_anchors HL _ _ HTr) as Ha.
    unfold rowCells in Ha. rewrite Hrid, Hcs in Ha. simpl in Ha.
    rewrite <-Ha in Hk.
    apply list_elem_of_fmap_1 in Hk as (e & -> & He).
    apply list_elem_of_filter in He as [[Hi Hj] He].
    apply list_elem_of_lookup_1 in He as [c Hc].
    destruct (shows_slot Hm r c e) as (p & Hp & <-).
    { unfold slotAt. by rewrite HTr. }
    by exists c, p.
  - intros r0 c0 p0 cl Hp0 Hi0 Hj0 Hcl i j Hi Hj.
    pose proof (shows_entry Hm _ _ _ Hp0) as Hs. unfold core in Hs.
    rewrite Hi0, Hj0 in Hs.
    pose proof (span_cover _ _ _ _ _ _ _ _ i j HL Hs Hcl Hi Hj) as Hs'.
    destruct (shows_slot Hm _ _ _ Hs') as (p & Hp & Hcore).
    exists p. split; [done|]. by injection Hcore as -> -> ->.
  - intros r c p Hp. pose proof (shows_entry Hm _ _ _ Hp) as Hs.
    apply (slot_cell HL) in Hs. done.
Qed.

Lemma serialize_span_coverage_witness :
  ∃ m rh', Serialize.serialize Ex.cells_2x3 Ex.rows_2x3 [0; 1] = Val (m, rh')
           ∧ length m = 2.
Proof.
  destruct (serialize_span_coverage Ex.cells_2x3 Ex.rows_2x3 [0; 1]
              Ex.tiling_2x3 eq_refl) as (m & rh' & H & Hlen & _).
  exists m, rh'. split; [exact H|exact Hlen].
Defined.

(** ** Spans in a tiling *)

Section Geometry.
Context {ch : list TableCell} {rh : list (list CellId)} {bodies : list RowId}.
Context {T : list (list slot)}.
Hypothesis HL : layout ch rh bodies T.

Lemma walk_left n r c e :
  slotAt T r c = Some e → (Z.of_nat n ≤ slotColumn e)%Z →
  n ≤ c ∧
  slotAt T r (c - n) = Some (slotCell e, slotRow e, (slotColumn e - Z.of_nat n)%Z).
Proof using HL.
  revert c e. induction n as [|n IH]; intros c [[k i] j] He Hj;
    unfold slotRow, slotCell, slotColumn in *; simpl in *.
  - split; [lia|]. rewrite Nat.sub_0_r, He. do 2 f_equal. lia.
  - destruct (slot_left HL _ _ _ He) as (c0 & -> & Hleft).
    { unfold slotColumn. simpl. lia. }
    unfold slotCell, slotRow, slotColumn in Hleft. simpl in Hleft.
    destruct (IH c0 _ Hleft) as [Hle Hs]; [simpl; lia|].
    split; [lia|]. simpl in *. rewrite Hs. do 2 f_equal. lia.
Qed.

Lemma walk_up n r c e :
  slotAt T r c = Some e → (Z.of_nat n ≤ slotRow e)%Z →
  n ≤ r ∧
  slotAt T (r - n) c = Some (slotCell e, (slotRow e - Z.of_nat n)%Z, slotColumn e).
Proof using HL.
  revert r e. induction n as [|n IH]; intros r [[k i] j] He Hi;
    unfold slotRow, slotCell, slotColumn in *; simpl in *.
  - split; [lia|]. rewrite Nat.sub_0_r, He. do 2 f_equal. f_equal. lia.
  - destruct (slot_up HL _ _ _ He) as (r0 & -> & Hup).
    { unfold slotRow. simpl. lia. }
    unfold slotCell, slotRow, slotColumn in Hup. simpl in Hup.
    destruct (IH r0 _ Hup) as [Hle Hs]; [simpl; lia|].
    split; [lia|]. simpl in *. rewrite Hs. do 2 f_equal. f_equal. lia.
Qed.

Lemma walk_right n r c e cl :
  slotAt T r c = Some e → ch !! slotCell e = Some cl →
  (slotColumn e + Z.of_nat n < colspan cl)%Z →
  slotAt T r (c + n) = Some (slotCell e, slotRow e, (slotColumn e + Z.of_nat n)%Z).
Proof using HL.
  intros He Hcl. induction n as [|n IH]; intros Hn.
  - rewrite Nat.add_0_r, He. destruct e as [[k i] j]. simpl.
    unfold slotColumn. simpl. do 2 f_equal. lia.
  - rewrite Nat.add_succ_r.
    pose proof (slot_right HL _ _ _ cl (IH ltac:(lia)) Hcl) as H.
    unfold slotColumn, slotRow, slotCell in *. simpl in *.
    rewrite H by lia. do 2 f_equal. lia.
Qed.

Lemma walk_down n r c e cl :
  slotAt T r c = Some e → ch !! slotCell e = Some cl →
  (slotRow e + Z.of_nat n < rowspan cl)%Z →
  slotAt T (r + n) c = Some (slotCell e, (slotRow e + Z.of_nat n)%Z, slotColumn e).
Proof using HL.
  intros He Hcl. induction n as [|n IH]; intros Hn.
  - rewrite Nat.add_0_r, He. destruct e as [[k i] j]. simpl.
    unfold slotRow. simpl. do 2 f_equal. f_equal. lia.
  - rewrite Nat.add_succ_r.
    pose proof (slot_down HL _ _ _ cl (IH ltac:(lia)) Hcl) as H.
    unfold slotColumn, slotRow, slotCell in *. simpl in *.
    rewrite H by lia. do 2 f_equal. f_equal. lia.
Qed.

(** The span of the cell of a square lies in the grid and holds the
    square. *)
Lemma spanAt_bounds r c e cl :
  slotAt T r c = Some e → ch !! slotCell e = Some cl →
  inBounds (length T) (width T) (spanAt r c e cl) ∧ inside (spanAt r c e cl) r c.
Proof using HL.
  intros He Hcl.
  destruct (slot_cell HL _ _ _ He) as (cl' & Hcl' & Hi & Hj). simplify_eq.
  destruct (walk_left (Z.to_nat (slotColumn e)) _ _ _ He) as [Hc _]; [lia|].
  destruct (walk_up (Z.to_nat (slotRow e)) _ _ _ He) as [Hr _]; [lia|].
  pose proof (walk_right (Z.to_nat (colspan cl - 1 - slotColumn e)) _ _ _ _
                He Hcl ltac:(lia)) as Hright.
  pose proof (walk_down (Z.to_nat (rowspan cl - 1 - slotRow e)) _ _ _ _
                He Hcl ltac:(lia)) as Hdown.
  apply (slotAt_lt HL) in Hright as [_ Hright].
  apply (slotAt_lt HL) in Hdown as [Hdown _].
  unfold inBounds, inside, spanAt. simpl. lia.
Qed.

(** A rectangle that covers the cells of an inner one contains it. *)
Lemma covers_contains q' q :
  inBounds (length T) (width T) q → covers ch T q' q → contains q' q.
Proof using HL.
  intros (Hb1 & Hb2 & Hb3 & Hb4) Hcov.
  destruct (slotAt_is_Some HL (top q) (left q)) as [e1 He1]; [lia..|].
  destruct (slotAt_is_Some HL (bottom q) (right q)) as [e2 He2]; [lia..|].
  destruct (slot_cell HL _ _ _ He1) as (cl1 & Hcl1 & _).
  destruct (slot_cell HL _ _ _ He2) as (cl2 & Hcl2 & _).
  pose proof (Hcov _ _ _ _ He1 Hcl1 ltac:(unfold inside; lia)) as Hc1.
  pose proof (Hcov _ _ _ _ He2 Hcl2 ltac:(unfold inside; lia)) as Hc2.
  destruct (spanAt_bounds _ _ _ _ He1 Hcl1) as [_ ?].
  destruct (spanAt_bounds _ _ _ _ He2 Hcl2) as [_ ?].
  unfold contains, inside in *. lia.
Qed.

(** The span of a cell clips no cell. *)
Lemma same_span r c e cl r' c' e' cl' :
  slotAt T r c = Some e → ch !! slotCell e = Some cl →
  slotAt T r' c' = Some e' → ch !! slotCell e' = Some cl' →
  inside (spanAt r c e cl) r' c' →
  spanAt r' c' e' cl' = spanAt r c e cl.
Proof using HL.
  intros He Hcl He' Hcl' Hin.
  destruct (slot_cell HL _ _ _ He) as (? & ? & Hi & Hj). simplify_eq.
  destruct (walk_left (Z.to_nat (slotColumn e)) _ _ _ He) as [Hc Ha]; [lia|].
  destruct (walk_up (Z.to_nat (slotRow e)) _ _ _ Ha) as [Hr Ha'].
  { slot_simpl. lia. }
  unfold inside, spanAt in Hin. simpl in Hin.
  pose proof (walk_right (c' - (c - Z.to_nat (slotColumn e))) _ _ _ cl Ha' Hcl) as Hw.
  slot_simpl. specialize (Hw ltac:(lia)).
  pose proof (walk_down (r' - (r - Z.to_nat e.1.2)) _ _ _ cl Hw Hcl) as Hd.
  slot_simpl. specialize (Hd ltac:(lia)).
  replace (r - Z.to_nat e.1.2 + (r' - (r - Z.to_nat e.1.2))) with r' in Hd by lia.
  replace (c - Z.to_nat e.2 + (c' - (c - Z.to_nat e.2))) with c' in Hd by lia.
  rewrite He' in Hd. injection Hd as ->. simpl in Hcl'.
  simplify_eq.
  unfold spanAt, slotRow, slotColumn. simpl. f_equal; lia.
Qed.

Lemma span_closed r c e cl :
  slotAt T r c = Some e → ch !! slotCell e = Some cl →
  closed ch T (spanAt r c e cl).
Proof using HL.
  intros He Hcl r' c' e' cl' He' Hcl' Hin.
  rewrite (same_span _ _ _ _ _ _ _ _ He Hcl He' Hcl' Hin).
  unfold contains. lia.
Qed.

End Geometry.

(** ** The four overflow amounts of [selectCellsByRange] *)

Lemma mapM_outcome {A B} (f : A → outcome B) (l : list A) :
  (∀ x, x ∈ l → ∃ y, f x = Val y) →
  ∃ l', mapM f l = Val l' ∧ Forall2 (λ x y, f x = Val y) l l'.
Proof.
  induction l as [|x l IH]; intros Hf.
  - exists []. split; [done|constructor].
  - destruct (Hf x) as [y Hy]; [by left|].
    destruct IH as (l' & Hl' & HF).
    { intros x' ?. apply Hf. by right. }
    exists (y :: l'). split; [|by constructor].
    simpl. rewrite Hy. simpl. rewrite Hl'. done.
Qed.

Lemma foldl_max_spec (l : list Z) (a : Z) :
  foldl Z.max a l ∈ a :: l ∧ ∀ x, x ∈ a :: l → (x ≤ foldl Z.max a l)%Z.
Proof.
  revert a. induction l as [|b l IH]; intros a; simpl.
  - split; [by left|]. intros x ->%list_elem_of_singleton. lia.
  - destruct (IH (Z.max a b)) as [Hin Hle]. split.
    + apply elem_of_cons in Hin as [Hin|Hin]; [|by do 2 right].
      rewrite Hin. destruct (Z.max_spec a b) as [[_ ->]|[_ ->]];
        [right; left|left]; done.
    + intros x Hx.
      assert (x ≤ Z.max a b ∨ x ∈ l)%Z as [?|?].
      { apply elem_of_cons in Hx as [->|Hx]; [left; lia|].
        apply elem_of_cons in Hx as [->|Hx]; [left; lia|by right]. }
      * specialize (Hle (Z.max a b) ltac:(by left)). lia.
      * apply Hle. by right.
Qed.

Lemma maxOf_spec (l : list Z) :
  l ≠ [] →
  ∃ v, Js.maxOf l = Some v ∧ v ∈ l ∧ ∀ x, x ∈ l → (x ≤ v)%Z.
Proof.
  destruct l as [|a l]; [done|]. intros _. simpl.
  destruct (foldl_max_spec l a) as [Hin Hle]. eauto.
Qed.

(** The largest value of [f] over a list that is not empty. *)
Lemma edge_max {A} (f : A → outcome Z) (l : list A) :
  l ≠ [] → (∀ x, x ∈ l → ∃ y, f x = Val y) →
  ∃ l' v, mapM f l = Val l' ∧ Js.maxOf l' = Some v ∧
       (∃ x, x ∈ l ∧ f x = Val v) ∧
       (∀ x y, x ∈ l → f x = Val y → (y ≤ v)%Z).
Proof.
  intros Hne Hf. destruct (mapM_outcome f l Hf) as (l' & Hl' & HF).
  destruct (maxOf_spec l') as (v & Hv & Hin & Hle).
  { intros ->. apply Forall2_nil_inv_r in HF. done. }
  exists l', v. split; [done|]. split; [done|]. split.
  - apply list_elem_of_lookup_1 in Hin as [i Hi].
    destruct (Forall2_lookup_r _ _ _ _ _ HF Hi) as (x & Hx & Hfx).
    exists x. split; [by eapply list_elem_of_lookup_2|done].
  - intros x y Hx Hy. apply list_elem_of_lookup_1 in Hx as [i Hi].
    destruct (Forall2_lookup_l _ _ _ _ _ HF Hi) as (y' & Hy' & Hfx).
    rewrite Hy in Hfx. injection Hfx as <-.
    apply Hle. by eapply list_elem_of_lookup_2.
Qed.

Lemma slice_range {A} (l : list A) (a b : nat) :
  Js.slice l (Z.of_nat a) (Z.of_nat b + 1) = take (S b - a) (drop a l).
Proof. replace (Z.of_nat b + 1)%Z with (Z.of_nat (S b)) by lia. apply slice_nat. Qed.

Lemma elem_of_range {A} (l : list A) (a b : nat) (x : A) :
  x ∈ take (S b - a) (drop a l) ↔ ∃ i, a ≤ i ∧ i ≤ b ∧ l !! i = Some x.
Proof.
  rewrite elem_of_take. split.
  - intros (i & Hi & Hlt). rewrite lookup_drop in Hi. exists (a + i).
    split; [lia|]. split; [lia|done].
  - intros (i & Ha & Hb & Hi). exists (i - a). rewrite lookup_drop.
    replace (a + (i - a)) with i by lia. split; [done|lia].
Qed.

Lemma range_nonempty {A} (l : list A) (a b : nat) :
  a ≤ b → b < length l → take (S b - a) (drop a l) ≠ [].
Proof.
  intros Hab Hb Hnil.
  destruct (lookup_lt_is_Some_2 l a) as [x Hx]; [lia|].
  assert (x ∈ take (S b - a) (drop a l)) as Hin.
  { apply elem_of_range. exists a. split; [lia|]. split; [lia|done]. }
  rewrite Hnil in Hin. by apply not_elem_of_nil in Hin.
Qed.

Section Overflow.
Context {ch : list TableCell} {rh : list (list CellId)} {bodies : list RowId}.
Context {T : list (list slot)} {m : list TableRowPosition}.
Hypothesis HL : layout ch rh bodies T.
Hypothesis Hm : shows m T.

Lemma shows_length : length m = length T.
Proof using Hm. by destruct Hm. Qed.

Lemma overflowLeft_spec q :
  inBounds (length T) (width T) q →
  ∃ x1, TableComponent.overflowLeft m (Z.of_nat (top q)) (Z.of_nat (left q))
          (Z.of_nat (bottom q)) = Val x1 ∧
    (∃ r e, top q ≤ r ∧ r ≤ bottom q ∧ slotAt T r (left q) = Some e ∧
            x1 = (- slotColumn e)%Z) ∧
    (∀ r e, top q ≤ r → r ≤ bottom q → slotAt T r (left q) = Some e →
            (slotColumn e ≤ - x1)%Z).
Proof using HL Hm.
  intros (Hb1 & Hb2 & Hb3 & Hb4).
  unfold TableComponent.overflowLeft. rewrite slice_range.
  set (f := λ r : TableRowPosition,
         p ← defined (Js.at_ (cellsPosition r) (Z.of_nat (left q)));
         mret (offsetColumn p)).
  assert (∀ r row_, m !! r = Some row_ →
            ∃ p, entry m r (left q) = Some p ∧ f row_ = Val (offsetColumn p))
    as Hf.
  { intros r row_ Hr.
    destruct (entry_is_Some HL Hm r (left q)) as [p Hp]; [|lia|].
    { rewrite <-shows_length. by eapply lookup_lt_Some. }
    exists p. split; [done|]. unfold entry in Hp. rewrite Hr in Hp.
    unfold f. by rewrite at_nat, Hp. }
  destruct (edge_max f (take (S (bottom q) - top q) (drop (top q) m)))
    as (l' & v & -> & Hv & (row_ & Hin & Hrow) & Hle).
  { apply range_nonempty; [done|]. rewrite shows_length. lia. }
  { intros row_ (r & _ & _ & Hr)%elem_of_range.
    destruct (Hf _ _ Hr) as (p & _ & ->). eauto. }
  simpl. rewrite Hv. simpl. exists (- v)%Z. split; [done|]. split.
  - apply elem_of_range in Hin as (r & Hr1 & Hr2 & Hr).
    destruct (Hf _ _ Hr) as (p & Hp & Hfp). rewrite Hrow in Hfp.
    injection Hfp as ->.
    exists r, (core p). split; [done|]. split; [done|].
    split; [by apply (shows_entry Hm)|done].
  - intros r e Hr1 Hr2 He.
    destruct (shows_slot Hm _ _ _ He) as (p & Hp & <-).
    destruct (lookup_lt_is_Some_2 m r) as [row' Hrow'].
    { rewrite shows_length. lia. }
    destruct (Hf _ _ Hrow') as (p' & Hp' & Hfp). rewrite Hp in Hp'.
    injection Hp' as <-.
    assert (offsetColumn p ≤ v)%Z; [|slot_simpl; lia].
    eapply Hle; [|done]. apply elem_of_range. eauto.
Qed.

Lemma overflowRight_spec q :
  inBounds (length T) (width T) q →
  ∃ x2, TableComponent.overflowRight ch m (Z.of_nat (top q))
          (Z.of_nat (bottom q)) (Z.of_nat (right q)) = Val x2 ∧
    (∃ r e cl, top q ≤ r ∧ r ≤ bottom q ∧ slotAt T r (right q) = Some e ∧
               ch !! slotCell e = Some cl ∧
               x2 = (colspan cl - (slotColumn e + 1))%Z) ∧
    (∀ r e cl, top q ≤ r → r ≤ bottom q → slotAt T r (right q) = Some e →
               ch !! slotCell e = Some cl →
               (colspan cl - (slotColumn e + 1) ≤ x2)%Z).
Proof using HL Hm.
  intros (Hb1 & Hb2 & Hb3 & Hb4).
  unfold TableComponent.overflowRight. rewrite slice_range.
  set (f := λ r : TableRowPosition,
         p ← defined (Js.at_ (cellsPosition r) (Z.of_nat (right q)));
         c ← defined (ch !! cell p);
         mret (colspan c - (offsetColumn p + 1))%Z).
  assert (∀ r row_, m !! r = Some row_ →
            ∃ p cl, entry m r (right q) = Some p ∧ ch !! cell p = Some cl ∧
                    f row_ = Val (colspan cl - (offsetColumn p + 1))%Z)
    as Hf.
  { intros r row_ Hr.
    destruct (entry_is_Some HL Hm r (right q)) as [p Hp]; [|lia|].
    { rewrite <-shows_length. by eapply lookup_lt_Some. }
    destruct (slot_cell HL _ _ _ (shows_entry Hm _ _ _ Hp)) as (cl & Hcl & _).
    exists p, cl. split; [done|]. split; [done|].
    unfold entry in Hp. rewrite Hr in Hp.
    unfold f. rewrite at_nat, Hp. simpl.
    change (slotCell (core p)) with (cell p) in Hcl. by rewrite Hcl. }
  destruct (edge_max f (take (S (bottom q) - top q) (drop (top q) m)))
    as (l' & v & -> & Hv & (row_ & Hin & Hrow) & Hle).
  { apply range_nonempty; [done|]. rewrite shows_length. lia. }
  { intros row_ (r & _ & _ & Hr)%elem_of_range.
    destruct (Hf _ _ Hr) as (p & cl & _ & _ & ->). eauto. }
  simpl. rewrite Hv. simpl. exists v. split; [done|]. split.
  - apply elem_of_range in Hin as (r & Hr1 & Hr2 & Hr).
    destruct (Hf _ _ Hr) as (p & cl & Hp & Hcl & Hfp). rewrite Hrow in Hfp.
    injection Hfp as ->.
    exists r, (core p), cl. split; [done|]. split; [done|].
    split; [by apply (shows_entry Hm)|done].
  - intros r e cl Hr1 Hr2 He Hcl.
    destruct (shows_slot Hm _ _ _ He) as (p & Hp & <-).
    destruct (lookup_lt_is_Some_2 m r) as [row' Hrow'].
    { rewrite shows_length. lia. }
    destruct (Hf _ _ Hrow') as (p' & cl' & Hp' & Hcl' & Hfp). rewrite Hp in Hp'.
    injection Hp' as <-. change (slotCell (core p)) with (cell p) in Hcl.
    simplify_eq. slot_simpl.
    eapply Hle; [|done]. apply elem_of_range. eauto.
Qed.


Lemma overflowTop_spec q :
  inBounds (length T) (width T) q →
  ∃ y1, TableComponent.overflowTop m (Z.of_nat (top q)) (Z.of_nat (left q))
          (Z.of_nat (right q)) = Val y1 ∧
    (∃ c e, left q ≤ c ∧ c ≤ right q ∧ slotAt T (top q) c = Some e ∧
            y1 = (- slotRow e)%Z) ∧
    (∀ c e, left q ≤ c → c ≤ right q → slotAt T (top q) c = Some e →
            (slotRow e ≤ - y1)%Z).
Proof using HL Hm.
  intros (Hb1 & Hb2 & Hb3 & Hb4).
  unfold TableComponent.overflowTop. rewrite at_nat.
  destruct (lookup_lt_is_Some_2 m (top q)) as [row_ Hrow].
  { rewrite shows_length. lia. }
  rewrite Hrow. simpl. rewrite slice_range.
  pose proof (shows_row_length HL Hm _ _ Hrow) as Hlen.
  destruct (maxOf_spec (offsetRow <$>
              take (S (right q) - left q) (drop (left q) (cellsPosition row_))))
    as (v & -> & Hin & Hle).
  { intros Hnil%fmap_nil_inv. revert Hnil. apply range_nonempty; lia. }
  simpl. exists (- v)%Z. split; [done|]. split.
  - apply list_elem_of_fmap_1 in Hin as (p & -> & Hp).
    apply elem_of_range in Hp as (c & Hc1 & Hc2 & Hp).
    exists c, (core p). split; [done|]. split; [done|]. split; [|done].
    apply (shows_entry Hm). unfold entry. by rewrite Hrow.
  - intros c e Hc1 Hc2 He.
    destruct (shows_slot Hm _ _ _ He) as (p & Hp & <-).
    assert (offsetRow p ≤ v)%Z; [|slot_simpl; lia].
    apply Hle, list_elem_of_fmap_2, elem_of_range.
    exists c. split; [done|]. split; [done|].
    unfold entry in Hp. by rewrite Hrow in Hp.
Qed.

Lemma overflowBottom_spec q :
  inBounds (length T) (width T) q →
  ∃ y2, TableComponent.overflowBottom ch m (Z.of_nat (bottom q))
          (Z.of_nat (left q)) (Z.of_nat (right q)) = Val y2 ∧
    (∃ c e cl, left q ≤ c ∧ c ≤ right q ∧ slotAt T (bottom q) c = Some e ∧
               ch !! slotCell e = Some cl ∧
               y2 = (rowspan cl - (slotRow e + 1))%Z) ∧
    (∀ c e cl, left q ≤ c → c ≤ right q → slotAt T (bottom q) c = Some e →
               ch !! slotCell e = Some cl →
               (rowspan cl - (slotRow e + 1) ≤ y2)%Z).
Proof using HL Hm.
  intros (Hb1 & Hb2 & Hb3 & Hb4).
  unfold TableComponent.overflowBottom. rewrite at_nat.
  destruct (lookup_lt_is_Some_2 m (bottom q)) as [row_ Hrow].
  { rewrite shows_length. lia. }
  rewrite Hrow. simpl. rewrite slice_range.
  pose proof (shows_row_length HL Hm _ _ Hrow) as Hlen.
  set (f := λ p : TableCellPosition,
         c ← defined (ch !! cell p);
         mret (rowspan c - (offsetRow p + 1))%Z).
  assert (∀ c p, cellsPosition row_ !! c = Some p →
            ∃ cl, ch !! cell p = Some cl ∧
                  f p = Val (rowspan cl - (offsetRow p + 1))%Z) as Hf.
  { intros c p Hp.
    assert (entry m (bottom q) c = Some p) as He by (unfold entry; by rewrite Hrow).
    destruct (slot_cell HL _ _ _ (shows_entry Hm _ _ _ He)) as (cl & Hcl & _).
    change (slotCell (core p)) with (cell p) in Hcl.
    exists cl. split; [done|]. unfold f. by rewrite Hcl. }
  destruct (edge_max f
              (take (S (right q) - left q) (drop (left q) (cellsPosition row_))))
    as (l' & v & -> & Hv & (p & Hin & Hp) & Hle).
  { apply range_nonempty; lia. }
  { intros p (c & _ & _ & Hp)%elem_of_range.
    destruct (Hf _ _ Hp) as (cl & _ & ->). eauto. }
  simpl. rewrite Hv. simpl. exists v. split; [done|]. split.
  - apply elem_of_range in Hin as (c & Hc1 & Hc2 & Hc).
    destruct (Hf _ _ Hc) as (cl & Hcl & Hfp). rewrite Hp in Hfp.
    injection Hfp as ->.
    exists c, (core p), cl. split; [done|]. split; [done|].
    split; [|done]. apply (shows_entry Hm). unfold entry. by rewrite Hrow.
  - intros c e cl Hc1 Hc2 He Hcl.
    destruct (shows_slot Hm _ _ _ He) as (p' & Hp' & <-).
    unfold entry in Hp'. rewrite Hrow in Hp'.
    destruct (Hf _ _ Hp') as (cl' & Hcl' & Hfp).
    change (slotCell (core p')) with (cell p') in Hcl.
    simplify_eq. slot_simpl.
    eapply Hle; [|done]. apply elem_of_range. eauto.
Qed.

End Overflow.

(** ** One round of the normalizer *)

Section Grow.
Context {ch : list TableCell} {rh : list (list CellId)} {bodies : list RowId}.
Context {T : list (list slot)}.
Hypothesis HL : layout ch rh bodies T.

(** The overflow amounts as distances in the grid. *)
Lemma overflows_nat q x1 x2 y1 y2 :
  inBounds (length T) (width T) q → overflows ch T q x1 x2 y1 y2 →
  ∃ n1 d2 n3 d4 : nat,
    x1 = (- Z.of_nat n1)%Z ∧ x2 = Z.of_nat d2 ∧
    y1 = (- Z.of_nat n3)%Z ∧ y2 = Z.of_nat d4 ∧
    n1 ≤ left q ∧ right q + d2 < width T ∧
    n3 ≤ top q ∧ bottom q + d4 < length T.
Proof using HL.
  intros (Hb1 & Hb2 & Hb3 & Hb4)
    (((r1 & e1 & ? & ? & He1 & ->) & _) & ((r2 & e2 & cl2 & ? & ? & He2 & Hcl2 & ->) & _) &
     ((c3 & e3 & ? & ? & He3 & ->) & _) & ((c4 & e4 & cl4 & ? & ? & He4 & Hcl4 & ->) & _)).
  destruct (slot_cell HL _ _ _ He1) as (cl1 & Hcl1 & _ & Hj1).
  destruct (slot_cell HL _ _ _ He2) as (? & ? & _ & Hj2).
  destruct (slot_cell HL _ _ _ He3) as (cl3 & Hcl3 & Hi3 & _).
  destruct (slot_cell HL _ _ _ He4) as (? & ? & Hi4 & _).
  simplify_eq.
  destruct (walk_left HL (Z.to_nat (slotColumn e1)) _ _ _ He1) as [? _]; [lia|].
  destruct (walk_up HL (Z.to_nat (slotRow e3)) _ _ _ He3) as [? _]; [lia|].
  destruct (walk_left HL (Z.to_nat (slotColumn e2)) _ _ _ He2) as [? _]; [lia|].
  destruct (walk_up HL (Z.to_nat (slotRow e4)) _ _ _ He4) as [? _]; [lia|].
  destruct (spanAt_bounds HL _ _ _ _ He2 Hcl2) as [(_ & _ & _ & Hr2) _].
  destruct (spanAt_bounds HL _ _ _ _ He4 Hcl4) as [(_ & Hr4 & _ & _) _].
  unfold spanAt in Hr2, Hr4. simpl in Hr2, Hr4.
  exists (Z.to_nat (slotColumn e1)), (Z.to_nat (colspan cl2 - (slotColumn e2 + 1))),
         (Z.to_nat (slotRow e3)), (Z.to_nat (rowspan cl4 - (slotRow e4 + 1))).
  split; [lia|]. split; [lia|]. split; [lia|]. split; [lia|].
  split; [done|]. split; [lia|]. split; [done|]. lia.
Qed.

Lemma grow_bounds q x1 x2 y1 y2 :
  inBounds (length T) (width T) q → overflows ch T q x1 x2 y1 y2 →
  (x1 ≤ 0 ∧ 0 ≤ x2 ∧ y1 ≤ 0 ∧ 0 ≤ y2)%Z ∧
  Z.of_nat (top (grow q x1 x2 y1 y2)) = (Z.of_nat (top q) + y1)%Z ∧
  Z.of_nat (left (grow q x1 x2 y1 y2)) = (Z.of_nat (left q) + x1)%Z ∧
  Z.of_nat (bottom (grow q x1 x2 y1 y2)) = (Z.of_nat (bottom q) + y2)%Z ∧
  Z.of_nat (right (grow q x1 x2 y1 y2)) = (Z.of_nat (right q) + x2)%Z ∧
  inBounds (length T) (width T) (grow q x1 x2 y1 y2) ∧
  contains (grow q x1 x2 y1 y2) q.
Proof using HL.
  intros Hb Ho.
  destruct (overflows_nat _ _ _ _ _ Hb Ho)
    as (n1 & d2 & n3 & d4 & -> & -> & -> & -> & ? & ? & ? & ?).
  destruct Hb as (? & ? & ? & ?). clear Ho.
  unfold inBounds, contains, grow. simpl.
  repeat split; lia.
Qed.

Lemma grow_least q x1 x2 y1 y2 q'' :
  inBounds (length T) (width T) q → overflows ch T q x1 x2 y1 y2 →
  closed ch T q'' → contains q'' q → contains q'' (grow q x1 x2 y1 y2).
Proof using HL.
  intros (Hb1 & Hb2 & Hb3 & Hb4)
    (((r1 & e1 & ? & ? & He1 & ->) & _) & ((r2 & e2 & cl2 & ? & ? & He2 & Hcl2 & ->) & _) &
     ((c3 & e3 & ? & ? & He3 & ->) & _) & ((c4 & e4 & cl4 & ? & ? & He4 & Hcl4 & ->) & _))
    Hclosed Hcont.
  destruct (slot_cell HL _ _ _ He1) as (cl1 & Hcl1 & _ & Hj1).
  destruct (slot_cell HL _ _ _ He2) as (? & ? & _ & Hj2).
  destruct (slot_cell HL _ _ _ He3) as (cl3 & Hcl3 & Hi3 & _).
  destruct (slot_cell HL _ _ _ He4) as (? & ? & Hi4 & _).
  simplify_eq.
  destruct (walk_left HL (Z.to_nat (slotColumn e1)) _ _ _ He1) as [? _]; [lia|].
  destruct (walk_up HL (Z.to_nat (slotRow e3)) _ _ _ He3) as [? _]; [lia|].
  destruct (walk_left HL (Z.to_nat (slotColumn e2)) _ _ _ He2) as [? _]; [lia|].
  destruct (walk_up HL (Z.to_nat (slotRow e4)) _ _ _ He4) as [? _]; [lia|].
  unfold contains in Hcont.
  pose proof (Hclosed _ _ _ _ He1 Hcl1 ltac:(unfold inside; lia)) as (_ & _ & HC1 & _).
  pose proof (Hclosed _ _ _ _ He2 Hcl2 ltac:(unfold inside; lia)) as (_ & _ & _ & HC2).
  pose proof (Hclosed _ _ _ _ He3 Hcl3 ltac:(unfold inside; lia)) as (HC3 & _).
  pose proof (Hclosed _ _ _ _ He4 Hcl4 ltac:(unfold inside; lia)) as (_ & HC4 & _).
  unfold spanAt in HC1, HC2, HC3, HC4. simpl in HC1, HC2, HC3, HC4.
  unfold contains, grow. simpl.
  split; [lia|]. split; [lia|]. split; lia.
Qed.

Lemma grow_size q x1 x2 y1 y2 :
  inBounds (length T) (width T) q → overflows ch T q x1 x2 y1 y2 →
  (x1 ≠ 0 ∨ y1 ≠ 0 ∨ x2 ≠ 0 ∨ y2 ≠ 0)%Z →
  size q < size (grow q x1 x2 y1 y2).
Proof using HL.
  intros Hb Ho Hnz.
  destruct (grow_bounds _ _ _ _ _ Hb Ho) as (? & ? & ? & ? & ? & ? & ?).
  destruct Hb as (? & ? & ? & ?). unfold size, contains in *. lia.
Qed.

(** With no overflow the rectangle clips no cell. *)
Lemma fixed_closed q :
  inBounds (length T) (width T) q → overflows ch T q 0 0 0 0 → closed ch T q.
Proof using HL.
  intros (Hb1 & Hb2 & Hb3 & Hb4) ((_ & Hx1) & (_ & Hx2) & (_ & Hy1) & (_ & Hy2)).
  intros r c e cl He Hcl (Hi1 & Hi2 & Hi3 & Hi4).
  destruct (slot_cell HL _ _ _ He) as (? & ? & Hi & Hj). simplify_eq.
  destruct (walk_left HL (Z.to_nat (slotColumn e)) _ _ _ He) as [? _]; [lia|].
  destruct (walk_up HL (Z.to_nat (slotRow e)) _ _ _ He) as [? _]; [lia|].
  unfold contains, spanAt. simpl.
  split; [|split; [|split]].
  - destruct (decide (top q ≤ r - Z.to_nat (slotRow e))); [done|]. exfalso.
    destruct (walk_up HL (r - top q) _ _ _ He) as [_ Hw]; [lia|].
    replace (r - (r - top q)) with (top q) in Hw by lia.
    pose proof (Hy1 _ _ Hi3 Hi4 Hw). slot_simpl. lia.
  - destruct (decide (r - Z.to_nat (slotRow e) + Z.to_nat (rowspan cl) - 1
                      ≤ bottom q)); [done|]. exfalso.
    pose proof (walk_down HL (bottom q - r) _ _ _ _ He Hcl ltac:(lia)) as Hw.
    replace (r + (bottom q - r)) with (bottom q) in Hw by lia.
    pose proof (Hy2 _ _ _ Hi3 Hi4 Hw Hcl). slot_simpl. lia.
  - destruct (decide (left q ≤ c - Z.to_nat (slotColumn e))); [done|]. exfalso.
    destruct (walk_left HL (c - left q) _ _ _ He) as [_ Hw]; [lia|].
    replace (c - (c - left q)) with (left q) in Hw by lia.
    pose proof (Hx1 _ _ Hi1 Hi2 Hw). slot_simpl. lia.
  - destruct (decide (c - Z.to_nat (slotColumn e) + Z.to_nat (colspan cl) - 1
                      ≤ right q)); [done|]. exfalso.
    pose proof (walk_right HL (right q - c) _ _ _ _ He Hcl ltac:(lia)) as Hw.
    replace (c + (right q - c)) with (right q) in Hw by lia.
    pose proof (Hx2 _ _ _ Hi1 Hi2 Hw Hcl). slot_simpl. lia.
Qed.

End Grow.

(** ** The recursion of [selectCellsByRange] *)

Lemma elem_of_concat {A} (x : A) (ls : list (list A)) :
  x ∈ concat ls ↔ ∃ l, l ∈ ls ∧ x ∈ l.
Proof.
  induction ls as [|l ls IH]; simpl.
  - split; [by intros ?%not_elem_of_nil|by intros (? & ?%not_elem_of_nil & _)].
  - rewrite elem_of_app, IH. split.
    + intros [?|(l' & ? & ?)]; [exists l; split; [by left|done]|].
      exists l'. split; [by right|done].
    + intros (l' & [->|?]%elem_of_cons & ?); [by left|right; eauto].
Qed.

Lemma elem_of_slice {A} (l : list A) (a b : Z) (x : A) :
  x ∈ Js.slice l a b → x ∈ l.
Proof.
  unfold Js.slice. intros (i & Hi & _)%elem_of_take.
  rewrite lookup_drop in Hi. by eapply list_elem_of_lookup_2.
Qed.

Lemma contains_refl q : contains q q.
Proof. unfold contains. lia. Qed.

Lemma contains_trans q1 q2 q3 : contains q1 q2 → contains q2 q3 → contains q1 q3.
Proof. unfold contains. lia. Qed.

Lemma contains_antisym q1 q2 : contains q1 q2 → contains q2 q1 → q1 = q2.
Proof.
  destruct q1, q2. unfold contains. simpl. intros ? ?. f_equal; lia.
Qed.

Lemma contains_inside q1 q2 r c : contains q1 q2 → inside q2 r c → inside q1 r c.
Proof. unfold contains, inside. lia. Qed.

Section Select.
Context {ch : list TableCell} {rh : list (list CellId)} {bodies : list RowId}.
Context {T : list (list slot)} {m : list TableRowPosition}.
Hypothesis HL : layout ch rh bodies T.
Hypothesis Hm : shows m T.

Lemma overflows_exist q :
  inBounds (length T) (width T) q →
  ∃ x1 x2 y1 y2,
    TableComponent.overflowLeft m (Z.of_nat (top q)) (Z.of_nat (left q))
      (Z.of_nat (bottom q)) = Val x1 ∧
    TableComponent.overflowRight ch m (Z.of_nat (top q)) (Z.of_nat (bottom q))
      (Z.of_nat (right q)) = Val x2 ∧
    TableComponent.overflowTop m (Z.of_nat (top q)) (Z.of_nat (left q))
      (Z.of_nat (right q)) = Val y1 ∧
    TableComponent.overflowBottom ch m (Z.of_nat (bottom q)) (Z.of_nat (left q))
      (Z.of_nat (right q)) = Val y2 ∧
    overflows ch T q x1 x2 y1 y2.
Proof using HL Hm.
  intros Hb.
  destruct (overflowLeft_spec HL Hm q Hb) as (x1 & ? & ? & ?).
  destruct (overflowRight_spec HL Hm q Hb) as (x2 & ? & ? & ?).
  destruct (overflowTop_spec HL Hm q Hb) as (y1 & ? & ? & ?).
  destruct (overflowBottom_spec HL Hm q Hb) as (y2 & ? & ? & ?).
  exists x1, x2, y1, y2. unfold overflows. tauto.
Qed.

(** The tail of [selectCellsByRange]. *)
Lemma rangeOf_spec q :
  inBounds (length T) (width T) q →
  ∃ range, TableComponent.rangeOf ch m (Z.of_nat (top q)) (Z.of_nat (left q))
             (Z.of_nat (bottom q)) (Z.of_nat (right q)) = Val range ∧
           entry m (top q) (left q) = Some (startCellPosition range) ∧
           entry m (bottom q) (right q) = Some (endCellPosition range) ∧
           rectOf range = q.
Proof using HL Hm.
  intros (Hb1 & Hb2 & Hb3 & Hb4).
  destruct (entry_is_Some HL Hm (top q) (left q)) as [p1 Hp1]; [lia..|].
  destruct (entry_is_Some HL Hm (bottom q) (right q)) as [p2 Hp2]; [lia..|].
  destruct (shows_index Hm _ _ _ Hp1) as [Hr1 Hc1].
  destruct (shows_index Hm _ _ _ Hp2) as [Hr2 Hc2].
  unfold TableComponent.rangeOf. rewrite !at_nat.
  pose proof Hp1 as Hp1'. pose proof Hp2 as Hp2'.
  unfold entry in Hp1', Hp2'.
  destruct (m !! top q) as [row1|] eqn:Hrow1; [|done].
  destruct (m !! bottom q) as [row2|] eqn:Hrow2; [|done].
  simpl. rewrite !at_nat, Hp1', Hp2'. simpl.
  rewrite Hr1, Hr2, Hc1, Hc2. simpl. rewrite !slice_range.
  set (rs := take (S (bottom q) - top q) (drop (top q) m)).
  set (f := λ r : TableRowPosition,
         Js.slice (cellsPosition r) (Z.of_nat (left q)) (Z.of_nat (right q) + 1)).
  destruct (f <$> rs) as [|part parts] eqn:Hparts.
  { apply fmap_nil_inv in Hparts. exfalso. revert Hparts.
    apply range_nonempty; [done|]. rewrite (shows_length Hm). lia. }
  destruct (mapM_outcome
              (λ p, c ← defined (ch !! cell p); mret (fragment c))
              (concat (part :: parts))) as (fs & Hfs & _).
  { intros p (l & Hl & Hp)%elem_of_concat. rewrite <-Hparts in Hl.
    apply list_elem_of_fmap_1 in Hl as (row_ & -> & Hrow).
    apply elem_of_range in Hrow as (r & _ & _ & Hr).
    apply elem_of_slice, list_elem_of_lookup_1 in Hp as (c & Hc).
    assert (entry m r c = Some p) as He by (unfold entry; by rewrite Hr).
    destruct (slot_cell HL _ _ _ (shows_entry Hm _ _ _ He)) as (cl & Hcl & _).
    change (slotCell (core p)) with (cell p) in Hcl.
    rewrite Hcl. simpl. eauto. }
  rewrite Hfs. simpl. eexists. split; [done|]. simpl.
  split; [done|]. split; [done|].
  unfold rectOf. simpl. rewrite Hr1, Hr2, Hc1, Hc2. simpl.
  destruct q. simpl. f_equal; lia.
Qed.

Lemma selectCellsByRange_unfold fuel q x1 x2 y1 y2 :
  TableComponent.overflowLeft m (Z.of_nat (top q)) (Z.of_nat (left q))
    (Z.of_nat (bottom q)) = Val x1 →
  TableComponent.overflowRight ch m (Z.of_nat (top q)) (Z.of_nat (bottom q))
    (Z.of_nat (right q)) = Val x2 →
  TableComponent.overflowTop m (Z.of_nat (top q)) (Z.of_nat (left q))
    (Z.of_nat (right q)) = Val y1 →
  TableComponent.overflowBottom ch m (Z.of_nat (bottom q)) (Z.of_nat (left q))
    (Z.of_nat (right q)) = Val y2 →
  TableComponent.selectCellsByRange (S fuel) ch m (Z.of_nat (top q))
    (Z.of_nat (left q)) (Z.of_nat (bottom q)) (Z.of_nat (right q)) =
  if bool_decide (x1 ≠ 0 ∨ y1 ≠ 0 ∨ x2 ≠ 0 ∨ y2 ≠ 0)%Z then
    TableComponent.selectCellsByRange fuel ch m
      (Z.of_nat (top q) + y1) (Z.of_nat (left q) + x1)
      (Z.of_nat (bottom q) + y2) (Z.of_nat (right q) + x2)
  else
    TableComponent.rangeOf ch m (Z.of_nat (top q)) (Z.of_nat (left q))
      (Z.of_nat (bottom q)) (Z.of_nat (right q)).
Proof. intros H1 H2 H3 H4. simpl. rewrite H1, H2, H3, H4. done. Qed.

Lemma selectCellsByRange_spec fuel q :
  inBounds (length T) (width T) q →
  length T + width T ≤ fuel + size q + 1 →
  ∃ range,
    TableComponent.selectCellsByRange fuel ch m (Z.of_nat (top q))
      (Z.of_nat (left q)) (Z.of_nat (bottom q)) (Z.of_nat (right q)) = Val range ∧
    inBounds (length T) (width T) (rectOf range) ∧
    contains (rectOf range) q ∧
    closed ch T (rectOf range) ∧
    (∀ q'', closed ch T q'' → contains q'' q → contains q'' (rectOf range)) ∧
    entry m (top (rectOf range)) (left (rectOf range))
      = Some (startCellPosition range) ∧
    entry m (bottom (rectOf range)) (right (rectOf range))
      = Some (endCellPosition range).
Proof using HL Hm.
  revert q. induction fuel as [|fuel IH]; intros q Hb Hfuel.
  { destruct Hb as (? & ? & ? & ?). unfold size in Hfuel. lia. }
  destruct (overflows_exist q Hb) as (x1 & x2 & y1 & y2 & H1 & H2 & H3 & H4 & Ho).
  rewrite (selectCellsByRange_unfold fuel q x1 x2 y1 y2 H1 H2 H3 H4).
  case_bool_decide as Hnz.
  - destruct (grow_bounds HL _ _ _ _ _ Hb Ho) as (_ & <- & <- & <- & <- & Hb' & Hc').
    pose proof (grow_size HL _ _ _ _ _ Hb Ho Hnz) as Hsize.
    destruct (IH (grow q x1 x2 y1 y2) Hb') as (range & -> & ? & ? & ? & Hleast & ? & ?);
      [lia|].
    exists range. split; [done|]. split; [done|].
    split; [by eapply contains_trans|]. split; [done|]. split; [|done].
    intros q'' Hcl Hq''. apply Hleast; [done|]. by eapply (grow_least HL).
  - assert (x1 = 0 ∧ y1 = 0 ∧ x2 = 0 ∧ y2 = 0)%Z as (-> & -> & -> & ->) by lia.
    destruct (rangeOf_spec q Hb) as (range & -> & ? & ? & Hq).
    exists range. split; [done|]. rewrite Hq.
    split; [done|]. split; [apply contains_refl|].
    split; [by apply (fixed_closed HL)|]. split; [done|]. done.
Qed.

(** The bound that [selectCells] passes is enough. *)
Lemma rangeBudget_enough : length T + width T ≤ TableComponent.rangeBudget m.
Proof using HL Hm.
  unfold TableComponent.rangeBudget. rewrite (shows_length Hm).
  destruct (m !! 0) as [row0|] eqn:Hrow0.
  - pose proof (shows_row_length HL Hm _ _ Hrow0) as <-.
    pose proof (sum_list_with_in row0 (λ r, length (cellsPosition r)) m
                  (list_elem_of_lookup_2 _ _ _ Hrow0)). simpl in *. lia.
  - apply lookup_ge_None_1 in Hrow0. rewrite (shows_length Hm) in Hrow0.
    assert (T = []) as HT by (destruct T; [done|simpl in *; lia]).
    unfold width. rewrite HT. simpl. lia.
Qed.

End Select.

(** ** The normalizer on the matrix of a valid grid *)

(** C1, as the code has it. For every grid whose spans tile a rectangle and
    every rectangle [q] of its matrix, [selectCellsByRange] returns the
    range of a rectangle that contains [q], holds the whole span of every
    cell that [q] touches, clips no cell at all, and is contained in every
    rectangle that contains [q] and clips no cell. In particular, when [q]
    lies within the span of one cell, the result is exactly that span. *)
Theorem selectCellsByRange_least_closed ch rh bodies T q :
  layout_ok ch rh bodies T = true →
  inBounds (length T) (width T) q →
  ∃ m rh' range,
    Serialize.serialize ch rh bodies = Val (m, rh') ∧
    TableComponent.selectCellsByRange (TableComponent.rangeBudget m) ch m
      (Z.of_nat (top q)) (Z.of_nat (left q))
      (Z.of_nat (bottom q)) (Z.of_nat (right q)) = Val range ∧
    contains (rectOf range) q ∧
    covers ch T (rectOf range) q ∧
    closed ch T (rectOf range) ∧
    (∀ q'', closed ch T q'' → contains q'' q → contains q'' (rectOf range)) ∧
    (∀ r c e cl, slotAt T r c = Some e → ch !! slotCell e = Some cl →
       contains (spanAt r c e cl) q → rectOf range = spanAt r c e cl).
Proof.
  intros HL%layout_ok_layout Hb.
  destruct (serialize_layout _ _ _ _ HL) as (m & Hser & Hm & _).
  destruct (selectCellsByRange_spec HL Hm (TableComponent.rangeBudget m) q Hb)
    as (range & Hsel & Hb' & Hcont & Hclosed & Hleast & _).
  { pose proof (rangeBudget_enough HL Hm). lia. }
  eexists m, _, range. split; [done|]. split; [done|]. split; [done|].
  split; [|split; [done|split; [done|]]].
  - intros r c e cl He Hcl Hin. apply (Hclosed _ _ _ _ He Hcl).
    by eapply contains_inside.
  - intros r c e cl He Hcl Hspan. apply contains_antisym.
    + (* the result holds the span of the cell at the corner of [q] *)
      destruct Hb as (Hb1 & Hb2 & Hb3 & Hb4).
      destruct (slotAt_is_Some HL (top q) (left q)) as [e0 He0]; [lia..|].
      destruct (slot_cell HL _ _ _ He0) as (cl0 & Hcl0 & _).
      assert (inside q (top q) (left q)) as Hin0 by (unfold inside; lia).
      rewrite <-(same_span HL _ _ _ _ _ _ _ _ He Hcl He0 Hcl0).
      * apply (Hclosed _ _ _ _ He0 Hcl0). by eapply contains_inside.
      * by eapply contains_inside.
    + apply Hleast; [|done]. by apply (span_closed HL).
Qed.

Lemma selectCellsByRange_least_closed_witness :
  ∃ m rh' range,
    Serialize.serialize Ex.cells_2x3 Ex.rows_2x3 [0; 1] = Val (m, rh') ∧
    TableComponent.selectCellsByRange (TableComponent.rangeBudget m)
      Ex.cells_2x3 m 1 1 1 1 = Val range ∧
    rectOf range = mkRectN 0 0 1 1.
Proof.
  destruct (selectCellsByRange_least_closed Ex.cells_2x3 Ex.rows_2x3 [0; 1]
              Ex.tiling_2x3 (mkRectN 1 1 1 1) eq_refl)
    as (m & rh' & range & Hser & Hsel & _ & _ & _ & _ & Hspan).
  { compute. lia. }
  exists m, rh', range. split; [exact Hser|]. split; [exact Hsel|].
  apply (Hspan 1 1 (0, 1%Z, 1%Z) (mkCell 2 2 0)); [reflexivity..|].
  unfold contains. simpl. lia.
Defined.

(** C1, as it is written, fails: the result need not be the least
    rectangle that holds every cell touched by the input. On the grid
<<
     0 1 1
     0 2 3
     4 4 3
>>
    the input rows 0..1, columns 0..1 touches the cells 0, 1 and 2, which
    rows 0..1, columns 0..2 hold in full; the result is the whole grid,
    because that rectangle clips cell 3. *)
Lemma selectCellsByRange_least_cover_counterexample :
  ∃ m rh' range,
    Serialize.serialize Ex.cells_3x3 Ex.rows_3x3 [0; 1; 2] = Val (m, rh') ∧
    TableComponent.selectCellsByRange (TableComponent.rangeBudget m)
      Ex.cells_3x3 m 0 0 1 1 = Val range ∧
    rectOf range = mkRectN 0 0 2 2 ∧
    ¬ (∀ q'', covers Ex.cells_3x3 Ex.tiling_3x3 q'' (mkRectN 0 0 1 1) →
              contains q'' (mkRectN 0 0 1 1) → contains q'' (rectOf range)).
Proof.
  eexists _, _, _. split; [vm_compute; reflexivity|].
  split; [vm_compute; reflexivity|]. split; [reflexivity|].
  intros H. specialize (H (mkRectN 0 0 1 2)).
  assert (contains (mkRectN 0 0 1 2) (mkRectN 0 0 2 2)) as Hc.
  { apply H.
    - intros r c e cl He Hcl (_ & Hr & _ & Hc). simpl in Hr, Hc.
      destruct r as [|[|r]]; [| |lia]; (destruct c as [|[|c]]; [| |lia]);
        simpl in He; injection He as <-; simpl in Hcl; injection Hcl as <-;
        unfold contains, spanAt; simpl; lia.
    - unfold contains. simpl. lia. }
  unfold contains in Hc. simpl in Hc. lia.
Qed.

(** C2. For every grid whose spans tile a rectangle and every rectangle [q]
    of its matrix: the four overflow amounts of a call on [q] are defined;
    the call recurses, on the rectangle moved by these amounts, exactly when
    one of them is not zero, and that rectangle lies in the matrix, contains
    [q] and is strictly larger; when all four are zero the call returns the
    range of [q]; and the recursion ends: any bound of at least the number
    of rows plus the number of columns, like the bound [selectCells]
    passes, gives a result. *)
Theorem selectCellsByRange_terminates ch rh bodies T q :
  layout_ok ch rh bodies T = true →
  inBounds (length T) (width T) q →
  ∃ m rh' x1 x2 y1 y2,
    Serialize.serialize ch rh bodies = Val (m, rh') ∧
    TableComponent.overflowLeft m (Z.of_nat (top q)) (Z.of_nat (left q))
      (Z.of_nat (bottom q)) = Val x1 ∧
    TableComponent.overflowRight ch m (Z.of_nat (top q)) (Z.of_nat (bottom q))
      (Z.of_nat (right q)) = Val x2 ∧
    TableComponent.overflowTop m (Z.of_nat (top q)) (Z.of_nat (left q))
      (Z.of_nat (right q)) = Val y1 ∧
    TableComponent.overflowBottom ch m (Z.of_nat (bottom q)) (Z.of_nat (left q))
      (Z.of_nat (right q)) = Val y2 ∧
    (∀ fuel,
       TableComponent.selectCellsByRange (S fuel) ch m (Z.of_nat (top q))
         (Z.of_nat (left q)) (Z.of_nat (bottom q)) (Z.of_nat (right q)) =
       if bool_decide (x1 ≠ 0 ∨ y1 ≠ 0 ∨ x2 ≠ 0 ∨ y2 ≠ 0)%Z then
         TableComponent.selectCellsByRange fuel ch m
           (Z.of_nat (top (grow q x1 x2 y1 y2)))
           (Z.of_nat (left (grow q x1 x2 y1 y2)))
           (Z.of_nat (bottom (grow q x1 x2 y1 y2)))
           (Z.of_nat (right (grow q x1 x2 y1 y2)))
       else
         TableComponent.rangeOf ch m (Z.of_nat (top q)) (Z.of_nat (left q))
           (Z.of_nat (bottom q)) (Z.of_nat (right q))) ∧
    ((x1 ≠ 0 ∨ y1 ≠ 0 ∨ x2 ≠ 0 ∨ y2 ≠ 0)%Z →
       inBounds (length T) (width T) (grow q x1 x2 y1 y2) ∧
       contains (grow q x1 x2 y1 y2) q ∧
       size q < size (grow q x1 x2 y1 y2)) ∧
    ((x1 = 0 ∧ y1 = 0 ∧ x2 = 0 ∧ y2 = 0)%Z →
       ∃ range,
         TableComponent.rangeOf ch m (Z.of_nat (top q)) (Z.of_nat (left q))
           (Z.of_nat (bottom q)) (Z.of_nat (right q)) = Val range ∧
         rectOf range = q) ∧
    (∀ fuel, length T + width T ≤ fuel →
       ∃ range,
         TableComponent.selectCellsByRange fuel ch m (Z.of_nat (top q))
           (Z.of_nat (left q)) (Z.of_nat (bottom q)) (Z.of_nat (right q))
         = Val range) ∧
    length T + width T ≤ TableComponent.rangeBudget m.
Proof.
  intros HL%layout_ok_layout Hb.
  destruct (serialize_layout _ _ _ _ HL) as (m & Hser & Hm & _).
  destruct (overflows_exist HL Hm q Hb)
    as (x1 & x2 & y1 & y2 & H1 & H2 & H3 & H4 & Ho).
  destruct (grow_bounds HL _ _ _ _ _ Hb Ho) as (_ & Et & El & Eb & Er & Hb' & Hc').
  eexists m, _, x1, x2, y1, y2.
  split; [done|]. split; [done|]. split; [done|]. split; [done|].
  split; [done|]. split; [|split; [|split; [|split]]].
  - intros fuel. rewrite Et, El, Eb, Er.
    by apply selectCellsByRange_unfold.
  - intros Hnz. split; [done|]. split; [done|]. by apply (grow_size HL).
  - intros _. destruct (rangeOf_spec HL Hm q Hb) as (range & ? & _ & _ & ?).
    by exists range.
  - intros fuel Hfuel.
    destruct (selectCellsByRange_spec HL Hm fuel q Hb) as (range & ? & _); [lia|].
    by exists range.
  - apply (rangeBudget_enough HL Hm).
Qed.

Lemma selectCellsByRange_terminates_witness :
  ∃ m rh', Serialize.serialize Ex.cells_3x3 Ex.rows_3x3 [0; 1; 2] = Val (m, rh') ∧
    ∃ range,
      TableComponent.selectCellsByRange 6 Ex.cells_3x3 m 0 0 1 1 = Val range.
Proof.
  destruct (selectCellsByRange_terminates Ex.cells_3x3 Ex.rows_3x3 [0; 1; 2]
              Ex.tiling_3x3 (mkRectN 0 0 1 1) eq_refl)
    as (m & rh' & x1 & x2 & y1 & y2 & Hser & _ & _ & _ & _ & _ & _ & _ & Hfuel & _).
  { compute. lia. }
  exists m, rh'. split; [exact Hser|].
  apply (Hfuel 6). compute. lia.
Defined.

(** ** Frame rules for programs over the world *)

Lemma M_bind_unfold {A B} (f : A → M B) (m : M A) (w : World) :
  (m ≫= f) w =
  match m w with
  | (w', Val a) => f a w'
  | (w', Exn) => (w', Exn)
  | (w', OutOfFuel) => (w', OutOfFuel)
  end.
Proof. done. Qed.

Section Frames.
Context {X : Type} (f : World → X).

Lemma preserves_ret {A} (a : A) : preserves f (mret a).
Proof. by intros w. Qed.

Lemma preserves_lift {A} (o : outcome A) : preserves f (lift o).
Proof. by intros w. Qed.

Lemma preserves_getW : preserves f getW.
Proof. by intros w. Qed.

Lemma preserves_modify (g : World → World) :
  (∀ w, f (g w) = f w) → preserves f (modify g).
Proof. intros Hg w. apply Hg. Qed.

Lemma preserves_bind {A B} (m : M A) (k : A → M B) :
  preserves f m → (∀ a, preserves f (k a)) → preserves f (m ≫= k).
Proof.
  intros Hm Hk w. rewrite M_bind_unfold. specialize (Hm w).
  destruct (m w) as [w' [a| |]]; simpl in *; [|done..].
  by rewrite Hk.
Qed.

Lemma preserves_forEach {A} (l : list A) (body : A → M unit) :
  (∀ x, preserves f (body x)) → preserves f (forEach l body).
Proof.
  intros Hbody. induction l as [|x l IH]; simpl.
  - apply preserves_ret.
  - apply preserves_bind; [apply Hbody|]. intros _. apply IH.
Qed.

End Frames.

(** The steps of the commander and of the table component leave the two
    flags alone. *)
Ltac frame_step :=
  first
    [ apply preserves_ret
    | apply preserves_lift
    | apply preserves_getW
    | apply preserves_modify; intros ?; reflexivity
    | apply preserves_bind; [|intros ?]
    | apply preserves_forEach; intros ?
    | match goal with
      | |- preserves _ (if ?b then _ else _) => destruct b
      | |- preserves _ (match ?x with _ => _ end) => destruct x
      | |- preserves _ (let '(_, _) := ?x in _) => destruct x
      end ].

Ltac frame := repeat frame_step.

Section FlagFrames.
Context {X : Type} (f : World → X).
Hypothesis Hcells : ∀ v w, f (setCellHeap v w) = f w.
Hypothesis Hrows : ∀ v w, f (setRowHeap v w) = f w.
Hypothesis Hfrags : ∀ v w, f (setFragmentHeap v w) = f w.
Hypothesis Hbodies : ∀ v w, f (setBodies v w) = f w.
Hypothesis Hmatrix : ∀ v w, f (setCellMatrix v w) = f w.
Hypothesis Hparams : ∀ v w, f (setParams v w) = f w.

Lemma preserves_serialize : preserves f TableComponent.serialize.
Proof using Hrows.
  intros w. unfold TableComponent.serialize.
  destruct (Serialize.serialize _ _ _) as [[rs rh']| |]; simpl; [|done..].
  apply Hrows.
Qed.

Lemma preserves_createCell rowspan colspan :
  preserves f (TableEditCommander.createCell rowspan colspan).
Proof using Hcells Hfrags.
  intros w. unfold TableEditCommander.createCell. simpl.
  by rewrite Hcells, Hfrags.
Qed.

Lemma preserves_newRow : preserves f TableEditCommander.newRow.
Proof using Hrows. intros w. unfold TableEditCommander.newRow. simpl. apply Hrows. Qed.

Local Ltac frame0 :=
  repeat first
    [ apply preserves_serialize
    | apply preserves_createCell
    | apply preserves_newRow
    | apply preserves_modify; intros ?;
        first [apply Hcells|apply Hrows|apply Hfrags|apply Hbodies
              |apply Hmatrix|apply Hparams]
    | frame_step ].

Lemma preserves_cellMatrix : preserves f TableComponent.cellMatrix.
Proof using Hrows Hmatrix. unfold TableComponent.cellMatrix. frame0. Qed.

Lemma preserves_selectCells a b : preserves f (TableComponent.selectCells a b).
Proof using Hrows Hmatrix. unfold TableComponent.selectCells. frame0. Qed.

Lemma preserves_shiftRange g : preserves f (TableEditCommander.shiftRange g).
Proof using Hparams.
  unfold TableEditCommander.shiftRange, getParams, modifyParams. frame0.
Qed.

Lemma preserves_command_op (actionType : TableEditActions) :
  preserves f
    match actionType with
    | AddColumnToLeft => TableEditCommander.addColumnToLeft
    | AddColumnToRight => TableEditCommander.addColumnToRight
    | AddRowToTop => TableEditCommander.addRowToTop
    | AddRowToBottom => TableEditCommander.addRowToBottom
    | MergeCells => TableEditCommander.mergeCells
    | SplitCells => TableEditCommander.splitCells
    | DeleteTopRow => TableEditCommander.deleteTopRow
    | DeleteBottomRow => TableEditCommander.deleteBottomRow
    | DeleteLeftColumn => TableEditCommander.deleteLeftColumn
    | DeleteRightColumn => TableEditCommander.deleteRightColumn
    end.
Proof using All.
  destruct actionType;
    unfold TableEditCommander.addColumnToLeft, TableEditCommander.addColumnToRight,
      TableEditCommander.addRowToTop, TableEditCommander.addRowToBottom,
      TableEditCommander.mergeCells, TableEditCommander.splitCells,
      TableEditCommander.deleteTopRow, TableEditCommander.deleteBottomRow,
      TableEditCommander.deleteLeftColumn, TableEditCommander.deleteRightColumn,
      TableEditCommander.removeCell, TableEditCommander.splitCell,
      TableEditCommander.placeBelow, TableEditCommander.deleteFromColumn,
      TableEditCommander.pushNewCell, TableEditCommander.assignRange,
      TableEditCommander.spliceBodies,
      getCell, getRow, setRow, modifyCell, getBodies, getParams, modifyParams;
    repeat first
      [ apply preserves_cellMatrix
      | apply preserves_selectCells
      | apply preserves_shiftRange
      | frame0 ].
Qed.

End FlagFrames.

(** ** The matrix getter on a valid grid *)

Lemma cellMatrix_valid w T :
  valid_grid w T →
  ∃ m,
    TableComponent.cellMatrix w =
      (setCellMatrix m
         (setRowHeap (rowHeap w ++ replicate (length T - length (bodies w)) []) w),
       Val m) ∧
    shows m T ∧
    ∀ r row_, m !! r = Some row_ → cells row_ = rowIdOf (rowHeap w) (bodies w) r.
Proof.
  intros HT. apply layout_ok_layout in HT.
  destruct (serialize_layout _ _ _ _ HT) as (m & Hm & Hshows & Hrows).
  exists m. split; [|done].
  unfold TableComponent.cellMatrix. rewrite M_bind_unfold.
  unfold TableComponent.serialize. by rewrite Hm.
Qed.

Lemma sameStore_cellMatrix w m n :
  sameStore w (setCellMatrix m (setRowHeap (rowHeap w ++ n) w)).
Proof. repeat split; simpl. by apply prefix_app_r. Qed.

(** ** The command dispatcher *)

(** For every action type: without an enclosing table component the
    dispatcher returns at once, having changed nothing but the
    [recordHistory] flag, which is [false]; with one, [recordHistory] is
    [true] afterwards and the component is marked as dirtied once the
    operation has returned (an operation that throws leaves the mark as it
    was). *)
Theorem command_dispatch (actionType : TableEditActions) (w : World) :
  TableEditCommander.command None actionType w
    = (setRecordHistory false w, Val tt) ∧
  ∀ context,
    let r := TableEditCommander.command (Some context) actionType w in
    recordHistory r.1 = true ∧
    match r.2 with
    | Val _ => dirtied r.1 = true
    | _ => dirtied r.1 = dirtied w
    end.
Proof.
  split; [done|]. intros context r. subst r.
  pose proof (preserves_command_op recordHistory
    (λ _ _, eq_refl) (λ _ _, eq_refl) (λ _ _, eq_refl)
    (λ _ _, eq_refl) (λ _ _, eq_refl) (λ _ _, eq_refl)
    actionType (setRecordHistory true w)) as Hrec.
  pose proof (preserves_command_op dirtied
    (λ _ _, eq_refl) (λ _ _, eq_refl) (λ _ _, eq_refl)
    (λ _ _, eq_refl) (λ _ _, eq_refl) (λ _ _, eq_refl)
    actionType (setRecordHistory true w)) as Hdirty.
  set (op := match actionType with AddColumnToLeft => _ | _ => _ end) in *.
  assert (TableEditCommander.command (Some context) actionType w =
          match op (setRecordHistory true w) with
          | (w', Val _) => (setDirtied true w', Val tt)
          | (w', Exn) => (w', Exn)
          | (w', OutOfFuel) => (w', OutOfFuel)
          end) as -> by done.
  destruct (op (setRecordHistory true w)) as [w' [[]| |]]; simpl in *; done.
Qed.

(** The dispatcher does return normally on a grid: adding a column to the
    left of the first column of the 2 × 3 example. *)
Example command_returns :
  (TableEditCommander.command (Some tt) AddColumnToLeft
     (Ex.world Ex.cells_2x3 Ex.rows_2x3 [0; 1]
        (Some (SamePosition (Ex.at_ 0 0 0))))).2 = Val tt.
Proof. by vm_compute. Qed.

(** ** Deleting at an edge of the grid *)

Lemma silent_intro (op : M unit) (w w1 : World) :
  op w = (w1, Val tt) → sameStore w w1 → params w1 = params w → silent op w.
Proof. intros Hop ??. unfold silent. by rewrite Hop. Qed.

Lemma getParams_Some w p : params w = Some p → getParams w = (w, Val p).
Proof.
  intros Hp. unfold getParams. rewrite M_bind_unfold. simpl.
  unfold lift. by rewrite Hp.
Qed.

Lemma shows_head_width m T r0 :
  shows m T → m !! 0 = Some r0 → length (cellsPosition r0) = width T.
Proof.
  intros [Hlen Hrows] Hr0.
  destruct (T !! 0) as [Tr|] eqn:HTr.
  - destruct (Hrows 0 r0 Tr Hr0 HTr) as [Hcore _].
    unfold width. rewrite head_lookup, HTr. simpl.
    by rewrite <- Hcore, length_fmap.
  - apply lookup_ge_None in HTr. apply lookup_lt_Some in Hr0. lia.
Qed.

(** On a valid grid the four delete operations return normally and
    leave the grid store unchanged when they are asked at their edge:
    [deleteTopRow] and [deleteLeftColumn] at index 0, [deleteBottomRow] and
    [deleteRightColumn] at the last row and the last column index. *)
Theorem delete_at_edge_is_silent (w : World) (T : list (list slot))
    (p : TableEditRange) :
  valid_grid w T → params w = Some p →
  (rowIndex (startPosition p) = Some 0%Z →
     silent TableEditCommander.deleteTopRow w) ∧
  (columnIndex (startPosition p) = Some 0%Z →
     silent TableEditCommander.deleteLeftColumn w) ∧
  (∀ r, S r = length T → rowIndex (endPosition p) = Some (Z.of_nat r) →
     silent TableEditCommander.deleteBottomRow w) ∧
  (∀ c, S c = width T → columnIndex (endPosition p) = Some (Z.of_nat c) →
     silent TableEditCommander.deleteRightColumn w).
Proof.
  intros HT Hp.
  destruct (cellMatrix_valid _ _ HT) as (m & Hm & Hshows & _).
  set (w1 := setCellMatrix m _) in Hm.
  assert (Hp1 : params w1 = Some p) by done.
  assert (Hsame : sameStore w w1) by apply sameStore_cellMatrix.
  split; [|split; [|split]].
  - intros Hi. apply silent_intro with w1; [|done..].
    unfold TableEditCommander.deleteTopRow.
    rewrite M_bind_unfold, Hm, M_bind_unfold, (getParams_Some _ _ Hp1).
    by rewrite decide_True.
  - intros Hi. apply silent_intro with w1; [|done..].
    unfold TableEditCommander.deleteLeftColumn.
    rewrite M_bind_unfold, Hm, M_bind_unfold, (getParams_Some _ _ Hp1).
    by rewrite decide_True.
  - intros r Hr Hi. apply silent_intro with w1; [|done..].
    unfold TableEditCommander.deleteBottomRow.
    rewrite M_bind_unfold, Hm, M_bind_unfold, (getParams_Some _ _ Hp1).
    rewrite decide_True; [done|].
    rewrite Hi. f_equal. destruct Hshows as [-> _]. lia.
  - intros c Hc Hi. apply silent_intro with w1; [|done..].
    unfold TableEditCommander.deleteRightColumn.
    rewrite M_bind_unfold, Hm, M_bind_unfold, (getParams_Some _ _ Hp1).
    destruct (m !! 0) as [r0|] eqn:Hr0.
    + rewrite M_bind_unfold. unfold lift.
      replace (Js.at_ m 0) with (Some r0) by (by rewrite <- Hr0).
      simpl. rewrite decide_True; [done|].
      rewrite Hi, (shows_head_width _ _ _ Hshows Hr0). f_equal. lia.
    + apply lookup_ge_None in Hr0. destruct Hshows as [Hlen _].
      unfold width in Hc. destruct T; simpl in *; lia.
Qed.

Lemma delete_at_edge_is_silent_witness :
  let w := Ex.world Ex.cells_2x3 Ex.rows_2x3 [0; 1]
             (Some (TwoPositions (Ex.at_ 0 0 0) (Ex.at_ 2 1 2))) in
  silent TableEditCommander.deleteTopRow w ∧
  silent TableEditCommander.deleteLeftColumn w ∧
  silent TableEditCommander.deleteBottomRow w ∧
  silent TableEditCommander.deleteRightColumn w.
Proof.
  intros w.
  destruct (delete_at_edge_is_silent w Ex.tiling_2x3
              (TwoPositions (Ex.at_ 0 0 0) (Ex.at_ 2 1 2)))
    as (H1 & H2 & H3 & H4); [reflexivity|reflexivity|].
  split; [apply H1; reflexivity|].
  split; [apply H2; reflexivity|].
  split; [apply (H3 1); reflexivity|apply (H4 2); reflexivity].
Defined.

(** ** Arrays of references *)

Lemma indexOfFrom_notin l x i : x ∉ l → Js.indexOfFrom l x i = (-1)%Z.
Proof.
  revert i. induction l as [|y l IH]; intros i Hx; simpl; [done|].
  rewrite not_elem_of_cons in Hx. destruct Hx as [Hxy Hx].
  rewrite decide_False by done. by apply IH.
Qed.

Lemma indexOfFrom_lookup l x n i :
  l !! n = Some x → x ∉ take n l →
  Js.indexOfFrom l x i = (i + Z.of_nat n)%Z.
Proof.
  revert n i. induction l as [|y l IH]; intros n i Hn Hx; [done|].
  destruct n as [|n]; simpl in *.
  - injection Hn as ->. rewrite decide_True by done. lia.
  - rewrite not_elem_of_cons in Hx. destruct Hx as [Hxy Hx].
    rewrite decide_False by done. rewrite (IH n) by done. lia.
Qed.

Lemma indexOf_notin l x : x ∉ l → Js.indexOf l x = (-1)%Z.
Proof. apply indexOfFrom_notin. Qed.

Lemma NoDup_lookup_take {A} (l : list A) n x :
  NoDup l → l !! n = Some x → x ∉ take n l.
Proof.
  intros Hl Hn [j Hj]%list_elem_of_lookup.
  rewrite lookup_take_Some in Hj. destruct Hj as [Hj Hlt].
  pose proof (NoDup_lookup _ _ _ _ Hl Hj Hn). lia.
Qed.

Lemma indexOf_NoDup l x n :
  NoDup l → l !! n = Some x → Js.indexOf l x = Z.of_nat n.
Proof.
  intros Hl Hn. unfold Js.indexOf.
  rewrite (indexOfFrom_lookup l x n) by eauto using NoDup_lookup_take. lia.
Qed.

Lemma indexOfFrom_elem l x i :
  x ∈ l →
  ∃ n, l !! n = Some x ∧ (x ∉ take n l) ∧
       Js.indexOfFrom l x i = (i + Z.of_nat n)%Z.
Proof.
  revert i. induction l as [|y l IH]; intros i Hx; [by apply elem_of_nil in Hx|].
  simpl. destruct (decide (y = x)) as [->|Hne].
  - exists 0. simpl. split; [done|]. split; [apply not_elem_of_nil|lia].
  - apply elem_of_cons in Hx. destruct Hx as [->|Hx]; [done|].
    destruct (IH (i + 1)%Z Hx) as (n & Hn & Hnin & Hi). exists (S n). simpl.
    split; [done|]. split; [|lia].
    rewrite not_elem_of_cons. split; [congruence|done].
Qed.

Lemma indexOf_elem l x :
  x ∈ l →
  ∃ n, l !! n = Some x ∧ (x ∉ take n l) ∧ Js.indexOf l x = Z.of_nat n.
Proof.
  intros Hx. destruct (indexOfFrom_elem l x 0 Hx) as (n & ? & ? & Hi).
  exists n. split; [done|]. split; [done|]. unfold Js.indexOf. lia.
Qed.

Lemma splice_delete_nat {A} (l : list A) (n : nat) :
  Js.splice l (Z.of_nat n) 1 [] = delete n l.
Proof.
  unfold Js.splice. rewrite clampIndex_nat. simpl.
  destruct (decide (n < length l)).
  - rewrite Nat.min_l by lia. rewrite delete_take_drop.
    by rewrite Nat.add_1_r.
  - rewrite Nat.min_r by lia. rewrite take_ge, drop_ge by lia.
    rewrite delete_take_drop, take_ge, drop_ge by lia. done.
Qed.

Lemma delete_filter_ne (l : list nat) (n x : nat) :
  NoDup l → l !! n = Some x → delete n l = filter (λ y, y ≠ x) l.
Proof.
  revert n. induction l as [|y l IH]; intros n Hl Hn; [done|].
  apply NoDup_cons in Hl. destruct Hl as [Hy Hl].
  destruct n as [|n]; simpl in *.
  - injection Hn as ->. rewrite filter_cons_False by (intros ?; done).
    symmetry. clear IH. induction l as [|z l IH]; [done|].
    rewrite not_elem_of_cons in Hy. destruct Hy as [Hxz Hx].
    apply NoDup_cons in Hl. destruct Hl as [_ Hl].
    rewrite filter_cons_True by congruence. f_equal. by apply IH.
  - rewrite filter_cons_True.
    + f_equal. by apply IH.
    + intros ->. apply Hy. by eapply list_elem_of_lookup_2.
Qed.

(** Taking the one reference to [x] out of an array. *)
Lemma splice_indexOf (l : list nat) (x : nat) :
  NoDup l → x ∈ l →
  (Js.indexOf l x > -1)%Z ∧
  Js.splice l (Js.indexOf l x) 1 [] = filter (λ y, y ≠ x) l.
Proof.
  intros Hl Hx. destruct (indexOf_elem l x Hx) as (n & Hn & _ & ->).
  split; [lia|]. rewrite splice_delete_nat. by apply delete_filter_ne.
Qed.

(** ** Steps of programs over the world *)

Lemma bind_Val {A B} (m : M A) (f : A → M B) (w w1 : World) (a : A) :
  m w = (w1, Val a) → (m ≫= f) w = f a w1.
Proof. intros H. by rewrite M_bind_unfold, H. Qed.

Lemma getRow_Some w rid r : rowHeap w !! rid = Some r → getRow rid w = (w, Val r).
Proof. intros H. unfold getRow. rewrite M_bind_unfold. simpl. unfold lift. by rewrite H. Qed.

Lemma getCell_Some w k c : cellHeap w !! k = Some c → getCell k w = (w, Val c).
Proof. intros H. unfold getCell. rewrite M_bind_unfold. simpl. unfold lift. by rewrite H. Qed.

Lemma rowOf_Some w rid r : rowHeap w !! rid = Some r → rowOf w rid = r.
Proof. intros H. unfold rowOf. by rewrite H. Qed.

(** ** Lists of lists *)

Lemma filter_ext_in {A} (P Q : A → Prop) `{!∀ x, Decision (P x)}
    `{!∀ x, Decision (Q x)} (l : list A) :
  (∀ x, x ∈ l → (P x ↔ Q x)) → filter P l = filter Q l.
Proof.
  induction l as [|x l IH]; intros Hext; [done|].
  rewrite !filter_cons.
  rewrite IH by (intros y Hy; apply Hext; by right).
  apply decide_ext, Hext. by left.
Qed.

Lemma filter_id {A} (P : A → Prop) `{!∀ x, Decision (P x)} (l : list A) :
  (∀ x, x ∈ l → P x) → filter P l = l.
Proof.
  induction l as [|x l IH]; intros Hall; [done|].
  rewrite filter_cons_True by (apply Hall; by left).
  f_equal. apply IH. intros y Hy. apply Hall. by right.
Qed.

Lemma filter_concat {A} (P : A → Prop) `{!∀ x, Decision (P x)}
    (ls : list (list A)) :
  filter P (concat ls) = concat (filter P <$> ls).
Proof.
  induction ls as [|l ls IH]; [done|]. simpl. by rewrite filter_app, IH.
Qed.

Lemma fmap_concat {A B} (f : A → B) (ls : list (list A)) :
  f <$> concat ls = concat ((λ l : list A, f <$> l) <$> ls).
Proof.
  induction ls as [|l ls IH]; [done|]. simpl. by rewrite fmap_app, IH.
Qed.

Lemma NoDup_concat_elem {A} (ls : list (list A)) (l : list A) :
  NoDup (concat ls) → l ∈ ls → NoDup l.
Proof.
  induction ls as [|l' ls IH]; intros Hls Hl; [by apply elem_of_nil in Hl|].
  simpl in Hls. apply NoDup_app in Hls. destruct Hls as (? & _ & ?).
  apply elem_of_cons in Hl. destruct Hl as [->|?]; [done|by apply IH].
Qed.

(** In an array of arrays without a repeated element, an element is in one
    array only. *)
Lemma NoDup_concat_fmap_once {A B} (f : A → list B) (l : list A) (a a' : A)
    (x : B) :
  NoDup (concat (f <$> l)) → a ∈ l → a' ∈ l → x ∈ f a → x ∈ f a' →
  NoDup l → a = a'.
Proof.
  induction l as [|b l IH]; intros Hc Ha Ha' Hx Hx' Hl;
    [by apply elem_of_nil in Ha|].
  simpl in Hc. apply NoDup_app in Hc. destruct Hc as (_ & Hdisj & Hc).
  apply NoDup_cons in Hl. destruct Hl as [Hb Hl].
  apply elem_of_cons in Ha. apply elem_of_cons in Ha'.
  destruct Ha as [->|Ha], Ha' as [->|Ha']; [done| | |by apply IH].
  - exfalso. apply (Hdisj x Hx). apply elem_of_concat.
    exists (f a'). split; [|done]. by apply list_elem_of_fmap_2.
  - exfalso. apply (Hdisj x Hx'). apply elem_of_concat.
    exists (f a). split; [|done]. by apply list_elem_of_fmap_2.
Qed.

Lemma concat_fmap_filter_ne {B} (f : nat → list B) (l : list nat) (a : nat) :
  f a = [] →
  concat (f <$> filter (λ y, y ≠ a) l) = concat (f <$> l).
Proof.
  intros Ha. induction l as [|b l IH]; [done|].
  rewrite filter_cons. destruct (decide (b ≠ a)) as [Hne|Heq].
  - rewrite !fmap_cons. simpl. f_equal. apply IH.
  - apply dec_stable in Heq. subst b. rewrite fmap_cons. simpl.
    by rewrite Ha, IH.
Qed.

Lemma sublist_concat {A} (ls1 ls2 : list (list A)) :
  ls1 `sublist_of` ls2 → concat ls1 `sublist_of` concat ls2.
Proof.
  induction 1 as [|l ls1 ls2 _ IH|l ls1 ls2 _ IH]; simpl.
  - done.
  - by apply sublist_app.
  - by apply sublist_inserts_l.
Qed.

Lemma sublist_concat_Forall2 {A} (ls1 ls2 : list (list A)) :
  Forall2 sublist ls1 ls2 → concat ls1 `sublist_of` concat ls2.
Proof.
  induction 1 as [|l1 l2 ls1 ls2 ? _ IH]; simpl; [done|].
  by apply sublist_app.
Qed.

Lemma sublist_filter_mono {A} (P : A → Prop) `{!∀ x, Decision (P x)}
    (l1 l2 : list A) :
  l1 `sublist_of` l2 → filter P l1 `sublist_of` filter P l2.
Proof.
  induction 1 as [|x l1 l2 _ IH|x l1 l2 _ IH]; [done| |].
  - rewrite !filter_cons. destruct (decide (P x)); [by constructor|done].
  - rewrite filter_cons. destruct (decide (P x)); [by constructor|done].
Qed.

Lemma concat_replicate_nil {A} (n : nat) : concat (replicate n (@nil A)) = [].
Proof. induction n; simpl; [done|by rewrite IHn]. Qed.

(** ** The row arrays are only ever added to by [serialize] *)

Lemma spanDown_heap c r col row_ cp st :
  Serialize.rowHeap st `prefix_of`
    Serialize.rowHeap (Serialize.spanDown c r col row_ cp st).
Proof.
  unfold Serialize.spanDown.
  destruct (_ <? _)%Z; [|done].
  destruct (bool_decide _); [done|].
  destruct (Serialize.rows st !! (r + 1)); simpl; [done|].
  by apply prefix_app_r.
Qed.

Lemma spanRight_heap c r col row_ cp st :
  Serialize.rowHeap (Serialize.spanRight c r col row_ cp st) = Serialize.rowHeap st.
Proof.
  unfold Serialize.spanRight.
  destruct (_ <? _)%Z; [|done]. by destruct (bool_decide _).
Qed.

Lemma visit_heap ch r col row_ cp st st' :
  Serialize.visit ch r col row_ cp st = Val st' →
  Serialize.rowHeap st `prefix_of` Serialize.rowHeap st'.
Proof.
  unfold Serialize.visit. cbv zeta.
  intros (c & _ & [= <-])%outcome_bind_Val.
  etransitivity; [|apply spanDown_heap]. by rewrite spanRight_heap.
Qed.

Lemma sweepRows_heap fuel ch col : ∀ r stop st stop' st',
  Serialize.sweepRows fuel ch col r stop st = Val (stop', st') →
  Serialize.rowHeap st `prefix_of` Serialize.rowHeap st'.
Proof.
  induction fuel as [|fuel IH]; intros r stop st stop' st'; simpl; [done|].
  destruct (Serialize.rows st !! r) as [row_|]; [|by intros [= _ <-]].
  destruct (cellsPosition row_ !! col) as [cp|]; [|apply IH].
  intros (st1 & Hv & Hs)%outcome_bind_Val.
  etransitivity; [by eapply visit_heap|by eapply IH].
Qed.

Lemma sweepColumns_heap fuel rowFuel ch : ∀ col st st',
  Serialize.sweepColumns fuel rowFuel ch col st = Val st' →
  Serialize.rowHeap st `prefix_of` Serialize.rowHeap st'.
Proof.
  induction fuel as [|fuel IH]; intros col st st'; simpl; [done|].
  intros ([stop st1] & Hr & Hc)%outcome_bind_Val.
  apply sweepRows_heap in Hr.
  destruct stop; [|by injection Hc as <-].
  etransitivity; [done|by eapply IH].
Qed.

Lemma serialize_heap_prefix ch rh bodies m rh' :
  Serialize.serialize ch rh bodies = Val (m, rh') → rh `prefix_of` rh'.
Proof.
  unfold Serialize.serialize.
  intros (rs & _ & (st & Hs & [= _ <-])%outcome_bind_Val)%outcome_bind_Val.
  by apply sweepColumns_heap in Hs.
Qed.

(** ** Programs that leave the grid store alone *)

#[global] Instance sameStore_refl : Reflexive sameStore.
Proof. by intros w. Qed.

#[global] Instance sameStore_trans : Transitive sameStore.
Proof.
  intros w1 w2 w3 (? & ? & ? & ?) (? & ? & ? & ?).
  repeat split; try congruence. by etransitivity.
Qed.

Lemma sameStore_bind {A B} (m : M A) (k : A → M B) :
  (∀ w, sameStore w (m w).1) → (∀ a w, sameStore w (k a w).1) →
  ∀ w, sameStore w ((m ≫= k) w).1.
Proof.
  intros Hm Hk w. rewrite M_bind_unfold. specialize (Hm w).
  destruct (m w) as [w1 [a| |]]; simpl in *; [|done..].
  etransitivity; [done|apply Hk].
Qed.

Lemma sameStore_serialize w : sameStore w (TableComponent.serialize w).1.
Proof.
  unfold TableComponent.serialize.
  destruct (Serialize.serialize _ _ _) as [[m rh']| |] eqn:Hs; simpl; [|done..].
  repeat split. by eapply serialize_heap_prefix.
Qed.

Lemma sameStore_selectCells a b w :
  sameStore w (TableComponent.selectCells a b w).1.
Proof.
  unfold TableComponent.selectCells.
  apply sameStore_bind; [apply sameStore_serialize|]. intros m.
  apply sameStore_bind; [done|]. intros _.
  apply sameStore_bind; [done|]. intros w0.
  apply sameStore_bind; [done|]. intros p1.
  apply sameStore_bind; [done|]. intros p2. done.
Qed.

Lemma sameStore_assignRange range w :
  sameStore w (TableEditCommander.assignRange range w).1.
Proof. done. Qed.

(** ** [mergeCells]: the cells that leave the grid *)

Lemma removeCell_step w p r :
  rowHeap w !! row p = Some r → NoDup r → cell p ∈ r →
  NoDup (bodies w) → row p ∈ bodies w →
  ∃ w', TableEditCommander.removeCell p w = (w', Val tt) ∧
    cellHeap w' = cellHeap w ∧ fragmentHeap w' = fragmentHeap w ∧
    params w' = params w ∧
    rowHeap w' = <[row p := filter (λ y, y ≠ cell p) r]> (rowHeap w) ∧
    bodies w' =
      if decide (filter (λ y, y ≠ cell p) r = [])
      then filter (λ y, y ≠ row p) (bodies w) else bodies w.
Proof.
  intros Hr Hnd Hk Hb Hrid.
  destruct (splice_indexOf r (cell p) Hnd Hk) as [Hi Hs].
  destruct (splice_indexOf (bodies w) (row p) Hb Hrid) as [_ Hsb].
  unfold TableEditCommander.removeCell.
  rewrite (bind_Val _ _ _ _ _ (getRow_Some _ _ _ Hr)).
  cbv zeta. rewrite bool_decide_eq_true_2 by done. rewrite Hs.
  set (r' := filter _ r).
  rewrite M_bind_unfold. unfold setRow at 1, modify at 1. cbv beta iota.
  destruct (decide (length r' = 0)) as [Hz|Hnz].
  - apply length_zero_iff_nil in Hz. rewrite decide_True by done.
    eexists. split.
    + rewrite M_bind_unfold. unfold getBodies, getW. rewrite M_bind_unfold.
      unfold TableEditCommander.spliceBodies, modify.
      cbn -[Js.splice Js.indexOf filter]. rewrite Hsb. reflexivity.
    + done.
  - rewrite decide_False by (intros E; by rewrite E in Hnz).
    eexists. split; [reflexivity|]. done.
Qed.

Lemma filter_not_elem_of_cons (k : nat) (K l : list nat) :
  filter (λ x, x ∉ k :: K) l = filter (λ x, x ∉ K) (filter (λ y, y ≠ k) l).
Proof.
  rewrite list_filter_filter. apply list_filter_iff. intros x.
  rewrite not_elem_of_cons. tauto.
Qed.

Lemma forEach_removeCell ps : ∀ w,
  NoDup (bodies w) → NoDup (concat (rowsOf w)) →
  (∀ rid, rid ∈ bodies w → is_Some (rowHeap w !! rid)) →
  NoDup (cell <$> ps) →
  (∀ p, p ∈ ps → row p ∈ bodies w ∧ cell p ∈ rowOf w (row p)) →
  ∃ w', forEach ps TableEditCommander.removeCell w = (w', Val tt) ∧
        removedFrom (cell <$> ps) w w'.
Proof.
  induction ps as [|p ps IH]; intros w Hb Hc Hsome Hnd Hps.
  { exists w. split; [done|]. constructor; try done.
    - intros rid Hrid. destruct (Hsome rid Hrid) as [r Hr].
      rewrite (rowOf_Some _ _ _ Hr), Hr. f_equal. symmetry.
      apply filter_id. intros x _. apply not_elem_of_nil.
    - symmetry. apply filter_id. intros rid _ [Hne He]. apply Hne.
      rewrite <- He. symmetry. apply filter_id. intros x _.
      apply not_elem_of_nil. }
  rewrite fmap_cons in Hnd. apply NoDup_cons in Hnd. destruct Hnd as [Hk Hnd].
  destruct (Hps p) as [Hrid Hin]; [by left|].
  destruct (Hsome _ Hrid) as [r Hr]. rewrite (rowOf_Some _ _ _ Hr) in Hin.
  assert (NoDup r) as Hndr.
  { apply (NoDup_concat_elem (rowsOf w)); [done|].
    unfold rowsOf. rewrite <- (rowOf_Some _ _ _ Hr).
    by apply list_elem_of_fmap_2. }
  destruct (removeCell_step w p r Hr Hndr Hin Hb Hrid)
    as (w1 & Hstep & Hcells1 & Hfrags1 & Hparams1 & Hrows1 & Hbodies1).
  set (r' := filter (λ y, y ≠ cell p) r) in *.
  pose proof (lookup_lt_Some _ _ _ Hr) as Hlt.
  (* the rows of [w1] *)
  assert (HA : ∀ rid', rid' ∈ bodies w →
            rowOf w1 rid' = filter (λ y, y ≠ cell p) (rowOf w rid')).
  { intros rid' Hrid'. unfold rowOf at 1. rewrite Hrows1.
    destruct (decide (rid' = row p)) as [->|Hne].
    - rewrite list_lookup_insert_eq by done. simpl.
      by rewrite (rowOf_Some _ _ _ Hr).
    - rewrite list_lookup_insert_ne by done. fold (rowOf w rid').
      symmetry. apply filter_id. intros x Hx ->. apply Hne.
      apply (NoDup_concat_fmap_once (rowOf w) (bodies w) rid' (row p) (cell p));
        try done.
      by rewrite (rowOf_Some _ _ _ Hr). }
  assert (HB : ∀ rid', rid' ∈ bodies w1 → rid' ∈ bodies w).
  { intros rid'. rewrite Hbodies1. destruct (decide (r' = [])); [|done].
    by intros [_ ?]%list_elem_of_filter. }
  assert (HB' : ∀ rid', rid' ∈ bodies w → rid' ∉ bodies w1 →
            rid' = row p ∧ r' = []).
  { intros rid' Hin1. rewrite Hbodies1. destruct (decide (r' = [])); [|done].
    rewrite list_elem_of_filter. intros Hn. split; [|done].
    destruct (decide (rid' = row p)); [done|]. exfalso. by apply Hn. }
  assert (HC : concat (rowsOf w1) = filter (λ y, y ≠ cell p) (concat (rowsOf w))).
  { rewrite filter_concat. unfold rowsOf.
    rewrite <- list_fmap_compose.
    transitivity (concat (rowOf w1 <$> bodies w)).
    - rewrite Hbodies1. destruct (decide (r' = [])) as [He|]; [|done].
      apply concat_fmap_filter_ne. rewrite HA by done.
      by rewrite (rowOf_Some _ _ _ Hr).
    - f_equal. apply list_fmap_ext. intros i rid' Hi. simpl. apply HA.
      by eapply list_elem_of_lookup_2. }
  destruct (IH w1) as (w' & Hrun & Hrem).
  { rewrite Hbodies1. destruct (decide (r' = [])); [|done]. by apply NoDup_filter. }
  { rewrite HC. by apply NoDup_filter. }
  { intros rid' Hrid'. rewrite Hrows1. apply list_lookup_insert_is_Some.
    apply Hsome. by apply HB. }
  { done. }
  { intros p' Hp'. destruct (Hps p') as [Hrid' Hin']; [by right|].
    assert (cell p' ≠ cell p) as Hne.
    { intros E. apply Hk. rewrite <- E. by apply list_elem_of_fmap_2. }
    assert (cell p' ∈ rowOf w1 (row p')) as Hin1.
    { rewrite HA by done. by apply list_elem_of_filter. }
    split; [|done].
    destruct (decide (row p' ∈ bodies w1)) as [|Hn]; [done|].
    destruct (HB' _ Hrid' Hn) as [E He]. rewrite E in Hin1.
    rewrite HA, (rowOf_Some _ _ _ Hr) in Hin1 by done.
    fold r' in Hin1. rewrite He in Hin1. by apply elem_of_nil in Hin1. }
  exists w'. split.
  { simpl. by rewrite (bind_Val _ _ _ _ _ Hstep). }
  destruct Hrem as [Hc' Hf' Hp' Hrows' Hother' Hbodies'].
  rewrite fmap_cons. constructor.
  - congruence.
  - congruence.
  - congruence.
  - intros rid' Hrid'. rewrite filter_not_elem_of_cons, <- HA by done.
    destruct (decide (rid' ∈ bodies w1)) as [Hin1|Hn]; [by apply Hrows'|].
    destruct (HB' _ Hrid' Hn) as [-> He].
    rewrite Hother', Hrows1 by done. rewrite list_lookup_insert_eq by done.
    rewrite HA, (rowOf_Some _ _ _ Hr) by done. fold r'. by rewrite He.
  - intros rid' Hrid'. rewrite Hother' by (intros ?; apply Hrid'; by apply HB).
    rewrite Hrows1. apply list_lookup_insert_ne. by intros <-.
  - rewrite Hbodies', Hbodies1.
    assert (Hiff : ∀ rid', rid' ∈ bodies w → rid' ≠ row p ∨ r' ≠ [] →
              (emptied (cell <$> ps) (rowOf w1 rid') ↔
               emptied (cell p :: (cell <$> ps)) (rowOf w rid'))).
    { intros rid' Hrid' Hcase. unfold emptied.
      rewrite filter_not_elem_of_cons, <- HA by done.
      destruct (decide (rid' = row p)) as [->|Hne].
      - destruct Hcase as [?|Hr']; [done|].
        rewrite (rowOf_Some _ _ _ Hr).
        assert (rowOf w1 (row p) = r') as ->.
        { rewrite HA by done. by rewrite (rowOf_Some _ _ _ Hr). }
        split; intros [_ ?]; split; try done.
        intros ->. by apply elem_of_nil in Hin.
      - assert (rowOf w1 rid' = rowOf w rid') as ->; [|done].
        unfold rowOf. rewrite Hrows1. by rewrite list_lookup_insert_ne. }
    destruct (decide (r' = [])) as [He|Hne].
    + rewrite list_filter_filter. apply filter_ext_in. intros rid' Hrid'.
      destruct (decide (rid' = row p)) as [->|Hne].
      * split; [by intros [_ ?]|]. intros Hn. exfalso. apply Hn.
        unfold emptied. rewrite (rowOf_Some _ _ _ Hr).
        split; [intros ->; by apply elem_of_nil in Hin|].
        rewrite filter_not_elem_of_cons. fold r'. by rewrite He.
      * rewrite (Hiff rid') by auto. tauto.
    + apply filter_ext_in. intros rid' Hrid'. by rewrite (Hiff rid') by auto.
Qed.

(** ** The anchors of a rectangle of the matrix *)

Lemma shows_fmap m T :
  shows m T → T = (λ row_, core <$> cellsPosition row_) <$> m.
Proof.
  intros [Hlen Hrows]. apply list_eq. intros i. rewrite list_lookup_fmap.
  destruct (m !! i) as [row_|] eqn:Hi, (T !! i) as [Tr|] eqn:HTi; simpl.
  - f_equal. symmetry. by destruct (Hrows _ _ _ Hi HTi).
  - apply lookup_lt_Some in Hi. apply lookup_ge_None in HTi. lia.
  - apply lookup_lt_Some in HTi. apply lookup_ge_None in Hi. lia.
  - done.
Qed.

Lemma isAnchor_anchor p :
  TableEditCommander.isAnchor p = true ↔ anchor (core p).
Proof.
  unfold TableEditCommander.isAnchor, anchor, core, slotRow, slotColumn. simpl.
  rewrite andb_true_iff, !bool_decide_eq_true. done.
Qed.

Lemma filter_isAnchor_core (l : list TableCellPosition) :
  core <$> filter (λ c, TableEditCommander.isAnchor c = true) l
  = filter anchor (core <$> l).
Proof.
  induction l as [|p l IH]; [done|].
  rewrite fmap_cons, !filter_cons.
  destruct (decide (TableEditCommander.isAnchor p = true)) as [Ha|Ha].
  - rewrite decide_True by (by apply isAnchor_anchor).
    by rewrite fmap_cons, IH.
  - rewrite decide_False by (by rewrite <- isAnchor_anchor). done.
Qed.

Lemma rectangle_nat m q :
  TableEditCommander.rectangle m (Z.of_nat (top q)) (Z.of_nat (left q))
    (Z.of_nat (bottom q)) (Z.of_nat (right q))
  = (λ r, take (S (right q) - left q) (drop (left q) (cellsPosition r)))
      <$> take (S (bottom q) - top q) (drop (top q) m).
Proof.
  unfold TableEditCommander.rectangle.
  replace (Z.of_nat (bottom q) + 1)%Z with (Z.of_nat (S (bottom q))) by lia.
  replace (Z.of_nat (right q) + 1)%Z with (Z.of_nat (S (right q))) by lia.
  rewrite slice_nat. apply list_fmap_ext. intros i r _. by rewrite slice_nat.
Qed.

Lemma rectangle_anchors m T q :
  shows m T →
  cell <$> concat (filter (λ c, TableEditCommander.isAnchor c = true)
                     <$> TableEditCommander.rectangle m (Z.of_nat (top q))
                           (Z.of_nat (left q)) (Z.of_nat (bottom q))
                           (Z.of_nat (right q)))
  = anchorsIn T q.
Proof.
  intros Hm. rewrite (shows_fmap _ _ Hm) at 1. unfold anchorsIn.
  rewrite rectangle_nat, fmap_concat. f_equal.
  rewrite <- fmap_drop, <- fmap_take, <- !list_fmap_compose.
  apply list_fmap_ext. intros i row_ _. simpl.
  rewrite <- fmap_drop, <- fmap_take, <- filter_isAnchor_core.
  by rewrite <- list_fmap_compose.
Qed.

Lemma rectangle_entry m q p :
  p ∈ concat (TableEditCommander.rectangle m (Z.of_nat (top q))
                (Z.of_nat (left q)) (Z.of_nat (bottom q)) (Z.of_nat (right q))) →
  ∃ r c, inside q r c ∧ entry m r c = Some p.
Proof.
  rewrite rectangle_nat. intros (l & Hl & Hp)%elem_of_concat.
  apply list_elem_of_fmap in Hl. destruct Hl as (row_ & -> & Hrow).
  apply list_elem_of_lookup in Hrow. destruct Hrow as [i Hi].
  apply lookup_take_Some in Hi. destruct Hi as [Hi Hilt].
  rewrite lookup_drop in Hi.
  apply list_elem_of_lookup in Hp. destruct Hp as [j Hj].
  apply lookup_take_Some in Hj. destruct Hj as [Hj Hjlt].
  rewrite lookup_drop in Hj.
  exists (top q + i), (left q + j). split.
  - unfold inside. lia.
  - unfold entry. by rewrite Hi.
Qed.

Section StoredAnchors.
Context {ch : list TableCell} {rh : list (list CellId)} {bodies : list RowId}.
Context {T : list (list slot)} {m : list TableRowPosition}.
Hypothesis HL : layout ch rh bodies T.
Hypothesis Hm : shows m T.
Hypothesis Hcells : ∀ r row_, m !! r = Some row_ → cells row_ = rowIdOf rh bodies r.

(** An anchor of the matrix is a cell of the stored row it names. *)
Lemma anchor_stored r c p :
  entry m r c = Some p → TableEditCommander.isAnchor p = true →
  bodies !! r = Some (row p) ∧ cell p ∈ default [] (rh !! row p).
Proof using HL Hm Hcells.
  intros Hp Ha. pose proof (shows_entry Hm _ _ _ Hp) as He.
  unfold entry in Hp. destruct (m !! r) as [row_|] eqn:Hr; [|done].
  unfold slotAt in He. destruct (T !! r) as [Tr|] eqn:HTr; [|done].
  assert (cell p ∈ rowCells rh bodies r) as Hin.
  { rewrite <- (layout_anchors HL _ _ HTr).
    change (cell p) with (slotCell (core p)). apply list_elem_of_fmap_2.
    apply list_elem_of_filter. split; [by apply isAnchor_anchor|].
    by eapply list_elem_of_lookup_2. }
  destruct Hm as [_ Hrows]. destruct (Hrows _ _ _ Hr HTr) as [_ Hpos].
  destruct (Hpos _ _ Hp) as (_ & _ & ->). rewrite (Hcells _ _ Hr).
  unfold rowCells, rowIdOf in *.
  destruct (bodies !! r) as [rid|]; [done|by apply elem_of_nil in Hin].
Qed.

(** The rows of anchors of the tiling are the stored rows, and empty rows
    below them. *)
Lemma layout_anchor_rows :
  (λ Tr : list slot, slotCell <$> filter anchor Tr) <$> T
  = ((λ rid, default [] (rh !! rid)) <$> bodies)
      ++ replicate (length T - length bodies) [].
Proof using HL.
  apply list_eq. intros i. rewrite list_lookup_fmap.
  destruct (T !! i) as [Tr|] eqn:HTr; simpl.
  - rewrite (layout_anchors HL _ _ HTr). unfold rowCells.
    pose proof (lookup_lt_Some _ _ _ HTr).
    destruct (bodies !! i) as [rid|] eqn:Hb.
    + rewrite lookup_app_l by (rewrite length_fmap; by eapply lookup_lt_Some).
      by rewrite list_lookup_fmap, Hb.
    + apply lookup_ge_None in Hb.
      rewrite lookup_app_r by (by rewrite length_fmap).
      rewrite length_fmap. symmetry. apply lookup_replicate_2. lia.
  - apply lookup_ge_None in HTr. symmetry. apply lookup_ge_None.
    pose proof (layout_rows_le HL).
    rewrite length_app, length_fmap, length_replicate. lia.
Qed.

Lemma anchorsIn_sublist q :
  anchorsIn T q `sublist_of` concat ((λ rid, default [] (rh !! rid)) <$> bodies).
Proof using HL.
  transitivity (concat ((λ Tr : list slot, slotCell <$> filter anchor Tr) <$> T)).
  - unfold anchorsIn.
    transitivity (concat ((λ Tr : list slot, slotCell <$> filter anchor Tr)
                            <$> take (S (bottom q) - top q) (drop (top q) T))).
    + apply sublist_concat_Forall2. apply Forall2_fmap, Forall_Forall2_diag.
      apply Forall_forall. intros Tr _. apply fmap_sublist.
      apply sublist_filter_mono.
      etransitivity; [apply sublist_take|apply sublist_drop].
    + apply sublist_concat, fmap_sublist.
      etransitivity; [apply sublist_take|apply sublist_drop].
  - rewrite layout_anchor_rows, concat_app, concat_replicate_nil, app_nil_r.
    done.
Qed.

(** A rectangle that clips no cell has an anchor in its top left corner. *)
Lemma closed_corner q :
  inBounds (length T) (width T) q → closed ch T q →
  ∃ k0 cl K, slotAt T (top q) (left q) = Some (k0, 0%Z, 0%Z) ∧
    ch !! k0 = Some cl ∧ anchorsIn T q = k0 :: K.
Proof using HL.
  intros (Hb1 & Hb2 & Hb3 & Hb4) Hclosed.
  destruct (slotAt_is_Some HL (top q) (left q)) as [e He]; [lia..|].
  destruct (slot_cell HL _ _ _ He) as (cl & Hcl & Hi & Hj).
  assert (inside q (top q) (left q)) as Hin by (unfold inside; lia).
  pose proof (Hclosed _ _ _ _ He Hcl Hin) as (Ht & _ & Hl & _).
  destruct (walk_up HL (Z.to_nat (slotRow e)) _ _ _ He) as [Hu _]; [lia|].
  destruct (walk_left HL (Z.to_nat (slotColumn e)) _ _ _ He) as [Hw _]; [lia|].
  simpl in Ht, Hl.
  assert (slotRow e = 0%Z) as Hr0 by lia.
  assert (slotColumn e = 0%Z) as Hc0 by lia.
  destruct e as [[k i] j]. unfold slotRow, slotColumn in *. simpl in *. subst i j.
  exists k, cl. unfold anchorsIn.
  unfold slotAt in He. destruct (T !! top q) as [Tr|] eqn:HTr; [|done].
  rewrite (drop_S _ _ _ HTr).
  replace (S (bottom q) - top q) with (S (bottom q - top q)) by lia.
  rewrite firstn_cons, fmap_cons. simpl.
  rewrite (drop_S _ _ _ He).
  replace (S (right q) - left q) with (S (right q - left q)) by lia.
  rewrite firstn_cons, filter_cons_True by done.
  rewrite fmap_cons. simpl. eexists. split; [|split; [done|reflexivity]].
  unfold slotAt. by rewrite HTr.
Qed.

End StoredAnchors.

Lemma alter_alter_insert {A} (f g : A → A) (l : list A) (i : nat) (x : A) :
  l !! i = Some x → alter f i (alter g i l) = <[i := f (g x)]> l.
Proof.
  intros Hi. apply list_eq. intros j.
  destruct (decide (j = i)) as [->|Hne].
  - rewrite !list_lookup_alter_eq, Hi. simpl.
    by rewrite list_lookup_insert_eq by (by eapply lookup_lt_Some).
  - by rewrite !list_lookup_alter_ne, list_lookup_insert_ne by done.
Qed.

(** What follows the removals in [mergeCells] updates the selection and
    leaves the grid store alone. *)
Lemma merge_selection_sameStore k w :
  sameStore w
    ((c ← getCell k;
      range ← TableComponent.selectCells (fragment c) (fragment c);
      TableEditCommander.assignRange range) w).1.
Proof.
  revert w. apply sameStore_bind.
  - intros w. unfold getCell. revert w. apply sameStore_bind; [done|].
    intros w0 w. done.
  - intros c. apply sameStore_bind; [apply sameStore_selectCells|].
    intros range w. apply sameStore_assignRange.
Qed.

(** ** [mergeCells] *)

(** On a valid grid whose store holds every row and cell once, with the
    edit range a rectangle [q] that clips no cell: the first anchor of [q],
    which is the cell at its top left corner, survives [mergeCells] with
    [rowspan] the height and [colspan] the width of [q] and with its
    fragment; no fragment changes, so no content is moved into the
    survivor; every other cell anchored in [q] leaves its row, and every
    row that loses all its cells this way leaves [bodies]; the other cells
    and rows are as before. *)
Theorem mergeCells_store (w : World) (T : list (list slot)) (q : Rect) :
  valid_grid w T → storeWf w → rangeIs w q →
  inBounds (length T) (width T) q → closed (cellHeap w) T q →
  ∃ k0 cl K,
    slotAt T (top q) (left q) = Some (k0, 0%Z, 0%Z) ∧
    anchorsIn T q = k0 :: K ∧
    cellHeap w !! k0 = Some cl ∧
    let w' := (TableEditCommander.mergeCells w).1 in
    cellHeap w' =
      <[k0 := {| colspan := Z.of_nat (S (right q) - left q);
                 rowspan := Z.of_nat (S (bottom q) - top q);
                 fragment := fragment cl |}]> (cellHeap w) ∧
    fragmentHeap w' = fragmentHeap w ∧
    (∀ rid, rid ∈ bodies w →
       rowHeap w' !! rid = Some (filter (λ k, k ∉ K) (rowOf w rid))) ∧
    bodies w' = filter (λ rid, ¬ emptied K (rowOf w rid)) (bodies w).
Proof.
  intros HT [Hb Hc] (p & Hp & Hr1 & Hc1 & Hr2 & Hc2) Hq Hclosed.
  pose proof (proj1 (layout_ok_layout _ _ _ _) HT) as HL.
  destruct (cellMatrix_valid _ _ HT) as (m & Hm & Hshows & Hcellsrow).
  destruct (closed_corner HL q Hq Hclosed) as (k0 & cl & K & Hslot & Hcl & HK).
  exists k0, cl, K. split; [done|]. split; [done|]. split; [done|].
  set (w1 := setCellMatrix m _) in Hm.
  assert (Hp1 : params w1 = Some p) by done.
  (* the stored rows are out of reach of the rows made by [serialize] *)
  assert (Hrow1 : ∀ rid, rid ∈ bodies w → rowOf w1 rid = rowOf w rid).
  { intros rid Hrid. unfold rowOf. simpl.
    destruct (layout_bodies HL rid Hrid) as [r Hr].
    by rewrite (lookup_app_l_Some _ _ _ _ Hr), Hr. }
  pose proof (rectangle_anchors m T q Hshows) as Hanch. rewrite HK in Hanch.
  assert (Hstored : ∀ p', p' ∈ concat (filter (λ c, TableEditCommander.isAnchor c = true)
              <$> TableEditCommander.rectangle m (Z.of_nat (top q))
                    (Z.of_nat (left q)) (Z.of_nat (bottom q)) (Z.of_nat (right q))) →
            row p' ∈ bodies w ∧ cell p' ∈ rowOf w (row p')).
  { intros p' (l & Hl & Hp')%elem_of_concat.
    apply list_elem_of_fmap in Hl. destruct Hl as (l0 & -> & Hl0).
    apply list_elem_of_filter in Hp'. destruct Hp' as [Ha Hp'].
    destruct (rectangle_entry m q p') as (r & c & _ & He).
    { apply elem_of_concat. eauto. }
    destruct (anchor_stored HL Hshows Hcellsrow _ _ _ He Ha) as [Hbr Hin].
    split; [by eapply list_elem_of_lookup_2|done]. }
  destruct (filter (λ c, TableEditCommander.isAnchor c = true)
              <$> TableEditCommander.rectangle m (Z.of_nat (top q))
                    (Z.of_nat (left q)) (Z.of_nat (bottom q))
                    (Z.of_nat (right q)))
    as [|part parts] eqn:Hparts; [done|].
  destruct (concat (part :: parts)) as [|newNode selected] eqn:Hsel; [done|].
  rewrite fmap_cons in Hanch. injection Hanch as Hk0 HKs.
  assert (NoDup (k0 :: K)) as Hnd.
  { rewrite <- HK. eapply sublist_NoDup; [exact Hc|].
    apply (anchorsIn_sublist HL). }
  apply NoDup_cons in Hnd. destruct Hnd as [Hk0K HndK].
  set (H := Z.of_nat (S (bottom q) - top q)).
  set (W := Z.of_nat (S (right q) - left q)).
  set (w2 := setCellHeap (alter (setColspan W) k0
                            (alter (setRowspan H) k0 (cellHeap w1))) w1).
  destruct (forEach_removeCell selected w2) as (w3 & Hrun & Hrem).
  { done. }
  { replace (rowsOf w2) with (rowsOf w); [done|].
    unfold rowsOf. apply list_fmap_ext. intros i rid Hi. symmetry.
    apply (Hrow1 rid). by eapply list_elem_of_lookup_2. }
  { intros rid Hrid. simpl. destruct (layout_bodies HL rid Hrid) as [r Hr].
    exists r. by apply lookup_app_l_Some. }
  { by rewrite HKs. }
  { intros p' Hp'. destruct (Hstored p') as [? ?]; [by right|].
    split; [done|]. change (cell p' ∈ rowOf w1 (row p')). by rewrite Hrow1. }
  rewrite HKs in Hrem. destruct Hrem as [Hc3 Hf3 _ Hrows3 _ Hb3].
  assert (TableEditCommander.mergeCells w =
          (c ← getCell k0;
           range ← TableComponent.selectCells (fragment c) (fragment c);
           TableEditCommander.assignRange range) w3) as Hrest.
  { unfold TableEditCommander.mergeCells.
    rewrite (bind_Val _ _ _ _ _ Hm), (bind_Val _ _ _ _ _ (getParams_Some _ _ Hp1)).
    rewrite Hr1, Hc1, Hr2, Hc2. cbn [Js.toNumber default from_option id].
    cbv zeta. rewrite Hparts, Hsel, Hk0.
    replace (Z.of_nat (bottom q) - Z.of_nat (top q) + 1)%Z
      with H by (unfold H; destruct Hq; lia).
    replace (Z.of_nat (right q) - Z.of_nat (left q) + 1)%Z
      with W by (unfold W; destruct Hq; lia).
    rewrite M_bind_unfold. unfold modifyCell at 1, modify at 1. cbv beta iota.
    rewrite M_bind_unfold. unfold modifyCell at 1, modify at 1. cbv beta iota.
    fold w2. by rewrite (bind_Val _ _ _ _ _ Hrun). }
  cbv zeta. rewrite Hrest.
  destruct (merge_selection_sameStore k0 w3) as (Hb' & Hc' & Hf' & Hpre).
  split; [|split; [|split]].
  - rewrite Hc', Hc3. simpl.
    rewrite (alter_alter_insert _ _ _ _ _ Hcl). done.
  - by rewrite Hf', Hf3.
  - intros rid Hrid. eapply prefix_lookup_Some; [|exact Hpre].
    rewrite (Hrows3 rid Hrid). f_equal.
    change (rowOf w2 rid) with (rowOf w1 rid). by rewrite Hrow1.
  - rewrite Hb', Hb3. apply filter_ext_in. intros rid Hrid.
    change (rowOf w2 rid) with (rowOf w1 rid). by rewrite Hrow1.
Qed.

Lemma mergeCells_store_witness :
  let w := Ex.world Ex.cells_3x3 Ex.rows_3x3 [0; 1; 2]
             (Some (TwoPositions (Ex.at_ 0 0 0) (Ex.at_ 3 2 2))) in
  let w' := (TableEditCommander.mergeCells w).1 in
  cellHeap w' !! 0 = Some (mkCell 3 3 0) ∧
  fragmentHeap w' = fragmentHeap w ∧
  rowHeap w' !! 0 = Some [0] ∧
  bodies w' = [0].
Proof.
  intros w w'.
  destruct (mergeCells_store w Ex.tiling_3x3 (mkRectN 0 0 2 2))
    as (k0 & cl & K & Hslot & HK & Hcl & Hch & Hf & Hrows & Hb).
  - reflexivity.
  - split; apply (bool_decide_unpack _); vm_compute; exact I.
  - eexists. split; [reflexivity|]. repeat split.
  - compute. lia.
  - intros r c e cl He Hcl _.
    assert (layout Ex.cells_3x3 Ex.rows_3x3 [0; 1; 2] Ex.tiling_3x3) as HL
      by (apply layout_ok_layout; reflexivity).
    destruct (spanAt_bounds HL r c e cl He Hcl) as [(? & Hb & ? & Hr) _].
    clear HL He Hcl.
    change (length Ex.tiling_3x3) with 3 in Hb.
    change (width Ex.tiling_3x3) with 3 in Hr.
    unfold contains. cbn [top left bottom right]. lia.
  - injection Hslot as <-. injection HK as <-. injection Hcl as <-.
    fold w' in Hch, Hf, Hrows, Hb. clearbody w'.
    split; [rewrite Hch; reflexivity|]. split; [exact Hf|].
    split; [|rewrite Hb; reflexivity].
    rewrite (Hrows 0); [reflexivity|]. apply list_elem_of_here.
Defined.

(** ** The matrix of a valid grid, position by position *)

(** On a grid whose spans tile a rectangle, [serialize] returns normally;
    every position of the matrix records its own row and column index and
    names the row array of its matrix row; the matrix rows of the stored
    rows name the stored arrays, and each row below them, made for a span
    that reaches under the stored rows, names a new empty array put at
    the end of the heap, in row order. *)
Theorem serialize_positions ch rh bodies T :
  layout_ok ch rh bodies T = true →
  ∃ m,
    Serialize.serialize ch rh bodies
      = Val (m, rh ++ replicate (length T - length bodies) []) ∧
    (∀ r c p, entry m r c = Some p →
       rowIndex p = Some (Z.of_nat r) ∧ columnIndex p = Some (Z.of_nat c) ∧
       ∃ row_, m !! r = Some row_ ∧ row p = cells row_) ∧
    (∀ r row_, m !! r = Some row_ →
       cells row_ =
         match bodies !! r with
         | Some rid => rid
         | None => length rh + (r - length bodies)
         end).
Proof.
  intros HL%layout_ok_layout.
  destruct (serialize_layout _ _ _ _ HL) as (m & Hser & Hm & Hcells).
  exists m. split; [done|]. split; [|exact Hcells].
  intros r c p Hp. destruct (shows_index Hm _ _ _ Hp) as [Hr Hc].
  split; [done|]. split; [done|].
  unfold entry in Hp. destruct (m !! r) as [row_|] eqn:Hrow; [|done].
  exists row_. split; [done|].
  destruct Hm as [Hlen Hrows].
  destruct (lookup_lt_is_Some_2 T r) as [Tr HTr].
  { rewrite <- Hlen. by eapply lookup_lt_Some. }
  destruct (Hrows _ _ _ Hrow HTr) as [_ Hpos]. by destruct (Hpos _ _ Hp) as (_ & _ & ?).
Qed.

Lemma serialize_positions_witness :
  ∃ m, Serialize.serialize Ex.cells_tall Ex.rows_tall [0] = Val (m, [[0]; []]) ∧
       ∀ r row_, m !! r = Some row_ → cells row_ = r.
Proof.
  destruct (serialize_positions Ex.cells_tall Ex.rows_tall [0] Ex.tiling_tall
              eq_refl) as (m & Hser & _ & Hcells).
  exists m. split; [exact Hser|].
  intros r row_ Hr. rewrite (Hcells r row_ Hr).
  destruct r as [|r]; simpl; lia.
Defined.

(** ** What the matrix getter and the selection normalizer leave alone *)

(** On every world, valid or not, and whatever their outcome, the matrix
    getter and [selectCells] change nothing but the matrix cache, apart
    from adding row arrays at the end of the heap: [bodies], every cell,
    every fragment, every existing row array, the edit range and the two
    flags are as before. *)
Theorem matrix_getters_only_cache (w : World) (startCell endCell : FragmentId) :
  onlyMatrix w (TableComponent.cellMatrix w).1 ∧
  onlyMatrix w (TableComponent.selectCells startCell endCell w).1.
Proof.
  split; (split; [|split; [|split]]).
  - change (sameStore w ((n ← TableComponent.serialize;
                          modify (setCellMatrix n);; mret n) w).1).
    revert w. apply sameStore_bind; [apply sameStore_serialize|].
    intros n. apply sameStore_bind; [done|]. intros _ w. done.
  - by apply (preserves_cellMatrix params).
  - by apply (preserves_cellMatrix dirtied).
  - by apply (preserves_cellMatrix recordHistory).
  - apply sameStore_selectCells.
  - by apply (preserves_selectCells params).
  - by apply (preserves_selectCells dirtied).
  - by apply (preserves_selectCells recordHistory).
Qed.

(** ** Relations that every step keeps *)

Section Keeps.
Context (R : World → World → Prop) `{!Reflexive R} `{!Transitive R}.

Lemma keeps_ret {A} (a : A) : keeps R (mret a).
Proof using Reflexive0. by intros w. Qed.

Lemma keeps_lift {A} (o : outcome A) : keeps R (lift o).
Proof using Reflexive0. by intros w. Qed.

Lemma keeps_getW : keeps R getW.
Proof using Reflexive0. by intros w. Qed.

Lemma keeps_modify (g : World → World) : (∀ w, R w (g w)) → keeps R (modify g).
Proof. intros Hg w. apply Hg. Qed.

Lemma keeps_bind {A B} (m : M A) (k : A → M B) :
  keeps R m → (∀ a, keeps R (k a)) → keeps R (m ≫= k).
Proof using Transitive0.
  intros Hm Hk w. rewrite M_bind_unfold. specialize (Hm w).
  destruct (m w) as [w1 [a| |]]; simpl in *; [|done..].
  etransitivity; [done|apply Hk].
Qed.

Lemma keeps_forEach {A} (l : list A) (body : A → M unit) :
  (∀ x, keeps R (body x)) → keeps R (forEach l body).
Proof using Reflexive0 Transitive0.
  intros Hbody. induction l as [|x l IH]; simpl.
  - apply keeps_ret.
  - apply keeps_bind; [apply Hbody|]. intros _. apply IH.
Qed.

End Keeps.

#[global] Instance contentKept_refl : Reflexive contentKept.
Proof. intros w. split; [done|]. eauto. Qed.

#[global] Instance contentKept_trans : Transitive contentKept.
Proof.
  intros w1 w2 w3 [Hf1 Hc1] [Hf2 Hc2]. split; [by etransitivity|].
  intros k c Hk. destruct (Hc1 k c Hk) as (c' & Hk' & Hfr).
  destruct (Hc2 k c' Hk') as (c'' & Hk'' & Hfr'). exists c''.
  split; [done|congruence].
Qed.

Lemma sameStore_contentKept w w' : sameStore w w' → contentKept w w'.
Proof.
  intros (_ & Hc & Hf & _). split; [by rewrite Hf|].
  intros k c Hk. exists c. by rewrite Hc.
Qed.

Lemma contentKept_serialize : keeps contentKept TableComponent.serialize.
Proof. intros w. apply sameStore_contentKept, sameStore_serialize. Qed.

Lemma contentKept_cellMatrix : keeps contentKept TableComponent.cellMatrix.
Proof.
  unfold TableComponent.cellMatrix.
  apply keeps_bind; [apply _|apply contentKept_serialize|]. intros n.
  apply keeps_bind; [apply _| |].
  - apply keeps_modify. intros w. apply sameStore_contentKept. done.
  - intros _. apply keeps_ret. apply _.
Qed.

Lemma contentKept_selectCells a b :
  keeps contentKept (TableComponent.selectCells a b).
Proof. intros w. apply sameStore_contentKept, sameStore_selectCells. Qed.

Lemma contentKept_modifyCell k f :
  (∀ c, fragment (f c) = fragment c) → keeps contentKept (modifyCell k f).
Proof.
  intros Hf w. split; [done|]. intros k' c Hk'. simpl.
  destruct (decide (k' = k)) as [->|Hne].
  - rewrite list_lookup_alter_eq, Hk'. simpl. eauto.
  - rewrite list_lookup_alter_ne by done. eauto.
Qed.

Lemma contentKept_createCell rowspan colspan :
  keeps contentKept (TableEditCommander.createCell rowspan colspan).
Proof.
  intros w. split; simpl.
  - by apply prefix_app_r.
  - intros k c Hk. exists c. split; [|done]. by apply lookup_app_l_Some.
Qed.

Lemma contentKept_same_heaps (g : World → World) :
  (∀ w, cellHeap (g w) = cellHeap w) →
  (∀ w, fragmentHeap (g w) = fragmentHeap w) →
  keeps contentKept (modify g).
Proof.
  intros Hc Hf. apply keeps_modify. intros w. split; [by rewrite Hf|].
  intros k c Hk. exists c. by rewrite Hc.
Qed.

Ltac kept_step :=
  first
    [ apply contentKept_cellMatrix
    | apply contentKept_selectCells
    | apply contentKept_createCell
    | apply contentKept_modifyCell; intros ?; reflexivity
    | apply contentKept_same_heaps; intros ?; reflexivity
    | apply (keeps_ret contentKept)
    | apply (keeps_lift contentKept)
    | apply (keeps_getW contentKept)
    | apply (keeps_bind contentKept); [|intros ?]
    | apply (keeps_forEach contentKept); intros ?
    | match goal with
      | |- keeps _ (if ?b then _ else _) => destruct b
      | |- keeps _ (match ?x with _ => _ end) => destruct x
      | |- keeps _ (let '(_, _) := ?x in _) => destruct x
      end ].

Lemma contentKept_newRow : keeps contentKept TableEditCommander.newRow.
Proof. intros w. split; [done|]. eauto. Qed.

Lemma contentKept_operation (actionType : TableEditActions) :
  keeps contentKept
    match actionType with
    | AddColumnToLeft => TableEditCommander.addColumnToLeft
    | AddColumnToRight => TableEditCommander.addColumnToRight
    | AddRowToTop => TableEditCommander.addRowToTop
    | AddRowToBottom => TableEditCommander.addRowToBottom
    | MergeCells => TableEditCommander.mergeCells
    | SplitCells => TableEditCommander.splitCells
    | DeleteTopRow => TableEditCommander.deleteTopRow
    | DeleteBottomRow => TableEditCommander.deleteBottomRow
    | DeleteLeftColumn => TableEditCommander.deleteLeftColumn
    | DeleteRightColumn => TableEditCommander.deleteRightColumn
    end.
Proof.
  destruct actionType;
    unfold TableEditCommander.addColumnToLeft, TableEditCommander.addColumnToRight,
      TableEditCommander.addRowToTop, TableEditCommander.addRowToBottom,
      TableEditCommander.mergeCells, TableEditCommander.splitCells,
      TableEditCommander.deleteTopRow, TableEditCommander.deleteBottomRow,
      TableEditCommander.deleteLeftColumn, TableEditCommander.deleteRightColumn,
      TableEditCommander.removeCell, TableEditCommander.splitCell,
      TableEditCommander.placeBelow, TableEditCommander.deleteFromColumn,
      TableEditCommander.pushNewCell, TableEditCommander.assignRange,
      TableEditCommander.spliceBodies, TableEditCommander.shiftRange,
      getCell, getRow, setRow, getBodies, getParams, modifyParams;
    repeat first [apply contentKept_newRow | kept_step].
Qed.

(** No table edit touches the content of the cells: whatever the action
    and its outcome, with or without an enclosing table, every fragment
    holds afterwards what it held before, and every cell object still
    refers to the fragment it had. Merging and deleting take cells out of
    the rows; they move or join no content. *)
Theorem command_keeps_content (context : option unit)
    (actionType : TableEditActions) (w : World) :
  contentKept w (TableEditCommander.command context actionType w).1.
Proof.
  revert w. unfold TableEditCommander.command.
  apply (keeps_bind contentKept).
  { apply contentKept_same_heaps; intros ?; reflexivity. }
  intros _. destruct context as [c|].
  - apply (keeps_bind contentKept); [apply contentKept_operation|].
    intros _. apply contentKept_same_heaps; intros ?; reflexivity.
  - apply contentKept_same_heaps; intros ?; reflexivity.
Qed.

(** ** [findCellPosition]: the two scans *)

Section Scan.
Variable ch : list TableCell.
Variable f : FragmentId.

Lemma scanCells_first (L : list (nat * TableCellPosition)) :
  ∀ i col p,
    (∀ x, x ∈ L → is_Some (ch !! cell x.2)) →
    L !! i = Some (col, p) → holds ch f p →
    (∀ j x, j < i → L !! j = Some x → ¬ holds ch f x.2) →
    TableComponent.scanCells ch f L = Val (Some col).
Proof.
  induction L as [|[col' p'] L IH]; intros i col p Hdef Hi Hp Hbefore; [done|].
  simpl. destruct (Hdef (col', p')) as [c Hc]; [by left|]. simpl in Hc.
  rewrite Hc. simpl. destruct i as [|i]; simpl in Hi.
  - injection Hi as -> ->. unfold holds in Hp. rewrite Hc in Hp.
    injection Hp as Hp. by rewrite decide_True.
  - rewrite decide_False.
    + apply (IH i col p); [|done..|].
      * intros x Hx. apply Hdef. by right.
      * intros j x Hj Hx. apply (Hbefore (S j)); [lia|done].
    + intros Hf. apply (Hbefore 0 (col', p')); [lia|done|].
      unfold holds. simpl. by rewrite Hc, <- Hf.
Qed.

Lemma scanCells_none (L : list (nat * TableCellPosition)) :
  (∀ x, x ∈ L → is_Some (ch !! cell x.2)) →
  (∀ x, x ∈ L → ¬ holds ch f x.2) →
  TableComponent.scanCells ch f L = Val None.
Proof.
  induction L as [|[col' p'] L IH]; intros Hdef Hno; [done|].
  simpl. destruct (Hdef (col', p')) as [c Hc]; [by left|]. simpl in Hc.
  rewrite Hc. simpl. rewrite decide_False.
  - apply IH; intros x Hx; [apply Hdef|apply Hno]; by right.
  - intros Hf. apply (Hno (col', p')); [by left|].
    unfold holds. simpl. by rewrite Hc, <- Hf.
Qed.

Lemma elem_of_cells_order (b : bool) (row_ : TableRowPosition) x :
  x ∈ (if b then reverse (imap pair (cellsPosition row_))
       else imap pair (cellsPosition row_)) →
  x.2 ∈ cellsPosition row_.
Proof.
  intros Hx.
  assert (x ∈ imap pair (cellsPosition row_)) as Hx'.
  { destruct b; [by apply elem_of_reverse|done]. }
  apply list_elem_of_lookup in Hx'. destruct Hx' as [i Hi].
  apply list_lookup_imap_Some in Hi. destruct Hi as (p & Hp & ->).
  by eapply list_elem_of_lookup_2.
Qed.

Lemma scanRows_first (b : bool) (Rs : list (nat * TableRowPosition)) :
  ∀ i rowIndex row_ col,
    (∀ x p, x ∈ Rs → p ∈ cellsPosition x.2 → is_Some (ch !! cell p)) →
    Rs !! i = Some (rowIndex, row_) →
    (∀ j x p, j < i → Rs !! j = Some x → p ∈ cellsPosition x.2 →
       ¬ holds ch f p) →
    TableComponent.scanCells ch f
      (if b then reverse (imap pair (cellsPosition row_))
       else imap pair (cellsPosition row_)) = Val (Some col) →
    TableComponent.scanRows ch f b Rs = Val (Some (rowIndex, col)).
Proof.
  induction Rs as [|[ri r] Rs IH]; intros i rowIndex row_ col Hdef Hi Hbefore Hrow;
    [done|].
  simpl. destruct i as [|i]; simpl in Hi.
  - injection Hi as -> ->. by rewrite Hrow.
  - rewrite scanCells_none.
    + simpl. apply (IH i rowIndex row_ col); [|done| |done].
      * intros x p Hx. apply Hdef. by right.
      * intros j x p Hj Hx. apply (Hbefore (S j)); [lia|done].
    + intros x Hx%elem_of_cells_order. apply (Hdef (ri, r)); [by left|done].
    + intros x Hx%elem_of_cells_order. by apply (Hbefore 0 (ri, r)); [lia|done|].
Qed.

Lemma scanRows_none (b : bool) (Rs : list (nat * TableRowPosition)) :
  (∀ x p, x ∈ Rs → p ∈ cellsPosition x.2 → is_Some (ch !! cell p)) →
  (∀ x p, x ∈ Rs → p ∈ cellsPosition x.2 → ¬ holds ch f p) →
  TableComponent.scanRows ch f b Rs = Val None.
Proof.
  induction Rs as [|[ri r] Rs IH]; intros Hdef Hno; [done|].
  simpl. rewrite scanCells_none.
  - simpl. apply IH; intros x p Hx; [apply Hdef|apply Hno]; by right.
  - intros x Hx%elem_of_cells_order. apply (Hdef (ri, r)); [by left|done].
  - intros x Hx%elem_of_cells_order. by apply (Hno (ri, r)); [by left|].
Qed.

End Scan.

(** ** Where the squares of a cell are *)

Lemma NoDup_concat_lookup {A} (ls : list (list A)) (i j : nat) (l l' : list A)
    (x : A) :
  NoDup (concat ls) → ls !! i = Some l → ls !! j = Some l' →
  x ∈ l → x ∈ l' → i = j.
Proof.
  revert i j. induction ls as [|l0 ls IH]; intros i j Hnd Hi Hj Hx Hx'; [done|].
  simpl in Hnd. apply NoDup_app in Hnd. destruct Hnd as (_ & Hdisj & Hnd).
  destruct i as [|i], j as [|j]; simpl in *.
  - done.
  - injection Hi as ->. exfalso. apply (Hdisj x Hx). apply elem_of_concat.
    exists l'. split; [by eapply list_elem_of_lookup_2|done].
  - injection Hj as ->. exfalso. apply (Hdisj x Hx'). apply elem_of_concat.
    exists l. split; [by eapply list_elem_of_lookup_2|done].
  - f_equal. by apply IH.
Qed.

Lemma NoDup_fmap_filter_lookup {A B} (g : A → B) (P : A → Prop)
    `{!∀ x, Decision (P x)} (l : list A) (i j : nat) (x y : A) :
  NoDup (g <$> filter P l) → l !! i = Some x → l !! j = Some y →
  P x → P y → g x = g y → i < j → False.
Proof.
  intros Hnd Hi Hj Hx Hy Hg Hlt.
  rewrite <- (take_drop_middle l i x Hi) in Hnd.
  rewrite filter_app, filter_cons_True, fmap_app, fmap_cons in Hnd by done.
  apply NoDup_app in Hnd. destruct Hnd as (_ & _ & Hnd).
  apply NoDup_cons in Hnd. destruct Hnd as [Hnin _]. apply Hnin.
  rewrite Hg. apply list_elem_of_fmap_2. apply list_elem_of_filter. split; [done|].
  apply list_elem_of_lookup. exists (j - S i). rewrite lookup_drop.
  by replace (S i + (j - S i)) with j by lia.
Qed.

Section CellSquares.
Context {ch : list TableCell} {rh : list (list CellId)} {bodies : list RowId}.
Context {T : list (list slot)}.
Hypothesis HL : layout ch rh bodies T.
Hypothesis Hnd : NoDup (concat ((λ rid, default [] (rh !! rid)) <$> bodies)).

Lemma anchor_rows_NoDup :
  NoDup (concat ((λ Tr : list slot, slotCell <$> filter anchor Tr) <$> T)).
Proof using HL Hnd.
  rewrite (layout_anchor_rows HL), concat_app, concat_replicate_nil, app_nil_r.
  done.
Qed.

(** A cell is anchored at one square only. *)
Lemma anchor_unique r c r' c' k :
  slotAt T r c = Some (k, 0%Z, 0%Z) → slotAt T r' c' = Some (k, 0%Z, 0%Z) →
  r = r' ∧ c = c'.
Proof using HL Hnd.
  unfold slotAt. intros Hs Hs'.
  destruct (T !! r) as [Tr|] eqn:HTr; [|done].
  destruct (T !! r') as [Tr'|] eqn:HTr'; [|done].
  pose proof anchor_rows_NoDup as Hall.
  assert (anchor (k, 0%Z, 0%Z)) as Ha by done.
  assert (r = r') as <-.
  { apply (NoDup_concat_lookup _ r r' (slotCell <$> filter anchor Tr)
             (slotCell <$> filter anchor Tr') k Hall).
    - by rewrite list_lookup_fmap, HTr.
    - by rewrite list_lookup_fmap, HTr'.
    - change k with (slotCell (k, 0%Z, 0%Z)). apply list_elem_of_fmap_2.
      apply list_elem_of_filter. split; [done|by eapply list_elem_of_lookup_2].
    - change k with (slotCell (k, 0%Z, 0%Z)). apply list_elem_of_fmap_2.
      apply list_elem_of_filter. split; [done|by eapply list_elem_of_lookup_2]. }
  split; [done|]. rewrite HTr in HTr'. injection HTr' as <-.
  assert (NoDup (slotCell <$> filter anchor Tr)) as Hrow.
  { apply (NoDup_concat_elem _ _ Hall).
    apply (list_elem_of_fmap_2 (λ Tr0 : list slot, slotCell <$> filter anchor Tr0)).
    by eapply list_elem_of_lookup_2. }
  destruct (Nat.lt_trichotomy c c') as [Hlt|[Heq|Hgt]]; [|done|].
  - exfalso. by apply (NoDup_fmap_filter_lookup slotCell anchor Tr c c'
                         (k, 0%Z, 0%Z) (k, 0%Z, 0%Z) Hrow).
  - exfalso. by apply (NoDup_fmap_filter_lookup slotCell anchor Tr c' c
                         (k, 0%Z, 0%Z) (k, 0%Z, 0%Z) Hrow).
Qed.

(** Every square of a cell lies in the span from its anchor, at its
    offsets. *)
Lemma cell_squares r c e r0 c0 k cl :
  slotAt T r c = Some e → slotCell e = k →
  slotAt T r0 c0 = Some (k, 0%Z, 0%Z) → ch !! k = Some cl →
  r0 ≤ r ∧ c0 ≤ c ∧ e = (k, Z.of_nat (r - r0), Z.of_nat (c - c0)) ∧
  (Z.of_nat (r - r0) < rowspan cl)%Z ∧ (Z.of_nat (c - c0) < colspan cl)%Z.
Proof using HL Hnd.
  intros He Hk Ha Hcl.
  destruct (slot_cell HL _ _ _ He) as (cl' & Hcl' & Hi & Hj).
  rewrite Hk, Hcl in Hcl'. injection Hcl' as <-.
  destruct (walk_up HL (Z.to_nat (slotRow e)) _ _ _ He) as [Hu He1]; [lia|].
  destruct (walk_left HL (Z.to_nat (slotColumn e)) _ _ _ He1) as [Hw He2].
  { unfold slotColumn at 2. simpl. lia. }
  unfold slotCell, slotRow, slotColumn in He2. simpl in He2.
  replace (e.1.2 - Z.of_nat (Z.to_nat e.1.2))%Z with 0%Z in He2
    by (unfold slotRow in Hi; lia).
  replace (e.2 - Z.of_nat (Z.to_nat e.2))%Z with 0%Z in He2
    by (unfold slotColumn in Hj; lia).
  unfold slotCell in Hk. rewrite Hk in He2.
  destruct (anchor_unique _ _ _ _ _ He2 Ha) as [Hr Hc].
  unfold slotRow, slotColumn in *.
  split; [lia|]. split; [lia|].
  split; [|split; lia].
  destruct e as [[k' i] j]. simpl in *. subst k'. f_equal; [f_equal|]; lia.
Qed.

End CellSquares.

(** The scans find the two corners of a rectangle that holds every
    position of the fragment and has the fragment at both corners. *)
Lemma findCellPosition_corners ch f (m : list TableRowPosition) (q : Rect) p1 p2 :
  (∀ r c p, entry m r c = Some p → is_Some (ch !! cell p)) →
  (∀ r c p, entry m r c = Some p → holds ch f p → inside q r c) →
  entry m (top q) (left q) = Some p1 → holds ch f p1 →
  entry m (bottom q) (right q) = Some p2 → holds ch f p2 →
  TableComponent.findCellPosition ch m f =
    Val {| minRow := Z.of_nat (top q); maxRow := Z.of_nat (bottom q);
           minColumn := Z.of_nat (left q); maxColumn := Z.of_nat (right q) |}.
Proof.
  intros Hdef Hin Hp1 Hh1 Hp2 Hh2.
  assert (Hdef' : ∀ (x : nat * TableRowPosition) p,
            x.2 ∈ m → p ∈ cellsPosition x.2 → is_Some (ch !! cell p)).
  { intros x p [r Hr]%list_elem_of_lookup [c Hc]%list_elem_of_lookup.
    apply (Hdef r c). unfold entry. by rewrite Hr. }
  assert (Himap : ∀ x, x ∈ imap pair m → x.2 ∈ m).
  { intros x [i Hi]%list_elem_of_lookup.
    apply list_lookup_imap_Some in Hi. destruct Hi as (y & Hy & ->).
    by eapply list_elem_of_lookup_2. }
  unfold TableComponent.findCellPosition. cbv zeta.
  pose proof Hp1 as Hp1'. pose proof Hp2 as Hp2'. unfold entry in Hp1', Hp2'.
  destruct (m !! top q) as [row1|] eqn:Hrow1; [|done].
  destruct (m !! bottom q) as [row2|] eqn:Hrow2; [|done].
  rewrite (scanRows_first ch f false (imap pair m) (top q) (top q) row1 (left q)).
  - rewrite (scanRows_first ch f true (reverse (imap pair m))
               (length m - S (bottom q)) (bottom q) row2 (right q)).
    + done.
    + intros x p Hx Hp. rewrite elem_of_reverse in Hx.
      apply (Hdef' x p); [by apply Himap|done].
    + pose proof (lookup_lt_Some _ _ _ Hrow2).
      rewrite reverse_lookup by (rewrite length_imap; lia).
      rewrite length_imap, list_lookup_imap.
      replace (length m - S (length m - S (bottom q))) with (bottom q) by lia.
      by rewrite Hrow2.
    + pose proof (lookup_lt_Some _ _ _ Hrow2).
      intros j x p Hj Hx [c Hc]%list_elem_of_lookup Hh.
      rewrite reverse_lookup in Hx by (rewrite length_imap; lia).
      rewrite length_imap in Hx.
      apply list_lookup_imap_Some in Hx. destruct Hx as (row_ & Hrow & ->).
      simpl in Hc.
      destruct (Hin (length m - S j) c p) as (_ & ? & _); [|done|lia].
      unfold entry. by rewrite Hrow.
    + pose proof (lookup_lt_Some _ _ _ Hp2').
      apply (scanCells_first ch f _ (length (cellsPosition row2) - S (right q))
               (right q) p2).
      * intros x Hx. rewrite elem_of_reverse in Hx.
        apply list_elem_of_lookup in Hx. destruct Hx as [i Hi].
        apply list_lookup_imap_Some in Hi. destruct Hi as (p & Hp & ->).
        apply (Hdef (bottom q) i). unfold entry. by rewrite Hrow2.
      * rewrite reverse_lookup by (rewrite length_imap; lia).
        rewrite length_imap, list_lookup_imap.
        replace (length (cellsPosition row2) -
                 S (length (cellsPosition row2) - S (right q)))
          with (right q) by lia.
        by rewrite Hp2'.
      * done.
      * intros j x Hj Hx Hh.
        rewrite reverse_lookup in Hx by (rewrite length_imap; lia).
        rewrite length_imap in Hx.
        apply list_lookup_imap_Some in Hx. destruct Hx as (p & Hp & ->).
        destruct (Hin (bottom q) (length (cellsPosition row2) - S j) p)
          as (_ & _ & _ & ?); [|done|lia].
        unfold entry. by rewrite Hrow2.
  - intros x p Hx Hp. apply (Hdef' x p); [by apply Himap|done].
  - by rewrite list_lookup_imap, Hrow1.
  - intros j x p Hj Hx [c Hc]%list_elem_of_lookup Hh.
    apply list_lookup_imap_Some in Hx. destruct Hx as (row_ & Hrow & ->).
    simpl in Hc. destruct (Hin j c p) as (? & _); [|done|lia].
    unfold entry. by rewrite Hrow.
  - apply (scanCells_first ch f _ (left q) (left q) p1).
    + intros x [i Hi]%list_elem_of_lookup.
      apply list_lookup_imap_Some in Hi. destruct Hi as (p & Hp & ->).
      apply (Hdef (top q) i). unfold entry. by rewrite Hrow1.
    + by rewrite list_lookup_imap, Hp1'.
    + done.
    + intros j x Hj Hx Hh.
      apply list_lookup_imap_Some in Hx. destruct Hx as (p & Hp & ->).
      destruct (Hin (top q) j p) as (_ & _ & ? & _); [|done|lia].
      unfold entry. by rewrite Hrow1.
Qed.

(** A fragment that no position holds is not found. *)
Lemma findCellPosition_absent ch f (m : list TableRowPosition) :
  (∀ r c p, entry m r c = Some p → is_Some (ch !! cell p)) →
  (∀ r c p, entry m r c = Some p → ¬ holds ch f p) →
  TableComponent.findCellPosition ch m f = Exn.
Proof.
  intros Hdef Hno.
  assert (Himap : ∀ x : nat * TableRowPosition, x ∈ imap pair m → x.2 ∈ m).
  { intros x [i Hi]%list_elem_of_lookup.
    apply list_lookup_imap_Some in Hi. destruct Hi as (y & Hy & ->).
    by eapply list_elem_of_lookup_2. }
  unfold TableComponent.findCellPosition. cbv zeta.
  rewrite (scanRows_none ch f false), (scanRows_none ch f true); [done|..].
  - intros x p Hx [c Hc]%list_elem_of_lookup. rewrite elem_of_reverse in Hx.
    apply Himap, list_elem_of_lookup in Hx. destruct Hx as [r Hr].
    apply (Hdef r c). unfold entry. by rewrite Hr.
  - intros x p Hx [c Hc]%list_elem_of_lookup. rewrite elem_of_reverse in Hx.
    apply Himap, list_elem_of_lookup in Hx. destruct Hx as [r Hr].
    apply (Hno r c). unfold entry. by rewrite Hr.
  - intros x p [r Hr]%Himap%list_elem_of_lookup [c Hc]%list_elem_of_lookup.
    apply (Hdef r c). unfold entry. by rewrite Hr.
  - intros x p [r Hr]%Himap%list_elem_of_lookup [c Hc]%list_elem_of_lookup.
    apply (Hno r c). unfold entry. by rewrite Hr.
Qed.

Section StoredCells.
Context {ch : list TableCell} {rh : list (list CellId)} {bodies : list RowId}.
Context {T : list (list slot)}.
Hypothesis HL : layout ch rh bodies T.

(** The cell of every square is stored in a row of the grid. *)
Lemma slot_cell_stored r c e :
  slotAt T r c = Some e →
  slotCell e ∈ concat ((λ rid, default [] (rh !! rid)) <$> bodies).
Proof using HL.
  intros He.
  destruct (slot_cell HL _ _ _ He) as (cl & Hcl & Hi & Hj).
  destruct (walk_up HL (Z.to_nat (slotRow e)) _ _ _ He) as [Hu He1]; [lia|].
  destruct (walk_left HL (Z.to_nat (slotColumn e)) _ _ _ He1) as [Hw He2].
  { unfold slotColumn at 2. simpl. lia. }
  unfold slotCell, slotRow, slotColumn in He2. simpl in He2.
  replace (e.1.2 - Z.of_nat (Z.to_nat e.1.2))%Z with 0%Z in He2
    by (unfold slotRow in Hi; lia).
  replace (e.2 - Z.of_nat (Z.to_nat e.2))%Z with 0%Z in He2
    by (unfold slotColumn in Hj; lia).
  unfold slotAt in He2.
  destruct (T !! (r - Z.to_nat e.1.2)) as [Tr|] eqn:HTr; [|done].
  assert (slotCell e ∈ concat ((λ Tr : list slot, slotCell <$> filter anchor Tr) <$> T))
    as Hin.
  { apply elem_of_concat. exists (slotCell <$> filter anchor Tr). split.
    - apply (list_elem_of_fmap_2 (λ Tr0 : list slot, slotCell <$> filter anchor Tr0)).
      by eapply list_elem_of_lookup_2.
    - change (slotCell e) with (slotCell (e.1.1, 0%Z, 0%Z)).
      apply list_elem_of_fmap_2. apply list_elem_of_filter.
      split; [done|by eapply list_elem_of_lookup_2]. }
  by rewrite (layout_anchor_rows HL), concat_app, concat_replicate_nil,
    app_nil_r in Hin.
Qed.

End StoredCells.

Lemma NoDup_fmap_eq {A B} (g : A → B) (l : list A) (x y : A) :
  NoDup (g <$> l) → x ∈ l → y ∈ l → g x = g y → x = y.
Proof.
  intros Hnd [i Hi]%list_elem_of_lookup [j Hj]%list_elem_of_lookup Hg.
  assert (i = j) as ->.
  { apply (NoDup_lookup _ _ _ (g x) Hnd).
    - by rewrite list_lookup_fmap, Hi.
    - by rewrite list_lookup_fmap, Hj, Hg. }
  congruence.
Qed.

Lemma hull_contains_l q1 q2 : contains (hull q1 q2) q1.
Proof. unfold contains, hull. simpl. lia. Qed.

Lemma hull_contains_r q1 q2 : contains (hull q1 q2) q2.
Proof. unfold contains, hull. simpl. lia. Qed.

Lemma hull_least q q1 q2 : contains q q1 → contains q q2 → contains q (hull q1 q2).
Proof. unfold contains, hull. simpl. lia. Qed.

Lemma hull_inBounds R C q1 q2 :
  inBounds R C q1 → inBounds R C q2 → inBounds R C (hull q1 q2).
Proof. unfold inBounds, hull. simpl. lia. Qed.

(** ** [selectCells] on a valid grid *)

Section SelectCells.
Context (w : World) (T : list (list slot)).
Hypothesis HT : valid_grid w T.
Hypothesis Hfrag : fragmentsDistinct w.

Lemma selectCells_find (m : list TableRowPosition) r0 c0 k cl :
  shows m T →
  slotAt T r0 c0 = Some (k, 0%Z, 0%Z) → cellHeap w !! k = Some cl →
  TableComponent.findCellPosition (cellHeap w) m (fragment cl) =
    Val {| minRow := Z.of_nat (top (spanAt r0 c0 (k, 0%Z, 0%Z) cl));
           maxRow := Z.of_nat (bottom (spanAt r0 c0 (k, 0%Z, 0%Z) cl));
           minColumn := Z.of_nat (left (spanAt r0 c0 (k, 0%Z, 0%Z) cl));
           maxColumn := Z.of_nat (right (spanAt r0 c0 (k, 0%Z, 0%Z) cl)) |}.
Proof using HT Hfrag.
  intros Hm Ha Hcl.
  pose proof (proj1 (layout_ok_layout _ _ _ _) HT) as HL.
  assert (Hnd : NoDup (concat ((λ rid, default [] (rowHeap w !! rid)) <$> bodies w))).
  { by apply NoDup_fmap_1 in Hfrag. }
  destruct (slot_cell HL _ _ _ Ha) as (cl' & Hcl' & Hi & Hj).
  change (slotCell (k, 0%Z, 0%Z)) with k in Hcl'. rewrite Hcl in Hcl'.
  injection Hcl' as <-. unfold slotRow, slotColumn in Hi, Hj. simpl in Hi, Hj.
  destruct (shows_slot Hm _ _ _ Ha) as (p1 & Hp1 & Hcore1).
  pose proof (span_cover _ _ _ _ r0 c0 k cl (Z.to_nat (rowspan cl) - 1)
                (Z.to_nat (colspan cl) - 1) HL Ha Hcl) as Hlast.
  destruct (shows_slot Hm _ _ _ (Hlast ltac:(lia) ltac:(lia))) as (p2 & Hp2 & Hcore2).
  assert (Hholds : ∀ p, cell p = k → holds (cellHeap w) (fragment cl) p).
  { intros p Hp. unfold holds. by rewrite Hp, Hcl. }
  apply (findCellPosition_corners _ _ m _ p1 p2).
  - intros r c p Hp. destruct (slot_cell HL _ _ _ (shows_entry Hm _ _ _ Hp))
      as (c' & Hc' & _). by exists c'.
  - intros r c p Hp Hh. pose proof (shows_entry Hm _ _ _ Hp) as Hs.
    assert (cell p = k) as Hk.
    { apply (NoDup_fmap_eq (λ k0, fragment <$> cellHeap w !! k0)
               (concat (rowsOf w)) _ _ Hfrag).
      - apply (slot_cell_stored HL _ _ _ Hs).
      - apply (slot_cell_stored HL _ _ _ Ha).
      - unfold holds in Hh. by rewrite Hh, Hcl. }
    destruct (cell_squares HL Hnd _ _ _ _ _ _ _ Hs Hk Ha Hcl)
      as (? & ? & _ & ? & ?).
    unfold inside, spanAt, slotRow, slotColumn. simpl. lia.
  - unfold spanAt, slotRow, slotColumn. simpl.
    by rewrite !Nat.sub_0_r.
  - apply Hholds. unfold core in Hcore1. by injection Hcore1.
  - unfold spanAt, slotRow, slotColumn. simpl. rewrite !Nat.sub_0_r.
    replace (r0 + Z.to_nat (rowspan cl) - 1) with (r0 + (Z.to_nat (rowspan cl) - 1))
      by lia.
    replace (c0 + Z.to_nat (colspan cl) - 1) with (c0 + (Z.to_nat (colspan cl) - 1))
      by lia.
    done.
  - apply Hholds. unfold core in Hcore2. by injection Hcore2.
Qed.

End SelectCells.

(** ** [selectCells]: from two fragments to a rectangle *)

Lemma scanCells_fuel ch f L : TableComponent.scanCells ch f L ≠ OutOfFuel.
Proof.
  induction L as [|[col p] L IH]; simpl; [done|].
  destruct (ch !! cell p) as [c|]; simpl; [|done].
  by destruct (decide (fragment c = f)).
Qed.

Lemma scanRows_fuel ch f b Rs : TableComponent.scanRows ch f b Rs ≠ OutOfFuel.
Proof.
  induction Rs as [|[ri r] Rs IH]; simpl; [done|].
  pose proof (scanCells_fuel ch f
    (if b then reverse (imap pair (cellsPosition r))
     else imap pair (cellsPosition r))) as Hc.
  destruct (TableComponent.scanCells _ _ _) as [[col|]| |]; simpl; done.
Qed.

Lemma findCellPosition_fuel ch m f :
  TableComponent.findCellPosition ch m f ≠ OutOfFuel.
Proof.
  unfold TableComponent.findCellPosition. cbv zeta.
  pose proof (scanRows_fuel ch f false (imap pair m)) as Ha.
  pose proof (scanRows_fuel ch f true (reverse (imap pair m))) as Hb.
  destruct (TableComponent.scanRows ch f false _) as [[[r1 c1]|]| |]; simpl;
    [| |done|done];
    destruct (TableComponent.scanRows ch f true _) as [[[r2 c2]|]| |]; simpl; done.
Qed.

Lemma selectCells_unfold w m rh' a b :
  Serialize.serialize (cellHeap w) (rowHeap w) (bodies w) = Val (m, rh') →
  (TableComponent.selectCells a b w).2 =
    (p1 ← TableComponent.findCellPosition (cellHeap w) m a;
     p2 ← TableComponent.findCellPosition (cellHeap w) m b;
     TableComponent.selectCellsByRange (TableComponent.rangeBudget m)
       (cellHeap w) m
       (Z.min (minRow p1) (minRow p2)) (Z.min (minColumn p1) (minColumn p2))
       (Z.max (maxRow p1) (maxRow p2)) (Z.max (maxColumn p1) (maxColumn p2))).
Proof.
  intros Hs. unfold TableComponent.selectCells.
  rewrite M_bind_unfold. unfold TableComponent.serialize at 1. rewrite Hs.
  rewrite M_bind_unfold. unfold modify at 1. cbv beta iota.
  rewrite M_bind_unfold. unfold getW at 1. cbv beta iota.
  rewrite M_bind_unfold. unfold lift at 1. simpl.
  destruct (TableComponent.findCellPosition (cellHeap w) m a) as [p1| |];
    simpl; [|done..].
  unfold lift. by destruct (TableComponent.findCellPosition (cellHeap w) m b).
Qed.

(** On a valid grid whose cells have fragments of their own, [selectCells]
    on the fragments of two cells of the grid returns normally, and the
    range it returns is the least rectangle that holds the spans of both
    cells and clips no cell: it contains the hull of the two spans, clips
    no cell, and lies within every rectangle that does both; its two
    positions are the entries of the matrix at its top left and bottom
    right corners. Asked for one cell twice, it returns exactly the span
    of that cell. *)
Theorem selectCells_hull (w : World) (T : list (list slot))
    ra ca ka cla rb cb kb clb :
  valid_grid w T → fragmentsDistinct w →
  slotAt T ra ca = Some (ka, 0%Z, 0%Z) → cellHeap w !! ka = Some cla →
  slotAt T rb cb = Some (kb, 0%Z, 0%Z) → cellHeap w !! kb = Some clb →
  ∃ range,
    (TableComponent.selectCells (fragment cla) (fragment clb) w).2 = Val range ∧
    let q0 := hull (spanAt ra ca (ka, 0%Z, 0%Z) cla)
                   (spanAt rb cb (kb, 0%Z, 0%Z) clb) in
    inBounds (length T) (width T) (rectOf range) ∧
    contains (rectOf range) q0 ∧
    closed (cellHeap w) T (rectOf range) ∧
    (∀ q', closed (cellHeap w) T q' → contains q' q0 →
           contains q' (rectOf range)) ∧
    slotAt T (top (rectOf range)) (left (rectOf range))
      = Some (core (startCellPosition range)) ∧
    slotAt T (bottom (rectOf range)) (right (rectOf range))
      = Some (core (endCellPosition range)) ∧
    (ka = kb → rectOf range = spanAt ra ca (ka, 0%Z, 0%Z) cla).
Proof.
  intros HT Hfrag Ha Hcla Hb Hclb.
  pose proof (proj1 (layout_ok_layout _ _ _ _) HT) as HL.
  destruct (serialize_layout _ _ _ _ HL) as (m & Hser & Hm & _).
  rewrite (selectCells_unfold _ _ _ _ _ Hser).
  rewrite (selectCells_find w T HT Hfrag m _ _ _ _ Hm Ha Hcla).
  rewrite (selectCells_find w T HT Hfrag m _ _ _ _ Hm Hb Hclb).
  cbn [mbind outcome_bind minRow maxRow minColumn maxColumn].
  set (qa := spanAt ra ca (ka, 0%Z, 0%Z) cla).
  set (qb := spanAt rb cb (kb, 0%Z, 0%Z) clb).
  rewrite <- !Nat2Z.inj_min, <- !Nat2Z.inj_max.
  destruct (spanAt_bounds HL _ _ _ _ Ha Hcla) as [Hba _].
  destruct (spanAt_bounds HL _ _ _ _ Hb Hclb) as [Hbb _].
  fold qa in Hba. fold qb in Hbb.
  pose proof (hull_inBounds _ _ _ _ Hba Hbb) as Hbh.
  destruct (selectCellsByRange_spec HL Hm (TableComponent.rangeBudget m)
              (hull qa qb) Hbh)
    as (range & Hsel & Hbr & Hcont & Hclosed & Hleast & Hstart & Hend).
  { pose proof (rangeBudget_enough HL Hm). lia. }
  exists range. split; [exact Hsel|]. cbv zeta.
  split; [done|]. split; [done|]. split; [done|]. split; [done|].
  split; [by apply (shows_entry Hm)|]. split; [by apply (shows_entry Hm)|].
  intros <-.
  destruct (anchor_unique HL (NoDup_fmap_1 _ _ Hfrag) _ _ _ _ _ Ha Hb) as [<- <-].
  rewrite Hcla in Hclb. injection Hclb as <-.
  apply contains_antisym.
  - eapply contains_trans; [exact Hcont|apply hull_contains_l].
  - apply Hleast; [by apply (span_closed HL)|].
    apply hull_least; apply contains_refl.
Qed.

Lemma selectCells_hull_witness :
  let w := Ex.world Ex.cells_3x3 Ex.rows_3x3 [0; 1; 2] None in
  ∃ range, (TableComponent.selectCells 0 0 w).2 = Val range ∧
           rectOf range = mkRectN 0 0 1 0.
Proof.
  intros w.
  destruct (selectCells_hull w Ex.tiling_3x3 0 0 0 (mkCell 1 2 0)
              0 0 0 (mkCell 1 2 0))
    as (range & Hsel & _ & _ & _ & _ & _ & _ & Hspan).
  - reflexivity.
  - apply (bool_decide_unpack _). vm_compute. exact I.
  - reflexivity.
  - reflexivity.
  - reflexivity.
  - reflexivity.
  - exists range. split; [exact Hsel|]. rewrite (Hspan eq_refl). reflexivity.
Defined.

(** On a valid grid, [selectCells] throws when one of the two fragments
    belongs to no cell of the grid, whatever the other fragment is: the
    position of that fragment stays undefined, and the normalizer reads a
    row of the matrix at an index that is not a number. *)
Theorem selectCells_absent (w : World) (T : list (list slot))
    (f other : FragmentId) :
  valid_grid w T →
  (∀ r c e cl, slotAt T r c = Some e → cellHeap w !! slotCell e = Some cl →
     fragment cl ≠ f) →
  (TableComponent.selectCells f other w).2 = Exn ∧
  (TableComponent.selectCells other f w).2 = Exn.
Proof.
  intros HT Hno.
  pose proof (proj1 (layout_ok_layout _ _ _ _) HT) as HL.
  destruct (serialize_layout _ _ _ _ HL) as (m & Hser & Hm & _).
  assert (TableComponent.findCellPosition (cellHeap w) m f = Exn) as Hf.
  { apply findCellPosition_absent.
    - intros r c p Hp.
      destruct (slot_cell HL _ _ _ (shows_entry Hm _ _ _ Hp)) as (c' & Hc' & _).
      by exists c'.
    - intros r c p Hp Hh. pose proof (shows_entry Hm _ _ _ Hp) as Hs.
      destruct (slot_cell HL _ _ _ Hs) as (c' & Hc' & _).
      apply (Hno _ _ _ _ Hs Hc'). unfold holds in Hh.
      change (slotCell (core p)) with (cell p) in Hc'. rewrite Hc' in Hh.
      by injection Hh. }
  rewrite !(selectCells_unfold _ _ _ _ _ Hser), Hf. split; [done|].
  pose proof (findCellPosition_fuel (cellHeap w) m other) as Hfuel.
  by destruct (TableComponent.findCellPosition (cellHeap w) m other).
Qed.

Lemma selectCells_absent_witness :
  (TableComponent.selectCells 7 0
     (Ex.world Ex.cells_3x3 Ex.rows_3x3 [0; 1; 2] None)).2 = Exn.
Proof.
  refine (proj1 (selectCells_absent
                   (Ex.world Ex.cells_3x3 Ex.rows_3x3 [0; 1; 2] None)
                   Ex.tiling_3x3 7 0 eq_refl _)).
  intros r c e cl He Hcl.
  assert (slotCell e < 5) as Hlt.
  { apply lookup_lt_Some in Hcl. exact Hcl. }
  destruct (slotCell e) as [|[|[|[|[|k]]]]]; simpl in Hcl;
    [injection Hcl as <-; simpl; lia..|lia].
Defined.

(** ** Loops over the world *)

Lemma forEach_inv {A} (body : A → M unit) (l : list A) :
  ∀ (I : nat → World → Prop) w,
    I 0 w →
    (∀ i x w, l !! i = Some x → I i w →
       ∃ w', body x w = (w', Val tt) ∧ I (S i) w') →
    ∃ w', forEach l body w = (w', Val tt) ∧ I (length l) w'.
Proof.
  induction l as [|x l IH]; intros I w H0 Hstep.
  - exists w. done.
  - destruct (Hstep 0 x w eq_refl H0) as (w1 & Hx & H1).
    destruct (IH (λ i, I (S i)) w1 H1) as (w' & Hrun & Hend).
    { intros i y w2 Hy. apply (Hstep (S i)). done. }
    exists w'. split; [|done]. simpl. by rewrite (bind_Val _ _ _ _ _ Hx).
Qed.

(** ** The tiling of a grid without spans *)

Lemma plainGrid_row w C r rid :
  plainGrid w C → bodies w !! r = Some rid →
  ∃ row_, rowHeap w !! rid = Some row_ ∧ length row_ = C ∧
          Forall (plain (cellHeap w)) row_.
Proof.
  intros Hp Hr. unfold plainGrid in Hp. rewrite Forall_lookup in Hp.
  specialize (Hp r rid Hr). destruct (rowHeap w !! rid) as [row_|]; [|done].
  exists row_. by destruct Hp.
Qed.

Lemma flat_lookup rows r row_ :
  rows !! r = Some row_ → flat rows !! r = Some ((λ k, (k, 0%Z, 0%Z)) <$> row_).
Proof. intros H. unfold flat. by rewrite list_lookup_fmap, H. Qed.

Lemma flat_slotAt rows r c row_ k :
  rows !! r = Some row_ → row_ !! c = Some k →
  slotAt (flat rows) r c = Some (k, 0%Z, 0%Z).
Proof.
  intros Hr Hc. unfold slotAt. rewrite (flat_lookup _ _ _ Hr).
  by rewrite list_lookup_fmap, Hc.
Qed.

Lemma filter_anchor_flat (r : list CellId) :
  slotCell <$> filter anchor ((λ k, (k, 0%Z, 0%Z)) <$> r) = r.
Proof.
  induction r as [|k r IH]; [done|].
  rewrite fmap_cons, filter_cons_True by done.
  rewrite fmap_cons. by rewrite IH.
Qed.

Lemma plainGrid_width w C :
  plainGrid w C → bodies w ≠ [] → width (flat (rowsOf w)) = C.
Proof.
  intros Hp Hne. destruct (bodies w) as [|rid bs] eqn:Hb; [done|].
  destruct (plainGrid_row w C 0 rid Hp) as (row_ & Hrow & Hlen & _).
  { by rewrite Hb. }
  unfold width, flat, rowsOf. rewrite Hb. simpl.
  rewrite length_fmap. unfold rowOf. by rewrite Hrow.
Qed.

(** A grid of plain cells in rows of one length is valid, with the flat
    tiling. *)
Lemma plainGrid_layout w C :
  plainGrid w C →
  layout (cellHeap w) (rowHeap w) (bodies w) (flat (rowsOf w)).
Proof.
  intros Hp.
  assert (Hlen : length (flat (rowsOf w)) = length (bodies w)).
  { unfold flat, rowsOf. by rewrite !length_fmap. }
  split; [lia|]. split; [by left|]. split.
  { apply Forall_lookup. intros r rid Hr.
    destruct (plainGrid_row w C r rid Hp Hr) as (row_ & -> & _). done. }
  apply Forall_lookup. intros r [r' Tr] Hr.
  apply list_lookup_imap_Some in Hr. destruct Hr as (Tr' & HTr & [= -> ->]).
  unfold flat, rowsOf in HTr. rewrite !list_lookup_fmap in HTr.
  destruct (bodies w !! r) as [rid|] eqn:Hrid; [|done]. simpl in HTr.
  injection HTr as <-.
  destruct (plainGrid_row w C r rid Hp Hrid) as (row_ & Hrow & Hlenr & Hplain).
  rewrite (rowOf_Some _ _ _ Hrow).
  split; [|split]; simpl.
  - rewrite length_fmap, Hlenr. symmetry. apply plainGrid_width; [done|].
    intros E. by rewrite E in Hrid.
  - rewrite filter_anchor_flat. unfold rowCells. by rewrite Hrid, Hrow.
  - apply Forall_lookup. intros c [c' e] Hc.
    apply list_lookup_imap_Some in Hc. destruct Hc as (e' & He & [= -> ->]).
    rewrite list_lookup_fmap in He.
    destruct (row_ !! c) as [k|] eqn:Hk; [|done]. injection He as <-.
    rewrite Forall_lookup in Hplain. specialize (Hplain c k Hk).
    unfold plain in Hplain. unfold slot_ok. simpl.
    change (slotCell (k, 0%Z, 0%Z)) with k.
    destruct (cellHeap w !! k) as [cl|]; [|done]. destruct Hplain as [-> ->].
    unfold slotRow, slotColumn. simpl. repeat split; lia.
Qed.

Lemma plainGrid_valid w C : plainGrid w C → valid_grid w (flat (rowsOf w)).
Proof. intros Hp. apply layout_ok_layout. by eapply plainGrid_layout. Qed.

(** ** Row arrays replaced one after the other *)

Lemma rowsUpd_start g bodies rh :
  (∀ rid, rid ∈ bodies → is_Some (rh !! rid)) → rowsUpd g 0 bodies rh rh.
Proof.
  intros Hsome. split; [done|]. split; [|done].
  intros r' rid Hr'. rewrite decide_False by lia.
  destruct (Hsome rid) as [row_ Hrow]; [by eapply list_elem_of_lookup_2|].
  by rewrite Hrow.
Qed.

Lemma rowsUpd_step g r bodies rh rhs rid :
  NoDup bodies → bodies !! r = Some rid → is_Some (rh !! rid) →
  rowsUpd g r bodies rh rhs →
  rowsUpd g (S r) bodies rh (<[rid := g r (default [] (rh !! rid))]> rhs).
Proof.
  intros Hnd Hr Hsome (Hlen & Hrows & Hother).
  pose proof (lookup_lt_is_Some_1 _ _ Hsome) as Hlt.
  split; [by rewrite length_insert|]. split.
  - intros r' rid' Hr'. destruct (decide (rid' = rid)) as [->|Hne].
    + assert (r' = r) as -> by (by eapply NoDup_lookup).
      rewrite list_lookup_insert_eq by lia. by rewrite decide_True by lia.
    + rewrite list_lookup_insert_ne by done. rewrite (Hrows r' rid' Hr').
      assert (r' ≠ r) by (intros ->; congruence).
      destruct (decide (r' < r)).
      * by rewrite decide_True by lia.
      * by rewrite decide_False by lia.
  - intros rid' Hrid'. rewrite list_lookup_insert_ne; [by apply Hother|].
    intros <-. apply Hrid'. by eapply list_elem_of_lookup_2.
Qed.

Lemma rowsUpd_current g r bodies rh rhs rid :
  bodies !! r = Some rid → rowsUpd g r bodies rh rhs →
  rhs !! rid = Some (default [] (rh !! rid)).
Proof.
  intros Hr (_ & Hrows & _). rewrite (Hrows r rid Hr).
  by rewrite decide_False by lia.
Qed.

Lemma rowsUpd_done g bodies rh rhs r rid :
  bodies !! r = Some rid → rowsUpd g (length bodies) bodies rh rhs →
  rhs !! rid = Some (g r (default [] (rh !! rid))).
Proof.
  intros Hr (_ & Hrows & _). rewrite (Hrows r rid Hr).
  pose proof (lookup_lt_Some _ _ _ Hr). by rewrite decide_True by lia.
Qed.

Lemma newCells_S f n :
  newCells f (S n) = newCells f n ++ [mkCell 1 1 (f + n)].
Proof. unfold newCells. by rewrite seq_S, fmap_app. Qed.

Lemma length_newCells f n : length (newCells f n) = n.
Proof. unfold newCells. by rewrite length_fmap, length_seq. Qed.

(** ** The matrix of a grid without spans *)

Lemma plain_matrix w C :
  plainGrid w C →
  ∃ m,
    TableComponent.cellMatrix w =
      (setCellMatrix m (setRowHeap (rowHeap w ++ []) w), Val m) ∧
    length m = length (bodies w) ∧
    ∀ r row_, m !! r = Some row_ →
      ∃ rid cs, bodies w !! r = Some rid ∧ rowHeap w !! rid = Some cs ∧
        cells row_ = rid ∧ length (cellsPosition row_) = C ∧
        ∀ c p, cellsPosition row_ !! c = Some p →
          cs !! c = Some (cell p) ∧ row p = rid ∧
          offsetRow p = 0%Z ∧ offsetColumn p = 0%Z.
Proof.
  intros Hp. pose proof (plainGrid_valid w C Hp) as HT.
  destruct (cellMatrix_valid _ _ HT) as (m & Hm & Hshows & Hcells).
  assert (Hlen : length (flat (rowsOf w)) = length (bodies w)).
  { unfold flat, rowsOf. by rewrite !length_fmap. }
  rewrite Hlen, Nat.sub_diag in Hm. simpl in Hm.
  exists m. split; [done|]. destruct Hshows as [HlenM Hrows].
  split; [lia|]. intros r row_ Hr.
  destruct (lookup_lt_is_Some_2 (bodies w) r) as [rid Hrid].
  { rewrite <- Hlen, <- HlenM. by eapply lookup_lt_Some. }
  destruct (plainGrid_row w C r rid Hp Hrid) as (cs & Hrow & Hlenr & _).
  exists rid, cs. split; [done|]. split; [done|].
  assert (rowsOf w !! r = Some cs) as Hrs.
  { unfold rowsOf. rewrite list_lookup_fmap, Hrid. simpl.
    by rewrite (rowOf_Some _ _ _ Hrow). }
  destruct (Hrows r row_ _ Hr (flat_lookup _ _ _ Hrs)) as [Hcore Hpos].
  split; [|split].
  - rewrite (Hcells r row_ Hr). unfold rowIdOf. by rewrite Hrid.
  - rewrite <- Hlenr. rewrite <- (length_fmap core), Hcore. by rewrite length_fmap.
  - intros c p Hc. destruct (Hpos c p Hc) as (_ & _ & Hrowp).
    assert ((core <$> cellsPosition row_) !! c = Some (core p)) as Hcp.
    { by rewrite list_lookup_fmap, Hc. }
    rewrite Hcore, list_lookup_fmap in Hcp.
    destruct (cs !! c) as [k|] eqn:Hk; [|done]. simpl in Hcp.
    injection Hcp as Hk' Hi Hj. split; [by rewrite Hk'|].
    split; [|done]. rewrite Hrowp, (Hcells r row_ Hr). unfold rowIdOf.
    by rewrite Hrid.
Qed.

(** ** Moving the edit range *)

Lemma shiftRange_Some f w p :
  params w = Some p →
  ∃ w', TableEditCommander.shiftRange f w = (w', Val tt) ∧
    params w' = Some (shifted f p) ∧
    bodies w' = bodies w ∧ cellHeap w' = cellHeap w ∧
    fragmentHeap w' = fragmentHeap w ∧ rowHeap w' = rowHeap w.
Proof.
  intros Hp. unfold TableEditCommander.shiftRange.
  rewrite (bind_Val _ _ _ _ _ (getParams_Some _ _ Hp)). unfold shifted.
  destruct (decide (cell (startPosition p) = cell (endPosition p))).
  - eexists. split; [reflexivity|]. simpl. by rewrite Hp.
  - eexists. split; [reflexivity|]. simpl. by rewrite Hp.
Qed.

(** A new cell put into a row array. *)
Lemma newCell_in_row ws rid cs (k : list CellId → CellId → list CellId) :
  rowHeap ws !! rid = Some cs →
  (r ← getRow rid;
   n ← TableEditCommander.createCell 1 1;
   setRow rid (k r n)) ws =
  (setRowHeap (<[rid := k cs (length (cellHeap ws))]> (rowHeap ws))
     (setCellHeap (cellHeap ws ++ [mkCell 1 1 (length (fragmentHeap ws))])
        (setFragmentHeap (fragmentHeap ws ++ [[BrComponent]]) ws)),
   Val tt).
Proof. intros Hr. by rewrite (bind_Val _ _ _ _ _ (getRow_Some _ _ _ Hr)). Qed.

Lemma storeWf_rowsWf w : storeWf w → rowsWf w.
Proof.
  intros [Hb Hc]. split; [done|]. apply Forall_forall. intros rid Hrid.
  apply (NoDup_concat_elem (rowsOf w)); [done|].
  unfold rowsOf. by apply list_elem_of_fmap_2.
Qed.

(** ** Adding a column to a grid without spans *)

Section AddColumn.
Context (w : World) (C : nat) (m : list TableRowPosition).
Hypothesis Hplain : plainGrid w C.
Hypothesis Hwf : rowsWf w.
Hypothesis Hm : ∀ r row_, m !! r = Some row_ →
  ∃ rid cs, bodies w !! r = Some rid ∧ rowHeap w !! rid = Some cs ∧
    cells row_ = rid ∧ length (cellsPosition row_) = C ∧
    ∀ c p, cellsPosition row_ !! c = Some p →
      cs !! c = Some (cell p) ∧ row p = rid ∧
      offsetRow p = 0%Z ∧ offsetColumn p = 0%Z.

(** The state of the loop over the rows of the matrix, after [r] rows. *)
Local Abbreviation added g r ws :=
  (bodies ws = bodies w ∧ params ws = params w ∧
   cellHeap ws = cellHeap w ++ newCells (length (fragmentHeap w)) r ∧
   fragmentHeap ws = fragmentHeap w ++ replicate r [BrComponent] ∧
   rowsUpd g r (bodies w) (rowHeap w) (rowHeap ws)).

Lemma stored_rows_Some rid : rid ∈ bodies w → is_Some (rowHeap w !! rid).
Proof using Hplain.
  intros [r Hr]%list_elem_of_lookup.
  destruct (plainGrid_row w C r rid Hplain Hr) as (cs & -> & _). done.
Qed.

Lemma stored_row_NoDup rid cs :
  rid ∈ bodies w → rowHeap w !! rid = Some cs → NoDup cs.
Proof using Hwf.
  intros Hrid Hcs. destruct Hwf as [_ Hnd].
  rewrite Forall_forall in Hnd. specialize (Hnd rid Hrid).
  by rewrite (rowOf_Some _ _ _ Hcs) in Hnd.
Qed.

(** One row of the loop: the new cell goes to index [at_ + d] of the row
    array, where [at_] is the index of the cell of the position. *)
Lemma added_step g r ws rid cs :
  bodies w !! r = Some rid → rowHeap w !! rid = Some cs →
  added g r ws →
  added g (S r)
    (setRowHeap (<[rid := g r cs]> (rowHeap ws))
       (setCellHeap (cellHeap ws ++ [mkCell 1 1 (length (fragmentHeap ws))])
          (setFragmentHeap (fragmentHeap ws ++ [[BrComponent]]) ws))).
Proof using Hwf.
  intros Hrid Hcs (Hb & Hp & Hc & Hf & Hrows). simpl.
  split; [done|]. split; [done|]. split; [|split].
  - rewrite Hc, Hf, newCells_S, length_app, length_replicate.
    by rewrite <- app_assoc.
  - rewrite Hf, <- app_assoc. f_equal.
    change ([BrComponent] :: replicate r [BrComponent])
      with (replicate (S r) [BrComponent]).
    by rewrite replicate_S_end.
  - pose proof (rowsUpd_step g r (bodies w) (rowHeap w) (rowHeap ws) rid
                  (proj1 Hwf) Hrid) as Hstep.
    rewrite Hcs in Hstep. simpl in Hstep. apply Hstep; [by eexists|done].
Qed.

Lemma addColumnToLeft_loop i w1 :
  i < C →
  bodies w1 = bodies w → params w1 = params w → cellHeap w1 = cellHeap w →
  fragmentHeap w1 = fragmentHeap w → rowHeap w1 = rowHeap w →
  ∃ w', forEach m (λ row_,
          cell_ ← lift (defined (Js.atNum (cellsPosition row_)
                                   (Some (Z.of_nat i))));
          if decide (Some (Z.of_nat i) = Some 0%Z) then
            r ← getRow (row cell_);
            n ← TableEditCommander.createCell 1 1;
            setRow (row cell_) (n :: r)
          else if decide (offsetColumn cell_ = 0%Z) then
            r ← getRow (row cell_);
            n ← TableEditCommander.createCell 1 1;
            setRow (row cell_) (Js.splice r (Js.indexOf r (cell cell_)) 0 [n])
          else if decide (offsetRow cell_ = 0%Z) then
            modifyCell (cell cell_) (λ c, setColspan (colspan c + 1) c)
          else mret tt) w1 = (w', Val tt) ∧
        added (λ r, insertAt i (length (cellHeap w) + r)) (length m) w'.
Proof using All.
  intros Hi Hb1 Hp1 Hc1 Hf1 Hr1.
  apply (forEach_inv _ m
           (λ r ws, added (λ r, insertAt i (length (cellHeap w) + r)) r ws)).
  { split; [done|]. split; [done|]. unfold newCells. simpl.
    rewrite !app_nil_r. split; [done|]. split; [done|].
    rewrite Hr1. apply rowsUpd_start, stored_rows_Some. }
  intros r row_ ws Hrow Hadded.
  destruct (Hm r row_ Hrow) as (rid & cs & Hrid & Hcs & Hcells & Hlen & Hpos).
  destruct (lookup_lt_is_Some_2 (cellsPosition row_) i) as [p Hpi]; [lia|].
  destruct (Hpos i p Hpi) as (Hk & Hrowp & Hor & Hoc).
  assert (rid ∈ bodies w) as Hin by (by eapply list_elem_of_lookup_2).
  pose proof Hadded as (Hb & Hp & Hc & Hf & Hrows).
  pose proof (rowsUpd_current _ _ _ _ _ _ Hrid Hrows) as Hcur.
  rewrite Hcs in Hcur. simpl in Hcur.
  assert (Js.atNum (cellsPosition row_) (Some (Z.of_nat i)) = Some p) as Hat.
  { simpl. by rewrite at_nat. }
  assert (length (cellHeap ws) = length (cellHeap w) + r) as Hn.
  { by rewrite Hc, length_app, length_newCells. }
  rewrite M_bind_unfold. unfold lift at 1. rewrite Hat. simpl defined.
  cbv beta iota. rewrite Hrowp.
  destruct (decide (Some (Z.of_nat i) = Some 0%Z)) as [E|E].
  - eexists. split.
    + apply (newCell_in_row ws rid cs (λ r0 n, n :: r0) Hcur).
    + assert (i = 0) as -> by (injection E; lia).
      rewrite Hn. by apply (added_step (λ r, insertAt 0 (length (cellHeap w) + r))).
  - rewrite decide_True by done. eexists. split.
    + apply (newCell_in_row ws rid cs
               (λ r0 n, Js.splice r0 (Js.indexOf r0 (cell p)) 0 [n]) Hcur).
    + cbv beta.
      rewrite (indexOf_NoDup cs (cell p) i); [|by eapply stored_row_NoDup|done].
      rewrite splice_insert_nat, Hn.
      by apply (added_step (λ r, insertAt i (length (cellHeap w) + r))).
Qed.

End AddColumn.

Lemma insertAt_length {A} (i : nat) (x : A) (l : list A) :
  length (insertAt i x l) = S (length l).
Proof.
  unfold insertAt. rewrite length_app. simpl. rewrite length_take, length_drop. lia.
Qed.

Lemma elem_of_insertAt {A} (i : nat) (x y : A) (l : list A) :
  y ∈ insertAt i x l ↔ y = x ∨ y ∈ l.
Proof.
  unfold insertAt. rewrite elem_of_app, elem_of_cons.
  assert (y ∈ l ↔ y ∈ take i l ∨ y ∈ drop i l) as ->; [|tauto].
  by rewrite <- elem_of_app, take_drop.
Qed.

Lemma insertAt_NoDup {A} (i : nat) (x : A) (l : list A) :
  NoDup l → x ∉ l → NoDup (insertAt i x l).
Proof.
  intros Hl Hx. unfold insertAt. rewrite <- (take_drop i l) in Hl, Hx.
  apply NoDup_app in Hl. destruct Hl as (H1 & H2 & H3).
  rewrite not_elem_of_app in Hx. destruct Hx as [Hx1 Hx2].
  apply NoDup_app. split; [done|]. split.
  - intros y Hy [->|Hy']%elem_of_cons; [done|]. by apply (H2 y).
  - by apply NoDup_cons.
Qed.

Lemma insertAt_lookup {A} (i : nat) (x : A) (l : list A) :
  i ≤ length l → insertAt i x l !! i = Some x.
Proof.
  intros Hi. unfold insertAt. rewrite lookup_app_r by (rewrite length_take; lia).
  rewrite length_take. by replace (i - i `min` length l) with 0 by lia.
Qed.

Lemma delete_insertAt {A} (i : nat) (x : A) (l : list A) :
  i ≤ length l → delete i (insertAt i x l) = l.
Proof.
  intros Hi. unfold insertAt. rewrite delete_take_drop.
  rewrite take_app_le by (rewrite length_take; lia).
  rewrite take_take, Nat.min_id.
  rewrite drop_app_ge by (rewrite length_take; lia).
  rewrite length_take. replace (S i - i `min` length l) with 1 by lia.
  simpl. rewrite drop_0. apply take_drop.
Qed.

(** [addColumnToLeft] on a grid without spans. *)
Lemma addColumnToLeft_plain w C i p :
  plainGrid w C → rowsWf w → params w = Some p →
  columnIndex (startPosition p) = Some (Z.of_nat i) → i < C →
  ∃ w', TableEditCommander.addColumnToLeft w = (w', Val tt) ∧
        columnAdded i w w' ∧
        params w' = Some (shifted TableEditCommander.columnIndex_incr p).
Proof.
  intros Hplain Hwf Hp Hcol Hi.
  destruct (plain_matrix w C Hplain) as (m & Hmat & HlenM & Hm).
  set (w1 := setCellMatrix m _) in Hmat.
  destruct (addColumnToLeft_loop w C m Hplain Hwf Hm i w1 Hi)
    as (w2 & Hloop & Hb & Hp2 & Hc & Hf & Hrows); try done.
  { simpl. by rewrite app_nil_r. }
  rewrite Hp in Hp2.
  destruct (shiftRange_Some TableEditCommander.columnIndex_incr w2 p Hp2)
    as (w3 & Hshift & Hp3 & Hb3 & Hc3 & Hf3 & Hr3).
  exists w3. split.
  - unfold TableEditCommander.addColumnToLeft.
    rewrite (bind_Val _ _ _ _ _ Hmat).
    rewrite (bind_Val _ _ _ _ _ (getParams_Some w1 p Hp)).
    cbv zeta. rewrite Hcol. by rewrite (bind_Val _ _ _ _ _ Hloop).
  - split; [|done]. unfold columnAdded.
    rewrite Hb3, Hc3, Hf3, Hr3, <- HlenM. done.
Qed.

(** The grid with the new column is again a grid without spans. *)
Lemma columnAdded_plain w w' C i :
  plainGrid w C → rowsWf w → i ≤ C → columnAdded i w w' →
  plainGrid w' (S C) ∧ rowsWf w'.
Proof.
  intros Hplain [Hndb Hndr] Hi (Hb & Hc & Hf & Hrows).
  assert (Hrow : ∀ r rid, bodies w !! r = Some rid →
            ∃ cs, rowHeap w !! rid = Some cs ∧ length cs = C ∧
                  Forall (plain (cellHeap w)) cs ∧ NoDup cs ∧
                  rowHeap w' !! rid = Some (insertAt i (length (cellHeap w) + r) cs)).
  { intros r rid Hr.
    destruct (plainGrid_row w C r rid Hplain Hr) as (cs & Hcs & Hlen & Hpl).
    exists cs. split; [done|]. split; [done|]. split; [done|]. split.
    - rewrite Forall_forall in Hndr.
      specialize (Hndr rid (list_elem_of_lookup_2 _ _ _ Hr)).
      by rewrite (rowOf_Some _ _ _ Hcs) in Hndr.
    - rewrite (rowsUpd_done _ _ _ _ _ _ Hr Hrows). by rewrite Hcs. }
  assert (Hold : ∀ k, plain (cellHeap w) k → plain (cellHeap w') k ∧
                      k < length (cellHeap w)).
  { intros k Hk. unfold plain in *. rewrite Hc.
    destruct (cellHeap w !! k) as [c|] eqn:Hck; [|done].
    rewrite (lookup_app_l_Some _ _ _ _ Hck). split; [done|].
    by eapply lookup_lt_Some. }
  split.
  - unfold plainGrid. rewrite Hb. apply Forall_lookup. intros r rid Hr.
    destruct (Hrow r rid Hr) as (cs & Hcs & Hlen & Hpl & _ & ->).
    split; [by rewrite insertAt_length, Hlen|].
    apply Forall_forall. intros k [->|Hk]%elem_of_insertAt.
    + unfold plain. rewrite Hc, lookup_app_r by lia.
      replace (length (cellHeap w) + r - length (cellHeap w)) with r by lia.
      unfold newCells. rewrite list_lookup_fmap, lookup_seq_lt; [done|].
      by eapply lookup_lt_Some.
    + rewrite Forall_forall in Hpl. by apply Hold, Hpl.
  - split; [by rewrite Hb|]. rewrite Hb. apply Forall_lookup. intros r rid Hr.
    destruct (Hrow r rid Hr) as (cs & Hcs & Hlen & Hpl & Hnd & Hrow').
    rewrite (rowOf_Some _ _ _ Hrow'). apply insertAt_NoDup; [done|].
    intros Hin. rewrite Forall_forall in Hpl.
    destruct (Hold _ (Hpl _ Hin)) as [_ Hlt]. lia.
Qed.

(** ** Deleting a column of a grid without spans *)

Section DeleteColumn.
Context (w : World) (C : nat) (m : list TableRowPosition).
Hypothesis Hplain : plainGrid w C.
Hypothesis Hwf : rowsWf w.
Hypothesis Hm : ∀ r row_, m !! r = Some row_ →
  ∃ rid cs, bodies w !! r = Some rid ∧ rowHeap w !! rid = Some cs ∧
    cells row_ = rid ∧ length (cellsPosition row_) = C ∧
    ∀ c p, cellsPosition row_ !! c = Some p →
      cs !! c = Some (cell p) ∧ row p = rid ∧
      offsetRow p = 0%Z ∧ offsetColumn p = 0%Z.

Lemma deleteColumn_loop j z w1 :
  z = Z.of_nat j → j < C →
  bodies w1 = bodies w → params w1 = params w → cellHeap w1 = cellHeap w →
  fragmentHeap w1 = fragmentHeap w → rowHeap w1 = rowHeap w →
  ∃ w', forEach m (λ row_,
          cell_ ← lift (defined (Js.at_ (cellsPosition row_) z));
          TableEditCommander.deleteFromColumn cell_) w1 = (w', Val tt) ∧
        bodies w' = bodies w ∧ params w' = params w ∧
        cellHeap w' = cellHeap w ∧ fragmentHeap w' = fragmentHeap w ∧
        rowsUpd (λ _, delete j) (length m) (bodies w) (rowHeap w) (rowHeap w').
Proof using All.
  intros -> Hj Hb1 Hp1 Hc1 Hf1 Hr1.
  apply (forEach_inv _ m
           (λ r ws, bodies ws = bodies w ∧ params ws = params w ∧
                    cellHeap ws = cellHeap w ∧ fragmentHeap ws = fragmentHeap w ∧
                    rowsUpd (λ _, delete j) r (bodies w) (rowHeap w) (rowHeap ws))).
  { repeat (split; [done|]). rewrite Hr1.
    apply rowsUpd_start, (stored_rows_Some w C Hplain). }
  intros r row_ ws Hrow (Hb & Hp & Hc & Hf & Hrows).
  destruct (Hm r row_ Hrow) as (rid & cs & Hrid & Hcs & Hcells & Hlen & Hpos).
  destruct (lookup_lt_is_Some_2 (cellsPosition row_) j) as [p Hpj]; [lia|].
  destruct (Hpos j p Hpj) as (Hk & Hrowp & Hor & Hoc).
  assert (rid ∈ bodies w) as Hin by (by eapply list_elem_of_lookup_2).
  pose proof (rowsUpd_current _ _ _ _ _ _ Hrid Hrows) as Hcur.
  rewrite Hcs in Hcur. simpl in Hcur.
  destruct (plainGrid_row w C r rid Hplain Hrid) as (cs' & Hcs' & _ & Hpl).
  rewrite Hcs in Hcs'. injection Hcs' as <-.
  rewrite Forall_lookup in Hpl. pose proof (Hpl j (cell p) Hk) as Hplk.
  unfold plain in Hplk.
  destruct (cellHeap w !! cell p) as [c|] eqn:Hcell; [|done].
  destruct Hplk as [Hcs1 Hrs1].
  rewrite M_bind_unfold. unfold lift at 1. rewrite at_nat, Hpj. simpl defined.
  cbv beta iota. unfold TableEditCommander.deleteFromColumn.
  rewrite decide_True by done.
  rewrite bool_decide_eq_false_2 by lia. rewrite Hrowp.
  rewrite (bind_Val _ _ _ _ _ (getRow_Some _ _ _ Hcur)). cbv zeta.
  rewrite (bind_Val _ _ ws ws c); [|apply getCell_Some; by rewrite Hc].
  rewrite bool_decide_eq_false_2 by lia.
  rewrite (indexOf_NoDup cs (cell p) j);
    [|by eapply (stored_row_NoDup w Hwf)|done].
  rewrite splice_delete_nat.
  eexists. split; [reflexivity|]. simpl.
  repeat (split; [done|]).
  pose proof (rowsUpd_step (λ _, delete j) r (bodies w) (rowHeap w) (rowHeap ws)
                rid (proj1 Hwf) Hrid) as Hstep.
  rewrite Hcs in Hstep. simpl in Hstep. apply Hstep; [by eexists|done].
Qed.

End DeleteColumn.

(** [deleteLeftColumn] on a grid without spans, away from the left edge. *)
Lemma deleteLeftColumn_plain w C j p :
  plainGrid w C → rowsWf w → params w = Some p →
  columnIndex (startPosition p) = Some (Z.of_nat (S j)) → j < C →
  ∃ w', TableEditCommander.deleteLeftColumn w = (w', Val tt) ∧
        columnDeleted j w w' ∧
        params w' = Some (shifted TableEditCommander.columnIndex_decr p).
Proof.
  intros Hplain Hwf Hp Hcol Hj.
  destruct (plain_matrix w C Hplain) as (m & Hmat & HlenM & Hm).
  set (w1 := setCellMatrix m _) in Hmat.
  destruct (deleteColumn_loop w C m Hplain Hwf Hm j
              (Js.toNumber (Some (Z.of_nat (S j))) - 1)%Z w1)
    as (w2 & Hloop & Hb & Hp2 & Hc & Hf & Hrows); try done.
  { simpl. lia. }
  { simpl. by rewrite app_nil_r. }
  rewrite Hp in Hp2.
  destruct (shiftRange_Some TableEditCommander.columnIndex_decr w2 p Hp2)
    as (w3 & Hshift & Hp3 & Hb3 & Hc3 & Hf3 & Hr3).
  exists w3. split.
  - unfold TableEditCommander.deleteLeftColumn.
    rewrite (bind_Val _ _ _ _ _ Hmat).
    rewrite (bind_Val _ _ _ _ _ (getParams_Some w1 p Hp)).
    cbv zeta. rewrite Hcol. rewrite decide_False by (intros [=]; lia).
    rewrite (bind_Val _ _ _ _ _ Hloop). done.
  - split; [|done]. unfold columnDeleted.
    rewrite Hb3, Hc3, Hf3, Hr3, <- HlenM. done.
Qed.

(** ** Columns of a grid without spans *)

Lemma startPosition_shifted f p :
  startPosition (shifted f p) = f (startPosition p).
Proof.
  unfold shifted. destruct (decide _); by destruct p.
Qed.

(** On a grid of [C] columns without spans, holding each row and cell
    once, [addColumnToLeft] at the column [i] of the start of the edit
    range returns normally; every row gets one new plain cell, with a new
    fragment holding one [BrComponent], at index [i], and nothing else of
    the store changes; the grid is again one without spans, of [C + 1]
    columns, so it is valid; and the column index of the start of the
    range goes up by one, as does the one of the end when it is of
    another cell. *)
Theorem addColumnToLeft_plain_grid (w : World) (C i : nat) (p : TableEditRange) :
  plainGrid w C → rowsWf w → params w = Some p →
  columnIndex (startPosition p) = Some (Z.of_nat i) → i < C →
  ∃ w', TableEditCommander.addColumnToLeft w = (w', Val tt) ∧
        columnAdded i w w' ∧
        params w' = Some (shifted TableEditCommander.columnIndex_incr p) ∧
        plainGrid w' (S C) ∧ rowsWf w' ∧
        valid_grid w' (flat (rowsOf w')).
Proof.
  intros Hplain Hwf Hp Hcol Hi.
  destruct (addColumnToLeft_plain w C i p Hplain Hwf Hp Hcol Hi)
    as (w' & Hrun & Hadded & Hp').
  destruct (columnAdded_plain w w' C i Hplain Hwf) as [Hplain' Hwf'];
    [lia|done|].
  exists w'. repeat (split; [done|]). by eapply plainGrid_valid.
Qed.

Lemma addColumnToLeft_plain_grid_witness :
  ∃ w', TableEditCommander.addColumnToLeft
          (Ex.world Ex.cells_2x2 Ex.rows_2x2 [0; 1]
             (Some (SamePosition (Ex.at_ 1 0 1)))) = (w', Val tt) ∧
        plainGrid w' 3.
Proof.
  destruct (addColumnToLeft_plain_grid
              (Ex.world Ex.cells_2x2 Ex.rows_2x2 [0; 1]
                 (Some (SamePosition (Ex.at_ 1 0 1))))
              2 1 (SamePosition (Ex.at_ 1 0 1)))
    as (w' & Hrun & _ & _ & Hplain & _).
  - apply (bool_decide_unpack _). vm_compute. exact I.
  - apply (bool_decide_unpack _). vm_compute. exact I.
  - reflexivity.
  - reflexivity.
  - lia.
  - exists w'. split; [exact Hrun|exact Hplain].
Defined.

(** On such a grid, [deleteLeftColumn] after [addColumnToLeft], with the
    edit range as the insertion left it, gives the grid back: both return
    normally, [bodies] and every row array of the grid hold what they
    held, every cell has the spans and the fragment it had, and the start
    of the range is at its column again. The cells of the deleted column
    stay in the heap, outside the grid. *)
Theorem add_delete_left_column (w : World) (C i : nat) (p : TableEditRange) :
  plainGrid w C → rowsWf w → params w = Some p →
  columnIndex (startPosition p) = Some (Z.of_nat i) → i < C →
  ∃ w' p',
    (TableEditCommander.addColumnToLeft;;
     TableEditCommander.deleteLeftColumn) w = (w', Val tt) ∧
    gridRestored w w' ∧
    params w' = Some p' ∧
    columnIndex (startPosition p') = Some (Z.of_nat i).
Proof.
  intros Hplain Hwf Hp Hcol Hi.
  destruct (addColumnToLeft_plain w C i p Hplain Hwf Hp Hcol Hi)
    as (w1 & Hadd & Hadded & Hp1).
  destruct (columnAdded_plain w w1 C i Hplain Hwf) as [Hplain1 Hwf1];
    [lia|done|].
  destruct (deleteLeftColumn_plain w1 (S C) i _ Hplain1 Hwf1 Hp1)
    as (w2 & Hdel & Hdeleted & Hp2).
  { rewrite startPosition_shifted. simpl. rewrite Hcol.
    unfold TableEditCommander.incr. simpl. f_equal. lia. }
  { lia. }
  exists w2, (shifted TableEditCommander.columnIndex_decr
                (shifted TableEditCommander.columnIndex_incr p)).
  split; [by rewrite (bind_Val _ _ _ _ _ Hadd)|].
  destruct Hadded as (Hb1 & Hc1 & Hf1 & Hrows1).
  destruct Hdeleted as (Hb2 & Hc2 & Hf2 & Hrows2).
  split; [|split; [done|]].
  - split; [by rewrite Hb2, Hb1|]. split; [|split].
    + intros rid [r Hr]%list_elem_of_lookup.
      destruct (plainGrid_row w C r rid Hplain Hr) as (cs & Hcs & Hlen & _).
      rewrite Hb1 in Hrows2.
      rewrite (rowsUpd_done _ _ _ _ _ _ Hr Hrows2).
      rewrite (rowsUpd_done _ _ _ _ _ _ Hr Hrows1), Hcs. simpl.
      by rewrite delete_insertAt by lia.
    + intros k c Hk. rewrite Hc2, Hc1. by apply lookup_app_l_Some.
    + rewrite Hf2, Hf1. by apply prefix_app_r.
  - rewrite !startPosition_shifted. simpl. rewrite Hcol.
    unfold TableEditCommander.decr, TableEditCommander.incr. simpl.
    f_equal. lia.
Qed.

Lemma add_delete_left_column_witness :
  ∃ w' p',
    (TableEditCommander.addColumnToLeft;;
     TableEditCommander.deleteLeftColumn)
      (Ex.world Ex.cells_2x2 Ex.rows_2x2 [0; 1]
         (Some (SamePosition (Ex.at_ 1 0 1)))) = (w', Val tt) ∧
    bodies w' = [0; 1] ∧ params w' = Some p'.
Proof.
  destruct (add_delete_left_column
              (Ex.world Ex.cells_2x2 Ex.rows_2x2 [0; 1]
                 (Some (SamePosition (Ex.at_ 1 0 1))))
              2 1 (SamePosition (Ex.at_ 1 0 1)))
    as (w' & p' & Hrun & (Hb & _) & Hp & _).
  - apply (bool_decide_unpack _). vm_compute. exact I.
  - apply (bool_decide_unpack _). vm_compute. exact I.
  - reflexivity.
  - reflexivity.
  - lia.
  - exists w', p'. split; [exact Hrun|]. split; [exact Hb|exact Hp].
Defined.

(** ** The column to the right, on a grid without spans *)

Section AddColumnRight.
Context (w : World) (C : nat) (m : list TableRowPosition).
Hypothesis Hplain : plainGrid w C.
Hypothesis Hwf : rowsWf w.
Hypothesis Hm : ∀ r row_, m !! r = Some row_ →
  ∃ rid cs, bodies w !! r = Some rid ∧ rowHeap w !! rid = Some cs ∧
    cells row_ = rid ∧ length (cellsPosition row_) = C ∧
    ∀ c p, cellsPosition row_ !! c = Some p →
      cs !! c = Some (cell p) ∧ row p = rid ∧
      offsetRow p = 0%Z ∧ offsetColumn p = 0%Z.

Lemma addColumnToRight_loop i w1 :
  i < C →
  bodies w1 = bodies w → params w1 = params w → cellHeap w1 = cellHeap w →
  fragmentHeap w1 = fragmentHeap w → rowHeap w1 = rowHeap w →
  ∃ w', forEach m (λ row_,
          cell_ ← lift (defined (Js.atNum (cellsPosition row_)
                                   (Some (Z.of_nat i))));
          c ← getCell (cell cell_);
          if bool_decide (offsetColumn cell_ + 1 < colspan c)%Z then
            if decide (offsetRow cell_ = 0%Z) then
              modifyCell (cell cell_) (λ c, setColspan (colspan c + 1) c)
            else mret tt
          else
            r ← getRow (row cell_);
            n ← TableEditCommander.createCell 1 1;
            setRow (row cell_)
              (Js.splice r (Js.indexOf r (cell cell_) + 1) 0 [n])) w1
        = (w', Val tt) ∧
        bodies w' = bodies w ∧ params w' = params w ∧
        cellHeap w' = cellHeap w ++ newCells (length (fragmentHeap w)) (length m) ∧
        fragmentHeap w' = fragmentHeap w ++ replicate (length m) [BrComponent] ∧
        rowsUpd (λ r, insertAt (S i) (length (cellHeap w) + r)) (length m)
          (bodies w) (rowHeap w) (rowHeap w').
Proof using All.
  intros Hi Hb1 Hp1 Hc1 Hf1 Hr1.
  apply (forEach_inv _ m
           (λ r ws, bodies ws = bodies w ∧ params ws = params w ∧
              cellHeap ws = cellHeap w ++ newCells (length (fragmentHeap w)) r ∧
              fragmentHeap ws = fragmentHeap w ++ replicate r [BrComponent] ∧
              rowsUpd (λ r, insertAt (S i) (length (cellHeap w) + r)) r
                (bodies w) (rowHeap w) (rowHeap ws))).
  { split; [done|]. split; [done|]. unfold newCells. simpl.
    rewrite !app_nil_r. split; [done|]. split; [done|].
    rewrite Hr1. apply rowsUpd_start, (stored_rows_Some w C Hplain). }
  intros r row_ ws Hrow Hadded.
  destruct (Hm r row_ Hrow) as (rid & cs & Hrid & Hcs & Hcells & Hlen & Hpos).
  destruct (lookup_lt_is_Some_2 (cellsPosition row_) i) as [p Hpi]; [lia|].
  destruct (Hpos i p Hpi) as (Hk & Hrowp & Hor & Hoc).
  assert (rid ∈ bodies w) as Hin by (by eapply list_elem_of_lookup_2).
  pose proof Hadded as (Hb & Hp & Hc & Hf & Hrows).
  pose proof (rowsUpd_current _ _ _ _ _ _ Hrid Hrows) as Hcur.
  rewrite Hcs in Hcur. simpl in Hcur.
  destruct (plainGrid_row w C r rid Hplain Hrid) as (cs' & Hcs' & _ & Hpl).
  rewrite Hcs in Hcs'. injection Hcs' as <-.
  rewrite Forall_lookup in Hpl. pose proof (Hpl i (cell p) Hk) as Hplk.
  unfold plain in Hplk.
  destruct (cellHeap w !! cell p) as [c|] eqn:Hcell; [|done].
  destruct Hplk as [Hcs1 Hrs1].
  assert (Js.atNum (cellsPosition row_) (Some (Z.of_nat i)) = Some p) as Hat.
  { simpl. by rewrite at_nat. }
  assert (length (cellHeap ws) = length (cellHeap w) + r) as Hn.
  { by rewrite Hc, length_app, length_newCells. }
  rewrite M_bind_unfold. unfold lift at 1. rewrite Hat. simpl defined.
  cbv beta iota.
  rewrite (bind_Val _ _ ws ws c);
    [|apply getCell_Some; rewrite Hc; by apply lookup_app_l_Some].
  rewrite bool_decide_eq_false_2 by lia. rewrite Hrowp.
  eexists. split.
  - apply (newCell_in_row ws rid cs
             (λ r0 n, Js.splice r0 (Js.indexOf r0 (cell p) + 1) 0 [n]) Hcur).
  - cbv beta.
    rewrite (indexOf_NoDup cs (cell p) i);
      [|by eapply (stored_row_NoDup w Hwf)|done].
    replace (Z.of_nat i + 1)%Z with (Z.of_nat (S i)) by lia.
    rewrite splice_insert_nat, Hn.
    by apply (added_step w Hwf (λ r, insertAt (S i) (length (cellHeap w) + r))).
Qed.

End AddColumnRight.

(** [addColumnToRight] on a grid without spans. *)
Lemma addColumnToRight_plain w C i p :
  plainGrid w C → rowsWf w → params w = Some p →
  columnIndex (endPosition p) = Some (Z.of_nat i) → i < C →
  ∃ w', TableEditCommander.addColumnToRight w = (w', Val tt) ∧
        columnAdded (S i) w w' ∧ params w' = Some p.
Proof.
  intros Hplain Hwf Hp Hcol Hi.
  destruct (plain_matrix w C Hplain) as (m & Hmat & HlenM & Hm).
  set (w1 := setCellMatrix m _) in Hmat.
  destruct (addColumnToRight_loop w C m Hplain Hwf Hm i w1 Hi)
    as (w2 & Hloop & Hb & Hp2 & Hc & Hf & Hrows); try done.
  { simpl. by rewrite app_nil_r. }
  exists w2. split.
  - unfold TableEditCommander.addColumnToRight.
    rewrite (bind_Val _ _ _ _ _ Hmat).
    rewrite (bind_Val _ _ _ _ _ (getParams_Some w1 p Hp)).
    cbv zeta. rewrite Hcol. exact Hloop.
  - split; [|by rewrite Hp2]. unfold columnAdded. rewrite <- HlenM. done.
Qed.

(** [deleteRightColumn] on a grid without spans, away from the right
    edge. *)
Lemma deleteRightColumn_plain w C i p :
  plainGrid w C → rowsWf w → params w = Some p → bodies w ≠ [] →
  columnIndex (endPosition p) = Some (Z.of_nat i) → S i < C →
  ∃ w', TableEditCommander.deleteRightColumn w = (w', Val tt) ∧
        columnDeleted (S i) w w' ∧ params w' = Some p.
Proof.
  intros Hplain Hwf Hp Hne Hcol Hi.
  destruct (plain_matrix w C Hplain) as (m & Hmat & HlenM & Hm).
  set (w1 := setCellMatrix m _) in Hmat.
  destruct (deleteColumn_loop w C m Hplain Hwf Hm (S i)
              (Js.toNumber (Some (Z.of_nat i)) + 1)%Z w1)
    as (w2 & Hloop & Hb & Hp2 & Hc & Hf & Hrows); try done.
  { simpl. lia. }
  { simpl. by rewrite app_nil_r. }
  destruct (lookup_lt_is_Some_2 m 0) as [r0 Hr0].
  { rewrite HlenM. destruct (bodies w); [done|simpl; lia]. }
  destruct (Hm 0 r0 Hr0) as (_ & _ & _ & _ & _ & Hlen0 & _).
  exists w2. split.
  - unfold TableEditCommander.deleteRightColumn.
    rewrite (bind_Val _ _ _ _ _ Hmat).
    rewrite (bind_Val _ _ _ _ _ (getParams_Some w1 p Hp)).
    cbv zeta. rewrite Hcol.
    rewrite (bind_Val _ _ w1 w1 r0);
      [|unfold lift; change (Js.at_ m 0) with (m !! 0); by rewrite Hr0].
    rewrite decide_False by (rewrite Hlen0; intros [=]; lia).
    exact Hloop.
  - split; [|by rewrite Hp2]. unfold columnDeleted. rewrite <- HlenM. done.
Qed.

(** On a grid of [C] columns without spans, holding each row once and no
    cell twice in a row, [addColumnToRight] at the column [i] of the end
    of the edit range returns normally; every row gets one new plain cell,
    with a new fragment holding one [BrComponent], right after index [i];
    nothing else of the store changes, the edit range stays as it is, and
    the grid is again one without spans, of [C + 1] columns. *)
Theorem addColumnToRight_plain_grid (w : World) (C i : nat) (p : TableEditRange) :
  plainGrid w C → rowsWf w → params w = Some p →
  columnIndex (endPosition p) = Some (Z.of_nat i) → i < C →
  ∃ w', TableEditCommander.addColumnToRight w = (w', Val tt) ∧
        columnAdded (S i) w w' ∧ params w' = Some p ∧
        plainGrid w' (S C) ∧ rowsWf w' ∧
        valid_grid w' (flat (rowsOf w')).
Proof.
  intros Hplain Hwf Hp Hcol Hi.
  destruct (addColumnToRight_plain w C i p Hplain Hwf Hp Hcol Hi)
    as (w' & Hrun & Hadded & Hp').
  destruct (columnAdded_plain w w' C (S i) Hplain Hwf) as [Hplain' Hwf'];
    [lia|done|].
  exists w'. repeat (split; [done|]). by eapply plainGrid_valid.
Qed.

Lemma addColumnToRight_plain_grid_witness :
  ∃ w', TableEditCommander.addColumnToRight
          (Ex.world Ex.cells_2x2 Ex.rows_2x2 [0; 1]
             (Some (SamePosition (Ex.at_ 1 0 1)))) = (w', Val tt) ∧
        plainGrid w' 3.
Proof.
  destruct (addColumnToRight_plain_grid
              (Ex.world Ex.cells_2x2 Ex.rows_2x2 [0; 1]
                 (Some (SamePosition (Ex.at_ 1 0 1))))
              2 1 (SamePosition (Ex.at_ 1 0 1)))
    as (w' & Hrun & _ & _ & Hplain & _).
  - apply (bool_decide_unpack _). vm_compute. exact I.
  - apply (bool_decide_unpack _). vm_compute. exact I.
  - reflexivity.
  - reflexivity.
  - lia.
  - exists w'. split; [exact Hrun|exact Hplain].
Defined.

(** On such a grid with at least one row, [deleteRightColumn] after
    [addColumnToRight], with the same edit range, gives the grid back:
    both return normally, [bodies] and every row array of the grid hold
    what they held, every cell has the spans and the fragment it had, and
    the edit range is as it was. *)
Theorem add_delete_right_column (w : World) (C i : nat) (p : TableEditRange) :
  plainGrid w C → rowsWf w → params w = Some p → bodies w ≠ [] →
  columnIndex (endPosition p) = Some (Z.of_nat i) → i < C →
  ∃ w',
    (TableEditCommander.addColumnToRight;;
     TableEditCommander.deleteRightColumn) w = (w', Val tt) ∧
    gridRestored w w' ∧ params w' = Some p.
Proof.
  intros Hplain Hwf Hp Hne Hcol Hi.
  destruct (addColumnToRight_plain w C i p Hplain Hwf Hp Hcol Hi)
    as (w1 & Hadd & Hadded & Hp1).
  destruct (columnAdded_plain w w1 C (S i) Hplain Hwf) as [Hplain1 Hwf1];
    [lia|done|].
  pose proof Hadded as (Hb1 & Hc1 & Hf1 & Hrows1).
  destruct (deleteRightColumn_plain w1 (S C) i p Hplain1 Hwf1 Hp1)
    as (w2 & Hdel & Hdeleted & Hp2); [by rewrite Hb1|done|lia|].
  exists w2. split; [by rewrite (bind_Val _ _ _ _ _ Hadd)|].
  destruct Hdeleted as (Hb2 & Hc2 & Hf2 & Hrows2).
  split; [|done].
  split; [by rewrite Hb2, Hb1|]. split; [|split].
  - intros rid [r Hr]%list_elem_of_lookup.
    destruct (plainGrid_row w C r rid Hplain Hr) as (cs & Hcs & Hlen & _).
    rewrite Hb1 in Hrows2.
    rewrite (rowsUpd_done _ _ _ _ _ _ Hr Hrows2).
    rewrite (rowsUpd_done _ _ _ _ _ _ Hr Hrows1), Hcs. simpl.
    by rewrite delete_insertAt by lia.
  - intros k c Hk. rewrite Hc2, Hc1. by apply lookup_app_l_Some.
  - rewrite Hf2, Hf1. by apply prefix_app_r.
Qed.

Lemma add_delete_right_column_witness :
  ∃ w',
    (TableEditCommander.addColumnToRight;;
     TableEditCommander.deleteRightColumn)
      (Ex.world Ex.cells_2x2 Ex.rows_2x2 [0; 1]
         (Some (SamePosition (Ex.at_ 1 0 1)))) = (w', Val tt) ∧
    bodies w' = [0; 1].
Proof.
  destruct (add_delete_right_column
              (Ex.world Ex.cells_2x2 Ex.rows_2x2 [0; 1]
                 (Some (SamePosition (Ex.at_ 1 0 1))))
              2 1 (SamePosition (Ex.at_ 1 0 1)))
    as (w' & Hrun & (Hb & _) & _).
  - apply (bool_decide_unpack _). vm_compute. exact I.
  - apply (bool_decide_unpack _). vm_compute. exact I.
  - reflexivity.
  - discriminate.
  - reflexivity.
  - lia.
  - exists w'. split; [exact Hrun|exact Hb].
Defined.

(** ** A new row of cells *)

Lemma pushNewCell_step ws tr cs :
  rowHeap ws !! tr = Some cs →
  TableEditCommander.pushNewCell tr 1 1 ws =
    (setRowHeap (<[tr := cs ++ [length (cellHeap ws)]]> (rowHeap ws))
       (setCellHeap (cellHeap ws ++ [mkCell 1 1 (length (fragmentHeap ws))])
          (setFragmentHeap (fragmentHeap ws ++ [[BrComponent]]) ws)),
     Val tt).
Proof.
  intros Hr. unfold TableEditCommander.pushNewCell.
  rewrite M_bind_unfold. unfold TableEditCommander.createCell at 1.
  cbv beta iota zeta.
  erewrite bind_Val; [|by apply getRow_Some]. reflexivity.
Qed.

(** A loop whose every step pushes one new cell to the array [tr]. *)
Lemma push_loop {A} (body : A → M unit) (l : list A) (w1 : World) (tr : RowId) :
  rowHeap w1 !! tr = Some [] →
  (∀ x ws, x ∈ l →
     (∀ k c, cellHeap w1 !! k = Some c → cellHeap ws !! k = Some c) →
     body x ws = TableEditCommander.pushNewCell tr 1 1 ws) →
  ∃ w', forEach l body w1 = (w', Val tt) ∧
    bodies w' = bodies w1 ∧ params w' = params w1 ∧
    cellHeap w' = cellHeap w1 ++ newCells (length (fragmentHeap w1)) (length l) ∧
    fragmentHeap w' = fragmentHeap w1 ++ replicate (length l) [BrComponent] ∧
    rowHeap w' = <[tr := seq (length (cellHeap w1)) (length l)]> (rowHeap w1).
Proof.
  intros Htr Hbody.
  apply (forEach_inv body l
    (λ j ws, bodies ws = bodies w1 ∧ params ws = params w1 ∧
       cellHeap ws = cellHeap w1 ++ newCells (length (fragmentHeap w1)) j ∧
       fragmentHeap ws = fragmentHeap w1 ++ replicate j [BrComponent] ∧
       rowHeap ws = <[tr := seq (length (cellHeap w1)) j]> (rowHeap w1))).
  { split; [done|]. split; [done|]. unfold newCells. simpl.
    rewrite !app_nil_r. split; [done|]. split; [done|].
    symmetry. by apply list_insert_id. }
  intros j x ws Hx (Hb & Hp & Hc & Hf & Hr).
  pose proof (lookup_lt_Some _ _ _ Htr) as Hlt.
  rewrite Hbody; [|by eapply list_elem_of_lookup_2|].
  2: { intros k c Hk. rewrite Hc. by apply lookup_app_l_Some. }
  rewrite (pushNewCell_step ws tr (seq (length (cellHeap w1)) j)).
  2: { rewrite Hr. by apply list_lookup_insert_eq. }
  eexists. split; [reflexivity|]. simpl.
  split; [done|]. split; [done|]. split; [|split].
  - rewrite Hc, Hf, newCells_S, length_app, length_replicate.
    by rewrite <- app_assoc.
  - rewrite Hf, <- app_assoc. f_equal.
    change ([BrComponent] :: replicate j [BrComponent])
      with (replicate (S j) [BrComponent]).
    by rewrite replicate_S_end.
  - rewrite Hr, list_insert_insert_eq. f_equal.
    change (length (cellHeap w1) :: seq (S (length (cellHeap w1))) j)
      with (seq (length (cellHeap w1)) (S j)).
    rewrite Hc, length_app, length_newCells. by rewrite seq_S.
Qed.

Lemma insert_last {A} (l : list A) (x y : A) :
  <[length l := y]> (l ++ [x]) = l ++ [y].
Proof.
  rewrite insert_app_r_alt by lia. by rewrite Nat.sub_diag.
Qed.

(** ** Adding a row to a grid without spans *)

(** The state after [newRow] and the loop that fills the new row. *)
Lemma fill_row {A} (w : World) (C : nat) (body : A → M unit) (l : list A) w1 :
  length l = C →
  bodies w1 = bodies w → params w1 = params w → cellHeap w1 = cellHeap w →
  fragmentHeap w1 = fragmentHeap w → rowHeap w1 = rowHeap w →
  (∀ x ws, x ∈ l →
     (∀ k c, cellHeap w !! k = Some c → cellHeap ws !! k = Some c) →
     body x ws = TableEditCommander.pushNewCell (length (rowHeap w)) 1 1 ws) →
  ∃ w3, forEach l body (setRowHeap (rowHeap w1 ++ [[]]) w1) = (w3, Val tt) ∧
    bodies w3 = bodies w ∧ params w3 = params w ∧
    cellHeap w3 = cellHeap w ++ newCells (length (fragmentHeap w)) C ∧
    fragmentHeap w3 = fragmentHeap w ++ replicate C [BrComponent] ∧
    rowHeap w3 = rowHeap w ++ [seq (length (cellHeap w)) C].
Proof.
  intros Hlen Hb1 Hp1 Hc1 Hf1 Hr1 Hbody.
  destruct (push_loop body l (setRowHeap (rowHeap w1 ++ [[]]) w1)
              (length (rowHeap w))) as (w3 & Hrun & Hb & Hp & Hc & Hf & Hr).
  { simpl. rewrite Hr1. by rewrite lookup_app_r, Nat.sub_diag by lia. }
  { intros x ws Hx Hold. apply Hbody; [done|]. intros k c Hk. apply Hold.
    simpl. by rewrite Hc1. }
  exists w3. split; [done|]. simpl in Hb, Hp, Hc, Hf, Hr.
  rewrite Hb, Hp, Hc, Hf, Hr, Hlen, Hb1, Hp1, Hc1, Hf1, Hr1.
  repeat (split; [done|]). apply insert_last.
Qed.

Lemma cellMatrix_plain w C :
  plainGrid w C →
  ∃ m,
    TableComponent.cellMatrix w = (setCellMatrix m w, Val m) ∧
    length m = length (bodies w) ∧
    ∀ r row_, m !! r = Some row_ →
      ∃ rid cs, bodies w !! r = Some rid ∧ rowHeap w !! rid = Some cs ∧
        cells row_ = rid ∧ length (cellsPosition row_) = C ∧
        ∀ c p, cellsPosition row_ !! c = Some p →
          cs !! c = Some (cell p) ∧ row p = rid ∧
          offsetRow p = 0%Z ∧ offsetColumn p = 0%Z.
Proof.
  intros Hplain. destruct (plain_matrix w C Hplain) as (m & Hmat & Hrest).
  exists m. split; [|done]. rewrite Hmat. f_equal.
  destruct w. simpl. by rewrite app_nil_r.
Qed.

(** [addRowToTop] on a grid without spans. *)
Lemma addRowToTop_plain w C j p :
  plainGrid w C → rowsWf w → params w = Some p →
  rowIndex (startPosition p) = Some (Z.of_nat j) → j < length (bodies w) →
  ∃ w', TableEditCommander.addRowToTop w = (w', Val tt) ∧
        rowAdded j C w w' ∧
        params w' = Some (shifted TableEditCommander.rowIndex_incr p).
Proof.
  intros Hplain Hwf Hp Hrow Hj.
  destruct (cellMatrix_plain w C Hplain) as (m & Hmat & HlenM & Hm).
  destruct (lookup_lt_is_Some_2 m j) as [row_ Hrowj]; [lia|].
  destruct (Hm j row_ Hrowj) as (rid & cs & Hrid & Hcs & Hcells & Hlen & Hpos).
  unfold TableEditCommander.addRowToTop.
  rewrite (bind_Val _ _ _ _ _ Hmat).
  rewrite (bind_Val _ _ _ _ _ (getParams_Some (setCellMatrix m w) p Hp)).
  cbv zeta. rewrite Hrow.
  rewrite (bind_Val _ _ _ _ _
    (eq_refl : TableEditCommander.newRow (setCellMatrix m w) = (_, Val _))).
  change (rowHeap (setCellMatrix m w)) with (rowHeap w).
  set (w2 := setRowHeap (rowHeap w ++ [[]]) (setCellMatrix m w)).
  match goal with |- ∃ w', (?l ≫= _) _ = _ ∧ _ => set (loop := l) end.
  assert (Hfill : ∃ w3, loop w2 = (w3, Val tt) ∧
    bodies w3 = bodies w ∧ params w3 = params w ∧
    cellHeap w3 = cellHeap w ++ newCells (length (fragmentHeap w)) C ∧
    fragmentHeap w3 = fragmentHeap w ++ replicate C [BrComponent] ∧
    rowHeap w3 = rowHeap w ++ [seq (length (cellHeap w)) C]).
  { subst loop. destruct (decide (Some (Z.of_nat j) = Some 0%Z)) as [Hz|Hz].
    - assert (j = 0) as -> by (injection Hz; lia).
      change (Js.at_ m 0) with (m !! 0). rewrite Hrowj.
      rewrite (bind_Val _ _ _ _ _
        (eq_refl : lift (defined (Some row_)) w2 = (w2, Val row_))).
      rewrite Hcells.
      rewrite (bind_Val _ _ _ _ cs (getRow_Some w2 rid cs
        (lookup_app_l_Some _ _ _ _ Hcs))).
      apply (fill_row w C _ cs (setCellMatrix m w)); try done.
      destruct (plainGrid_row w C 0 rid Hplain Hrid) as (cs' & Hcs' & Hl & _).
      congruence.
    - unfold Js.atNum. rewrite at_nat, Hrowj.
      rewrite (bind_Val _ _ _ _ _
        (eq_refl : lift (defined (Some row_)) w2 = (w2, Val row_))).
      apply (fill_row w C _ (cellsPosition row_) (setCellMatrix m w)); try done.
      intros x ws [c Hx]%list_elem_of_lookup_1 _.
      destruct (Hpos c x Hx) as (_ & _ & -> & _).
      by rewrite bool_decide_eq_false_2 by lia. }
  destruct Hfill as (w3 & Hloop & Hb3 & Hp3 & Hc3 & Hf3 & Hr3).
  rewrite (bind_Val _ _ _ _ _ Hloop).
  unfold Js.atNum. rewrite at_nat, Hrowj.
  rewrite (bind_Val _ _ _ _ _
    (eq_refl : lift (defined (Some row_)) w3 = (w3, Val row_))).
  rewrite (bind_Val _ _ _ _ _
    (eq_refl : getBodies w3 = (w3, Val (bodies w3)))).
  rewrite Hcells, Hb3, (indexOf_NoDup _ _ _ (proj1 Hwf) Hrid).
  rewrite (bind_Val _ _ _ _ _
    (eq_refl : TableEditCommander.spliceBodies (Z.of_nat j) 0
                 [length (rowHeap w)] w3 = (_, Val tt))).
  rewrite Hb3, splice_insert_nat.
  rewrite Hp in Hp3.
  destruct (shiftRange_Some TableEditCommander.rowIndex_incr
              (setBodies (take j (bodies w) ++ length (rowHeap w) :: drop j (bodies w)) w3)
              p Hp3) as (w4 & Hshift & Hp4 & Hb4 & Hc4 & Hf4 & Hr4).
  exists w4. split; [done|]. split; [|done]. unfold rowAdded.
  by rewrite Hb4, Hc4, Hf4, Hr4.
Qed.


(** The grid with the new row is again a grid without spans. *)
Lemma rowAdded_plain w w' C j :
  plainGrid w C → rowsWf w → rowAdded j C w w' →
  plainGrid w' C ∧ rowsWf w'.
Proof.
  intros Hplain [Hndb Hndr] (Hb & Hr & Hc & Hf).
  assert (Hnew : rowHeap w' !! length (rowHeap w) =
                 Some (seq (length (cellHeap w)) C)).
  { rewrite Hr, lookup_app_r by lia. by rewrite Nat.sub_diag. }
  assert (Hold : ∀ rid, rid ∈ bodies w →
            ∃ cs, rowHeap w !! rid = Some cs ∧ rowHeap w' !! rid = Some cs ∧
                  length cs = C ∧ Forall (plain (cellHeap w')) cs ∧
                  rid ≠ length (rowHeap w)).
  { intros rid [r Hrid]%list_elem_of_lookup.
    destruct (plainGrid_row w C r rid Hplain Hrid) as (cs & Hcs & Hlen & Hpl).
    exists cs. split; [done|]. split; [by rewrite Hr; apply lookup_app_l_Some|].
    split; [done|]. split.
    - eapply Forall_impl; [exact Hpl|]. intros k Hk. unfold plain in *.
      rewrite Hc. destruct (cellHeap w !! k) as [c|] eqn:Hck; [|done].
      by rewrite (lookup_app_l_Some _ _ _ _ Hck).
    - apply lookup_lt_Some in Hcs. lia. }
  split.
  - unfold plainGrid. rewrite Hb. apply Forall_forall.
    intros rid [->|Hrid]%elem_of_insertAt.
    + rewrite Hnew. split; [by rewrite length_seq|].
      apply Forall_forall. intros k Hk. apply elem_of_seq in Hk.
      unfold plain. rewrite Hc, lookup_app_r by lia.
      unfold newCells. rewrite list_lookup_fmap, lookup_seq_lt by lia. done.
    + destruct (Hold rid Hrid) as (cs & _ & -> & Hlen & Hpl & _). done.
  - split.
    + rewrite Hb. apply insertAt_NoDup; [done|]. intros Hin.
      destruct (Hold _ Hin) as (cs & _ & _ & _ & _ & Hne). done.
    + rewrite Hb. apply Forall_forall.
      intros rid [->|Hrid]%elem_of_insertAt.
      * rewrite (rowOf_Some _ _ _ Hnew). apply NoDup_seq.
      * destruct (Hold rid Hrid) as (cs & Hcs & Hcs' & _).
        rewrite (rowOf_Some _ _ _ Hcs').
        rewrite Forall_forall in Hndr. specialize (Hndr rid Hrid).
        by rewrite (rowOf_Some _ _ _ Hcs) in Hndr.
Qed.

(** ** Deleting a row of a grid without spans *)

Lemma foldl_alter_notin {A} (f : A → A) (l : list nat) (h : list A) (k : nat) :
  k ∉ l → foldl (λ h k, alter f k h) h l !! k = h !! k.
Proof.
  revert h. induction l as [|x l IH]; intros h Hk; [done|].
  apply not_elem_of_cons in Hk as [Hne Hk]. simpl.
  rewrite IH by done. by apply list_lookup_alter_ne.
Qed.

Lemma foldl_alter_in {A} (f : A → A) (l : list nat) (h : list A) (k : nat) :
  NoDup l → k ∈ l → foldl (λ h k, alter f k h) h l !! k = f <$> h !! k.
Proof.
  revert h. induction l as [|x l IH]; intros h Hnd Hk; [by inversion Hk|].
  apply NoDup_cons in Hnd as [Hx Hnd]. simpl.
  apply elem_of_cons in Hk as [->|Hk].
  - rewrite foldl_alter_notin by done. apply list_lookup_alter_eq.
  - rewrite IH by done. rewrite list_lookup_alter_ne; [done|].
    intros ->. done.
Qed.

Lemma foldl_alter_length {A} (f : A → A) (l : list nat) (h : list A) :
  length (foldl (λ h k, alter f k h) h l) = length h.
Proof.
  revert h. induction l as [|x l IH]; intros h; [done|].
  simpl. by rewrite IH, length_alter.
Qed.

(** The loop of [deleteTopRow] over a row of plain cells takes one from
    the row span of each. *)
Lemma deleteTopRow_loop (m : list TableRowPosition) (index : option Z)
    (ps : list TableCellPosition) (cs : list nat) (w1 : World) :
  NoDup cs → Forall (plain (cellHeap w1)) cs →
  (∀ c p, ps !! c = Some p →
     cs !! c = Some (cell p) ∧ offsetRow p = 0%Z ∧ offsetColumn p = 0%Z) →
  length ps = length cs →
  ∃ w', forEach (imap pair ps) (λ '(cellIndex, cell_),
      if decide (offsetColumn cell_ = 0%Z) then
        c ← getCell (cell cell_);
        if bool_decide (offsetRow cell_ = 0%Z) && bool_decide (rowspan c > 1)%Z then
          newCellFragment ← TableEditCommander.createCell (rowspan c - 1) (colspan c);
          r ← lift (defined (Js.atNum m index));
          newPosition ← lift (defined (cellsPosition r !! cellIndex));
          TableEditCommander.placeBelow newCellFragment newPosition
        else modifyCell (cell cell_) (λ c, setRowspan (rowspan c - 1) c)
      else mret tt) w1 = (w', Val tt) ∧
    bodies w' = bodies w1 ∧ params w' = params w1 ∧
    rowHeap w' = rowHeap w1 ∧ fragmentHeap w' = fragmentHeap w1 ∧
    cellHeap w' =
      foldl (λ h k, alter (λ c, setRowspan (rowspan c - 1) c) k h)
        (cellHeap w1) cs.
Proof.
  intros Hnd Hpl Hps Hlen.
  match goal with |- ∃ w', forEach _ ?b _ = _ ∧ _ => set (body := b) end.
  destruct (forEach_inv body (imap pair ps)
    (λ i ws, bodies ws = bodies w1 ∧ params ws = params w1 ∧
       rowHeap ws = rowHeap w1 ∧ fragmentHeap ws = fragmentHeap w1 ∧
       cellHeap ws =
         foldl (λ h k, alter (λ c, setRowspan (rowspan c - 1) c) k h)
           (cellHeap w1) (take i cs)) w1) as (w' & Hrun & Hend).
  - by rewrite take_0.
  - intros i [i' x] ws Hi (Hb & Hp & Hr & Hf & Hc).
    rewrite list_lookup_imap in Hi.
    destruct (ps !! i) as [x'|] eqn:Hx; [|done]. injection Hi as <- <-.
    destruct (Hps i x' Hx) as (Hk & Hor & Hoc).
    rewrite Forall_forall in Hpl.
    pose proof (Hpl _ (list_elem_of_lookup_2 _ _ _ Hk)) as Hplain.
    unfold plain in Hplain.
    destruct (cellHeap w1 !! cell x') as [c|] eqn:Hck; [|done].
    destruct Hplain as [_ Hrs].
    assert (Hws : cellHeap ws !! cell x' = Some c).
    { rewrite Hc, foldl_alter_notin; [done|].
      intros Hin. apply list_elem_of_lookup in Hin as [i0 Hi0].
      pose proof (lookup_lt_Some _ _ _ Hi0) as Hlt.
      rewrite length_take in Hlt. rewrite lookup_take_lt in Hi0 by lia.
      pose proof (NoDup_lookup _ _ _ _ Hnd Hi0 Hk). lia. }
    subst body. cbv beta iota. rewrite decide_True by done.
    rewrite (bind_Val _ _ _ _ _ (getCell_Some ws _ c Hws)).
    rewrite (bool_decide_eq_false_2 (rowspan c > 1)%Z) by lia.
    rewrite andb_false_r.
    eexists. split; [reflexivity|]. simpl.
    repeat (split; [done|]).
    rewrite (take_S_r _ _ _ Hk), foldl_app. simpl. by rewrite Hc.
  - exists w'. split; [done|].
    rewrite length_imap, Hlen, firstn_all in Hend. done.
Qed.

(** [deleteTopRow] on a grid without spans. *)
Lemma deleteTopRow_plain w C j p :
  plainGrid w C → rowsWf w → params w = Some p →
  rowIndex (startPosition p) = Some (Z.of_nat (S j)) → j < length (bodies w) →
  ∃ w', TableEditCommander.deleteTopRow w = (w', Val tt) ∧
        rowDeleted j w w' ∧
        (∀ rid k c, bodies w !! j = Some rid → k ∈ rowOf w rid →
           cellHeap w !! k = Some c →
           cellHeap w' !! k = Some (setRowspan 0 c)) ∧
        params w' = Some (shifted TableEditCommander.rowIndex_decr p).
Proof.
  intros Hplain Hwf Hp Hrow Hj.
  destruct (cellMatrix_plain w C Hplain) as (m & Hmat & HlenM & Hm).
  destruct (lookup_lt_is_Some_2 m j) as [row_ Hrowj]; [lia|].
  destruct (Hm j row_ Hrowj) as (rid & cs & Hrid & Hcs & Hcells & Hlen & Hpos).
  destruct (plainGrid_row w C j rid Hplain Hrid) as (cs' & Hcs' & Hlen' & Hpl).
  assert (cs' = cs) as -> by congruence.
  assert (Hnd : NoDup cs).
  { destruct Hwf as [_ Hndr]. rewrite Forall_forall in Hndr.
    specialize (Hndr rid (list_elem_of_lookup_2 _ _ _ Hrid)).
    by rewrite (rowOf_Some _ _ _ Hcs) in Hndr. }
  destruct (deleteTopRow_loop m (Some (Z.of_nat (S j))) (cellsPosition row_) cs
              (setCellMatrix m w) Hnd Hpl)
    as (w2 & Hloop & Hb2 & Hp2 & Hr2 & Hf2 & Hc2); [|lia|].
  { intros c x Hx. destruct (Hpos c x Hx) as (? & _ & ? & ?). done. }
  simpl in Hb2, Hp2, Hr2, Hf2, Hc2. rewrite Hp in Hp2.
  destruct (shiftRange_Some TableEditCommander.rowIndex_decr
              (setBodies (delete j (bodies w)) w2) p Hp2)
    as (w3 & Hshift & Hp3 & Hb3 & Hc3 & Hf3 & Hr3).
  exists w3. split; [|split; [|split; [|done]]].
  - unfold TableEditCommander.deleteTopRow.
    rewrite (bind_Val _ _ _ _ _ Hmat).
    rewrite (bind_Val _ _ _ _ _ (getParams_Some (setCellMatrix m w) p Hp)).
    cbv zeta. rewrite Hrow. rewrite decide_False by (intros [=]; lia).
    replace (Js.toNumber (Some (Z.of_nat (S j))) - 1)%Z with (Z.of_nat j)
      by (unfold Js.toNumber; simpl; lia).
    rewrite at_nat, Hrowj.
    rewrite (bind_Val _ _ _ _ _
      (eq_refl : lift (defined (Some row_)) (setCellMatrix m w) = (_, Val row_))).
    rewrite (bind_Val _ _ _ _ _ Hloop).
    rewrite (bind_Val _ _ _ _ _
      (eq_refl : getBodies w2 = (w2, Val (bodies w2)))).
    rewrite Hcells, Hb2, (indexOf_NoDup _ _ _ (proj1 Hwf) Hrid).
    rewrite (bind_Val _ _ _ _ _
      (eq_refl : TableEditCommander.spliceBodies (Z.of_nat j) 1 [] w2
                 = (_, Val tt))).
    rewrite Hb2, splice_delete_nat. exact Hshift.
  - unfold rowDeleted. rewrite Hb3, Hr3, Hf3, Hc3. simpl.
    rewrite Hr2, Hf2, Hc2, foldl_alter_length.
    repeat (split; [done|]). intros rid' k Hrid' Hk.
    assert (rid' = rid) as -> by congruence.
    rewrite (rowOf_Some _ _ _ Hcs) in Hk. by apply foldl_alter_notin.
  - intros rid' k c Hrid' Hk Hck.
    assert (rid' = rid) as -> by congruence.
    rewrite (rowOf_Some _ _ _ Hcs) in Hk. rewrite Hc3. simpl.
    rewrite Hc2, foldl_alter_in, Hck by done. simpl.
    rewrite Forall_forall in Hpl. specialize (Hpl k Hk). unfold plain in Hpl.
    rewrite Hck in Hpl. destruct Hpl as [_ Hrs]. rewrite Hrs. done.
Qed.

(** [addRowToBottom] on a grid without spans. *)
Lemma addRowToBottom_plain w C j p :
  plainGrid w C → rowsWf w → params w = Some p →
  rowIndex (endPosition p) = Some (Z.of_nat j) → j < length (bodies w) →
  ∃ w', TableEditCommander.addRowToBottom w = (w', Val tt) ∧
        rowAdded (S j) C w w' ∧ params w' = Some p.
Proof.
  intros Hplain Hwf Hp Hrow Hj.
  destruct (cellMatrix_plain w C Hplain) as (m & Hmat & HlenM & Hm).
  destruct (lookup_lt_is_Some_2 m j) as [row_ Hrowj]; [lia|].
  destruct (Hm j row_ Hrowj) as (rid & cs & Hrid & Hcs & Hcells & Hlen & Hpos).
  destruct (plainGrid_row w C j rid Hplain Hrid) as (cs' & Hcs' & Hlen' & Hpl).
  assert (cs' = cs) as -> by congruence.
  unfold TableEditCommander.addRowToBottom.
  rewrite (bind_Val _ _ _ _ _ Hmat).
  rewrite (bind_Val _ _ _ _ _ (getParams_Some (setCellMatrix m w) p Hp)).
  cbv zeta. rewrite Hrow.
  rewrite (bind_Val _ _ _ _ _
    (eq_refl : TableEditCommander.newRow (setCellMatrix m w) = (_, Val _))).
  change (rowHeap (setCellMatrix m w)) with (rowHeap w).
  set (w2 := setRowHeap (rowHeap w ++ [[]]) (setCellMatrix m w)).
  unfold Js.atNum. rewrite at_nat, Hrowj.
  rewrite (bind_Val _ _ _ _ _
    (eq_refl : lift (defined (Some row_)) w2 = (w2, Val row_))).
  match goal with |- ∃ w', (forEach _ ?b ≫= _) _ = _ ∧ _ => set (body := b) end.
  destruct (fill_row w C body (cellsPosition row_) (setCellMatrix m w))
    as (w3 & Hloop & Hb3 & Hp3 & Hc3 & Hf3 & Hr3); try done.
  { intros x ws [c Hx]%list_elem_of_lookup_1 Hold.
    destruct (Hpos c x Hx) as (Hk & _ & Hor & _).
    rewrite Forall_forall in Hpl.
    pose proof (Hpl _ (list_elem_of_lookup_2 _ _ _ Hk)) as Hplain'.
    unfold plain in Hplain'.
    destruct (cellHeap w !! cell x) as [c0|] eqn:Hck; [|done].
    destruct Hplain' as [_ Hrs]. subst body. cbv beta.
    rewrite (bind_Val _ _ _ _ _ (getCell_Some ws _ c0 (Hold _ _ Hck))).
    by rewrite bool_decide_eq_false_2 by lia. }
  fold w2 in Hloop. rewrite (bind_Val _ _ _ _ _ Hloop).
  rewrite (bind_Val _ _ _ _ _
    (eq_refl : getBodies w3 = (w3, Val (bodies w3)))).
  rewrite Hcells, Hb3, (indexOf_NoDup _ _ _ (proj1 Hwf) Hrid).
  replace (Z.of_nat j + 1)%Z with (Z.of_nat (S j)) by lia.
  eexists. split; [reflexivity|]. unfold rowAdded. simpl.
  rewrite Hb3, splice_insert_nat, Hp3, Hc3, Hf3, Hr3. done.
Qed.

(** [deleteBottomRow] on a grid without spans. *)
Lemma deleteBottomRow_plain w C j p :
  plainGrid w C → rowsWf w → params w = Some p →
  rowIndex (endPosition p) = Some (Z.of_nat j) → S j < length (bodies w) →
  ∃ w', TableEditCommander.deleteBottomRow w = (w', Val tt) ∧
        rowDeleted (S j) w w' ∧ cellHeap w' = cellHeap w ∧
        params w' = Some p.
Proof.
  intros Hplain Hwf Hp Hrow Hj.
  destruct (cellMatrix_plain w C Hplain) as (m & Hmat & HlenM & Hm).
  destruct (lookup_lt_is_Some_2 m (S j)) as [row_ Hrowj]; [lia|].
  destruct (Hm (S j) row_ Hrowj)
    as (rid & cs & Hrid & Hcs & Hcells & Hlen & Hpos).
  destruct (plainGrid_row w C (S j) rid Hplain Hrid)
    as (cs' & Hcs' & Hlen' & Hpl).
  assert (cs' = cs) as -> by congruence.
  unfold TableEditCommander.deleteBottomRow.
  rewrite (bind_Val _ _ _ _ _ Hmat).
  rewrite (bind_Val _ _ _ _ _ (getParams_Some (setCellMatrix m w) p Hp)).
  cbv zeta. rewrite Hrow. rewrite decide_False by (intros [=]; lia).
  replace (Js.toNumber (Some (Z.of_nat j)) + 1)%Z with (Z.of_nat (S j))
    by (unfold Js.toNumber; simpl; lia).
  rewrite at_nat, Hrowj.
  rewrite (bind_Val _ _ _ _ _
    (eq_refl : lift (defined (Some row_)) (setCellMatrix m w) = (_, Val row_))).
  match goal with |- ∃ w', (forEach _ ?b ≫= _) _ = _ ∧ _ => set (body := b) end.
  destruct (forEach_inv body (imap pair (cellsPosition row_))
              (λ _ ws, ws = setCellMatrix m w) (setCellMatrix m w))
    as (w2 & Hloop & ->); [done| |].
  { intros i [i' x] ws Hi ->. rewrite list_lookup_imap in Hi.
    destruct (cellsPosition row_ !! i) as [x'|] eqn:Hx; [|done].
    injection Hi as <- <-.
    destruct (Hpos i x' Hx) as (Hk & _ & Hor & Hoc).
    rewrite Forall_forall in Hpl.
    pose proof (Hpl _ (list_elem_of_lookup_2 _ _ _ Hk)) as Hplain'.
    unfold plain in Hplain'.
    destruct (cellHeap w !! cell x') as [c0|] eqn:Hck; [|done].
    destruct Hplain' as [_ Hrs]. subst body. cbv beta iota.
    rewrite decide_True by done.
    rewrite bool_decide_eq_false_2 by lia. rewrite decide_True by done.
    rewrite (bind_Val _ _ _ _ _ (getCell_Some (setCellMatrix m w) _ c0 Hck)).
    rewrite bool_decide_eq_false_2 by lia. by eexists. }
  rewrite (bind_Val _ _ _ _ _ Hloop).
  rewrite (bind_Val _ _ _ _ _
    (eq_refl : getBodies (setCellMatrix m w)
               = (setCellMatrix m w, Val (bodies w)))).
  rewrite Hcells, (indexOf_NoDup _ _ _ (proj1 Hwf) Hrid).
  eexists. split; [reflexivity|]. unfold rowDeleted. simpl.
  rewrite splice_delete_nat. done.
Qed.
(** ** Rows of a grid without spans *)

Lemma elem_of_delete_NoDup {A} (l : list A) (j : nat) (x y : A) :
  NoDup l → l !! j = Some x → y ∈ delete j l → y ∈ l ∧ y ≠ x.
Proof.
  intros Hnd Hj Hy. rewrite delete_take_drop in Hy.
  rewrite <- (take_drop_middle l j x Hj) in Hnd |- *.
  apply NoDup_app in Hnd as (_ & Hdisj & Hnd').
  apply NoDup_cons in Hnd' as [Hx _].
  apply elem_of_app in Hy as [Hy|Hy].
  - split; [apply elem_of_app; by left|]. intros ->.
    apply (Hdisj x Hy). by left.
  - split; [apply elem_of_app; right; by right|]. by intros ->.
Qed.

(** The grid without the row is again a grid without spans. *)
Lemma rowDeleted_plain w w' C j :
  plainGrid w C → storeWf w → j < length (bodies w) → rowDeleted j w w' →
  plainGrid w' C ∧ storeWf w'.
Proof.
  intros Hplain [Hndb Hndc] Hj (Hb & Hr & Hf & Hlen & Hc).
  destruct (lookup_lt_is_Some_2 _ _ Hj) as [rid Hrid].
  assert (Hrows : rowOf w' = rowOf w).
  { unfold rowOf. by rewrite Hr. }
  split.
  - unfold plainGrid. rewrite Hb, Hr. apply Forall_forall. intros rid' Hrid'.
    destruct (elem_of_delete_NoDup _ _ _ _ Hndb Hrid Hrid') as [Hin Hne].
    apply list_elem_of_lookup in Hin as [r Hin].
    destruct (plainGrid_row w C r rid' Hplain Hin) as (cs & Hcs & Hl & Hpl).
    rewrite Hcs. split; [done|]. apply Forall_forall. intros k Hk.
    rewrite Forall_forall in Hpl. specialize (Hpl k Hk).
    unfold plain in *. rewrite (Hc rid k Hrid); [done|].
    intros Hk'. apply Hne.
    apply (NoDup_concat_fmap_once (rowOf w) (bodies w) rid' rid k); try done.
    + by eapply list_elem_of_lookup_2.
    + by eapply list_elem_of_lookup_2.
    + by rewrite (rowOf_Some _ _ _ Hcs).
  - assert (Hsub : delete j (bodies w) `sublist_of` bodies w)
      by apply sublist_delete.
    split.
    + rewrite Hb. exact (sublist_NoDup _ _ Hndb Hsub).
    + unfold rowsOf. rewrite Hb, Hrows.
      refine (sublist_NoDup _ _ Hndc _).
      apply sublist_concat. by apply fmap_sublist.
Qed.

(** On a grid of [C] columns without spans, holding each row and cell
    once, [addRowToTop] at the row [j] of the start of the edit range
    returns normally; a new row array of [C] new plain cells, each with a
    new fragment holding one [BrComponent], is put into [bodies] at index
    [j], and nothing else of the store changes; the grid is again one
    without spans, of [C] columns, so it is valid; and the row index of
    the start of the range goes up by one, as does the one of the end when
    it is of another cell. *)
Theorem addRowToTop_plain_grid (w : World) (C j : nat) (p : TableEditRange) :
  plainGrid w C → rowsWf w → params w = Some p →
  rowIndex (startPosition p) = Some (Z.of_nat j) → j < length (bodies w) →
  ∃ w', TableEditCommander.addRowToTop w = (w', Val tt) ∧
        rowAdded j C w w' ∧
        params w' = Some (shifted TableEditCommander.rowIndex_incr p) ∧
        plainGrid w' C ∧ rowsWf w' ∧
        valid_grid w' (flat (rowsOf w')).
Proof.
  intros Hplain Hwf Hp Hrow Hj.
  destruct (addRowToTop_plain w C j p Hplain Hwf Hp Hrow Hj)
    as (w' & Hrun & Hadded & Hp').
  destruct (rowAdded_plain w w' C j Hplain Hwf Hadded) as [Hplain' Hwf'].
  exists w'. repeat (split; [done|]). by eapply plainGrid_valid.
Qed.

Lemma addRowToTop_plain_grid_witness :
  ∃ w', TableEditCommander.addRowToTop
          (Ex.world Ex.cells_2x2 Ex.rows_2x2 [0; 1]
             (Some (SamePosition (Ex.at_ 3 1 1)))) = (w', Val tt) ∧
        bodies w' = [0; 2; 1].
Proof.
  destruct (addRowToTop_plain_grid
              (Ex.world Ex.cells_2x2 Ex.rows_2x2 [0; 1]
                 (Some (SamePosition (Ex.at_ 3 1 1))))
              2 1 (SamePosition (Ex.at_ 3 1 1)))
    as (w' & Hrun & (Hb & _) & _).
  - apply (bool_decide_unpack _). vm_compute. exact I.
  - apply (bool_decide_unpack _). vm_compute. exact I.
  - reflexivity.
  - reflexivity.
  - simpl. lia.
  - exists w'. split; [exact Hrun|exact Hb].
Defined.

(** On such a grid, [addRowToBottom] at the row [j] of the end of the
    edit range returns normally; the new row of [C] new plain cells is put
    into [bodies] at index [j + 1]; nothing else of the store changes and
    the edit range stays as it was; the grid is again one without spans,
    so it is valid. *)
Theorem addRowToBottom_plain_grid (w : World) (C j : nat) (p : TableEditRange) :
  plainGrid w C → rowsWf w → params w = Some p →
  rowIndex (endPosition p) = Some (Z.of_nat j) → j < length (bodies w) →
  ∃ w', TableEditCommander.addRowToBottom w = (w', Val tt) ∧
        rowAdded (S j) C w w' ∧ params w' = Some p ∧
        plainGrid w' C ∧ rowsWf w' ∧
        valid_grid w' (flat (rowsOf w')).
Proof.
  intros Hplain Hwf Hp Hrow Hj.
  destruct (addRowToBottom_plain w C j p Hplain Hwf Hp Hrow Hj)
    as (w' & Hrun & Hadded & Hp').
  destruct (rowAdded_plain w w' C (S j) Hplain Hwf Hadded) as [Hplain' Hwf'].
  exists w'. repeat (split; [done|]). by eapply plainGrid_valid.
Qed.

Lemma addRowToBottom_plain_grid_witness :
  ∃ w', TableEditCommander.addRowToBottom
          (Ex.world Ex.cells_2x2 Ex.rows_2x2 [0; 1]
             (Some (SamePosition (Ex.at_ 1 0 1)))) = (w', Val tt) ∧
        bodies w' = [0; 2; 1].
Proof.
  destruct (addRowToBottom_plain_grid
              (Ex.world Ex.cells_2x2 Ex.rows_2x2 [0; 1]
                 (Some (SamePosition (Ex.at_ 1 0 1))))
              2 0 (SamePosition (Ex.at_ 1 0 1)))
    as (w' & Hrun & (Hb & _) & _).
  - apply (bool_decide_unpack _). vm_compute. exact I.
  - apply (bool_decide_unpack _). vm_compute. exact I.
  - reflexivity.
  - reflexivity.
  - simpl. lia.
  - exists w'. split; [exact Hrun|exact Hb].
Defined.

(** On a grid of [C] columns without spans, holding each row once and
    each cell once in all, [deleteTopRow] with the start of the edit range
    in row [j + 1] returns normally; row [j], the one above, leaves
    [bodies]; every cell of that row is left with a row span of 0, no
    other cell changes, and no row array or fragment does; the grid is
    again one without spans, so it is valid; and the row index of the
    start of the range goes down by one, as does the one of the end when
    it is of another cell. *)
Theorem deleteTopRow_plain_grid (w : World) (C j : nat) (p : TableEditRange) :
  plainGrid w C → storeWf w → params w = Some p →
  rowIndex (startPosition p) = Some (Z.of_nat (S j)) → j < length (bodies w) →
  ∃ w', TableEditCommander.deleteTopRow w = (w', Val tt) ∧
        rowDeleted j w w' ∧
        (∀ rid k c, bodies w !! j = Some rid → k ∈ rowOf w rid →
           cellHeap w !! k = Some c →
           cellHeap w' !! k = Some (setRowspan 0 c)) ∧
        params w' = Some (shifted TableEditCommander.rowIndex_decr p) ∧
        plainGrid w' C ∧ storeWf w' ∧
        valid_grid w' (flat (rowsOf w')).
Proof.
  intros Hplain Hwf Hp Hrow Hj.
  destruct (deleteTopRow_plain w C j p Hplain (storeWf_rowsWf w Hwf) Hp Hrow Hj)
    as (w' & Hrun & Hdel & Hcells & Hp').
  destruct (rowDeleted_plain w w' C j Hplain Hwf Hj Hdel) as [Hplain' Hwf'].
  exists w'. repeat (split; [done|]). by eapply plainGrid_valid.
Qed.

Lemma deleteTopRow_plain_grid_witness :
  ∃ w', TableEditCommander.deleteTopRow
          (Ex.world Ex.cells_2x2 Ex.rows_2x2 [0; 1]
             (Some (SamePosition (Ex.at_ 3 1 1)))) = (w', Val tt) ∧
        bodies w' = [1].
Proof.
  destruct (deleteTopRow_plain_grid
              (Ex.world Ex.cells_2x2 Ex.rows_2x2 [0; 1]
                 (Some (SamePosition (Ex.at_ 3 1 1))))
              2 0 (SamePosition (Ex.at_ 3 1 1)))
    as (w' & Hrun & (Hb & _) & _).
  - apply (bool_decide_unpack _). vm_compute. exact I.
  - apply (bool_decide_unpack _). vm_compute. exact I.
  - reflexivity.
  - reflexivity.
  - simpl. lia.
  - exists w'. split; [exact Hrun|exact Hb].
Defined.

(** On such a grid, [deleteBottomRow] with the end of the edit range in
    row [j], not the last one, returns normally; row [j + 1], the one
    below, leaves [bodies]; no cell, row array or fragment changes, nor
    does the edit range; the grid is again one without spans, so it is
    valid. *)
Theorem deleteBottomRow_plain_grid (w : World) (C j : nat) (p : TableEditRange) :
  plainGrid w C → storeWf w → params w = Some p →
  rowIndex (endPosition p) = Some (Z.of_nat j) → S j < length (bodies w) →
  ∃ w', TableEditCommander.deleteBottomRow w = (w', Val tt) ∧
        rowDeleted (S j) w w' ∧ cellHeap w' = cellHeap w ∧
        params w' = Some p ∧
        plainGrid w' C ∧ storeWf w' ∧
        valid_grid w' (flat (rowsOf w')).
Proof.
  intros Hplain Hwf Hp Hrow Hj.
  destruct (deleteBottomRow_plain w C j p Hplain (storeWf_rowsWf w Hwf) Hp
              Hrow Hj) as (w' & Hrun & Hdel & Hcells & Hp').
  destruct (rowDeleted_plain w w' C (S j) Hplain Hwf Hj Hdel)
    as [Hplain' Hwf'].
  exists w'. repeat (split; [done|]). by eapply plainGrid_valid.
Qed.

Lemma deleteBottomRow_plain_grid_witness :
  ∃ w', TableEditCommander.deleteBottomRow
          (Ex.world Ex.cells_2x2 Ex.rows_2x2 [0; 1]
             (Some (SamePosition (Ex.at_ 1 0 1)))) = (w', Val tt) ∧
        bodies w' = [0].
Proof.
  destruct (deleteBottomRow_plain_grid
              (Ex.world Ex.cells_2x2 Ex.rows_2x2 [0; 1]
                 (Some (SamePosition (Ex.at_ 1 0 1))))
              2 0 (SamePosition (Ex.at_ 1 0 1)))
    as (w' & Hrun & (Hb & _) & _).
  - apply (bool_decide_unpack _). vm_compute. exact I.
  - apply (bool_decide_unpack _). vm_compute. exact I.
  - reflexivity.
  - reflexivity.
  - simpl. lia.
  - exists w'. split; [exact Hrun|exact Hb].
Defined.

(** On a grid without spans holding each row once and each cell once in
    a row, [deleteTopRow] after [addRowToTop], with the edit range as the
    insertion left it, gives the grid back: both return normally,
    [bodies] and every row array of the grid hold what they held, every
    cell has the spans and the fragment it had, and the start of the
    range is at its row again. The cells of the deleted row stay in the
    heap, outside the grid. *)
Theorem add_delete_top_row (w : World) (C j : nat) (p : TableEditRange) :
  plainGrid w C → rowsWf w → params w = Some p →
  rowIndex (startPosition p) = Some (Z.of_nat j) → j < length (bodies w) →
  ∃ w' p',
    (TableEditCommander.addRowToTop;;
     TableEditCommander.deleteTopRow) w = (w', Val tt) ∧
    gridRestored w w' ∧
    params w' = Some p' ∧
    rowIndex (startPosition p') = Some (Z.of_nat j).
Proof.
  intros Hplain Hwf Hp Hrow Hj.
  destruct (addRowToTop_plain w C j p Hplain Hwf Hp Hrow Hj)
    as (w1 & Hadd & Hadded & Hp1).
  destruct (rowAdded_plain w w1 C j Hplain Hwf Hadded) as [Hplain1 Hwf1].
  pose proof Hadded as (Hb1 & Hr1 & Hc1 & Hf1).
  destruct (deleteTopRow_plain w1 C j _ Hplain1 Hwf1 Hp1)
    as (w2 & Hdel & Hdeleted & _ & Hp2).
  { rewrite startPosition_shifted. simpl. rewrite Hrow.
    unfold TableEditCommander.incr. simpl. f_equal. lia. }
  { rewrite Hb1, insertAt_length. lia. }
  exists w2, (shifted TableEditCommander.rowIndex_decr
                (shifted TableEditCommander.rowIndex_incr p)).
  split; [by rewrite (bind_Val _ _ _ _ _ Hadd)|].
  destruct Hdeleted as (Hb2 & Hr2 & Hf2 & Hlen2 & Hc2).
  split; [|split; [done|]].
  - split; [|split; [|split]].
    + rewrite Hb2, Hb1. apply delete_insertAt. lia.
    + intros rid [r Hr]%list_elem_of_lookup.
      destruct (plainGrid_row w C r rid Hplain Hr) as (cs & Hcs & _).
      rewrite Hr2, Hr1, Hcs. by apply lookup_app_l_Some.
    + intros k c Hk.
      rewrite (Hc2 (length (rowHeap w)) k).
      * rewrite Hc1. by apply lookup_app_l_Some.
      * rewrite Hb1. apply insertAt_lookup. lia.
      * unfold rowOf. rewrite Hr1, lookup_app_r by lia.
        rewrite Nat.sub_diag. simpl. rewrite elem_of_seq.
        apply lookup_lt_Some in Hk. lia.
    + rewrite Hf2, Hf1. by apply prefix_app_r.
  - rewrite !startPosition_shifted. simpl. rewrite Hrow.
    unfold TableEditCommander.decr, TableEditCommander.incr. simpl.
    f_equal. lia.
Qed.

Lemma add_delete_top_row_witness :
  ∃ w' p',
    (TableEditCommander.addRowToTop;;
     TableEditCommander.deleteTopRow)
      (Ex.world Ex.cells_2x2 Ex.rows_2x2 [0; 1]
         (Some (SamePosition (Ex.at_ 3 1 1)))) = (w', Val tt) ∧
    bodies w' = [0; 1] ∧ params w' = Some p'.
Proof.
  destruct (add_delete_top_row
              (Ex.world Ex.cells_2x2 Ex.rows_2x2 [0; 1]
                 (Some (SamePosition (Ex.at_ 3 1 1))))
              2 1 (SamePosition (Ex.at_ 3 1 1)))
    as (w' & p' & Hrun & (Hb & _) & Hp & _).
  - apply (bool_decide_unpack _). vm_compute. exact I.
  - apply (bool_decide_unpack _). vm_compute. exact I.
  - reflexivity.
  - reflexivity.
  - simpl. lia.
  - exists w', p'. split; [exact Hrun|]. split; [exact Hb|exact Hp].
Defined.

(** On such a grid, [deleteBottomRow] after [addRowToBottom], with the
    same edit range, gives the grid back: both return normally, [bodies]
    and every row array of the grid hold what they held, every cell has
    the spans and the fragment it had, and the edit range is as it
    was. *)
Theorem add_delete_bottom_row (w : World) (C j : nat) (p : TableEditRange) :
  plainGrid w C → rowsWf w → params w = Some p →
  rowIndex (endPosition p) = Some (Z.of_nat j) → j < length (bodies w) →
  ∃ w',
    (TableEditCommander.addRowToBottom;;
     TableEditCommander.deleteBottomRow) w = (w', Val tt) ∧
    gridRestored w w' ∧ params w' = Some p.
Proof.
  intros Hplain Hwf Hp Hrow Hj.
  destruct (addRowToBottom_plain w C j p Hplain Hwf Hp Hrow Hj)
    as (w1 & Hadd & Hadded & Hp1).
  destruct (rowAdded_plain w w1 C (S j) Hplain Hwf Hadded) as [Hplain1 Hwf1].
  pose proof Hadded as (Hb1 & Hr1 & Hc1 & Hf1).
  destruct (deleteBottomRow_plain w1 C j p Hplain1 Hwf1 Hp1 Hrow)
    as (w2 & Hdel & Hdeleted & Hc2 & Hp2).
  { rewrite Hb1, insertAt_length. lia. }
  exists w2. split; [by rewrite (bind_Val _ _ _ _ _ Hadd)|].
  destruct Hdeleted as (Hb2 & Hr2 & Hf2 & _).
  split; [|done]. split; [|split; [|split]].
  - rewrite Hb2, Hb1. apply delete_insertAt. lia.
  - intros rid [r Hr]%list_elem_of_lookup.
    destruct (plainGrid_row w C r rid Hplain Hr) as (cs & Hcs & _).
    rewrite Hr2, Hr1, Hcs. by apply lookup_app_l_Some.
  - intros k c Hk. rewrite Hc2, Hc1. by apply lookup_app_l_Some.
  - rewrite Hf2, Hf1. by apply prefix_app_r.
Qed.

Lemma add_delete_bottom_row_witness :
  ∃ w',
    (TableEditCommander.addRowToBottom;;
     TableEditCommander.deleteBottomRow)
      (Ex.world Ex.cells_2x2 Ex.rows_2x2 [0; 1]
         (Some (SamePosition (Ex.at_ 1 0 1)))) = (w', Val tt) ∧
    bodies w' = [0; 1].
Proof.
  destruct (add_delete_bottom_row
              (Ex.world Ex.cells_2x2 Ex.rows_2x2 [0; 1]
                 (Some (SamePosition (Ex.at_ 1 0 1))))
              2 0 (SamePosition (Ex.at_ 1 0 1)))
    as (w' & Hrun & (Hb & _) & _).
  - apply (bool_decide_unpack _). vm_compute. exact I.
  - apply (bool_decide_unpack _). vm_compute. exact I.
  - reflexivity.
  - reflexivity.
  - simpl. lia.
  - exists w'. split; [exact Hrun|exact Hb].
Defined.
(** ** Deleting a column of a grid without spans *)

(** The grid without the column is again a grid without spans. *)
Lemma columnDeleted_plain w w' C i :
  plainGrid w C → rowsWf w → i < C → columnDeleted i w w' →
  plainGrid w' (C - 1) ∧ rowsWf w'.
Proof.
  intros Hplain [Hndb Hndr] Hi (Hb & Hc & Hf & Hrows).
  assert (Hrow : ∀ rid, rid ∈ bodies w →
            ∃ cs, rowHeap w !! rid = Some cs ∧ length cs = C ∧
                  Forall (plain (cellHeap w)) cs ∧ NoDup cs ∧
                  rowHeap w' !! rid = Some (delete i cs)).
  { intros rid Hin. pose proof Hin as [r Hr]%list_elem_of_lookup.
    destruct (plainGrid_row w C r rid Hplain Hr) as (cs & Hcs & Hlen & Hpl).
    exists cs. split; [done|]. split; [done|]. split; [done|]. split.
    - rewrite Forall_forall in Hndr. specialize (Hndr rid Hin).
      by rewrite (rowOf_Some _ _ _ Hcs) in Hndr.
    - rewrite (rowsUpd_done _ _ _ _ _ _ Hr Hrows). by rewrite Hcs. }
  split.
  - unfold plainGrid. rewrite Hb, Hc. apply Forall_forall. intros rid Hrid.
    destruct (Hrow rid Hrid) as (cs & Hcs & Hlen & Hpl & _ & ->). split.
    + rewrite length_delete; [lia|]. apply lookup_lt_is_Some_2. lia.
    + apply Forall_forall. intros k Hk. rewrite Forall_forall in Hpl.
      apply Hpl. eapply elem_of_sublist; [exact Hk|]. apply sublist_delete.
  - split; [by rewrite Hb|]. rewrite Hb. apply Forall_forall. intros rid Hrid.
    destruct (Hrow rid Hrid) as (cs & Hcs & Hlen & Hpl & Hnd & Hrow').
    rewrite (rowOf_Some _ _ _ Hrow').
    exact (sublist_NoDup _ _ Hnd (sublist_delete _ _)).
Qed.

(** On a grid of [C] columns without spans, holding each row and cell
    once, [deleteLeftColumn] with the start of the edit range in column
    [j + 1] returns normally; every row loses its cell at index [j], the
    one to the left, and nothing else of the store changes; the grid is
    again one without spans, of [C - 1] columns, so it is valid; and the
    column index of the start of the range goes down by one, as does the
    one of the end when it is of another cell. *)
Theorem deleteLeftColumn_plain_grid (w : World) (C j : nat) (p : TableEditRange) :
  plainGrid w C → rowsWf w → params w = Some p →
  columnIndex (startPosition p) = Some (Z.of_nat (S j)) → j < C →
  ∃ w', TableEditCommander.deleteLeftColumn w = (w', Val tt) ∧
        columnDeleted j w w' ∧
        params w' = Some (shifted TableEditCommander.columnIndex_decr p) ∧
        plainGrid w' (C - 1) ∧ rowsWf w' ∧
        valid_grid w' (flat (rowsOf w')).
Proof.
  intros Hplain Hwf Hp Hcol Hj.
  destruct (deleteLeftColumn_plain w C j p Hplain Hwf Hp Hcol Hj)
    as (w' & Hrun & Hdel & Hp').
  destruct (columnDeleted_plain w w' C j Hplain Hwf Hj Hdel)
    as [Hplain' Hwf'].
  exists w'. repeat (split; [done|]). by eapply plainGrid_valid.
Qed.

Lemma deleteLeftColumn_plain_grid_witness :
  ∃ w', TableEditCommander.deleteLeftColumn
          (Ex.world Ex.cells_2x2 Ex.rows_2x2 [0; 1]
             (Some (SamePosition (Ex.at_ 1 0 1)))) = (w', Val tt) ∧
        plainGrid w' 1.
Proof.
  destruct (deleteLeftColumn_plain_grid
              (Ex.world Ex.cells_2x2 Ex.rows_2x2 [0; 1]
                 (Some (SamePosition (Ex.at_ 1 0 1))))
              2 0 (SamePosition (Ex.at_ 1 0 1)))
    as (w' & Hrun & _ & _ & Hplain & _).
  - apply (bool_decide_unpack _). vm_compute. exact I.
  - apply (bool_decide_unpack _). vm_compute. exact I.
  - reflexivity.
  - reflexivity.
  - lia.
  - exists w'. split; [exact Hrun|exact Hplain].
Defined.

(** On such a grid with at least one row, [deleteRightColumn] with the
    end of the edit range in column [i], not the last one, returns
    normally; every row loses its cell at index [i + 1], the one to the
    right; nothing else of the store changes, nor does the edit range; the
    grid is again one without spans, of [C - 1] columns, so it is
    valid. *)
Theorem deleteRightColumn_plain_grid (w : World) (C i : nat) (p : TableEditRange) :
  plainGrid w C → rowsWf w → params w = Some p → bodies w ≠ [] →
  columnIndex (endPosition p) = Some (Z.of_nat i) → S i < C →
  ∃ w', TableEditCommander.deleteRightColumn w = (w', Val tt) ∧
        columnDeleted (S i) w w' ∧ params w' = Some p ∧
        plainGrid w' (C - 1) ∧ rowsWf w' ∧
        valid_grid w' (flat (rowsOf w')).
Proof.
  intros Hplain Hwf Hp Hne Hcol Hi.
  destruct (deleteRightColumn_plain w C i p Hplain Hwf Hp Hne Hcol Hi)
    as (w' & Hrun & Hdel & Hp').
  destruct (columnDeleted_plain w w' C (S i) Hplain Hwf Hi Hdel)
    as [Hplain' Hwf'].
  exists w'. repeat (split; [done|]). by eapply plainGrid_valid.
Qed.

Lemma deleteRightColumn_plain_grid_witness :
  ∃ w', TableEditCommander.deleteRightColumn
          (Ex.world Ex.cells_2x2 Ex.rows_2x2 [0; 1]
             (Some (SamePosition (Ex.at_ 0 0 0)))) = (w', Val tt) ∧
        plainGrid w' 1.
Proof.
  destruct (deleteRightColumn_plain_grid
              (Ex.world Ex.cells_2x2 Ex.rows_2x2 [0; 1]
                 (Some (SamePosition (Ex.at_ 0 0 0))))
              2 0 (SamePosition (Ex.at_ 0 0 0)))
    as (w' & Hrun & _ & _ & Hplain & _).
  - apply (bool_decide_unpack _). vm_compute. exact I.
  - apply (bool_decide_unpack _). vm_compute. exact I.
  - reflexivity.
  - discriminate.
  - reflexivity.
  - lia.
  - exists w'. split; [exact Hrun|exact Hplain].
Defined.
(** ** Operations that change nothing, and operations that throw *)

Lemma throws_intro (op : M unit) (w w1 : World) :
  op w = (w1, Exn) → sameStore w w1 → params w1 = params w → throws op w.
Proof. intros Hop ??. unfold throws. by rewrite Hop. Qed.

Lemma bind_Exn {A B} (m : M A) (f : A → M B) (w w1 : World) :
  m w = (w1, Exn) → (m ≫= f) w = (w1, Exn).
Proof. intros H. by rewrite M_bind_unfold, H. Qed.

Lemma forEach_skip {A} (body : A → M unit) (l : list A) (w : World) :
  (∀ x, x ∈ l → body x w = (w, Val tt)) → forEach l body w = (w, Val tt).
Proof.
  induction l as [|x l IH]; intros Hbody; [done|]. simpl.
  rewrite (bind_Val _ _ _ _ _ (Hbody x (list_elem_of_here _ _))).
  apply IH. intros y Hy. apply Hbody. by right.
Qed.

Lemma forEach_throws {A} (body : A → M unit) (l : list A) (w : World) :
  l ≠ [] → (∀ x, x ∈ l → body x w = (w, Exn)) → forEach l body w = (w, Exn).
Proof.
  destruct l as [|x l]; [done|]. intros _ Hbody. simpl.
  apply bind_Exn, Hbody. by left.
Qed.

Lemma at_outside {A} (l : list A) (z : Z) :
  (z < 0 ∨ Z.of_nat (length l) ≤ z)%Z → Js.at_ l z = None.
Proof.
  intros Hz. unfold Js.at_. destruct (Z.ltb_spec z 0); [done|].
  apply lookup_ge_None. lia.
Qed.

(** On a valid grid, [splitCells] over a range in which every square is
    the top-left square of its cell returns normally and leaves the grid
    store and the edit range as they were: it never touches a cell whose
    other squares lie outside the range. *)
Theorem splitCells_without_spans (w : World) (T : list (list slot)) (q : Rect) :
  valid_grid w T → rangeIs w q →
  (∀ r c e, inside q r c → slotAt T r c = Some e → anchor e) →
  silent TableEditCommander.splitCells w.
Proof.
  intros HT (p & Hp & Ht & Hl & Hb & Hr) Hq.
  destruct (cellMatrix_valid _ _ HT) as (m & Hm & Hshows & _).
  set (w1 := setCellMatrix m _) in Hm.
  assert (Hp1 : params w1 = Some p) by done.
  apply silent_intro with w1; [|apply sameStore_cellMatrix|done].
  unfold TableEditCommander.splitCells.
  rewrite (bind_Val _ _ _ _ _ Hm), (bind_Val _ _ _ _ _ (getParams_Some _ _ Hp1)).
  cbv zeta. rewrite Ht, Hl, Hb, Hr. unfold Js.toNumber. simpl.
  apply forEach_skip. intros x Hx.
  destruct (rectangle_entry m q x Hx) as (r & c & Hin & He).
  pose proof (Hq r c _ Hin (shows_entry Hshows _ _ _ He)) as [Hor Hoc].
  unfold TableEditCommander.splitCell.
  rewrite bool_decide_eq_false_2; [done|].
  unfold core, slotRow, slotColumn in Hor, Hoc. simpl in Hor, Hoc. tauto.
Qed.

Lemma splitCells_without_spans_witness :
  silent TableEditCommander.splitCells
    (Ex.world Ex.cells_3x3 Ex.rows_3x3 [0; 1; 2]
       (Some (TwoPositions (Ex.at_ 2 1 1) (Ex.at_ 3 1 2)))).
Proof.
  apply (splitCells_without_spans _ Ex.tiling_3x3 (mkRectN 1 1 1 2)).
  - reflexivity.
  - eexists. split; [reflexivity|]. by repeat split.
  - intros r c e (H1 & H2 & H3 & H4) He. simpl in H1, H2, H3, H4.
    assert (r = 1) as -> by lia.
    assert (c = 1 ∨ c = 2) as [-> | ->] by lia;
      injection He as <-; by split.
Defined.

(** On a valid grid, [mergeCells] over a range that holds the top-left
    square of no cell (an inverted range, one outside the grid, or one
    within the span of a cell that begins elsewhere) throws, and the grid
    store and the edit range are as they were. *)
Theorem mergeCells_without_anchor_throws (w : World) (T : list (list slot))
    (q : Rect) :
  valid_grid w T → rangeIs w q → anchorsIn T q = [] →
  throws TableEditCommander.mergeCells w.
Proof.
  intros HT (p & Hp & Ht & Hl & Hb & Hr) Hq.
  destruct (cellMatrix_valid _ _ HT) as (m & Hm & Hshows & _).
  set (w1 := setCellMatrix m _) in Hm.
  assert (Hp1 : params w1 = Some p) by done.
  apply throws_intro with w1; [|apply sameStore_cellMatrix|done].
  unfold TableEditCommander.mergeCells.
  rewrite (bind_Val _ _ _ _ _ Hm), (bind_Val _ _ _ _ _ (getParams_Some _ _ Hp1)).
  cbv zeta. rewrite Ht, Hl, Hb, Hr. unfold Js.toNumber. simpl.
  pose proof (rectangle_anchors m T q Hshows) as Ha. rewrite Hq in Ha.
  apply fmap_nil_inv in Ha.
  destruct (_ <$> TableEditCommander.rectangle m _ _ _ _) as [|part parts];
    [done|].
  change (part ++ concat parts) with (concat (part :: parts)).
  by rewrite Ha.
Qed.

Lemma mergeCells_without_anchor_throws_witness :
  throws TableEditCommander.mergeCells
    (Ex.world Ex.cells_2x3 Ex.rows_2x3 [0; 1]
       (Some (TwoPositions (Ex.at_ 0 1 0) (Ex.at_ 0 1 1)))).
Proof.
  apply (mergeCells_without_anchor_throws _ Ex.tiling_2x3 (mkRectN 1 0 1 1)).
  - reflexivity.
  - eexists. split; [reflexivity|]. by repeat split.
  - reflexivity.
Defined.

Lemma getParams_None w : params w = None → getParams w = (w, Exn).
Proof.
  intros Hp. unfold getParams. rewrite M_bind_unfold. simpl.
  unfold lift. by rewrite Hp.
Qed.

(** On a valid grid whose commander has no edit range yet, [command]
    throws for every action type; the grid store is as it was and the
    component is not marked as dirtied. *)
Theorem command_without_range_throws (w : World) (T : list (list slot))
    (context : unit) (actionType : TableEditActions) :
  valid_grid w T → params w = None →
  throws (TableEditCommander.command (Some context) actionType) w ∧
  dirtied (TableEditCommander.command (Some context) actionType w).1
    = dirtied w.
Proof.
  intros HT Hp.
  assert (HT0 : valid_grid (setRecordHistory true w) T) by done.
  destruct (cellMatrix_valid _ _ HT0) as (m & Hm & _).
  set (w1 := setCellMatrix m _) in Hm.
  assert (Hp1 : params w1 = None) by done.
  assert (Hrun : TableEditCommander.command (Some context) actionType w
                 = (w1, Exn)).
  { unfold TableEditCommander.command.
    rewrite (bind_Val _ _ _ _ _
      (eq_refl : modify (setRecordHistory true) w = (_, Val tt))).
    apply bind_Exn.
    destruct actionType;
      [unfold TableEditCommander.addColumnToLeft
      |unfold TableEditCommander.addColumnToRight
      |unfold TableEditCommander.addRowToTop
      |unfold TableEditCommander.addRowToBottom
      |unfold TableEditCommander.mergeCells
      |unfold TableEditCommander.splitCells
      |unfold TableEditCommander.deleteTopRow
      |unfold TableEditCommander.deleteBottomRow
      |unfold TableEditCommander.deleteLeftColumn
      |unfold TableEditCommander.deleteRightColumn];
      rewrite (bind_Val _ _ _ _ _ Hm);
      apply bind_Exn, getParams_None, Hp1. }
  split.
  - apply throws_intro with w1; [done| |by rewrite Hp].
    repeat split; simpl. by apply prefix_app_r.
  - by rewrite Hrun.
Qed.

Lemma command_without_range_throws_witness :
  throws (TableEditCommander.command (Some tt) MergeCells)
    (Ex.world Ex.cells_2x3 Ex.rows_2x3 [0; 1] None).
Proof.
  apply (command_without_range_throws _ Ex.tiling_2x3 tt MergeCells);
    reflexivity.
Defined.

Lemma column_outside (w : World) (T : list (list slot))
    (m : list TableRowPosition) (z : Z) (row_ : TableRowPosition) :
  valid_grid w T → shows m T →
  row_ ∈ m → (z < 0 ∨ Z.of_nat (width T) ≤ z)%Z →
  Js.at_ (cellsPosition row_) z = None.
Proof.
  intros HT Hshows [r Hr]%list_elem_of_lookup Hz. apply at_outside.
  by rewrite (shows_row_length (proj1 (layout_ok_layout _ _ _ _) HT)
                Hshows _ _ Hr).
Qed.

Lemma row_outside (T : list (list slot)) (m : list TableRowPosition) (z : Z) :
  shows m T → (z < 0 ∨ Z.of_nat (length T) ≤ z)%Z → Js.at_ m z = None.
Proof.
  intros Hshows Hz. apply at_outside. destruct Hshows as [-> _]. done.
Qed.

Lemma grid_rows_nonempty (T : list (list slot)) (m : list TableRowPosition) :
  shows m T → T ≠ [] → m ≠ [].
Proof.
  intros Hshows HTne ->. destruct Hshows as [Hlen _]. by destruct T.
Qed.

(** On a valid grid of at least one row, each of the four column
    operations throws when the column it is to work on lies outside the
    grid, and the grid store and the edit range are as they were:
    [addColumnToLeft] and [addColumnToRight] with a column index that is
    negative or not below the width, [deleteLeftColumn] with one that is
    negative or above the width, [deleteRightColumn] with one that is
    below -1 or not below the width. *)
Theorem column_outside_throws (w : World) (T : list (list slot))
    (p : TableEditRange) :
  valid_grid w T → T ≠ [] → params w = Some p →
  (∀ z, columnIndex (startPosition p) = Some z →
     (z < 0 ∨ Z.of_nat (width T) ≤ z)%Z →
     throws TableEditCommander.addColumnToLeft w) ∧
  (∀ z, columnIndex (endPosition p) = Some z →
     (z < 0 ∨ Z.of_nat (width T) ≤ z)%Z →
     throws TableEditCommander.addColumnToRight w) ∧
  (∀ z, columnIndex (startPosition p) = Some z →
     (z < 0 ∨ Z.of_nat (width T) < z)%Z →
     throws TableEditCommander.deleteLeftColumn w) ∧
  (∀ z, columnIndex (endPosition p) = Some z →
     (z < -1 ∨ Z.of_nat (width T) ≤ z)%Z →
     throws TableEditCommander.deleteRightColumn w).
Proof.
  intros HT HTne Hp.
  destruct (cellMatrix_valid _ _ HT) as (m & Hm & Hshows & _).
  set (w1 := setCellMatrix m _) in Hm.
  assert (Hp1 : params w1 = Some p) by done.
  assert (Hsame : sameStore w w1) by apply sameStore_cellMatrix.
  pose proof (grid_rows_nonempty T m Hshows HTne) as Hne.
  split; [|split; [|split]].
  - intros z Hz Hout. apply throws_intro with w1; [|done..].
    unfold TableEditCommander.addColumnToLeft.
    rewrite (bind_Val _ _ _ _ _ Hm), (bind_Val _ _ _ _ _ (getParams_Some _ _ Hp1)).
    cbv zeta. rewrite Hz. apply bind_Exn, forEach_throws; [done|].
    intros row_ Hrow. unfold Js.atNum.
    by rewrite (column_outside w T m z row_ HT Hshows Hrow Hout).
  - intros z Hz Hout. apply throws_intro with w1; [|done..].
    unfold TableEditCommander.addColumnToRight.
    rewrite (bind_Val _ _ _ _ _ Hm), (bind_Val _ _ _ _ _ (getParams_Some _ _ Hp1)).
    cbv zeta. rewrite Hz. apply forEach_throws; [done|].
    intros row_ Hrow. unfold Js.atNum.
    by rewrite (column_outside w T m z row_ HT Hshows Hrow Hout).
  - intros z Hz Hout. apply throws_intro with w1; [|done..].
    unfold TableEditCommander.deleteLeftColumn.
    rewrite (bind_Val _ _ _ _ _ Hm), (bind_Val _ _ _ _ _ (getParams_Some _ _ Hp1)).
    cbv zeta. rewrite Hz. rewrite decide_False by (intros [=]; lia).
    apply bind_Exn, forEach_throws; [done|].
    intros row_ Hrow.
    rewrite (column_outside w T m _ row_ HT Hshows Hrow); [done|].
    unfold Js.toNumber. simpl. lia.
  - intros z Hz Hout. apply throws_intro with w1; [|done..].
    unfold TableEditCommander.deleteRightColumn.
    rewrite (bind_Val _ _ _ _ _ Hm), (bind_Val _ _ _ _ _ (getParams_Some _ _ Hp1)).
    cbv zeta. rewrite Hz.
    destruct m as [|r0 m']; [done|].
    rewrite (bind_Val _ _ _ _ _
      (eq_refl : lift (defined (Js.at_ (r0 :: m') 0)) w1 = (w1, Val r0))).
    pose proof (shows_row_length (proj1 (layout_ok_layout _ _ _ _) HT)
                  Hshows 0 r0 eq_refl) as Hw.
    rewrite decide_False by (intros [=]; lia).
    apply forEach_throws; [done|].
    intros row_ Hrow.
    rewrite (column_outside w T _ _ row_ HT Hshows Hrow); [done|].
    unfold Js.toNumber. simpl. lia.
Qed.

Lemma column_outside_throws_witness :
  throws TableEditCommander.addColumnToLeft
    (Ex.world Ex.cells_2x3 Ex.rows_2x3 [0; 1]
       (Some (SamePosition (Ex.at_ 0 0 3)))).
Proof.
  refine (proj1 (column_outside_throws
            (Ex.world Ex.cells_2x3 Ex.rows_2x3 [0; 1]
               (Some (SamePosition (Ex.at_ 0 0 3))))
            Ex.tiling_2x3 (SamePosition (Ex.at_ 0 0 3))
            eq_refl _ eq_refl) 3%Z eq_refl _).
  - discriminate.
  - right. vm_compute. discriminate.
Defined.

(** On a valid grid, each of the four row operations throws when the row
    it is to work on lies outside the grid, and the rows, cells and
    fragments of the grid and the edit range are as they were:
    [addRowToTop] and [addRowToBottom] with a row index that is negative
    or not below the number of rows, [deleteTopRow] with one that is
    negative or above the number of rows, [deleteBottomRow] with one that
    is below -1 or not below the number of rows. *)
Theorem row_outside_throws (w : World) (T : list (list slot))
    (p : TableEditRange) :
  valid_grid w T → params w = Some p →
  (∀ z, rowIndex (startPosition p) = Some z →
     (z < 0 ∨ Z.of_nat (length T) ≤ z)%Z →
     throws TableEditCommander.addRowToTop w) ∧
  (∀ z, rowIndex (endPosition p) = Some z →
     (z < 0 ∨ Z.of_nat (length T) ≤ z)%Z →
     throws TableEditCommander.addRowToBottom w) ∧
  (∀ z, rowIndex (startPosition p) = Some z →
     (z < 0 ∨ Z.of_nat (length T) < z)%Z →
     throws TableEditCommander.deleteTopRow w) ∧
  (∀ z, rowIndex (endPosition p) = Some z →
     (z < -1 ∨ Z.of_nat (length T) ≤ z)%Z →
     throws TableEditCommander.deleteBottomRow w).
Proof.
  intros HT Hp.
  destruct (cellMatrix_valid _ _ HT) as (m & Hm & Hshows & _).
  set (w1 := setCellMatrix m _) in Hm.
  assert (Hp1 : params w1 = Some p) by done.
  assert (Hsame : sameStore w w1) by apply sameStore_cellMatrix.
  assert (Hsame2 : sameStore w (setRowHeap (rowHeap w1 ++ [[]]) w1)).
  { repeat split; simpl. rewrite <- app_assoc. by apply prefix_app_r. }
  split; [|split; [|split]].
  - intros z Hz Hout.
    apply throws_intro with (setRowHeap (rowHeap w1 ++ [[]]) w1); [|done..].
    unfold TableEditCommander.addRowToTop.
    rewrite (bind_Val _ _ _ _ _ Hm), (bind_Val _ _ _ _ _ (getParams_Some _ _ Hp1)).
    cbv zeta. rewrite Hz.
    rewrite (bind_Val _ _ _ _ _
      (eq_refl : TableEditCommander.newRow w1 = (_, Val _))).
    apply bind_Exn. unfold Js.atNum.
    destruct (decide (Some z = Some 0%Z)) as [[= ->]|_];
      rewrite (row_outside T m _ Hshows Hout); done.
  - intros z Hz Hout.
    apply throws_intro with (setRowHeap (rowHeap w1 ++ [[]]) w1); [|done..].
    unfold TableEditCommander.addRowToBottom.
    rewrite (bind_Val _ _ _ _ _ Hm), (bind_Val _ _ _ _ _ (getParams_Some _ _ Hp1)).
    cbv zeta. rewrite Hz.
    rewrite (bind_Val _ _ _ _ _
      (eq_refl : TableEditCommander.newRow w1 = (_, Val _))).
    unfold Js.atNum. by rewrite (row_outside T m _ Hshows Hout).
  - intros z Hz Hout. apply throws_intro with w1; [|done..].
    unfold TableEditCommander.deleteTopRow.
    rewrite (bind_Val _ _ _ _ _ Hm), (bind_Val _ _ _ _ _ (getParams_Some _ _ Hp1)).
    cbv zeta. rewrite Hz. rewrite decide_False by (intros [=]; lia).
    rewrite (row_outside T m _ Hshows); [done|].
    unfold Js.toNumber. simpl. lia.
  - intros z Hz Hout. apply throws_intro with w1; [|done..].
    unfold TableEditCommander.deleteBottomRow.
    rewrite (bind_Val _ _ _ _ _ Hm), (bind_Val _ _ _ _ _ (getParams_Some _ _ Hp1)).
    cbv zeta. rewrite Hz.
    rewrite decide_False by (destruct Hshows as [-> _]; intros [=]; lia).
    rewrite (row_outside T m (Js.toNumber (Some z) + 1) Hshows); [done|].
    unfold Js.toNumber. simpl. lia.
Qed.

Lemma row_outside_throws_witness :
  throws TableEditCommander.addRowToBottom
    (Ex.world Ex.cells_2x3 Ex.rows_2x3 [0; 1]
       (Some (SamePosition (Ex.at_ 0 2 0)))).
Proof.
  refine (proj1 (proj2 (row_outside_throws
            (Ex.world Ex.cells_2x3 Ex.rows_2x3 [0; 1]
               (Some (SamePosition (Ex.at_ 0 2 0))))
            Ex.tiling_2x3 (SamePosition (Ex.at_ 0 2 0))
            eq_refl eq_refl)) 2%Z eq_refl _).
  right. vm_compute. discriminate.
Defined.
(** ** [splitCells] on a valid grid *)

Lemma foldl_alter_lookup {A} (f : A → A) (l : list nat) (h : list A) (k : nat) :
  (∀ x, f (f x) = f x) →
  foldl (λ h k, alter f k h) h l !! k
  = if decide (k ∈ l) then f <$> h !! k else h !! k.
Proof.
  intros Hf. revert h. induction l as [|x l IH]; intros h; [done|].
  simpl. rewrite IH. destruct (decide (k = x)) as [->|Hne].
  - rewrite list_lookup_alter_eq, (decide_True (P := x ∈ x :: l)) by left.
    destruct (decide (x ∈ l)); [|done].
    destruct (h !! x); simpl; [|done]. by rewrite Hf.
  - rewrite list_lookup_alter_ne by done.
    destruct (decide (k ∈ l)) as [Hin|Hin].
    + by rewrite decide_True by (by right).
    + rewrite decide_False; [done|]. rewrite not_elem_of_cons. done.
Qed.

Lemma concat_fmap_ext_in {A B} (f g : A → list B) (l : list A) :
  (∀ x, x ∈ l → g x = f x) → concat (g <$> l) = concat (f <$> l).
Proof.
  induction l as [|y l IH]; intros Hfg; [done|].
  rewrite !fmap_cons, !concat_cons.
  rewrite (Hfg y) by left. rewrite IH; [done|].
  intros x Hx. apply Hfg. by right.
Qed.

Lemma length_concat_update {B} (f g : nat → list B) (l : list nat) (x : nat) :
  NoDup l → x ∈ l → (∀ y, y ≠ x → g y = f y) →
  length (g x) = S (length (f x)) →
  length (concat (g <$> l)) = S (length (concat (f <$> l))).
Proof.
  intros Hnd Hx Hne Hlen. induction l as [|y l IH]; [by inversion Hx|].
  apply NoDup_cons in Hnd as [Hy Hnd].
  rewrite !fmap_cons, !concat_cons, !length_app.
  apply elem_of_cons in Hx as [->|Hx].
  - rewrite Hlen, (concat_fmap_ext_in f g l); [lia|].
    intros z Hz. apply Hne. by intros ->.
  - rewrite (Hne y) by (by intros ->). rewrite IH by done. lia.
Qed.

Lemma length_concat_insertAt {B} (f g : nat → list B) (l : list nat)
    (i x : nat) :
  x ∉ l → (∀ y, y ≠ x → g y = f y) →
  length (concat (g <$> insertAt i x l))
  = length (g x) + length (concat (f <$> l)).
Proof.
  intros Hx Hne. unfold insertAt.
  rewrite fmap_app, fmap_cons, concat_app, concat_cons, !length_app.
  rewrite <- (take_drop i l) in Hx. rewrite not_elem_of_app in Hx.
  destruct Hx as [Hx1 Hx2].
  rewrite (concat_fmap_ext_in f g (take i l)), (concat_fmap_ext_in f g (drop i l)).
  - rewrite <- (take_drop i l) at 3.
    rewrite fmap_app, concat_app, length_app. lia.
  - intros y Hy. apply Hne. by intros ->.
  - intros y Hy. apply Hne. by intros ->.
Qed.

Lemma sublist_insertAt {A} (i : nat) (x : A) (l : list A) :
  l `sublist_of` insertAt i x l.
Proof.
  unfold insertAt. rewrite <- (take_drop i l) at 1.
  apply sublist_app; [done|]. by apply sublist_cons.
Qed.

Lemma splice_one {A} (l : list A) (z : Z) (x : A) :
  ∃ s, Js.splice l z 0 [x] = insertAt s x l.
Proof.
  unfold Js.splice. eexists. rewrite Nat.add_0_r. reflexivity.
Qed.

(** One step of [splitCells] on a square that is not the top-left one of
    its cell. *)
Lemma splitCell_step ws p (r : nat) rr :
  TableEditCommander.isAnchor p = false →
  rowIndex p = Some (Z.of_nat r) →
  rowHeap ws !! row p = Some rr →
  ∃ ws' s,
    TableEditCommander.splitCell p ws = (ws', Val tt) ∧
    params ws' = params ws ∧
    cellHeap ws' =
      alter (setRowspan 1 ∘ setColspan 1) (cell p) (cellHeap ws)
        ++ [mkCell 1 1 (length (fragmentHeap ws))] ∧
    fragmentHeap ws' = fragmentHeap ws ++ [[BrComponent]] ∧
    bodies ws' =
      (if decide (row p ∈ bodies ws) then bodies ws
       else insertAt r (row p) (bodies ws)) ∧
    rowHeap ws' =
      <[row p := insertAt s (length (cellHeap ws)) rr]> (rowHeap ws).
Proof.
  intros Ha Hr Hrow. unfold TableEditCommander.splitCell.
  rewrite bool_decide_eq_true_2.
  2: { unfold TableEditCommander.isAnchor in Ha.
       apply andb_false_iff in Ha.
       destruct Ha as [Ha|Ha]; apply bool_decide_eq_false in Ha; tauto. }
  set (wa := setCellHeap (alter (setColspan 1) (cell p) (cellHeap ws)) ws).
  rewrite (bind_Val (modifyCell (cell p) (setColspan 1)) _ ws wa tt eq_refl).
  set (wb := setCellHeap (alter (setRowspan 1) (cell p) (cellHeap wa)) wa).
  rewrite (bind_Val (modifyCell (cell p) (setRowspan 1)) _ wa wb tt eq_refl).
  set (wc := setCellHeap
               (cellHeap wb ++ [mkCell 1 1 (length (fragmentHeap wb))])
               (setFragmentHeap (fragmentHeap wb ++ [[BrComponent]]) wb)).
  rewrite (bind_Val (TableEditCommander.createCell 1 1) _ wb wc
             (length (cellHeap wb)) eq_refl).
  rewrite (bind_Val getBodies _ wc wc (bodies wc) eq_refl).
  change (bodies wc) with (bodies ws).
  assert (Hn : length (cellHeap wb) = length (cellHeap ws)).
  { subst wb wa. simpl. by rewrite !length_alter. }
  assert (Hc : cellHeap wc =
    alter (setRowspan 1 ∘ setColspan 1) (cell p) (cellHeap ws)
      ++ [mkCell 1 1 (length (fragmentHeap ws))]).
  { subst wc wb wa. simpl. by rewrite list_alter_alter_eq. }
  rewrite Hr. unfold Js.toNumber, Js.includes. simpl default.
  destruct (decide (row p ∈ bodies ws)) as [Hin|Hin].
  - rewrite bool_decide_eq_true_2 by done.
    rewrite (bind_Val (mret tt) _ wc wc tt eq_refl).
    rewrite (bind_Val _ _ wc wc rr (getRow_Some wc _ _ Hrow)).
    rewrite Hn. destruct (afterCell p) as [a|].
    + destruct (splice_one rr (Js.indexOf rr (cell p) + 1)
                  (length (cellHeap ws))) as [s Hs].
      rewrite Hs. eexists _, s. split; [reflexivity|]. by rewrite <- Hc.
    + eexists _, (length rr). split; [reflexivity|]. rewrite <- Hc.
      unfold insertAt. by rewrite firstn_all, drop_all.
  - rewrite bool_decide_eq_false_2 by done.
    set (wd := setBodies (Js.splice (bodies wc) (Z.of_nat r) 0 [row p]) wc).
    rewrite (bind_Val (TableEditCommander.spliceBodies (Z.of_nat r) 0 [row p])
               _ wc wd tt eq_refl).
    rewrite (bind_Val _ _ wd wd rr (getRow_Some wd _ _ Hrow)).
    assert (Hb : bodies wd = insertAt r (row p) (bodies ws)).
    { subst wd. simpl. by rewrite splice_insert_nat. }
    rewrite Hn. destruct (afterCell p) as [a|].
    + destruct (splice_one rr (Js.indexOf rr (cell p) + 1)
                  (length (cellHeap ws))) as [s Hs].
      rewrite Hs. eexists _, s. split; [reflexivity|].
      by rewrite <- Hc, <- Hb.
    + eexists _, (length rr). split; [reflexivity|]. rewrite <- Hc, <- Hb.
      unfold insertAt. by rewrite firstn_all, drop_all.
Qed.

Lemma rowOf_insert ws ws' rid x y :
  rid < length (rowHeap ws) → rowHeap ws' = <[rid := x]> (rowHeap ws) →
  rowOf ws' y = if decide (y = rid) then x else rowOf ws y.
Proof.
  intros Hlt Hr. unfold rowOf. rewrite Hr.
  destruct (decide (y = rid)) as [->|Hne].
  - by rewrite list_lookup_insert_eq.
  - by rewrite list_lookup_insert_ne.
Qed.

(** The step of the loop on a square that is not a top-left one keeps the
    loop invariant. *)
Lemma splitCell_inv w d N ws p (r : nat) :
  splitInv w d N ws →
  TableEditCommander.isAnchor p = false →
  rowIndex p = Some (Z.of_nat r) →
  row p < length (rowHeap w) + d →
  (row p ∉ bodies w → length (rowHeap w) ≤ row p) →
  cell p < length (cellHeap w) →
  ∃ ws', TableEditCommander.splitCell p ws = (ws', Val tt) ∧
         splitInv w d (N ++ [p]) ws'.
Proof.
  intros (Hp & Hf & Hc & Hlen & Hnd & Hsub & Hrows & Hempty & Hcount)
    Ha Hr Hrow Hnew Hcell.
  destruct (lookup_lt_is_Some_2 (rowHeap ws) (row p)) as [rr Hrr]; [lia|].
  destruct (splitCell_step ws p r rr Ha Hr Hrr)
    as (ws' & s & Hrun & Hp' & Hc' & Hf' & Hb' & Hr').
  assert (Hrow' : ∀ y, rowOf ws' y =
            if decide (y = row p) then insertAt s (length (cellHeap ws)) rr
            else rowOf ws y).
  { intros y. apply (rowOf_insert ws); [lia|done]. }
  assert (Hin' : row p ∈ bodies ws').
  { rewrite Hb'. destruct (decide (row p ∈ bodies ws)); [done|].
    apply elem_of_insertAt. by left. }
  assert (Hsub' : bodies ws `sublist_of` bodies ws').
  { rewrite Hb'. destruct (decide (row p ∈ bodies ws)); [done|].
    apply sublist_insertAt. }
  exists ws'. split; [done|]. unfold splitInv.
  rewrite length_app. simpl length. rewrite Nat.add_1_r.
  split; [by rewrite Hp'|]. split; [|split; [|split; [|split; [|split;
    [|split; [|split]]]]]].
  - rewrite Hf', Hf, <- app_assoc. f_equal.
    change ([BrComponent] :: replicate (length N) [BrComponent])
      with (replicate (S (length N)) [BrComponent]).
    by rewrite replicate_S_end.
  - rewrite Hc', Hc, fmap_app, foldl_app, newCells_S. simpl.
    rewrite alter_app_l by (by rewrite foldl_alter_length).
    rewrite Hf, length_app, length_replicate. by rewrite <- app_assoc.
  - by rewrite Hr', length_insert.
  - rewrite Hb'. destruct (decide (row p ∈ bodies ws)); [done|].
    by apply insertAt_NoDup.
  - by transitivity (bodies ws).
  - intros rid. rewrite Hrow'. destruct (decide (rid = row p)) as [->|]; [|done].
    transitivity (rowOf ws (row p)); [done|].
    rewrite (rowOf_Some _ _ _ Hrr). apply sublist_insertAt.
  - intros rid Hrid Hge. rewrite Hrow'.
    destruct (decide (rid = row p)) as [->|]; [done|].
    apply Hempty; [|done]. intros Hin. apply Hrid.
    by eapply elem_of_sublist.
  - replace (cellCount w + S (length N)) with (S (cellCount ws)) by lia.
    unfold cellCount, rowsOf.
    assert (Hne : ∀ y, y ≠ row p → rowOf ws' y = rowOf ws y).
    { intros y Hy. rewrite Hrow'. by rewrite decide_False. }
    destruct (decide (row p ∈ bodies ws)) as [Hin|Hin].
    + rewrite Hb'.
      apply length_concat_update with (row p); try done.
      rewrite Hrow', decide_True by done.
      by rewrite (rowOf_Some _ _ _ Hrr), insertAt_length.
    + rewrite Hb'.
      rewrite (length_concat_insertAt (rowOf ws)) by done.
      rewrite Hrow', decide_True by done. rewrite insertAt_length.
      assert (rr = []) as ->; [|done].
      rewrite <- (rowOf_Some _ _ _ Hrr). apply Hempty; [done|].
      apply Hnew. intros Hin0. apply Hin. by eapply elem_of_sublist.
Qed.

Lemma filter_spanned_core (l : list TableCellPosition) :
  core <$> filter (λ c, TableEditCommander.isAnchor c = false) l
  = filter (λ e, ¬ anchor e) (core <$> l).
Proof.
  induction l as [|p l IH]; [done|].
  rewrite fmap_cons, !filter_cons.
  destruct (decide (TableEditCommander.isAnchor p = false)) as [Ha|Ha].
  - rewrite decide_True.
    + by rewrite fmap_cons, IH.
    + rewrite <- isAnchor_anchor. by rewrite Ha.
  - rewrite decide_False; [done|].
    rewrite <- isAnchor_anchor. intros Hn. apply Ha.
    by destruct (TableEditCommander.isAnchor p).
Qed.

Lemma rectangle_spanned m T q :
  shows m T →
  core <$> filter (λ c, TableEditCommander.isAnchor c = false)
             (concat (TableEditCommander.rectangle m (Z.of_nat (top q))
                        (Z.of_nat (left q)) (Z.of_nat (bottom q))
                        (Z.of_nat (right q))))
  = spannedIn T q.
Proof.
  intros Hm. rewrite (shows_fmap _ _ Hm) at 1. unfold spannedIn.
  rewrite rectangle_nat, filter_concat, fmap_concat. f_equal.
  rewrite <- fmap_drop, <- fmap_take, <- !list_fmap_compose.
  apply list_fmap_ext. intros i row_ _. simpl.
  rewrite <- fmap_drop, <- fmap_take. apply filter_spanned_core.
Qed.

(** What the loop of [splitCells] reads of a position of the matrix. *)
Lemma split_position w T m q p :
  valid_grid w T → shows m T →
  (∀ r row_, m !! r = Some row_ →
     cells row_ = rowIdOf (rowHeap w) (bodies w) r) →
  p ∈ concat (TableEditCommander.rectangle m (Z.of_nat (top q))
                (Z.of_nat (left q)) (Z.of_nat (bottom q))
                (Z.of_nat (right q))) →
  ∃ r : nat, rowIndex p = Some (Z.of_nat r) ∧
    row p < length (rowHeap w) + (length T - length (bodies w)) ∧
    (row p ∉ bodies w → length (rowHeap w) ≤ row p) ∧
    cell p < length (cellHeap w).
Proof.
  intros HT Hm Hcells Hp.
  pose proof (proj1 (layout_ok_layout _ _ _ _) HT) as HL.
  destruct (rectangle_entry m q p Hp) as (r & c & _ & He).
  pose proof (shows_entry Hm _ _ _ He) as Hslot.
  destruct (slotAt_lt HL _ _ _ Hslot) as [Hr _].
  destruct (slot_cell HL _ _ _ Hslot) as (cl & Hcl & _).
  unfold entry in He. destruct (m !! r) as [row_|] eqn:Hrow; [|done].
  destruct (lookup_lt_is_Some_2 T r Hr) as [Tr HTr].
  destruct Hm as [Hlen Hrows].
  destruct (Hrows r row_ Tr Hrow HTr) as [_ Hidx].
  destruct (Hidx c p He) as (Hri & _ & Hrp).
  exists r. split; [done|]. rewrite Hrp, (Hcells r row_ Hrow).
  unfold rowIdOf. destruct (bodies w !! r) as [rid|] eqn:Hb.
  - destruct HL as (_ & _ & Hsome & _). rewrite Forall_forall in Hsome.
    pose proof (list_elem_of_lookup_2 _ _ _ Hb) as Hin.
    destruct (Hsome rid Hin) as [x Hx]. apply lookup_lt_Some in Hx.
    split; [lia|]. split; [done|]. by eapply lookup_lt_Some.
  - apply lookup_ge_None in Hb.
    split; [lia|]. split; [lia|]. by eapply lookup_lt_Some.
Qed.

Lemma splitInv_start w d m :
  NoDup (bodies w) →
  splitInv w d [] (setCellMatrix m (setRowHeap (rowHeap w ++ replicate d []) w)).
Proof.
  intros Hnd.
  assert (Hrow : ∀ rid,
    rowOf (setCellMatrix m (setRowHeap (rowHeap w ++ replicate d []) w)) rid
    = rowOf w rid).
  { intros rid. unfold rowOf. simpl.
    destruct (decide (rid < length (rowHeap w))) as [Hlt|Hge].
    - by rewrite lookup_app_l.
    - rewrite lookup_app_r by lia. rewrite (lookup_ge_None_2 (rowHeap w)) by lia.
      destruct (replicate d [] !! _) as [x|] eqn:Hx; [|done].
      apply lookup_replicate in Hx as [-> _]. done. }
  unfold splitInv. simpl. rewrite !app_nil_r.
  repeat (split; [done|]).
  split; [by rewrite length_app, length_replicate|].
  split; [done|]. split; [done|]. split; [by intros rid; rewrite Hrow|].
  split.
  - intros rid _ Hge. rewrite Hrow. unfold rowOf.
    by rewrite lookup_ge_None_2 by lia.
  - unfold cellCount, rowsOf. simpl. rewrite Nat.add_0_r. f_equal. f_equal.
    apply list_fmap_ext. intros i rid _. apply Hrow.
Qed.

(** On a valid grid in which no row is twice in [bodies], [splitCells]
    over the rectangle [q] of the edit range returns normally. Every cell
    with a square in [q] that is not its top-left one gets the spans 1
    and 1; for each such square one new plain cell with a new fragment
    holding one [BrComponent] is made and put into a row, so the grid has
    that many more cells; every other cell is as it was, no cell leaves
    its row and no row leaves [bodies]; the edit range stays as it
    was. *)
Theorem splitCells_store (w : World) (T : list (list slot)) (q : Rect) :
  valid_grid w T → NoDup (bodies w) → rangeIs w q →
  ∃ w', TableEditCommander.splitCells w = (w', Val tt) ∧
        params w' = params w ∧
        cellsSplit (slotCell <$> spannedIn T q) (length (spannedIn T q)) w w'.
Proof.
  intros HT Hnd (p & Hp & Ht & Hl & Hb & Hr).
  destruct (cellMatrix_valid _ _ HT) as (m & Hm & Hshows & Hcells).
  set (d := length T - length (bodies w)) in *.
  set (w1 := setCellMatrix m _) in Hm.
  assert (Hp1 : params w1 = Some p) by done.
  set (L := concat (TableEditCommander.rectangle m (Z.of_nat (top q))
                      (Z.of_nat (left q)) (Z.of_nat (bottom q))
                      (Z.of_nat (right q)))).
  destruct (forEach_inv TableEditCommander.splitCell L
    (λ i ws, splitInv w d
       (filter (λ c, TableEditCommander.isAnchor c = false) (take i L)) ws) w1)
    as (w' & Hrun & Hend).
  { rewrite take_0. by apply splitInv_start. }
  { intros i x ws Hx Hinv. rewrite (take_S_r _ _ _ Hx), filter_app.
    destruct (TableEditCommander.isAnchor x) eqn:Ha.
    - exists ws. split.
      + unfold TableEditCommander.splitCell.
        rewrite bool_decide_eq_false_2; [done|].
        apply isAnchor_anchor in Ha. unfold anchor, core, slotRow, slotColumn in Ha.
        simpl in Ha. tauto.
      + rewrite filter_cons_False by (by rewrite Ha).
        by rewrite filter_nil, app_nil_r.
    - rewrite filter_cons_True, filter_nil by done.
      destruct (split_position w T m q x HT Hshows Hcells)
        as (r & Hri & Hrow & Hnew & Hcell).
      { by eapply list_elem_of_lookup_2. }
      by apply (splitCell_inv w d _ ws x r). }
  rewrite firstn_all in Hend.
  set (N := filter (λ c, TableEditCommander.isAnchor c = false) L) in Hend.
  assert (HN : core <$> N = spannedIn T q) by apply (rectangle_spanned m T q Hshows).
  assert (HK : slotCell <$> spannedIn T q = cell <$> N).
  { rewrite <- HN, <- list_fmap_compose. done. }
  assert (Hn : length (spannedIn T q) = length N).
  { by rewrite <- HN, length_fmap. }
  destruct Hend as (Hp' & Hf' & Hc' & Hlen' & Hnd' & Hsub' & Hrows' & _ & Hcount').
  exists w'. split.
  - unfold TableEditCommander.splitCells.
    rewrite (bind_Val _ _ _ _ _ Hm), (bind_Val _ _ _ _ _ (getParams_Some _ _ Hp1)).
    cbv zeta. rewrite Ht, Hl, Hb, Hr. unfold Js.toNumber. simpl default.
    exact Hrun.
  - split; [done|]. unfold cellsSplit. rewrite HK, Hn.
    split; [|split; [|done]].
    + intros k c Hk. rewrite Hc'.
      rewrite lookup_app_l
        by (rewrite foldl_alter_length; by eapply lookup_lt_Some).
      rewrite foldl_alter_lookup by done. rewrite Hk.
      by destruct (decide (k ∈ cell <$> N)).
    + rewrite Hc'. apply drop_app_length'. by rewrite foldl_alter_length.
Qed.

Lemma splitCells_store_witness :
  ∃ w', TableEditCommander.splitCells
          (Ex.world Ex.cells_2x3 Ex.rows_2x3 [0; 1]
             (Some (TwoPositions (Ex.at_ 0 0 0) (Ex.at_ 0 1 1))))
        = (w', Val tt) ∧ cellCount w' = 6.
Proof.
  destruct (splitCells_store
              (Ex.world Ex.cells_2x3 Ex.rows_2x3 [0; 1]
                 (Some (TwoPositions (Ex.at_ 0 0 0) (Ex.at_ 0 1 1))))
              Ex.tiling_2x3 (mkRectN 0 0 1 1))
    as (w' & Hrun & _ & (_ & _ & _ & _ & _ & _ & Hcount)).
  - reflexivity.
  - apply (bool_decide_unpack _). vm_compute. exact I.
  - eexists. split; [reflexivity|]. by repeat split.
  - exists w'. split; [exact Hrun|exact Hcount].
Defined.
(** ** Adding a row to a grid with spans *)

Lemma filter_fmap_comm {A B} (f : A → B) (P : B → Prop)
    `{!∀ y, Decision (P y)} (l : list A) :
  filter P (f <$> l) = f <$> filter (λ x, P (f x)) l.
Proof.
  induction l as [|x l IH]; [done|].
  rewrite fmap_cons, !filter_cons. destruct (decide (P (f x))).
  - by rewrite fmap_cons, IH.
  - done.
Qed.

Lemma NoDup_fmap_filter {A B} (g : A → B) (P : A → Prop)
    `{!∀ x, Decision (P x)} (l : list A) :
  (∀ i i' x y, l !! i = Some x → l !! i' = Some y → P x → P y →
     g x = g y → i = i') →
  NoDup (g <$> filter P l).
Proof.
  induction l as [|a l IH]; intros Hinj; [constructor|].
  assert (Hrest : NoDup (g <$> filter P l)).
  { apply IH. intros i i' x y Hi Hi' Hx Hy Hg.
    assert (S i = S i') by (by eapply Hinj). lia. }
  rewrite filter_cons. destruct (decide (P a)) as [Ha|]; [|done].
  rewrite fmap_cons. apply NoDup_cons. split; [|done].
  intros Hin. apply list_elem_of_fmap in Hin as (y & Hg & Hy).
  apply list_elem_of_filter in Hy as [HPy Hy].
  apply list_elem_of_lookup in Hy as [i' Hi'].
  assert (0 = S i') by (by eapply (Hinj 0 (S i') a y)). lia.
Qed.

Section RowSquares.
Context {ch : list TableCell} {rh : list (list CellId)} {bodies : list RowId}.
Context {T : list (list slot)}.
Hypothesis HL : layout ch rh bodies T.
Hypothesis Hnd : NoDup (concat ((λ rid, default [] (rh !! rid)) <$> bodies)).

(** The top-left square of the cell of a square. *)
Lemma slot_anchor r c e :
  slotAt T r c = Some e →
  Z.to_nat (slotRow e) ≤ r ∧ Z.to_nat (slotColumn e) ≤ c ∧
  slotAt T (r - Z.to_nat (slotRow e)) (c - Z.to_nat (slotColumn e))
    = Some (slotCell e, 0%Z, 0%Z).
Proof using HL.
  intros He.
  destruct (slot_cell HL _ _ _ He) as (cl & Hcl & Hi & Hj).
  destruct (walk_up HL (Z.to_nat (slotRow e)) _ _ _ He) as [Hu He1]; [lia|].
  destruct (walk_left HL (Z.to_nat (slotColumn e)) _ _ _ He1) as [Hw He2].
  { unfold slotColumn at 2. simpl. lia. }
  split; [done|]. split; [done|].
  unfold slotCell, slotRow, slotColumn in *. simpl in He2.
  rewrite He2. do 2 f_equal; [f_equal|]; lia.
Qed.

(** Two squares of one cell in a row are at the same height of the cell,
    and they are one square when they are at the same offset from its
    left column. *)
Lemma row_squares_same r c1 c2 e1 e2 :
  slotAt T r c1 = Some e1 → slotAt T r c2 = Some e2 →
  slotCell e1 = slotCell e2 →
  slotRow e1 = slotRow e2 ∧ (slotColumn e1 = slotColumn e2 → c1 = c2).
Proof using HL Hnd.
  intros H1 H2 Hk.
  destruct (slot_cell HL _ _ _ H1) as (cl1 & _ & Hi1 & Hj1).
  destruct (slot_cell HL _ _ _ H2) as (cl2 & _ & Hi2 & Hj2).
  destruct (slot_anchor _ _ _ H1) as (Hr1 & Hc1 & Ha1).
  destruct (slot_anchor _ _ _ H2) as (Hr2 & Hc2 & Ha2).
  rewrite Hk in Ha1.
  destruct (anchor_unique HL Hnd _ _ _ _ _ Ha1 Ha2) as [Hr Hc].
  split; [lia|]. intros Hj. lia.
Qed.

End RowSquares.

Lemma filter_none {A} (P : A → Prop) `{!∀ x, Decision (P x)} (l : list A) :
  (∀ x, x ∈ l → ¬ P x) → filter P l = [].
Proof.
  induction l as [|x l IH]; intros Hl; [done|].
  rewrite filter_cons_False by (apply Hl; by left).
  apply IH. intros y Hy. apply Hl. by right.
Qed.

(** *** The loop that fills the new row *)

Lemma rowLoop_start w0 tr :
  rowHeap w0 !! tr = Some [] → rowLoop w0 tr [] 0 w0.
Proof.
  intros Htr. unfold rowLoop, newCells. simpl. rewrite !app_nil_r.
  repeat (split; [done|]). symmetry. by apply list_insert_id.
Qed.

Lemma rowLoop_incr w0 tr Ks n ws k :
  rowLoop w0 tr Ks n ws → k < length (cellHeap w0) →
  rowLoop w0 tr (Ks ++ [k]) n
    (setCellHeap (alter (λ c, setRowspan (rowspan c + 1) c) k (cellHeap ws)) ws).
Proof.
  intros (Hb & Hp & Hf & Hc & Hr) Hk. unfold rowLoop. simpl.
  repeat (split; [done|]). split; [|done].
  rewrite Hc, foldl_app. simpl.
  by rewrite alter_app_l by (by rewrite foldl_alter_length).
Qed.

Lemma rowLoop_push w0 tr Ks n ws :
  rowLoop w0 tr Ks n ws → tr < length (rowHeap w0) →
  ∃ ws', TableEditCommander.pushNewCell tr 1 1 ws = (ws', Val tt) ∧
         rowLoop w0 tr Ks (S n) ws'.
Proof.
  intros (Hb & Hp & Hf & Hc & Hr) Htr.
  rewrite (pushNewCell_step ws tr (seq (length (cellHeap w0)) n)).
  2: { rewrite Hr. by apply list_lookup_insert_eq. }
  eexists. split; [reflexivity|]. unfold rowLoop. simpl.
  split; [done|]. split; [done|]. split; [|split].
  - rewrite Hf, <- app_assoc. f_equal.
    change ([BrComponent] :: replicate n [BrComponent])
      with (replicate (S n) [BrComponent]).
    by rewrite replicate_S_end.
  - rewrite Hc, Hf, newCells_S, length_app, length_replicate.
    by rewrite <- app_assoc.
  - rewrite Hr, list_insert_insert_eq. f_equal.
    change (length (cellHeap w0) :: seq (S (length (cellHeap w0))) n)
      with (seq (length (cellHeap w0)) (S n)).
    rewrite Hc, length_app, length_newCells, foldl_alter_length.
    by rewrite seq_S.
Qed.

(** The new row in [bodies], from the state at the end of the loop. *)
Lemma rowLoop_inserted w d m j K n w3 w' :
  let w1 := setCellMatrix m (setRowHeap (rowHeap w ++ replicate d []) w) in
  let w2 := setRowHeap (rowHeap w1 ++ [[]]) w1 in
  rowLoop w2 (length (rowHeap w1)) K n w3 →
  NoDup K →
  (∀ rid, rid ∈ bodies w → rid < length (rowHeap w)) →
  bodies w' = insertAt j (length (rowHeap w1)) (bodies w) →
  cellHeap w' = cellHeap w3 → rowHeap w' = rowHeap w3 →
  fragmentHeap w' = fragmentHeap w3 →
  rowInserted j K n w w'.
Proof.
  intros w1 w2 (Hb & Hp & Hf & Hc & Hr) HK Hrid Hb' Hc' Hr' Hf'.
  simpl in Hb, Hp, Hf, Hc, Hr.
  exists (length (rowHeap w ++ replicate d [])).
  split; [done|]. split; [|split; [|split; [|split; [|split]]]].
  - intros Hin. apply Hrid in Hin. rewrite length_app in Hin. lia.
  - rewrite Hr', Hr, insert_last, lookup_app_r by lia.
    by rewrite Nat.sub_diag.
  - intros rid Hin. apply Hrid in Hin.
    rewrite Hr', Hr, insert_last.
    rewrite lookup_app_l by (rewrite length_app; lia).
    by rewrite lookup_app_l.
  - intros k c Hk. rewrite Hc', Hc.
    rewrite lookup_app_l
      by (rewrite foldl_alter_length; by eapply lookup_lt_Some).
    destruct (decide (k ∈ K)) as [Hin|Hin].
    + by rewrite foldl_alter_in, Hk.
    + by rewrite foldl_alter_notin.
  - rewrite Hc', Hc. apply drop_app_length'. by rewrite foldl_alter_length.
  - by rewrite Hf', Hf.
Qed.

Lemma slotAt_lookup (T : list (list slot)) r c Tr e :
  T !! r = Some Tr → Tr !! c = Some e → slotAt T r c = Some e.
Proof. intros HTr He. unfold slotAt. by rewrite HTr. Qed.

Lemma fromAbove_NoDup ch rh bodies T j Tr :
  layout ch rh bodies T →
  NoDup (concat ((λ rid, default [] (rh !! rid)) <$> bodies)) →
  T !! j = Some Tr → NoDup (fromAbove Tr).
Proof.
  intros HL Hnd HTr. unfold fromAbove. apply NoDup_fmap_filter.
  intros i i' x y Hi Hi' [_ Hx] [_ Hy] Hk.
  apply (row_squares_same HL Hnd j i i' x y); try done.
  - by eapply slotAt_lookup.
  - by eapply slotAt_lookup.
  - by rewrite Hx, Hy.
Qed.

Lemma fromAbove_first ch rh bodies T Tr :
  layout ch rh bodies T → T !! 0 = Some Tr → fromAbove Tr = [].
Proof.
  intros HL HTr. unfold fromAbove. rewrite filter_none; [done|].
  intros e [c He]%list_elem_of_lookup [Hr _].
  pose proof (slot_row0 HL c e (slotAt_lookup _ _ _ _ _ HTr He)). lia.
Qed.

(** On a valid grid that holds each row and each cell once,
    [addRowToTop] at the row [j] of the start of the edit range, a row of
    [bodies], returns normally. Every cell that comes into row [j] from
    the row above spans one row more; a new row array is put into
    [bodies] at index [j], with one new plain cell, with a new fragment
    holding one [BrComponent], for every square of row [j] that is in the
    top row of its cell, or, in row 0, for every cell stored there;
    nothing else of the store changes; and the row index of the start of
    the range goes up by one, as does the one of the end when it is of
    another cell. *)
Theorem addRowToTop_store (w : World) (T : list (list slot)) (j : nat)
    (p : TableEditRange) (Tr : list slot) :
  valid_grid w T → storeWf w → params w = Some p →
  rowIndex (startPosition p) = Some (Z.of_nat j) → j < length (bodies w) →
  T !! j = Some Tr →
  ∃ w', TableEditCommander.addRowToTop w = (w', Val tt) ∧
        rowInserted j (fromAbove Tr)
          (if decide (j = 0) then length (filter anchor Tr) else topSquares Tr)
          w w' ∧
        params w' = Some (shifted TableEditCommander.rowIndex_incr p).
Proof.
  intros HT [Hndb Hndc] Hp Hrow Hj HTr.
  pose proof (proj1 (layout_ok_layout _ _ _ _) HT) as HL.
  destruct (cellMatrix_valid _ _ HT) as (m & Hm & Hshows & Hcells).
  set (d := length T - length (bodies w)) in *.
  set (w1 := setCellMatrix m _) in Hm.
  set (w2 := setRowHeap (rowHeap w1 ++ [[]]) w1).
  set (tr := length (rowHeap w1)).
  assert (Hp1 : params w1 = Some p) by done.
  destruct (lookup_lt_is_Some_2 (bodies w) j Hj) as [rid Hrid].
  destruct (lookup_lt_is_Some_2 m j) as [row_ Hrowj].
  { destruct Hshows as [-> _]. by eapply lookup_lt_Some. }
  pose proof Hshows as [_ Hrows].
  destruct (Hrows j row_ Tr Hrowj HTr) as [Hcore Hidx].
  assert (Hcellsj : cells row_ = rid).
  { rewrite (Hcells j row_ Hrowj). unfold rowIdOf. by rewrite Hrid. }
  assert (Hbodies : ∀ rid', rid' ∈ bodies w → rid' < length (rowHeap w)).
  { intros rid' Hin. destruct HL as (_ & _ & Hsome & _).
    rewrite Forall_forall in Hsome. destruct (Hsome rid' Hin) as [x Hx].
    by eapply lookup_lt_Some. }
  assert (Htr : tr < length (rowHeap w2)).
  { subst tr w2. simpl. rewrite !length_app. simpl. lia. }
  assert (Hstart : rowLoop w2 tr [] 0 w2).
  { apply rowLoop_start. subst tr w2. simpl.
    rewrite lookup_app_r by lia. by rewrite Nat.sub_diag. }
  unfold TableEditCommander.addRowToTop.
  rewrite (bind_Val _ _ _ _ _ Hm), (bind_Val _ _ _ _ _ (getParams_Some _ _ Hp1)).
  cbv zeta. rewrite Hrow.
  rewrite (bind_Val TableEditCommander.newRow _ w1 w2 tr eq_refl).
  match goal with |- ∃ w', (?l ≫= _) _ = _ ∧ _ => set (loop := l) end.
  assert (Hloop : ∃ w3, loop w2 = (w3, Val tt) ∧
    rowLoop w2 tr (fromAbove Tr)
      (if decide (j = 0) then length (filter anchor Tr) else topSquares Tr) w3).
  { subst loop. destruct (decide (j = 0)) as [->|Hj0].
    - rewrite decide_True by done.
      change (Js.at_ m 0) with (m !! 0). rewrite Hrowj.
      rewrite (bind_Val (lift (defined (Some row_))) _ w2 w2 row_ eq_refl).
      rewrite Hcellsj.
      destruct (lookup_lt_is_Some_2 (rowHeap w) rid) as [cs Hcs].
      { apply Hbodies. by eapply list_elem_of_lookup_2. }
      assert (Hcs2 : rowHeap w2 !! rid = Some cs).
      { subst w2 w1. simpl. rewrite <- app_assoc. by apply lookup_app_l_Some. }
      rewrite (bind_Val _ _ _ _ _ (getRow_Some w2 rid cs Hcs2)).
      rewrite (fromAbove_first _ _ _ _ _ HL HTr).
      assert (Hlen : length (filter anchor Tr) = length cs).
      { rewrite <- (length_fmap slotCell), (layout_anchors HL 0 Tr HTr).
        unfold rowCells. by rewrite Hrid, Hcs. }
      rewrite Hlen.
      apply (forEach_inv _ cs (λ i ws, rowLoop w2 tr [] i ws)); [done|].
      intros i x ws _ Hinv. by apply rowLoop_push.
    - rewrite decide_False by (intros [=]; lia).
      unfold Js.atNum. rewrite at_nat, Hrowj.
      rewrite (bind_Val (lift (defined (Some row_))) _ w2 w2 row_ eq_refl).
      set (ps := cellsPosition row_) in *.
      set (crossP := λ x : TableCellPosition,
             (0 < slotRow (core x))%Z ∧ slotColumn (core x) = 0%Z).
      set (topP := λ x : TableCellPosition, slotRow (core x) = 0%Z).
      assert (HK : fromAbove Tr = cell <$> filter crossP ps).
      { unfold fromAbove. rewrite <- Hcore, filter_fmap_comm.
        by rewrite <- list_fmap_compose. }
      assert (Hn : topSquares Tr = length (filter topP ps)).
      { unfold topSquares. rewrite <- Hcore, filter_fmap_comm.
        by rewrite length_fmap. }
      rewrite HK, Hn.
      match goal with |- ∃ w3, forEach _ ?b _ = _ ∧ _ => set (body := b) end.
      destruct (forEach_inv body ps
        (λ i ws, rowLoop w2 tr (cell <$> filter crossP (take i ps))
                   (length (filter topP (take i ps))) ws) w2)
        as (w3 & Hrun & Hend).
      { by rewrite take_0. }
      { intros i x ws Hx Hinv.
        rewrite (take_S_r _ _ _ Hx), !filter_app, fmap_app, length_app.
        assert (Hslot : slotAt T j i = Some (core x)).
        { eapply slotAt_lookup; [exact HTr|].
          by rewrite <- Hcore, list_lookup_fmap, Hx. }
        destruct (slot_cell HL _ _ _ Hslot) as (cl & Hcl & Hi & _).
        apply lookup_lt_Some in Hcl.
        change (slotCell (core x)) with (cell x) in Hcl.
        change (slotRow (core x)) with (offsetRow x) in Hi.
        subst body. cbv beta.
        destruct (decide (0 < offsetRow x)%Z) as [Hpos|Hpos].
        - rewrite bool_decide_eq_true_2 by lia.
          rewrite (filter_cons_False topP)
            by (unfold topP; change (slotRow (core x)) with (offsetRow x); lia).
          rewrite filter_nil. simpl length. rewrite Nat.add_0_r.
          destruct (decide (offsetColumn x = 0%Z)) as [Hc0|Hc0].
          + rewrite (filter_cons_True crossP) by (by split).
            rewrite filter_nil. eexists. split; [reflexivity|].
            by apply rowLoop_incr.
          + rewrite (filter_cons_False crossP) by (intros [_ ?]; done).
            rewrite filter_nil, app_nil_r. by exists ws.
        - rewrite bool_decide_eq_false_2 by lia.
          rewrite (filter_cons_False crossP) by (intros [? _]; done).
          rewrite (filter_cons_True topP)
            by (unfold topP; change (slotRow (core x)) with (offsetRow x); lia).
          rewrite !filter_nil, app_nil_r. simpl length. rewrite Nat.add_1_r.
          by apply rowLoop_push. }
      exists w3. split; [done|]. by rewrite firstn_all in Hend. }
  destruct Hloop as (w3 & Hloop & Hinv).
  rewrite (bind_Val _ _ _ _ _ Hloop).
  unfold Js.atNum. rewrite at_nat, Hrowj.
  rewrite (bind_Val (lift (defined (Some row_))) _ w3 w3 row_ eq_refl).
  rewrite (bind_Val getBodies _ w3 w3 (bodies w3) eq_refl).
  pose proof Hinv as (Hb3 & Hp3 & _).
  change (bodies w2) with (bodies w) in Hb3.
  change (params w2) with (params w) in Hp3.
  rewrite Hcellsj, Hb3, (indexOf_NoDup _ _ _ Hndb Hrid).
  set (w4 := setBodies (Js.splice (bodies w3) (Z.of_nat j) 0 [tr]) w3).
  rewrite (bind_Val (TableEditCommander.spliceBodies (Z.of_nat j) 0 [tr])
             _ w3 w4 tt eq_refl).
  assert (Hp4 : params w4 = Some p) by (by rewrite <- Hp, <- Hp3).
  destruct (shiftRange_Some TableEditCommander.rowIndex_incr w4 p Hp4)
    as (w5 & Hshift & Hp5 & Hb5 & Hc5 & Hf5 & Hr5).
  exists w5. split; [done|]. split; [|done].
  apply (rowLoop_inserted w d m j _ _ w3); try done.
  - by eapply fromAbove_NoDup.
  - rewrite Hb5. subst w4. simpl. by rewrite Hb3, splice_insert_nat.
Qed.

Lemma addRowToTop_store_witness :
  ∃ w', TableEditCommander.addRowToTop
          (Ex.world Ex.cells_3x3 Ex.rows_3x3 [0; 1; 2]
             (Some (SamePosition (Ex.at_ 2 1 1)))) = (w', Val tt) ∧
        cellHeap w' !! 0 = Some (mkCell 1 3 0).
Proof.
  destruct (addRowToTop_store
              (Ex.world Ex.cells_3x3 Ex.rows_3x3 [0; 1; 2]
                 (Some (SamePosition (Ex.at_ 2 1 1))))
              Ex.tiling_3x3 1 (SamePosition (Ex.at_ 2 1 1))
              [(0, 1%Z, 0%Z); (2, 0%Z, 0%Z); (3, 0%Z, 0%Z)])
    as (w' & Hrun & (tr & _ & _ & _ & _ & Hcells & _) & _).
  - reflexivity.
  - apply (bool_decide_unpack _). vm_compute. exact I.
  - reflexivity.
  - reflexivity.
  - simpl. lia.
  - reflexivity.
  - exists w'. split; [exact Hrun|]. exact (Hcells 0 (mkCell 1 2 0) eq_refl).
Defined.

Lemma foldl_incr_rowspan (Ks : list nat) (h : list TableCell) k c :
  h !! k = Some c →
  ∃ c', foldl (λ h k, alter (λ c, setRowspan (rowspan c + 1) c) k h) h Ks !! k
          = Some c' ∧ (rowspan c ≤ rowspan c')%Z.
Proof.
  revert h c. induction Ks as [|x Ks IH]; intros h c Hk.
  - exists c. split; [done|lia].
  - simpl. destruct (decide (x = k)) as [->|Hne].
    + destruct (IH (alter (λ c, setRowspan (rowspan c + 1) c) k h)
                  (setRowspan (rowspan c + 1) c)) as (c' & Hc' & Hle).
      { by rewrite list_lookup_alter_eq, Hk. }
      exists c'. split; [done|]. simpl in Hle. lia.
    + apply IH. by rewrite list_lookup_alter_ne.
Qed.

Lemma toBelow_NoDup ch rh bodies T j Tr :
  layout ch rh bodies T →
  NoDup (concat ((λ rid, default [] (rh !! rid)) <$> bodies)) →
  T !! j = Some Tr → NoDup (toBelow ch Tr).
Proof.
  intros HL Hnd HTr. unfold toBelow. apply NoDup_fmap_filter.
  intros i i' x y Hi Hi' [_ Hx] [_ Hy] Hk.
  apply (row_squares_same HL Hnd j i i' x y); try done.
  - by eapply slotAt_lookup.
  - by eapply slotAt_lookup.
  - by rewrite Hx, Hy.
Qed.

(** On a valid grid that holds each row and each cell once,
    [addRowToBottom] at the row [j] of the end of the edit range, a row
    of [bodies], returns normally. Every cell whose span goes on from row
    [j] into the row below spans one row more; a new row array is put
    into [bodies] at index [j + 1], with one new plain cell, with a new
    fragment holding one [BrComponent], for every square of row [j] that
    is in the bottom row of its cell; nothing else of the store changes,
    and the edit range stays as it was. *)
Theorem addRowToBottom_store (w : World) (T : list (list slot)) (j : nat)
    (p : TableEditRange) (Tr : list slot) :
  valid_grid w T → storeWf w → params w = Some p →
  rowIndex (endPosition p) = Some (Z.of_nat j) → j < length (bodies w) →
  T !! j = Some Tr →
  ∃ w', TableEditCommander.addRowToBottom w = (w', Val tt) ∧
        rowInserted (S j) (toBelow (cellHeap w) Tr)
          (bottomSquares (cellHeap w) Tr) w w' ∧
        params w' = Some p.
Proof.
  intros HT [Hndb Hndc] Hp Hrow Hj HTr.
  pose proof (proj1 (layout_ok_layout _ _ _ _) HT) as HL.
  destruct (cellMatrix_valid _ _ HT) as (m & Hm & Hshows & Hcells).
  set (d := length T - length (bodies w)) in *.
  set (w1 := setCellMatrix m _) in Hm.
  set (w2 := setRowHeap (rowHeap w1 ++ [[]]) w1).
  set (tr := length (rowHeap w1)).
  assert (Hp1 : params w1 = Some p) by done.
  destruct (lookup_lt_is_Some_2 (bodies w) j Hj) as [rid Hrid].
  destruct (lookup_lt_is_Some_2 m j) as [row_ Hrowj].
  { destruct Hshows as [-> _]. by eapply lookup_lt_Some. }
  pose proof Hshows as [_ Hrows].
  destruct (Hrows j row_ Tr Hrowj HTr) as [Hcore Hidx].
  assert (Hcellsj : cells row_ = rid).
  { rewrite (Hcells j row_ Hrowj). unfold rowIdOf. by rewrite Hrid. }
  assert (Hbodies : ∀ rid', rid' ∈ bodies w → rid' < length (rowHeap w)).
  { intros rid' Hin. destruct HL as (_ & _ & Hsome & _).
    rewrite Forall_forall in Hsome. destruct (Hsome rid' Hin) as [x Hx].
    by eapply lookup_lt_Some. }
  assert (Htr : tr < length (rowHeap w2)).
  { subst tr w2. simpl. rewrite !length_app. simpl. lia. }
  assert (Hstart : rowLoop w2 tr [] 0 w2).
  { apply rowLoop_start. subst tr w2. simpl.
    rewrite lookup_app_r by lia. by rewrite Nat.sub_diag. }
  unfold TableEditCommander.addRowToBottom.
  rewrite (bind_Val _ _ _ _ _ Hm), (bind_Val _ _ _ _ _ (getParams_Some _ _ Hp1)).
  cbv zeta. rewrite Hrow.
  rewrite (bind_Val TableEditCommander.newRow _ w1 w2 tr eq_refl).
  unfold Js.atNum. rewrite at_nat, Hrowj.
  rewrite (bind_Val (lift (defined (Some row_))) _ w2 w2 row_ eq_refl).
  set (ps := cellsPosition row_) in *.
  set (contP := λ x : TableCellPosition,
         goesOn (cellHeap w) (core x) ∧ slotColumn (core x) = 0%Z).
  set (botP := λ x : TableCellPosition, ¬ goesOn (cellHeap w) (core x)).
  assert (HK : toBelow (cellHeap w) Tr = cell <$> filter contP ps).
  { unfold toBelow. rewrite <- Hcore, filter_fmap_comm.
    by rewrite <- list_fmap_compose. }
  assert (Hn : bottomSquares (cellHeap w) Tr = length (filter botP ps)).
  { unfold bottomSquares. rewrite <- Hcore, filter_fmap_comm.
    by rewrite length_fmap. }
  match goal with |- ∃ w', (forEach _ ?b ≫= _) _ = _ ∧ _ => set (body := b) end.
  destruct (forEach_inv body ps
    (λ i ws, rowLoop w2 tr (cell <$> filter contP (take i ps))
               (length (filter botP (take i ps))) ws) w2)
    as (w3 & Hloop & Hinv).
  { by rewrite take_0. }
  { intros i x ws Hx Hinv.
    rewrite (take_S_r _ _ _ Hx), !filter_app, fmap_app, length_app.
    assert (Hslot : slotAt T j i = Some (core x)).
    { eapply slotAt_lookup; [exact HTr|].
      by rewrite <- Hcore, list_lookup_fmap, Hx. }
    destruct (slot_cell HL _ _ _ Hslot) as (cl & Hcl & Hi & _).
    change (slotCell (core x)) with (cell x) in Hcl.
    change (slotRow (core x)) with (offsetRow x) in Hi.
    pose proof (lookup_lt_Some _ _ _ Hcl) as Hlt.
    pose proof Hinv as (_ & _ & _ & Hc & _).
    change (cellHeap w2) with (cellHeap w) in Hc.
    assert (Hcur : ∀ c', foldl (λ h k, alter (λ c, setRowspan (rowspan c + 1) c) k h)
                (cellHeap w) (cell <$> filter contP (take i ps)) !! cell x
              = Some c' → cellHeap ws !! cell x = Some c').
    { intros c' Hc'. rewrite Hc. by apply lookup_app_l_Some. }
    subst body. cbv beta.
    destruct (decide (goesOn (cellHeap w) (core x))) as [Hon|Hon].
    - pose proof Hon as Hon'. unfold goesOn in Hon'.
      change (slotCell (core x)) with (cell x) in Hon'.
      change (slotRow (core x)) with (offsetRow x) in Hon'.
      rewrite Hcl in Hon'.
      destruct (foldl_incr_rowspan (cell <$> filter contP (take i ps))
                  (cellHeap w) (cell x) cl Hcl) as (c' & Hc' & Hle).
      rewrite (bind_Val _ _ _ _ _ (getCell_Some ws _ c' (Hcur _ Hc'))).
      rewrite bool_decide_eq_true_2 by lia.
      rewrite (filter_cons_False botP) by (intros Hn'; by apply Hn').
      rewrite filter_nil. simpl length. rewrite Nat.add_0_r.
      destruct (decide (offsetColumn x = 0%Z)) as [Hc0|Hc0].
      + rewrite (filter_cons_True contP) by (by split).
        rewrite filter_nil. eexists. split; [reflexivity|].
        by apply rowLoop_incr.
      + rewrite (filter_cons_False contP) by (intros [_ ?]; done).
        rewrite filter_nil, app_nil_r. by exists ws.
    - assert (Hnotin : cell x ∉ cell <$> filter contP (take i ps)).
      { intros Hin. apply list_elem_of_fmap in Hin as (y & Hky & Hy).
        apply list_elem_of_filter in Hy as [[Hyon _] Hy].
        apply list_elem_of_lookup in Hy as [i' Hi'].
        apply lookup_take_Some in Hi' as [Hi' Hlt'].
        assert (Hsloty : slotAt T j i' = Some (core y)).
        { eapply slotAt_lookup; [exact HTr|].
          by rewrite <- Hcore, list_lookup_fmap, Hi'. }
        destruct (row_squares_same HL Hndc j i' i (core y) (core x)
                    Hsloty Hslot) as [Hsame _]; [done|].
        apply Hon. unfold goesOn in Hyon |- *.
        change (slotCell (core y)) with (cell y) in Hyon.
        change (slotCell (core x)) with (cell x).
        by rewrite Hky, <- Hsame. }
      assert (Hcl' : cellHeap ws !! cell x = Some cl).
      { apply Hcur. by rewrite foldl_alter_notin. }
      rewrite (bind_Val _ _ _ _ _ (getCell_Some ws _ cl Hcl')).
      rewrite (filter_cons_False contP) by (intros [? _]; done).
      rewrite (filter_cons_True botP) by done.
      unfold goesOn in Hon.
      change (slotCell (core x)) with (cell x) in Hon.
      change (slotRow (core x)) with (offsetRow x) in Hon.
      rewrite Hcl in Hon.
      rewrite bool_decide_eq_false_2 by lia.
      rewrite !filter_nil, app_nil_r. simpl length. rewrite Nat.add_1_r.
      by apply rowLoop_push. }
  rewrite firstn_all in Hinv. rewrite <- HK, <- Hn in Hinv.
  rewrite (bind_Val _ _ _ _ _ Hloop).
  rewrite (bind_Val getBodies _ w3 w3 (bodies w3) eq_refl).
  pose proof Hinv as (Hb3 & Hp3 & _).
  change (bodies w2) with (bodies w) in Hb3.
  change (params w2) with (params w) in Hp3.
  rewrite Hcellsj, Hb3, (indexOf_NoDup _ _ _ Hndb Hrid).
  replace (Z.of_nat j + 1)%Z with (Z.of_nat (S j)) by lia.
  eexists. split; [reflexivity|]. split; [|by rewrite <- Hp, <- Hp3].
  apply (rowLoop_inserted w d m (S j) _ _ w3); try done.
  - by eapply toBelow_NoDup.
  - simpl. by rewrite Hb3, splice_insert_nat.
Qed.

Lemma addRowToBottom_store_witness :
  ∃ w', TableEditCommander.addRowToBottom
          (Ex.world Ex.cells_3x3 Ex.rows_3x3 [0; 1; 2]
             (Some (SamePosition (Ex.at_ 0 0 0)))) = (w', Val tt) ∧
        cellHeap w' !! 0 = Some (mkCell 1 3 0).
Proof.
  destruct (addRowToBottom_store
              (Ex.world Ex.cells_3x3 Ex.rows_3x3 [0; 1; 2]
                 (Some (SamePosition (Ex.at_ 0 0 0))))
              Ex.tiling_3x3 0 (SamePosition (Ex.at_ 0 0 0))
              [(0, 0%Z, 0%Z); (1, 0%Z, 0%Z); (1, 0%Z, 1%Z)])
    as (w' & Hrun & (tr & _ & _ & _ & _ & Hcells & _) & _).
  - reflexivity.
  - apply (bool_decide_unpack _). vm_compute. exact I.
  - reflexivity.
  - reflexivity.
  - simpl. lia.
  - reflexivity.
  - exists w'. split; [exact Hrun|]. exact (Hcells 0 (mkCell 1 2 0) eq_refl).
Defined.
(** ** Deleting a row of a grid with spans *)

Lemma insertAt_perm {A} (s : nat) (x : A) (l : list A) :
  insertAt s x l ≡ₚ l ++ [x].
Proof.
  unfold insertAt. rewrite <- Permutation_middle, take_drop.
  apply Permutation_cons_append.
Qed.

Lemma rowOf_cellMatrix w d m rid :
  rowOf (setCellMatrix m (setRowHeap (rowHeap w ++ replicate d []) w)) rid
  = rowOf w rid.
Proof.
  unfold rowOf. simpl.
  destruct (decide (rid < length (rowHeap w))) as [Hlt|Hge].
  - by rewrite lookup_app_l.
  - rewrite lookup_app_r by lia. rewrite (lookup_ge_None_2 (rowHeap w)) by lia.
    destruct (replicate d [] !! _) as [x|] eqn:Hx; [|done].
    apply lookup_replicate in Hx as [-> _]. done.
Qed.

(** *** The loop over the row that goes away *)

Lemma delLoop_start w0 rid1 : delLoop w0 rid1 [] [] w0.
Proof.
  unfold delLoop. simpl. rewrite !app_nil_r. done.
Qed.

Lemma delLoop_decr w0 rid1 Ks Ts ws k :
  delLoop w0 rid1 Ks Ts ws → k < length (cellHeap w0) →
  delLoop w0 rid1 (Ks ++ [k]) Ts
    (setCellHeap (alter (λ c, setRowspan (rowspan c - 1) c) k (cellHeap ws)) ws).
Proof.
  intros (Hb & Hp & Hf & Hc & Hl & Hr & Hperm) Hk. unfold delLoop. simpl.
  repeat (split; [done|]). split; [|done].
  rewrite Hc, foldl_app. simpl.
  by rewrite alter_app_l by (by rewrite foldl_alter_length).
Qed.

Lemma delLoop_replace w0 rid1 Ks Ts ws k c np :
  delLoop w0 rid1 Ks Ts ws → cellHeap w0 !! k = Some c →
  row np = rid1 → rid1 < length (rowHeap w0) →
  ∃ ws',
    TableEditCommander.placeBelow (length (cellHeap ws)) np
      (setCellHeap
         (cellHeap ws ++
            [mkCell (colspan c) (rowspan c - 1) (length (fragmentHeap ws))])
         (setFragmentHeap (fragmentHeap ws ++ [[BrComponent]]) ws))
    = (ws', Val tt) ∧
    delLoop w0 rid1 Ks (Ts ++ [k]) ws'.
Proof.
  intros (Hb & Hp & Hf & Hc & Hl & Hr & Hperm) Hk Hnp Hrid.
  set (wc := setCellHeap _ _).
  destruct (lookup_lt_is_Some_2 (rowHeap ws) rid1) as [rr Hrr]; [lia|].
  assert (Hrow : ∃ s, TableEditCommander.placeBelow (length (cellHeap ws)) np wc
            = (setRowHeap (<[rid1 := insertAt s (length (cellHeap ws)) rr]>
                             (rowHeap wc)) wc, Val tt)).
  { unfold TableEditCommander.placeBelow. rewrite Hnp.
    rewrite (bind_Val _ _ wc wc rr (getRow_Some wc _ _ Hrr)).
    destruct (afterCell np) as [after|].
    - destruct (splice_one rr (Js.indexOf rr after) (length (cellHeap ws)))
        as [s Hs].
      exists s. by rewrite Hs.
    - exists (length rr). unfold insertAt. by rewrite firstn_all, drop_all. }
  destruct Hrow as [s Hrow]. eexists. split; [exact Hrow|].
  unfold delLoop. simpl. rewrite length_app. simpl length.
  split; [done|]. split; [done|]. split; [|split; [|split; [|split]]].
  - rewrite Hf, <- app_assoc. f_equal. rewrite Nat.add_1_r.
    change ([BrComponent] :: replicate (length Ts) [BrComponent])
      with (replicate (S (length Ts)) [BrComponent]).
    by rewrite replicate_S_end.
  - rewrite Hc, imap_app, <- app_assoc. f_equal. f_equal. simpl.
    unfold replacement. rewrite Hk, Hf, length_app, length_replicate.
    by rewrite Nat.add_0_r.
  - by rewrite length_insert.
  - intros rid Hne. rewrite list_lookup_insert_ne by done. by apply Hr.
  - unfold rowOf at 1. simpl. rewrite list_lookup_insert_eq by lia. simpl.
    rewrite insertAt_perm, Nat.add_1_r, seq_S, app_assoc.
    apply Permutation_app; [|].
    + by rewrite <- Hperm, (rowOf_Some _ _ _ Hrr).
    + rewrite Hc, length_app, foldl_alter_length, length_imap. done.
Qed.

(** The row out of [bodies], from the state at the end of the loop. *)
Lemma delLoop_removed w d m j rid1 Ks Ts w3 w' :
  delLoop (setCellMatrix m (setRowHeap (rowHeap w ++ replicate d []) w))
    rid1 Ks Ts w3 →
  NoDup Ks →
  bodies w' = delete j (bodies w) →
  cellHeap w' = cellHeap w3 → rowHeap w' = rowHeap w3 →
  fragmentHeap w' = fragmentHeap w3 →
  rowRemoved j rid1 Ks Ts w w'.
Proof.
  intros (Hb & Hp & Hf & Hc & Hl & Hr & Hperm) HK Hb' Hc' Hr' Hf'.
  simpl in Hb, Hp, Hf, Hc, Hl, Hr.
  split; [done|]. split; [|split; [|split; [|split; [|split]]]].
  - intros k c Hk. rewrite Hc', Hc.
    rewrite lookup_app_l
      by (rewrite foldl_alter_length; by eapply lookup_lt_Some).
    destruct (decide (k ∈ Ks)) as [Hin|Hin].
    + by rewrite foldl_alter_in, Hk.
    + by rewrite foldl_alter_notin.
  - by rewrite Hc', Hc, length_app, foldl_alter_length, length_imap.
  - intros i k c Hi Hk. rewrite Hc', Hc.
    rewrite lookup_app_r by (rewrite foldl_alter_length; lia).
    rewrite foldl_alter_length.
    replace (length (cellHeap w) + i - length (cellHeap w)) with i by lia.
    rewrite list_lookup_imap, Hi. simpl. unfold replacement. by rewrite Hk.
  - by rewrite Hf', Hf.
  - intros rid Hne Hlt. rewrite Hr', (Hr rid Hne). by apply lookup_app_l.
  - rewrite rowOf_cellMatrix in Hperm. rewrite <- Hperm.
    unfold rowOf. by rewrite Hr'.
Qed.

Section LeftColumn.
Context {ch : list TableCell} {rh : list (list CellId)} {bodies : list RowId}.
Context {T : list (list slot)}.
Hypothesis HL : layout ch rh bodies T.
Hypothesis Hnd : NoDup (concat ((λ rid, default [] (rh !! rid)) <$> bodies)).

(** The cells of the left-column squares of a row are distinct. *)
Lemma leftColumn_NoDup j Tr (P : slot → Prop) `{!∀ e, Decision (P e)} :
  T !! j = Some Tr → (∀ e, P e → slotColumn e = 0%Z) →
  NoDup (slotCell <$> filter P Tr).
Proof using HL Hnd.
  intros HTr HP. apply NoDup_fmap_filter.
  intros i i' x y Hi Hi' Hx Hy Hk.
  apply (row_squares_same HL Hnd j i i' x y); try done.
  - by eapply slotAt_lookup.
  - by eapply slotAt_lookup.
  - by rewrite (HP x Hx), (HP y Hy).
Qed.

Lemma left_square_fresh j Tr (ps : list TableCellPosition)
    (P : TableCellPosition → Prop) `{!∀ x, Decision (P x)} i x :
  T !! j = Some Tr → core <$> ps = Tr → ps !! i = Some x →
  offsetColumn x = 0%Z → (∀ y, P y → offsetColumn y = 0%Z) →
  cell x ∉ cell <$> filter P (take i ps).
Proof using HL Hnd.
  intros HTr Hcore Hx Hc0 HP Hin.
  apply list_elem_of_fmap in Hin as (y & Hky & Hy).
  apply list_elem_of_filter in Hy as [HPy Hy].
  apply list_elem_of_lookup in Hy as [i' Hi'].
  apply lookup_take_Some in Hi' as [Hi' Hlt].
  assert (Hslot : slotAt T j i = Some (core x)).
  { eapply slotAt_lookup; [exact HTr|].
    by rewrite <- Hcore, list_lookup_fmap, Hx. }
  assert (Hsloty : slotAt T j i' = Some (core y)).
  { eapply slotAt_lookup; [exact HTr|].
    by rewrite <- Hcore, list_lookup_fmap, Hi'. }
  destruct (row_squares_same HL Hnd j i' i (core y) (core x) Hsloty Hslot)
    as [_ Hsame]; [done|].
  assert (i' = i); [|lia]. apply Hsame.
  change (offsetColumn y = offsetColumn x). by rewrite Hc0, (HP y HPy).
Qed.

(** A cell that begins in a row has no other left-column square there. *)
Lemma tall_not_lowered j Tr k :
  T !! j = Some Tr → k ∈ tallIn ch Tr → k ∉ lowered ch Tr.
Proof using HL Hnd.
  intros HTr Ht Hl. unfold tallIn in Ht. unfold lowered in Hl.
  apply list_elem_of_fmap in Ht as (e & -> & He).
  apply list_elem_of_filter in He as [[Ha Htall] He].
  apply list_elem_of_fmap in Hl as (e' & Hk & He').
  apply list_elem_of_filter in He' as [[Hc0 Hn] He'].
  apply list_elem_of_lookup in He as [i Hi].
  apply list_elem_of_lookup in He' as [i' Hi'].
  destruct (row_squares_same HL Hnd j i i' e e'
              (slotAt_lookup _ _ _ _ _ HTr Hi)
              (slotAt_lookup _ _ _ _ _ HTr Hi') Hk) as [_ Hsame].
  destruct Ha as [Hr0 Hc0'].
  assert (i = i') as <- by (apply Hsame; by rewrite Hc0, Hc0').
  assert (e' = e) as -> by congruence.
  apply Hn. by split.
Qed.

Lemma tall_not_fromAbove j Tr k :
  T !! j = Some Tr → k ∈ tallIn ch Tr → k ∉ fromAbove Tr.
Proof using HL Hnd.
  intros HTr Ht Hl. unfold tallIn in Ht. unfold fromAbove in Hl.
  apply list_elem_of_fmap in Ht as (e & -> & He).
  apply list_elem_of_filter in He as [[Ha Htall] He].
  apply list_elem_of_fmap in Hl as (e' & Hk & He').
  apply list_elem_of_filter in He' as [[Hpos Hc0] He'].
  apply list_elem_of_lookup in He as [i Hi].
  apply list_elem_of_lookup in He' as [i' Hi'].
  destruct (row_squares_same HL Hnd j i i' e e'
              (slotAt_lookup _ _ _ _ _ HTr Hi)
              (slotAt_lookup _ _ _ _ _ HTr Hi') Hk) as [Hsame _].
  destruct Ha as [Hr0 _]. lia.
Qed.

End LeftColumn.

(** The matrix entry under a square whose cell goes on below. *)
Lemma position_below w T m j i e cl :
  valid_grid w T → shows m T →
  (∀ r row_, m !! r = Some row_ →
     cells row_ = rowIdOf (rowHeap w) (bodies w) r) →
  slotAt T j i = Some e → cellHeap w !! slotCell e = Some cl →
  (slotRow e + 1 < rowspan cl)%Z →
  ∃ row1 np, m !! S j = Some row1 ∧ cellsPosition row1 !! i = Some np ∧
    row np = rowIdOf (rowHeap w) (bodies w) (S j) ∧
    rowIdOf (rowHeap w) (bodies w) (S j)
      < length (rowHeap w) + (length T - length (bodies w)).
Proof.
  intros HT Hm Hcells He Hcl Hon.
  pose proof (proj1 (layout_ok_layout _ _ _ _) HT) as HL.
  pose proof (slot_down HL _ _ _ _ He Hcl Hon) as Hdown.
  destruct (slotAt_lt HL _ _ _ Hdown) as [Hr _].
  destruct (shows_slot Hm _ _ _ Hdown) as (np & Hnp & _).
  unfold entry in Hnp. destruct (m !! S j) as [row1|] eqn:Hrow1; [|done].
  exists row1, np. split; [done|]. split; [done|].
  destruct (lookup_lt_is_Some_2 T (S j) Hr) as [Tr1 HTr1].
  destruct Hm as [Hlen Hrows].
  destruct (Hrows (S j) row1 Tr1 Hrow1 HTr1) as [_ Hidx].
  destruct (Hidx i np Hnp) as (_ & _ & Hrp).
  split; [by rewrite Hrp, (Hcells _ _ Hrow1)|].
  unfold rowIdOf. destruct (bodies w !! S j) as [rid|] eqn:Hb.
  - destruct HL as (_ & _ & Hsome & _). rewrite Forall_forall in Hsome.
    pose proof (list_elem_of_lookup_2 _ _ _ Hb) as Hin.
    destruct (Hsome rid Hin) as [x Hx]. apply lookup_lt_Some in Hx. lia.
  - apply lookup_ge_None in Hb. lia.
Qed.

(** On a valid grid that holds each row and each cell once,
    [deleteTopRow] with the start of the edit range in row [j + 1], where
    row [j] is a row of [bodies], returns normally and takes row [j] out
    of [bodies]. A cell that begins in row [j] and spans more rows is not
    changed: a new cell with one row less, as many columns and a new
    fragment holding one [BrComponent] is made for it and put into the row
    array of the row below. Every other cell with a square in row [j]
    spans one row less. Nothing else of the store changes, and the row
    index of the start of the range goes down by one, as does the one of
    the end when it is of another cell. *)
Theorem deleteTopRow_store (w : World) (T : list (list slot)) (j : nat)
    (p : TableEditRange) (Tr : list slot) :
  valid_grid w T → storeWf w → params w = Some p →
  rowIndex (startPosition p) = Some (Z.of_nat (S j)) →
  j < length (bodies w) → T !! j = Some Tr →
  ∃ w', TableEditCommander.deleteTopRow w = (w', Val tt) ∧
        rowRemoved j (rowIdOf (rowHeap w) (bodies w) (S j))
          (lowered (cellHeap w) Tr) (tallIn (cellHeap w) Tr) w w' ∧
        (∀ k, k ∈ tallIn (cellHeap w) Tr → k ∉ lowered (cellHeap w) Tr) ∧
        params w' = Some (shifted TableEditCommander.rowIndex_decr p).
Proof.
  intros HT [Hndb Hndc] Hp Hrow Hj HTr.
  pose proof (proj1 (layout_ok_layout _ _ _ _) HT) as HL.
  destruct (cellMatrix_valid _ _ HT) as (m & Hm & Hshows & Hcells).
  set (d := length T - length (bodies w)) in *.
  set (w1 := setCellMatrix m _) in Hm.
  set (rid1 := rowIdOf (rowHeap w) (bodies w) (S j)).
  assert (Hp1 : params w1 = Some p) by done.
  destruct (lookup_lt_is_Some_2 (bodies w) j Hj) as [rid Hrid].
  destruct (lookup_lt_is_Some_2 m j) as [row_ Hrowj].
  { destruct Hshows as [-> _]. by eapply lookup_lt_Some. }
  pose proof Hshows as [_ Hrows].
  destruct (Hrows j row_ Tr Hrowj HTr) as [Hcore Hidx].
  assert (Hcellsj : cells row_ = rid).
  { rewrite (Hcells j row_ Hrowj). unfold rowIdOf. by rewrite Hrid. }
  unfold TableEditCommander.deleteTopRow.
  rewrite (bind_Val _ _ _ _ _ Hm), (bind_Val _ _ _ _ _ (getParams_Some _ _ Hp1)).
  cbv zeta. rewrite Hrow. rewrite decide_False by (intros [=]; lia).
  replace (Js.toNumber (Some (Z.of_nat (S j))) - 1)%Z with (Z.of_nat j)
    by (unfold Js.toNumber; simpl; lia).
  rewrite at_nat, Hrowj.
  rewrite (bind_Val (lift (defined (Some row_))) _ w1 w1 row_ eq_refl).
  set (ps := cellsPosition row_) in *.
  set (tallP := λ x : TableCellPosition,
         anchor (core x) ∧ tall (cellHeap w) (core x)).
  set (lowP := λ x : TableCellPosition,
         slotColumn (core x) = 0%Z ∧
         ¬ (anchor (core x) ∧ tall (cellHeap w) (core x))).
  assert (HKs : lowered (cellHeap w) Tr = cell <$> filter lowP ps).
  { unfold lowered. rewrite <- Hcore, filter_fmap_comm.
    by rewrite <- list_fmap_compose. }
  assert (HTs : tallIn (cellHeap w) Tr = cell <$> filter tallP ps).
  { unfold tallIn. rewrite <- Hcore, filter_fmap_comm.
    by rewrite <- list_fmap_compose. }
  match goal with |- ∃ w', (forEach _ ?b ≫= _) _ = _ ∧ _ => set (body := b) end.
  destruct (forEach_inv body (imap pair ps)
    (λ i ws, delLoop w1 rid1 (cell <$> filter lowP (take i ps))
               (cell <$> filter tallP (take i ps)) ws) w1)
    as (w3 & Hloop & Hinv).
  { rewrite take_0. apply delLoop_start. }
  { intros i [i' x] ws Hx Hinv. rewrite list_lookup_imap in Hx.
    destruct (ps !! i) as [x'|] eqn:Hxi; [|done]. injection Hx as <- <-.
    rewrite (take_S_r _ _ _ Hxi), !filter_app, !fmap_app.
    assert (Hslot : slotAt T j i = Some (core x')).
    { eapply slotAt_lookup; [exact HTr|].
      by rewrite <- Hcore, list_lookup_fmap, Hxi. }
    destruct (slot_cell HL _ _ _ Hslot) as (cl & Hcl & Hi & _).
    change (slotCell (core x')) with (cell x') in Hcl.
    change (slotRow (core x')) with (offsetRow x') in Hi.
    pose proof (lookup_lt_Some _ _ _ Hcl) as Hlt.
    pose proof Hinv as (_ & _ & _ & Hc & _).
    change (cellHeap w1) with (cellHeap w) in Hc.
    subst body. cbv beta iota.
    destruct (decide (offsetColumn x' = 0%Z)) as [Hc0|Hc0].
    - assert (Hcur : cellHeap ws !! cell x' = Some cl).
      { rewrite Hc. apply lookup_app_l_Some.
        rewrite foldl_alter_notin; [done|].
        apply (left_square_fresh HL Hndc j Tr ps lowP i x'); try done.
        by intros y [? _]. }
      rewrite (bind_Val _ _ _ _ _ (getCell_Some ws _ cl Hcur)).
      assert (Htall : tall (cellHeap w) (core x') ↔ (1 < rowspan cl)%Z).
      { unfold tall. change (slotCell (core x')) with (cell x').
        by rewrite Hcl. }
      destruct (decide (offsetRow x' = 0%Z ∧ (1 < rowspan cl)%Z))
        as [[Hr0 Hrs]|Hnt].
      + rewrite !bool_decide_eq_true_2 by (done || lia).
        change (true && true) with true. cbv iota.
        rewrite (filter_cons_True tallP) by (split; [by split|by apply Htall]).
        rewrite (filter_cons_False lowP)
          by (intros [_ Hn]; apply Hn; split; [by split|by apply Htall]).
        rewrite !filter_nil, app_nil_r.
        destruct (position_below w T m j i (core x') cl HT Hshows Hcells
                    Hslot Hcl) as (row1 & np & Hrow1 & Hnp & Hrnp & Hrid1).
        { change (slotRow (core x')) with (offsetRow x'). lia. }
        rewrite (bind_Val (TableEditCommander.createCell (rowspan cl - 1)
                             (colspan cl)) _ ws
                   (setCellHeap
                      (cellHeap ws ++
                         [mkCell (colspan cl) (rowspan cl - 1)
                            (length (fragmentHeap ws))])
                      (setFragmentHeap (fragmentHeap ws ++ [[BrComponent]]) ws))
                   (length (cellHeap ws)) eq_refl).
        unfold Js.atNum. rewrite at_nat, Hrow1.
        set (wc := setCellHeap _ _).
        rewrite (bind_Val (lift (defined (Some row1))) _ wc wc row1 eq_refl).
        rewrite Hnp.
        rewrite (bind_Val (lift (defined (Some np))) _ wc wc np eq_refl).
        apply (delLoop_replace w1 rid1 _ _ ws (cell x') cl np); try done.
        subst w1. simpl. rewrite length_app, length_replicate. exact Hrid1.
      + assert (Hb : bool_decide (offsetRow x' = 0%Z)
                     && bool_decide (rowspan cl > 1)%Z = false).
        { apply andb_false_iff.
          destruct (decide (offsetRow x' = 0%Z)) as [Hr0|Hr0].
          - right. apply bool_decide_eq_false_2. lia.
          - left. by apply bool_decide_eq_false_2. }
        rewrite Hb.
        rewrite (filter_cons_False tallP)
          by (intros [[Ha _] Ht]; apply Hnt; split; [done|by apply Htall]).
        rewrite (filter_cons_True lowP).
        2: { split; [done|]. intros [[Ha _] Ht]. apply Hnt.
             split; [done|by apply Htall]. }
        rewrite !filter_nil, app_nil_r.
        eexists. split; [reflexivity|]. by apply delLoop_decr.
    - rewrite (filter_cons_False tallP) by (intros [[_ ?] _]; done).
      rewrite (filter_cons_False lowP) by (intros [? _]; done).
      rewrite !filter_nil, !app_nil_r. by exists ws. }
  rewrite length_imap, firstn_all in Hinv. rewrite <- HKs, <- HTs in Hinv.
  rewrite (bind_Val _ _ _ _ _ Hloop).
  rewrite (bind_Val getBodies _ w3 w3 (bodies w3) eq_refl).
  pose proof Hinv as (Hb3 & Hp3 & _).
  change (bodies w1) with (bodies w) in Hb3.
  change (params w1) with (params w) in Hp3.
  rewrite Hcellsj, Hb3, (indexOf_NoDup _ _ _ Hndb Hrid).
  set (w4 := setBodies (Js.splice (bodies w3) (Z.of_nat j) 1 []) w3).
  rewrite (bind_Val (TableEditCommander.spliceBodies (Z.of_nat j) 1 [])
             _ w3 w4 tt eq_refl).
  assert (Hp4 : params w4 = Some p) by (by rewrite <- Hp, <- Hp3).
  destruct (shiftRange_Some TableEditCommander.rowIndex_decr w4 p Hp4)
    as (w5 & Hshift & Hp5 & Hb5 & Hc5 & Hf5 & Hr5).
  exists w5. split; [done|]. split; [|split; [|done]].
  - apply (delLoop_removed w d m j rid1 _ _ w3); try done.
    + apply (leftColumn_NoDup HL Hndc j Tr); [done|]. by intros e [? _].
    + rewrite Hb5. subst w4. simpl. by rewrite Hb3, splice_delete_nat.
  - intros k. by apply (tall_not_lowered HL Hndc j Tr).
Qed.

Lemma deleteTopRow_store_witness :
  ∃ w', TableEditCommander.deleteTopRow
          (Ex.world Ex.cells_3x3 Ex.rows_3x3 [0; 1; 2]
             (Some (SamePosition (Ex.at_ 2 1 1)))) = (w', Val tt) ∧
        bodies w' = [1; 2] ∧
        cellHeap w' !! 0 = Some (mkCell 1 2 0) ∧
        cellHeap w' !! 5 = Some (mkCell 1 1 5).
Proof.
  destruct (deleteTopRow_store
              (Ex.world Ex.cells_3x3 Ex.rows_3x3 [0; 1; 2]
                 (Some (SamePosition (Ex.at_ 2 1 1))))
              Ex.tiling_3x3 0 (SamePosition (Ex.at_ 2 1 1))
              [(0, 0%Z, 0%Z); (1, 0%Z, 0%Z); (1, 0%Z, 1%Z)])
    as (w' & Hrun & (Hb & Hcells & _ & Hnew & _) & _).
  - reflexivity.
  - apply (bool_decide_unpack _). vm_compute. exact I.
  - reflexivity.
  - reflexivity.
  - simpl. lia.
  - reflexivity.
  - exists w'. split; [exact Hrun|]. split; [exact Hb|]. split.
    + exact (Hcells 0 (mkCell 1 2 0) eq_refl).
    + exact (Hnew 0 0 (mkCell 1 2 0) eq_refl eq_refl).
Defined.

(** On a valid grid that holds each row and each cell once,
    [deleteBottomRow] with the end of the edit range in row [j], where
    row [j + 1] is a row of [bodies], returns normally and takes row
    [j + 1] out of [bodies]. A cell that begins in row [j + 1] and spans
    more rows is not changed: a new cell with one row less, as many
    columns and a new fragment holding one [BrComponent] is made for it
    and put into the row array of the row below. Every cell that comes
    into row [j + 1] from above spans one row less. Nothing else of the
    store changes, nor does the edit range. *)
Theorem deleteBottomRow_store (w : World) (T : list (list slot)) (j : nat)
    (p : TableEditRange) (Tr : list slot) :
  valid_grid w T → storeWf w → params w = Some p →
  rowIndex (endPosition p) = Some (Z.of_nat j) →
  S j < length (bodies w) → T !! S j = Some Tr →
  ∃ w', TableEditCommander.deleteBottomRow w = (w', Val tt) ∧
        rowRemoved (S j) (rowIdOf (rowHeap w) (bodies w) (S (S j)))
          (fromAbove Tr) (tallIn (cellHeap w) Tr) w w' ∧
        (∀ k, k ∈ tallIn (cellHeap w) Tr → k ∉ fromAbove Tr) ∧
        params w' = Some p.
Proof.
  intros HT [Hndb Hndc] Hp Hrow Hj HTr.
  pose proof (proj1 (layout_ok_layout _ _ _ _) HT) as HL.
  destruct (cellMatrix_valid _ _ HT) as (m & Hm & Hshows & Hcells).
  set (d := length T - length (bodies w)) in *.
  set (w1 := setCellMatrix m _) in Hm.
  set (rid1 := rowIdOf (rowHeap w) (bodies w) (S (S j))).
  assert (Hp1 : params w1 = Some p) by done.
  destruct (lookup_lt_is_Some_2 (bodies w) (S j) Hj) as [rid Hrid].
  destruct (lookup_lt_is_Some_2 m (S j)) as [row_ Hrowj].
  { destruct Hshows as [-> _]. by eapply lookup_lt_Some. }
  pose proof Hshows as [HlenM Hrows].
  destruct (Hrows (S j) row_ Tr Hrowj HTr) as [Hcore Hidx].
  assert (Hcellsj : cells row_ = rid).
  { rewrite (Hcells (S j) row_ Hrowj). unfold rowIdOf. by rewrite Hrid. }
  unfold TableEditCommander.deleteBottomRow.
  rewrite (bind_Val _ _ _ _ _ Hm), (bind_Val _ _ _ _ _ (getParams_Some _ _ Hp1)).
  cbv zeta. rewrite Hrow.
  rewrite decide_False.
  2: { apply lookup_lt_Some in Hrowj. intros [=]. lia. }
  replace (Js.toNumber (Some (Z.of_nat j)) + 1)%Z with (Z.of_nat (S j))
    by (unfold Js.toNumber; simpl; lia).
  replace (Js.toNumber (Some (Z.of_nat j)) + 2)%Z with (Z.of_nat (S (S j)))
    by (unfold Js.toNumber; simpl; lia).
  rewrite (at_nat m (S j)), Hrowj.
  rewrite (bind_Val (lift (defined (Some row_))) _ w1 w1 row_ eq_refl).
  set (ps := cellsPosition row_) in *.
  set (tallP := λ x : TableCellPosition,
         anchor (core x) ∧ tall (cellHeap w) (core x)).
  set (crossP := λ x : TableCellPosition,
         (0 < slotRow (core x))%Z ∧ slotColumn (core x) = 0%Z).
  assert (HKs : fromAbove Tr = cell <$> filter crossP ps).
  { unfold fromAbove. rewrite <- Hcore, filter_fmap_comm.
    by rewrite <- list_fmap_compose. }
  assert (HTs : tallIn (cellHeap w) Tr = cell <$> filter tallP ps).
  { unfold tallIn. rewrite <- Hcore, filter_fmap_comm.
    by rewrite <- list_fmap_compose. }
  match goal with |- ∃ w', (forEach _ ?b ≫= _) _ = _ ∧ _ => set (body := b) end.
  destruct (forEach_inv body (imap pair ps)
    (λ i ws, delLoop w1 rid1 (cell <$> filter crossP (take i ps))
               (cell <$> filter tallP (take i ps)) ws) w1)
    as (w3 & Hloop & Hinv).
  { rewrite take_0. apply delLoop_start. }
  { intros i [i' x] ws Hx Hinv. rewrite list_lookup_imap in Hx.
    destruct (ps !! i) as [x'|] eqn:Hxi; [|done]. injection Hx as <- <-.
    rewrite (take_S_r _ _ _ Hxi), !filter_app, !fmap_app.
    assert (Hslot : slotAt T (S j) i = Some (core x')).
    { eapply slotAt_lookup; [exact HTr|].
      by rewrite <- Hcore, list_lookup_fmap, Hxi. }
    destruct (slot_cell HL _ _ _ Hslot) as (cl & Hcl & Hi & _).
    change (slotCell (core x')) with (cell x') in Hcl.
    change (slotRow (core x')) with (offsetRow x') in Hi.
    pose proof (lookup_lt_Some _ _ _ Hcl) as Hlt.
    pose proof Hinv as (_ & _ & _ & Hc & _).
    change (cellHeap w1) with (cellHeap w) in Hc.
    subst body. cbv beta iota.
    destruct (decide (offsetColumn x' = 0%Z)) as [Hc0|Hc0].
    - destruct (decide (0 < offsetRow x')%Z) as [Hpos|Hpos].
      + rewrite bool_decide_eq_true_2 by lia.
        rewrite (filter_cons_False tallP)
          by (intros [[Ha _] _]; change (offsetRow x' = 0%Z) in Ha; lia).
        rewrite (filter_cons_True crossP) by (by split).
        rewrite !filter_nil, app_nil_r.
        eexists. split; [reflexivity|]. by apply delLoop_decr.
      + rewrite bool_decide_eq_false_2 by lia.
        rewrite decide_True by lia.
        rewrite (filter_cons_False crossP) by (intros [? _]; done).
        assert (Hcur : cellHeap ws !! cell x' = Some cl).
        { rewrite Hc. apply lookup_app_l_Some.
          rewrite foldl_alter_notin; [done|].
          apply (left_square_fresh HL Hndc (S j) Tr ps crossP i x');
            try done.
          by intros y [_ ?]. }
        rewrite (bind_Val _ _ _ _ _ (getCell_Some ws _ cl Hcur)).
        assert (Htall : tall (cellHeap w) (core x') ↔ (1 < rowspan cl)%Z).
        { unfold tall. change (slotCell (core x')) with (cell x').
          by rewrite Hcl. }
        destruct (decide (1 < rowspan cl)%Z) as [Hrs|Hrs].
        * rewrite bool_decide_eq_true_2 by lia.
          rewrite (filter_cons_True tallP).
          2: { split; [|by apply Htall]. split; [|done].
               change (offsetRow x' = 0%Z). lia. }
          rewrite !filter_nil, app_nil_r.
          destruct (position_below w T m (S j) i (core x') cl HT Hshows
                      Hcells Hslot Hcl)
            as (row1 & np & Hrow1 & Hnp & Hrnp & Hrid1).
          { change (slotRow (core x')) with (offsetRow x'). lia. }
          rewrite at_nat, Hrow1.
          rewrite (bind_Val (lift (defined (Some row1))) _ ws ws row1 eq_refl).
          cbv zeta.
          rewrite (bind_Val (TableEditCommander.createCell (rowspan cl - 1)
                               (colspan cl)) _ ws
                     (setCellHeap
                        (cellHeap ws ++
                           [mkCell (colspan cl) (rowspan cl - 1)
                              (length (fragmentHeap ws))])
                        (setFragmentHeap
                           (fragmentHeap ws ++ [[BrComponent]]) ws))
                     (length (cellHeap ws)) eq_refl).
          set (wc := setCellHeap _ _).
          rewrite Hnp.
          rewrite (bind_Val (lift (defined (Some np))) _ wc wc np eq_refl).
          apply (delLoop_replace w1 rid1 _ _ ws (cell x') cl np); try done.
          subst w1. simpl. rewrite length_app, length_replicate. exact Hrid1.
        * rewrite bool_decide_eq_false_2 by lia.
          rewrite (filter_cons_False tallP)
            by (intros [_ Ht]; by apply Hrs, Htall).
          rewrite !filter_nil, !app_nil_r. by exists ws.
    - rewrite (filter_cons_False tallP) by (intros [[_ ?] _]; done).
      rewrite (filter_cons_False crossP) by (intros [_ ?]; done).
      rewrite !filter_nil, !app_nil_r. by exists ws. }
  rewrite length_imap, firstn_all in Hinv. rewrite <- HKs, <- HTs in Hinv.
  rewrite (bind_Val _ _ _ _ _ Hloop).
  rewrite (bind_Val getBodies _ w3 w3 (bodies w3) eq_refl).
  pose proof Hinv as (Hb3 & Hp3 & _).
  change (bodies w1) with (bodies w) in Hb3.
  change (params w1) with (params w) in Hp3.
  rewrite Hcellsj, Hb3, (indexOf_NoDup _ _ _ Hndb Hrid).
  eexists. split; [reflexivity|].
  split; [|split; [|by rewrite <- Hp, <- Hp3]].
  - apply (delLoop_removed w d m (S j) rid1 _ _ w3); try done.
    + by eapply fromAbove_NoDup.
    + simpl. by rewrite Hb3, splice_delete_nat.
  - intros k. by apply (tall_not_fromAbove HL Hndc (S j) Tr).
Qed.

Lemma deleteBottomRow_store_witness :
  ∃ w', TableEditCommander.deleteBottomRow
          (Ex.world Ex.cells_3x3 Ex.rows_3x3 [0; 1; 2]
             (Some (SamePosition (Ex.at_ 1 0 1)))) = (w', Val tt) ∧
        bodies w' = [0; 2] ∧
        cellHeap w' !! 0 = Some (mkCell 1 1 0) ∧
        cellHeap w' !! 5 = Some (mkCell 1 1 5).
Proof.
  destruct (deleteBottomRow_store
              (Ex.world Ex.cells_3x3 Ex.rows_3x3 [0; 1; 2]
                 (Some (SamePosition (Ex.at_ 1 0 1))))
              Ex.tiling_3x3 0 (SamePosition (Ex.at_ 1 0 1))
              [(0, 1%Z, 0%Z); (2, 0%Z, 0%Z); (3, 0%Z, 0%Z)])
    as (w' & Hrun & (Hb & Hcells & _ & Hnew & _) & _).
  - reflexivity.
  - apply (bool_decide_unpack _). vm_compute. exact I.
  - reflexivity.
  - reflexivity.
  - simpl. lia.
  - reflexivity.
  - exists w'. split; [exact Hrun|]. split; [exact Hb|]. split.
    + exact (Hcells 0 (mkCell 1 2 0) eq_refl).
    + exact (Hnew 0 3 (mkCell 1 2 3) eq_refl eq_refl).
Defined.
